(** * A shallow embedding of the VNS solver for the capacitated vehicle
      routing problem (CVRP)

    The development follows the Python sources file by file:
    [utils.py] (cost model), [neighborhoods.py] (N1..N6), [vnd.py],
    [shaking.py], [construction.py] and [vns.py].

    Modelling conventions.
    - A route is a [list nat] (node indices, depot = 0); a solution is a
      list of routes, in the order the Python list holds them.
    - Demands and the capacity are Python integers: [Z].
    - Distances and costs are Python floats.  The definitions of this
      first part compute them with exact rationals [Q]; every comparison of
      the source is kept, with the same constants (0.001 and 1e-6).  The
      concrete runs on the small instance further down only use dyadic
      coordinates on one axis, for which double precision arithmetic is
      exact, so that the rational model and the floats agree there.  The
      module [Num] gives the cost functions, the six operators and the
      descent once more over an arithmetic that is a parameter, with the
      rationals and double precision as instances: what holds whatever the
      rounding is proved there, and the runs in which rounding shows are
      made there.
    - Python indexing [l[i]] is [nth i l d]: all indices the code computes
      are in range on well-formed inputs (Python would raise IndexError
      otherwise).
    - [while] loops whose termination is not syntactically evident take a
      [fuel] argument and return [None] when it runs out.
    - The global [random] module is a list of draws that is consumed from
      the front (an exhausted list yields 0); the wall clock is a function
      giving the elapsed time read at each test of the main loop. *)

From Stdlib Require Import QArith Qabs Lqa ZArith Lia.
From stdpp Require Import list sorting strings gmap.

Local Open Scope Z_scope.
Local Open Scope nat_scope.

(** ** config.py *)

Definition K_MAX : nat := 5.
Definition TABU_TENURE_MIN : nat := 10.
Definition TABU_TENURE_MAX : nat := 20.
Definition PATIENCE_MIN : nat := 300.
Definition PATIENCE_MAX : nat := 300.
Definition IMPROVEMENT_THRESHOLD : Q := 1 # 1000.

(** The literal [1e-6] used by [VND] and [VNS_solver]. *)
Definition EPS : Q := 1 # 1000000.

(** ** Data model *)

Abbreviation route := (list nat).
Abbreviation solution := (list (list nat)).
Abbreviation matrix := (list (list Q)).

(** [x < y] on floats. *)
Definition Qlt_bool (x y : Q) : bool := negb (Qle_bool y x).

(** [sum(...)] over floats and over integers. *)
Definition Qsum (l : list Q) : Q := fold_left Qplus l 0%Q.
Definition Zsum (l : list Z) : Z := fold_left Z.add l 0%Z.

(** [range(a, b)] *)
Definition range (a b : nat) : list nat := seq a (b - a).

(** [enumerate(l)] *)
Definition enumerate {A} (l : list A) : list (nat * A) := zip (seq 0 (length l)) l.

(** [l[a:b]] for non-negative bounds, [l.insert(pos, x)]. *)
Definition slice {A} (l : list A) (a b : nat) : list A := drop a (take b l).
Definition insert_at {A} (pos : nat) (x : A) (l : list A) : list A :=
  take pos l ++ x :: drop pos l.

(** [route[i]], [sol[r]], [demands[c]], [dist[a][b]] *)
Definition node (r : route) (i : nat) : nat := nth i r 0.
Definition route_at (sol : solution) (r : nat) : route := nth r sol [].
Definition demand (demands : list Z) (c : nat) : Z := nth c demands 0%Z.
Definition d (dist : matrix) (a b : nat) : Q := nth b (nth a dist []) 0%Q.

(** ** utils.py *)

Definition route_cost (r : route) (dist : matrix) : Q :=
  Qsum (map (fun i => d dist (node r i) (node r (i + 1))) (range 0 (length r - 1))).

Definition solution_cost (sol : solution) (dist : matrix) : Q :=
  Qsum (map (fun r => route_cost r dist) sol).

Definition route_demand (r : route) (demands : list Z) : Z :=
  Zsum (map (demand demands) (filter (fun c => c ≠ 0) r)).

(** ** neighborhoods.py *)

(** The loop shared by the six operators: [while improved: ...], one pass
    per iteration; a pass yields the next solution or reports that nothing
    improved. *)
Fixpoint improve_loop (pass : solution -> option solution)
    (fuel : nat) (sol : solution) : option solution :=
  match fuel with
  | O => None
  | S fuel' =>
      match pass sol with
      | None => Some sol
      | Some sol' => improve_loop pass fuel' sol'
      end
  end.

(** Best-of-pass selection: [best_delta] starts at [-IMPROVEMENT_THRESHOLD]
    and a candidate replaces the incumbent only when strictly smaller. *)
Definition best_step {M} (acc : Q * option M) (c : Q * M) : Q * option M :=
  if Qlt_bool (fst c) (fst acc) then (fst c, Some (snd c)) else acc.

Definition best_of {M} (cands : list (Q * M)) : option M :=
  snd (fold_left best_step cands ((- IMPROVEMENT_THRESHOLD)%Q, None)).

(** *** N1: 2-opt within each route *)

Definition two_opt_delta (dist : matrix) (r : route) (i j : nat) : Q :=
  (d dist (node r (i - 1)) (node r j) + d dist (node r i) (node r (j + 1))
   - d dist (node r (i - 1)) (node r i) - d dist (node r j) (node r (j + 1)))%Q.

(** [route[:i] + route[i:j+1][::-1] + route[j+1:]] *)
Definition reverse_segment (r : route) (i j : nat) : route :=
  take i r ++ reverse (slice r i (j + 1)) ++ drop (j + 1) r.

Definition N1_candidates (sol : solution) : list (nat * nat * nat) :=
  flat_map (fun '(r_idx, r) =>
    if length r <=? 3 then []
    else flat_map (fun i => map (fun j => (r_idx, i, j))
                                (range (i + 1) (length r - 1)))
                  (range 1 (length r - 2)))
    (enumerate sol).

Definition N1_pass (dist : matrix) (sol : solution) : option solution :=
  match find (fun '(r_idx, i, j) =>
                Qlt_bool (two_opt_delta dist (route_at sol r_idx) i j)
                         (- IMPROVEMENT_THRESHOLD))
             (N1_candidates sol) with
  | Some (r_idx, i, j) =>
      Some (<[r_idx := reverse_segment (route_at sol r_idx) i j]> sol)
  | None => None
  end.

Definition N1_two_opt_intra (fuel : nat) (sol : solution) (dist : matrix)
  : option solution :=
  improve_loop (N1_pass dist) fuel sol.

(** *** N2: relocate one customer to another route *)

Definition N2_candidates (sol : solution) (demands : list Z) (capacity : Z)
    (dist : matrix) : list (Q * (nat * nat * nat * nat)) :=
  flat_map (fun r1_idx =>
    let r1 := route_at sol r1_idx in
    if length r1 <=? 2 then []
    else flat_map (fun c_idx =>
      let customer := node r1 c_idx in
      let removal_delta :=
        (d dist (node r1 (c_idx - 1)) (node r1 (c_idx + 1))
         - d dist (node r1 (c_idx - 1)) customer
         - d dist customer (node r1 (c_idx + 1)))%Q in
      flat_map (fun r2_idx =>
        let r2 := route_at sol r2_idx in
        if r1_idx =? r2_idx then []
        else if (capacity <? route_demand r2 demands + demand demands customer)%Z
        then []
        else map (fun pos =>
          let insert_delta :=
            (d dist (node r2 (pos - 1)) customer + d dist customer (node r2 pos)
             - d dist (node r2 (pos - 1)) (node r2 pos))%Q in
          ((removal_delta + insert_delta)%Q, (r1_idx, c_idx, r2_idx, pos)))
          (range 1 (length r2)))
        (range 0 (length sol)))
      (range 1 (length r1 - 1)))
    (range 0 (length sol)).

(** [sol = [r for r in sol if len(r) > 2]] *)
Definition drop_trivial (sol : solution) : solution :=
  filter (fun r => 2 < length r) sol.

Definition N2_apply (sol : solution) (m : nat * nat * nat * nat) : solution :=
  let '(r1_idx, c_idx, r2_idx, pos) := m in
  let customer := node (route_at sol r1_idx) c_idx in
  let sol1 := <[r1_idx := delete c_idx (route_at sol r1_idx)]> sol in
  let sol2 := <[r2_idx := insert_at pos customer (route_at sol1 r2_idx)]> sol1 in
  drop_trivial sol2.

Definition N2_pass (demands : list Z) (capacity : Z) (dist : matrix)
    (sol : solution) : option solution :=
  N2_apply sol <$> best_of (N2_candidates sol demands capacity dist).

Definition N2_relocate_inter (fuel : nat) (sol : solution) (demands : list Z)
    (capacity : Z) (dist : matrix) : option solution :=
  improve_loop (N2_pass demands capacity dist) fuel sol.

(** *** N3: swap two customers of two different routes *)

Definition N3_candidates (sol : solution) (demands : list Z) (capacity : Z)
    (dist : matrix) : list (Q * (nat * nat * nat * nat)) :=
  flat_map (fun r1_idx =>
    let r1 := route_at sol r1_idx in
    if length r1 <=? 2 then []
    else flat_map (fun c1_idx =>
      let c1 := node r1 c1_idx in
      flat_map (fun r2_idx =>
        let r2 := route_at sol r2_idx in
        if length r2 <=? 2 then []
        else flat_map (fun c2_idx =>
          let c2 := node r2 c2_idx in
          let load1 := (route_demand r1 demands - demand demands c1
                        + demand demands c2)%Z in
          let load2 := (route_demand r2 demands - demand demands c2
                        + demand demands c1)%Z in
          if (capacity <? load1)%Z || (capacity <? load2)%Z then []
          else
            let delta :=
              (d dist (node r1 (c1_idx - 1)) c2 + d dist c2 (node r1 (c1_idx + 1))
               + d dist (node r2 (c2_idx - 1)) c1 + d dist c1 (node r2 (c2_idx + 1))
               - d dist (node r1 (c1_idx - 1)) c1 - d dist c1 (node r1 (c1_idx + 1))
               - d dist (node r2 (c2_idx - 1)) c2 - d dist c2 (node r2 (c2_idx + 1)))%Q in
            [(delta, (r1_idx, c1_idx, r2_idx, c2_idx))])
          (range 1 (length r2 - 1)))
        (range (r1_idx + 1) (length sol)))
      (range 1 (length r1 - 1)))
    (range 0 (length sol)).

Definition N3_apply (sol : solution) (m : nat * nat * nat * nat) : solution :=
  let '(r1_idx, c1_idx, r2_idx, c2_idx) := m in
  let c1 := node (route_at sol r1_idx) c1_idx in
  let c2 := node (route_at sol r2_idx) c2_idx in
  let sol1 := <[r1_idx := <[c1_idx := c2]> (route_at sol r1_idx)]> sol in
  <[r2_idx := <[c2_idx := c1]> (route_at sol1 r2_idx)]> sol1.

Definition N3_pass (demands : list Z) (capacity : Z) (dist : matrix)
    (sol : solution) : option solution :=
  N3_apply sol <$> best_of (N3_candidates sol demands capacity dist).

Definition N3_swap_inter (fuel : nat) (sol : solution) (demands : list Z)
    (capacity : Z) (dist : matrix) : option solution :=
  improve_loop (N3_pass demands capacity dist) fuel sol.

(** *** N4: exchange the tails of two routes *)

Definition N4_new_r1 (sol : solution) (r1_idx r2_idx i j : nat) : route :=
  take (i + 1) (route_at sol r1_idx) ++ drop (j + 1) (route_at sol r2_idx).
Definition N4_new_r2 (sol : solution) (r1_idx r2_idx i j : nat) : route :=
  take (j + 1) (route_at sol r2_idx) ++ drop (i + 1) (route_at sol r1_idx).

Definition N4_candidates (sol : solution) : list (nat * nat * nat * nat) :=
  flat_map (fun r1_idx =>
    let r1 := route_at sol r1_idx in
    if length r1 <=? 2 then []
    else flat_map (fun r2_idx =>
      let r2 := route_at sol r2_idx in
      if length r2 <=? 2 then []
      else flat_map (fun i => map (fun j => (r1_idx, r2_idx, i, j))
                                  (range 1 (length r2 - 1)))
                    (range 1 (length r1 - 1)))
      (range (r1_idx + 1) (length sol)))
    (range 0 (length sol)).

Definition N4_improves (sol : solution) (demands : list Z) (capacity : Z)
    (dist : matrix) (m : nat * nat * nat * nat) : bool :=
  let '(r1_idx, r2_idx, i, j) := m in
  let new_r1 := N4_new_r1 sol r1_idx r2_idx i j in
  let new_r2 := N4_new_r2 sol r1_idx r2_idx i j in
  if (route_demand new_r1 demands <=? capacity)%Z
     && (route_demand new_r2 demands <=? capacity)%Z
  then
    let old_cost := (route_cost (route_at sol r1_idx) dist
                     + route_cost (route_at sol r2_idx) dist)%Q in
    let new_cost := (route_cost new_r1 dist + route_cost new_r2 dist)%Q in
    Qlt_bool new_cost (old_cost - IMPROVEMENT_THRESHOLD)
  else false.

Definition N4_apply (sol : solution) (m : nat * nat * nat * nat) : solution :=
  let '(r1_idx, r2_idx, i, j) := m in
  <[r2_idx := N4_new_r2 sol r1_idx r2_idx i j]>
    (<[r1_idx := N4_new_r1 sol r1_idx r2_idx i j]> sol).

Definition N4_pass (demands : list Z) (capacity : Z) (dist : matrix)
    (sol : solution) : option solution :=
  N4_apply sol <$> find (N4_improves sol demands capacity dist) (N4_candidates sol).

Definition N4_two_opt_inter (fuel : nat) (sol : solution) (demands : list Z)
    (capacity : Z) (dist : matrix) : option solution :=
  improve_loop (N4_pass demands capacity dist) fuel sol.

(** *** N5: merge two routes *)

(** [r[:-1]], [r[1:]] and [r[-2:0:-1]] *)
Definition but_last (r : route) : route := take (length r - 1) r.
Definition rev_interior (r : route) : route := reverse (slice r 1 (length r - 1)).

Definition N5_configs (r1 r2 : route) : list route :=
  [ but_last r1 ++ drop 1 r2;
    but_last r2 ++ drop 1 r1;
    but_last r1 ++ rev_interior r2 ++ [0];
    but_last r2 ++ rev_interior r1 ++ [0] ].

Definition N5_candidates (sol : solution) (demands : list Z) (capacity : Z)
    (dist : matrix) : list (Q * (nat * nat * route)) :=
  flat_map (fun r1_idx =>
    flat_map (fun r2_idx =>
      let r1 := route_at sol r1_idx in
      let r2 := route_at sol r2_idx in
      let total_demand := (route_demand r1 demands + route_demand r2 demands)%Z in
      if (total_demand <=? capacity)%Z then
        let old_cost := (route_cost r1 dist + route_cost r2 dist)%Q in
        map (fun merged => ((route_cost merged dist - old_cost)%Q,
                            (r1_idx, r2_idx, merged)))
            (N5_configs r1 r2)
      else [])
      (range (r1_idx + 1) (length sol)))
    (range 0 (length sol)).

Definition N5_apply (sol : solution) (m : nat * nat * route) : solution :=
  let '(r1_idx, r2_idx, merged) := m in
  map snd (filter (fun p => p.1 ≠ r1_idx ∧ p.1 ≠ r2_idx) (enumerate sol))
  ++ [merged].

Definition N5_pass (demands : list Z) (capacity : Z) (dist : matrix)
    (sol : solution) : option solution :=
  N5_apply sol <$> best_of (N5_candidates sol demands capacity dist).

Definition N5_merge_routes (fuel : nat) (sol : solution) (demands : list Z)
    (capacity : Z) (dist : matrix) : option solution :=
  improve_loop (N5_pass demands capacity dist) fuel sol.

(** *** N6: Or-opt, chains of one to three customers *)

Inductive or_move : Type :=
  | Intra (r_idx start chain_len insert_pos : nat)
  | Inter (r1_idx start chain_len r2_idx insert_pos : nat).

Definition N6_intra_candidates (sol : solution) (dist : matrix)
    (chain_len : nat) : list (Q * or_move) :=
  flat_map (fun r_idx =>
    let r := route_at sol r_idx in
    if length r <=? chain_len + 2 then []
    else flat_map (fun start =>
      flat_map (fun insert_pos =>
        if (start <=? insert_pos) && (insert_pos <=? start + chain_len) then []
        else
          let old_cost :=
            (d dist (node r (start - 1)) (node r start)
             + d dist (node r (start + chain_len - 1)) (node r (start + chain_len))
             + d dist (node r (insert_pos - 1)) (node r insert_pos))%Q in
          let new_cost :=
            (d dist (node r (start - 1)) (node r (start + chain_len))
             + d dist (node r (insert_pos - 1)) (node r start)
             + d dist (node r (start + chain_len - 1)) (node r insert_pos))%Q in
          [((new_cost - old_cost)%Q, Intra r_idx start chain_len insert_pos)])
        (range 1 (length r - 1)))
      (range 1 (length r - chain_len)))
    (range 0 (length sol)).

(** The chain's internal edges, [dist[r[start+i]][r[start+i+1]]] for
    [i in range(chain_len - 1)]; subtracted one by one from [removal_cost]
    and added one by one to [insert_cost]. *)
Definition chain_edges (dist : matrix) (r : route) (start chain_len : nat) : list Q :=
  map (fun i => d dist (node r (start + i)) (node r (start + i + 1)))
      (range 0 (chain_len - 1)).

Definition N6_inter_candidates (sol : solution) (demands : list Z)
    (capacity : Z) (dist : matrix) (chain_len : nat) : list (Q * or_move) :=
  flat_map (fun r1_idx =>
    let r1 := route_at sol r1_idx in
    if length r1 <=? chain_len + 1 then []
    else flat_map (fun start =>
      let chain_demand :=
        Zsum (map (fun i => demand demands (node r1 (start + i)))
                  (range 0 chain_len)) in
      flat_map (fun r2_idx =>
        let r2 := route_at sol r2_idx in
        if r1_idx =? r2_idx then []
        else if (capacity <? route_demand r2 demands + chain_demand)%Z then []
        else map (fun insert_pos =>
          let removal_cost :=
            (fold_left Qminus (chain_edges dist r1 start chain_len)
               (d dist (node r1 (start - 1)) (node r1 (start + chain_len))
                - d dist (node r1 (start - 1)) (node r1 start))
             - d dist (node r1 (start + chain_len - 1)) (node r1 (start + chain_len)))%Q in
          let insert_cost :=
            fold_left Qplus (chain_edges dist r1 start chain_len)
              (d dist (node r2 (insert_pos - 1)) (node r1 start)
               + d dist (node r1 (start + chain_len - 1)) (node r2 insert_pos)
               - d dist (node r2 (insert_pos - 1)) (node r2 insert_pos))%Q in
          ((removal_cost + insert_cost)%Q,
           Inter r1_idx start chain_len r2_idx insert_pos))
          (range 1 (length r2)))
        (range 0 (length sol)))
      (range 1 (length r1 - chain_len)))
    (range 0 (length sol)).

Definition N6_candidates (sol : solution) (demands : list Z) (capacity : Z)
    (dist : matrix) : list (Q * or_move) :=
  flat_map (fun chain_len =>
    N6_intra_candidates sol dist chain_len
    ++ N6_inter_candidates sol demands capacity dist chain_len)
    [1; 2; 3].

(** [for i, customer in enumerate(chain): r.insert(insert_pos + i, customer)] *)
Definition insert_chain (insert_pos : nat) (chain : list nat) (r : route) : route :=
  fold_left (fun acc '(i, customer) => insert_at (insert_pos + i) customer acc)
            (enumerate chain) r.

(** [del r[a:b]] *)
Definition del_slice (r : route) (a b : nat) : route := take a r ++ drop b r.

Definition N6_apply (sol : solution) (m : or_move) : solution :=
  match m with
  | Intra r_idx start chain_len insert_pos =>
      let r := route_at sol r_idx in
      let chain := slice r start (start + chain_len) in
      let r' := del_slice r start (start + chain_len) in
      let insert_pos' :=
        if start <? insert_pos then insert_pos - chain_len else insert_pos in
      <[r_idx := insert_chain insert_pos' chain r']> sol
  | Inter r1_idx start chain_len r2_idx insert_pos =>
      let r1 := route_at sol r1_idx in
      let chain := slice r1 start (start + chain_len) in
      let sol1 := <[r1_idx := del_slice r1 start (start + chain_len)]> sol in
      let sol2 := <[r2_idx := insert_chain insert_pos chain (route_at sol1 r2_idx)]> sol1 in
      drop_trivial sol2
  end.

Definition N6_pass (demands : list Z) (capacity : Z) (dist : matrix)
    (sol : solution) : option solution :=
  N6_apply sol <$> best_of (N6_candidates sol demands capacity dist).

Definition N6_or_opt (fuel : nat) (sol : solution) (demands : list Z)
    (capacity : Z) (dist : matrix) : option solution :=
  improve_loop (N6_pass demands capacity dist) fuel sol.

(** ** vnd.py *)

Inductive neighborhood : Type := NB_N1 | NB_N5 | NB_N2 | NB_N3 | NB_N4 | NB_N6.

Definition neighborhood_name (nb : neighborhood) : string :=
  match nb with
  | NB_N1 => "2-opt intra" | NB_N5 => "Merge routes" | NB_N2 => "Relocate"
  | NB_N3 => "Swap" | NB_N4 => "2-opt inter" | NB_N6 => "Or-opt"
  end.

Definition neighborhoods (use_or_opt : bool) : list neighborhood :=
  [NB_N1; NB_N5; NB_N2; NB_N3; NB_N4] ++ (if use_or_opt then [NB_N6] else []).

Definition run_neighborhood (nb : neighborhood) (fuel : nat) (sol : solution)
    (demands : list Z) (capacity : Z) (dist : matrix) : option solution :=
  match nb with
  | NB_N1 => N1_two_opt_intra fuel sol dist
  | NB_N5 => N5_merge_routes fuel sol demands capacity dist
  | NB_N2 => N2_relocate_inter fuel sol demands capacity dist
  | NB_N3 => N3_swap_inter fuel sol demands capacity dist
  | NB_N4 => N4_two_opt_inter fuel sol demands capacity dist
  | NB_N6 => N6_or_opt fuel sol demands capacity dist
  end.

(** The two acceptance tests of the engine. *)
Definition cost_improved (new_cost old_cost : Q) : bool :=
  Qlt_bool new_cost (old_cost - EPS).
Definition routes_reduced (new_cost old_cost : Q) (new_routes old_routes : nat) : bool :=
  Qlt_bool (Qabs (new_cost - old_cost)) EPS && (new_routes <? old_routes).

(** One turn of [while k < len(neighborhoods)]: the state is the current
    solution and the index [k]. *)
Definition VND_step (use_or_opt : bool) (fuel : nat) (demands : list Z)
    (capacity : Z) (dist : matrix) (st : solution * nat) : option (solution * nat) :=
  let '(sol, k) := st in
  let old_cost := solution_cost sol dist in
  let old_routes := length sol in
  nb ← neighborhoods use_or_opt !! k;
  sol_new ← run_neighborhood nb fuel sol demands capacity dist;
  let new_cost := solution_cost sol_new dist in
  let new_routes := length sol_new in
  if cost_improved new_cost old_cost
     || routes_reduced new_cost old_cost new_routes old_routes
  then Some (sol_new, 0)
  else Some (sol, k + 1).

Fixpoint VND_loop (use_or_opt : bool) (fuel : nat) (demands : list Z)
    (capacity : Z) (dist : matrix) (st : solution * nat) : option solution :=
  match fuel with
  | O => None
  | S fuel' =>
      if st.2 <? length (neighborhoods use_or_opt) then
        st' ← VND_step use_or_opt fuel' demands capacity dist st;
        VND_loop use_or_opt fuel' demands capacity dist st'
      else Some st.1
  end.

Definition VND (fuel : nat) (sol : solution) (demands : list Z) (capacity : Z)
    (dist : matrix) (use_or_opt : bool) : option solution :=
  VND_loop use_or_opt fuel demands capacity dist (sol, 0).

(** ** shaking.py *)

Abbreviation rng := (list nat).

Definition draw (g : rng) : nat * rng :=
  match g with
  | [] => (0, [])
  | x :: g' => (x, g')
  end.

(** [random.randint(a, b)], [random.choice(l)], [random.sample(l, 2)] *)
Definition randint (a b : nat) (g : rng) : nat * rng :=
  let '(x, g') := draw g in (a + x mod (b - a + 1), g').

Definition choice (l : list nat) (g : rng) : nat * rng :=
  let '(x, g') := draw g in (nth (x mod length l) l 0, g').

Definition sample2 (l : list nat) (g : rng) : nat * nat * rng :=
  let '(x, g1) := draw g in
  let i := x mod length l in
  let rest := delete i l in
  let '(y, g2) := draw g1 in
  (nth i l 0, nth (y mod length rest) rest 0, g2).

(** [for _ in range(k)] with [break]: a step answers [None] to leave. *)
Fixpoint shake_loop (step : solution * rng -> option (solution * rng))
    (k : nat) (st : solution * rng) : solution * rng :=
  match k with
  | O => st
  | S k' =>
      match step st with
      | None => st
      | Some st' => shake_loop step k' st'
      end
  end.

(** [[i for i, r in enumerate(sol) if len(r) > m]] *)
Definition valid_routes (m : nat) (sol : solution) : list nat :=
  map fst (filter (fun p => m < length p.2) (enumerate sol)).

Definition Shake_N1_step (demands : list Z) (capacity : Z)
    (st : solution * rng) : option (solution * rng) :=
  let '(sol, g) := st in
  if length sol <? 2 then None
  else
    let valid := valid_routes 2 sol in
    if length valid =? 0 then None
    else
      let '(r1_idx, g1) := choice valid g in
      let '(c_idx, g2) := randint 1 (length (route_at sol r1_idx) - 2) g1 in
      let customer := node (route_at sol r1_idx) c_idx in
      let '(r2_idx, g3) := randint 0 (length sol - 1) g2 in
      if (route_demand (route_at sol r2_idx) demands + demand demands customer
          <=? capacity)%Z
      then
        let sol1 := <[r1_idx := delete c_idx (route_at sol r1_idx)]> sol in
        let '(pos, g4) := randint 1 (length (route_at sol1 r2_idx) - 1) g3 in
        Some (<[r2_idx := insert_at pos customer (route_at sol1 r2_idx)]> sol1, g4)
      else Some (sol, g3).

Definition Shake_N1_random_relocate (sol : solution) (demands : list Z)
    (capacity : Z) (k : nat) (g : rng) : solution * rng :=
  let '(sol', g') := shake_loop (Shake_N1_step demands capacity) k (sol, g) in
  (drop_trivial sol', g').

Definition Shake_N2_step (demands : list Z) (capacity : Z)
    (st : solution * rng) : option (solution * rng) :=
  let '(sol, g) := st in
  if length sol <? 2 then None
  else
    let valid := valid_routes 2 sol in
    if length valid <? 2 then None
    else
      let '(r1_idx, r2_idx, g1) := sample2 valid g in
      let r1 := route_at sol r1_idx in
      let r2 := route_at sol r2_idx in
      let '(c1_idx, g2) := randint 1 (length r1 - 2) g1 in
      let '(c2_idx, g3) := randint 1 (length r2 - 2) g2 in
      let c1 := node r1 c1_idx in
      let c2 := node r2 c2_idx in
      let load1 := (route_demand r1 demands - demand demands c1
                    + demand demands c2)%Z in
      let load2 := (route_demand r2 demands - demand demands c2
                    + demand demands c1)%Z in
      if (load1 <=? capacity)%Z && (load2 <=? capacity)%Z
      then Some (N3_apply sol (r1_idx, c1_idx, r2_idx, c2_idx), g3)
      else Some (sol, g3).

Definition Shake_N2_random_swap (sol : solution) (demands : list Z)
    (capacity : Z) (k : nat) (g : rng) : solution * rng :=
  shake_loop (Shake_N2_step demands capacity) k (sol, g).

Definition Shake_N3_step (st : solution * rng) : option (solution * rng) :=
  let '(sol, g) := st in
  let valid := valid_routes 4 sol in
  if length valid =? 0 then None
  else
    let '(r_idx, g1) := choice valid g in
    let r := route_at sol r_idx in
    let '(i, g2) := randint 1 (length r - 3) g1 in
    let '(j, g3) := randint (i + 1) (length r - 2) g2 in
    Some (<[r_idx := reverse_segment r i j]> sol, g3).

Definition Shake_N3_double_bridge (sol : solution) (demands : list Z)
    (capacity : Z) (k : nat) (g : rng) : solution * rng :=
  shake_loop Shake_N3_step k (sol, g).

(** ** construction.py *)

(** [r[:-1] + ...] helpers are [but_last] and [rev_interior] above.
    [x in r], [r.index(x)], [routes.remove(r)]: *)
Definition index_of (x : nat) (r : route) : nat :=
  match list_find (fun y => y = x) r with
  | Some (i, _) => i
  | None => 0
  end.

Fixpoint remove_first (r : route) (routes : list route) : list route :=
  match routes with
  | [] => []
  | r' :: rest => if decide (r' = r) then rest else r' :: remove_first r rest
  end.

(** *** Clarke-Wright savings *)

(** Order of the tuples [(s, i, j)]: [savings.sort(reverse=True)]. *)
Definition saving_ge (a b : Q * nat * nat) : bool :=
  let '(sa, ia, ja) := a in
  let '(sb, ib, jb) := b in
  Qlt_bool sb sa
  || (Qeq_bool sa sb && ((ib <? ia) || ((ia =? ib) && (jb <=? ja)))).

Definition saving_geR (a b : Q * nat * nat) : Prop := saving_ge a b = true.

Global Instance saving_geR_dec a b : Decision (saving_geR a b).
Proof. unfold saving_geR. apply _. Defined.

Definition savings_list (n : nat) (dist : matrix) : list (Q * nat * nat) :=
  flat_map (fun i =>
    map (fun j => ((d dist 0 i + d dist 0 j - d dist i j)%Q, i, j))
        (range (i + 1) n))
    (range 1 n).

(** The route bound to [route_i] after [for r in routes: if i in r: route_i = r]. *)
Definition route_of (i : nat) (routes : list route) : option route :=
  last (filter (fun r => i ∈ r) routes).

Definition savings_merge (demands : list Z) (capacity : Z)
    (routes : list route) (sij : Q * nat * nat) : list route :=
  let '(_, i, j) := sij in
  match route_of i routes, route_of j routes with
  | Some route_i, Some route_j =>
      if bool_decide (route_i = []) || bool_decide (route_j = [])
         || bool_decide (route_i = route_j) then routes
      else
        let pos_i := index_of i route_i in
        let pos_j := index_of j route_j in
        let li := length route_i - 2 in
        let lj := length route_j - 2 in
        if ((pos_i =? 1) || (pos_i =? li)) && ((pos_j =? 1) || (pos_j =? lj)) then
          if (route_demand route_i demands + route_demand route_j demands
              <=? capacity)%Z then
            let merged :=
              if (pos_i =? li) && (pos_j =? 1) then
                Some (but_last route_i ++ drop 1 route_j)
              else if (pos_i =? 1) && (pos_j =? lj) then
                Some (but_last route_j ++ drop 1 route_i)
              else if (pos_i =? li) && (pos_j =? lj) then
                Some (but_last route_i ++ rev_interior route_j ++ [0])
              else if (pos_i =? 1) && (pos_j =? 1) then
                Some ([0] ++ rev_interior route_i ++ drop 1 route_j)
              else None in
            match merged with
            | Some new_route =>
                remove_first route_j (remove_first route_i routes) ++ [new_route]
            | None => routes
            end
          else routes
        else routes
  | _, _ => routes
  end.

Definition savings_algorithm (demands : list Z) (capacity : Z) (dist : matrix)
  : solution :=
  let n := length demands in
  let routes := map (fun i => [0; i; 0]) (range 1 n) in
  let savings := merge_sort saving_geR (savings_list n dist) in
  fold_left (savings_merge demands capacity) savings routes.

(** *** Nearest neighbour *)

(** The set [unvisited] is the list of its members in increasing order,
    which is the order in which CPython iterates over a set of small
    integers.  [best_dist = float('inf')] is [None]. *)
Definition nn_step (demands : list Z) (capacity : Z) (dist : matrix)
    (current : nat) (route_load : Z) (acc : option Q * option nat)
    (customer : nat) : option Q * option nat :=
  if (route_load + demand demands customer <=? capacity)%Z then
    let dc := d dist current customer in
    let closer := match acc.1 with
                  | None => true
                  | Some best_dist => Qlt_bool dc best_dist
                  end in
    if closer then (Some dc, Some customer) else acc
  else acc.

Definition nn_best (demands : list Z) (capacity : Z) (dist : matrix)
    (unvisited : list nat) (current : nat) (route_load : Z) : option nat :=
  (fold_left (nn_step demands capacity dist current route_load) unvisited
             (None, None)).2.

(** The inner [while unvisited] loop; it removes a customer at each turn,
    so [length unvisited] turns are enough. *)
Fixpoint nn_extend (turns : nat) (demands : list Z) (capacity : Z)
    (dist : matrix) (unvisited : list nat) (r : route) (current : nat)
    (route_load : Z) : list nat * route :=
  match turns with
  | O => (unvisited, r)
  | S turns' =>
      match nn_best demands capacity dist unvisited current route_load with
      | None => (unvisited, r)
      | Some best_customer =>
          nn_extend turns' demands capacity dist
            (filter (fun c => c ≠ best_customer) unvisited)
            (r ++ [best_customer]) best_customer
            (route_load + demand demands best_customer)%Z
      end
  end.

(** The outer [while unvisited] loop. *)
Fixpoint nn_loop (fuel : nat) (demands : list Z) (capacity : Z) (dist : matrix)
    (unvisited : list nat) (routes : list route) : option (list route) :=
  match unvisited with
  | [] => Some routes
  | _ :: _ =>
      match fuel with
      | O => None
      | S fuel' =>
          let '(unvisited', r) :=
            nn_extend (length unvisited) demands capacity dist unvisited [0] 0 0%Z in
          nn_loop fuel' demands capacity dist unvisited'
            (if 1 <? length r then routes ++ [r ++ [0]] else routes)
      end
  end.

Definition nearest_neighbor_vrp (fuel : nat) (n : nat) (demands : list Z)
    (capacity : Z) (dist : matrix) : option solution :=
  nn_loop fuel demands capacity dist (range 1 n) [].

(** *** Greedy edge-based construction *)

(** Order of the tuples [(dist[i][j], i, j)]: [edges.sort()]. *)
Definition edge_le (a b : Q * nat * nat) : bool :=
  let '(ca, ia, ja) := a in
  let '(cb, ib, jb) := b in
  Qlt_bool ca cb
  || (Qeq_bool ca cb && ((ia <? ib) || ((ia =? ib) && (ja <=? jb)))).

Definition edge_leR (a b : Q * nat * nat) : Prop := edge_le a b = true.

Global Instance edge_leR_dec a b : Decision (edge_leR a b).
Proof. unfold edge_leR. apply _. Defined.

Definition edge_list (n : nat) (dist : matrix) : list (Q * nat * nat) :=
  flat_map (fun i => map (fun j => (d dist i j, i, j)) (range (i + 1) n))
           (range 0 n).

(** The dictionary [connections] is written but never read by the source;
    it is left out. *)
Record greedy_state : Type := {
  fragments : list (list nat);
  fragment_loads : list Z;
  customer_degree : gmap nat nat;
  customer_to_fragment : gmap nat nat
}.

Definition degree (deg : gmap nat nat) (i : nat) : nat := default 0 (deg !! i).

(** [if i != 0: customer_degree[i] += 1] *)
Definition bump (i : nat) (deg : gmap nat nat) : gmap nat nat :=
  if i =? 0 then deg else <[i := degree deg i + 1]> deg.

(** [if i != 0: customer_to_fragment[i] = f] *)
Definition assign (i f : nat) (c2f : gmap nat nat) : gmap nat nat :=
  if i =? 0 then c2f else <[i := f]> c2f.

Definition first_node (f : list nat) : nat := nth 0 f 0.
Definition last_node (f : list nat) : nat := List.last f 0.

(** Attach the free node [y] to the fragment [f_idx] of [x]. *)
Definition greedy_attach (demands : list Z) (capacity : Z)
    (st : greedy_state) (x y f_idx : nat) : greedy_state :=
  let fragment := nth f_idx (fragments st) [] in
  let new_load := (nth f_idx (fragment_loads st) 0
                   + (if (y =? 0)%nat then 0 else demand demands y))%Z in
  if (new_load <=? capacity)%Z then
    if (x =? first_node fragment) || (x =? last_node fragment) then
      let fragment' :=
        if x =? first_node fragment then y :: fragment else fragment ++ [y] in
      {| fragments := <[f_idx := fragment']> (fragments st);
         fragment_loads := <[f_idx := new_load]> (fragment_loads st);
         customer_degree := bump y (bump x (customer_degree st));
         customer_to_fragment := assign y f_idx (customer_to_fragment st) |}
    else st
  else st.

Definition greedy_join (capacity : Z) (st : greedy_state)
    (i j frag_i frag_j : nat) : greedy_state :=
  let frag1 := nth frag_i (fragments st) [] in
  let frag2 := nth frag_j (fragments st) [] in
  let new_load := (nth frag_i (fragment_loads st) 0
                   + nth frag_j (fragment_loads st) 0)%Z in
  if (new_load <=? capacity)%Z then
    let i_at_end := (i =? first_node frag1) || (i =? last_node frag1) in
    let j_at_end := (j =? first_node frag2) || (j =? last_node frag2) in
    if i_at_end && j_at_end then
      let merged :=
        if (i =? last_node frag1) && (j =? first_node frag2) then
          Some (frag1 ++ frag2)
        else if (i =? first_node frag1) && (j =? last_node frag2) then
          Some (frag2 ++ frag1)
        else if (i =? last_node frag1) && (j =? last_node frag2) then
          Some (frag1 ++ reverse frag2)
        else if (i =? first_node frag1) && (j =? first_node frag2) then
          Some (reverse frag1 ++ frag2)
        else None in
      match merged with
      | Some m =>
          {| fragments := <[frag_j := []]> (<[frag_i := m]> (fragments st));
             fragment_loads :=
               <[frag_j := 0%Z]> (<[frag_i := new_load]> (fragment_loads st));
             customer_degree := bump j (bump i (customer_degree st));
             customer_to_fragment :=
               fold_left (fun c2f customer => assign customer frag_i c2f)
                         frag2 (customer_to_fragment st) |}
      | None => st
      end
    else st
  else st.

Definition greedy_edge (demands : list Z) (capacity : Z)
    (st : greedy_state) (e : Q * nat * nat) : greedy_state :=
  let '(_, i, j) := e in
  if negb (i =? 0) && (2 <=? degree (customer_degree st) i) then st
  else if negb (j =? 0) && (2 <=? degree (customer_degree st) j) then st
  else
    match customer_to_fragment st !! i, customer_to_fragment st !! j with
    | None, None =>
        let frag_idx := length (fragments st) in
        if (i =? 0) || (j =? 0) then
          let customer := if i =? 0 then j else i in
          if (demand demands customer <=? capacity)%Z then
            {| fragments := fragments st ++ [[i; j]];
               fragment_loads := fragment_loads st ++ [demand demands customer];
               customer_degree := bump j (bump i (customer_degree st));
               customer_to_fragment :=
                 assign customer frag_idx (customer_to_fragment st) |}
          else st
        else
          if (demand demands i + demand demands j <=? capacity)%Z then
            {| fragments := fragments st ++ [[i; j]];
               fragment_loads :=
                 fragment_loads st ++ [(demand demands i + demand demands j)%Z];
               customer_degree :=
                 <[j := degree (customer_degree st) j + 1]>
                   (<[i := degree (customer_degree st) i + 1]> (customer_degree st));
               customer_to_fragment :=
                 <[j := frag_idx]> (<[i := frag_idx]> (customer_to_fragment st)) |}
          else st
    | Some frag_i, None => greedy_attach demands capacity st i j frag_i
    | None, Some frag_j => greedy_attach demands capacity st j i frag_j
    | Some frag_i, Some frag_j =>
        if frag_i =? frag_j then st else greedy_join capacity st i j frag_i frag_j
    end.

(** Closing the fragments into routes. *)
Definition close_fragment (f : list nat) : option route :=
  match f with
  | [] => None
  | _ =>
      let f1 := if first_node f =? 0 then f else 0 :: f in
      let f2 := if last_node f1 =? 0 then f1 else f1 ++ [0] in
      if 2 <? length f2 then Some f2 else None
  end.

Definition greedy_vrp (n : nat) (demands : list Z) (capacity : Z)
    (dist : matrix) : solution :=
  let edges := merge_sort edge_leR (edge_list n dist) in
  let st := fold_left (greedy_edge demands capacity) edges
              {| fragments := []; fragment_loads := [];
                 customer_degree := ∅; customer_to_fragment := ∅ |} in
  omap close_fragment (fragments st)
  ++ flat_map (fun customer =>
       match customer_to_fragment st !! customer with
       | Some _ => []
       | None => if (demand demands customer <=? capacity)%Z
                 then [[0; customer; 0]] else []
       end) (range 1 n).

(** *** Cheapest insertion *)

(** [max(unvisited, key=lambda c: dist[0][c])]: the first maximal customer. *)
Definition farthest_customer (dist : matrix) (unvisited : list nat) : option nat :=
  match unvisited with
  | [] => None
  | c :: rest =>
      Some (fold_left (fun best c' =>
              if Qlt_bool (d dist 0 best) (d dist 0 c') then c' else best)
            rest c)
  end.

Definition ci_step (acc : option Q * option (nat * nat * nat))
    (c : Q * (nat * nat * nat)) : option Q * option (nat * nat * nat) :=
  let better := match acc.1 with
                | None => true
                | Some best_cost_increase => Qlt_bool c.1 best_cost_increase
                end in
  if better then (Some c.1, Some c.2) else acc.

Definition ci_candidates (demands : list Z) (capacity : Z) (dist : matrix)
    (unvisited : list nat) (routes : list route) (route_loads : list Z)
  : list (Q * (nat * nat * nat)) :=
  flat_map (fun customer =>
    flat_map (fun '(r_idx, r) =>
      if (capacity <? nth r_idx route_loads 0 + demand demands customer)%Z then []
      else map (fun pos =>
        ((d dist (node r (pos - 1)) customer + d dist customer (node r pos)
          - d dist (node r (pos - 1)) (node r pos))%Q,
         (customer, r_idx, pos)))
        (range 1 (length r)))
      (enumerate routes))
    unvisited.

(** The [while unvisited] loop removes one customer per turn.
    [unvisited.pop()] takes the smallest member. *)
Fixpoint ci_loop (turns : nat) (demands : list Z) (capacity : Z) (dist : matrix)
    (unvisited : list nat) (routes : list route) (route_loads : list Z)
  : list route :=
  match turns, unvisited with
  | S turns', first :: rest =>
      match (fold_left ci_step
               (ci_candidates demands capacity dist unvisited routes route_loads)
               (None, None)).2 with
      | None =>
          if (demand demands first <=? capacity)%Z then
            ci_loop turns' demands capacity dist rest
              (routes ++ [[0; first; 0]]) (route_loads ++ [demand demands first])
          else ci_loop turns' demands capacity dist rest routes route_loads
      | Some (best_customer, best_route, best_position) =>
          ci_loop turns' demands capacity dist
            (filter (fun c => c ≠ best_customer) unvisited)
            (<[best_route := insert_at best_position best_customer
                               (route_at routes best_route)]> routes)
            (<[best_route := (nth best_route route_loads 0
                              + demand demands best_customer)%Z]> route_loads)
      end
  | _, _ => routes
  end.

(** [max] of an empty set raises ValueError: no value ([None]) when there
    is no customer. *)
Definition cheapest_insertion_vrp (n : nat) (demands : list Z) (capacity : Z)
    (dist : matrix) : option solution :=
  let unvisited := range 1 n in
  farthest ← farthest_customer dist unvisited;
  let rest := filter (fun c => c ≠ farthest) unvisited in
  Some (ci_loop (length rest) demands capacity dist rest
          [[0; farthest; 0]] [demand demands farthest]).

(** *** Random construction *)

(** [random.shuffle]: for [i] from [len - 1] down to 1, swap [x[i]] with
    [x[j]] for a random [j <= i]. *)
Definition swap_entries (l : list nat) (i j : nat) : list nat :=
  <[j := nth i l 0]> (<[i := nth j l 0]> l).

Definition shuffle (l : list nat) (g : rng) : list nat * rng :=
  fold_left (fun '(x, g) i =>
               let '(j, g') := randint 0 i g in (swap_entries x i j, g'))
            (reverse (range 1 (length l))) (l, g).

Definition pack_step (demands : list Z) (capacity : Z)
    (st : list route * route * Z) (customer : nat) : list route * route * Z :=
  let '(routes, current_route, current_load) := st in
  if (current_load + demand demands customer <=? capacity)%Z then
    (routes, current_route ++ [customer],
     (current_load + demand demands customer)%Z)
  else
    (if 1 <? length current_route then routes ++ [current_route ++ [0]] else routes,
     [0; customer], demand demands customer).

Definition random_initial_solution (n : nat) (demands : list Z) (capacity : Z)
    (g : rng) : solution * rng :=
  let '(customers, g') := shuffle (range 1 n) g in
  let '(routes, current_route, _) :=
    fold_left (pack_step demands capacity) customers ([], [0], 0%Z) in
  (if 1 <? length current_route then routes ++ [current_route ++ [0]] else routes,
   g').

(** ** vns.py *)

(** *** The fingerprint of a solution *)

(** Python's order on tuples of integers. *)
Fixpoint tuple_le (a b : list nat) : bool :=
  match a, b with
  | [], _ => true
  | _ :: _, [] => false
  | x :: a', y :: b' =>
      if x <? y then true else if y <? x then false else tuple_le a' b'
  end.

Definition tuple_leR (a b : list nat) : Prop := tuple_le a b = true.

Global Instance tuple_leR_dec a b : Decision (tuple_leR a b).
Proof. unfold tuple_leR. apply _. Defined.

Abbreviation fingerprint := (list (list nat)).

(** [r[1:-1]] *)
Definition interior (r : route) : list nat := slice r 1 (length r - 1).

(** [tuple(sorted([tuple(sorted(r[1:-1])) for r in sol]))] *)
Definition _solution_hash (sol : solution) : fingerprint :=
  merge_sort tuple_leR (map (fun r => merge_sort le (interior r)) sol).

(** *** Choice of the construction *)

Section Solver.

(** [math.hypot], a function of the Python library. *)
Variable hypot : Q -> Q -> Q.

Definition euclidean (a b : Q * Q) : Q := hypot (a.1 - b.1)%Q (a.2 - b.2)%Q.

Definition compute_distance_matrix (coords : list (Q * Q)) : matrix :=
  map (fun a => map (fun b => euclidean a b) coords) coords.

Inductive construction : Type :=
  | savings | nearest | greedy | cheapest | random_construction.

(** The dictionary [method_map]: function, label. *)
Definition method_map (method : string) : option (construction * string) :=
  if String.eqb method "Clarke-Wright" then Some (savings, "Clarke-Wright Savings")
  else if String.eqb method "nearest_neighbor" then Some (nearest, "Nearest Neighbor")
  else if String.eqb method "greedy" then Some (greedy, "Greedy Algorithm")
  else if String.eqb method "cheapest_insertion" then Some (cheapest, "Cheapest Insertion")
  else if String.eqb method "random" then Some (random_construction, "Random")
  else None.

Definition run_construction (c : construction) (fuel : nat)
    (coords : list (Q * Q)) (demands : list Z) (capacity : Z) (dist : matrix)
    (g : rng) : option (solution * rng) :=
  match c with
  | savings => Some (savings_algorithm demands capacity dist, g)
  | nearest =>
      s ← nearest_neighbor_vrp fuel (length coords) demands capacity dist;
      Some (s, g)
  | greedy => Some (greedy_vrp (length coords) demands capacity dist, g)
  | cheapest =>
      s ← cheapest_insertion_vrp (length coords) demands capacity dist;
      Some (s, g)
  | random_construction =>
      Some (random_initial_solution (length coords) demands capacity g)
  end.

(** What a call leaves behind: the lines it printed and its value. *)
Record built : Type := {
  printed : list string;
  built_solution : solution;
  built_label : string;
  built_rng : rng
}.

Definition _build_initial_solution (fuel : nat) (method : string)
    (coords : list (Q * Q)) (demands : list Z) (capacity : Z) (dist : matrix)
    (g : rng) : option built :=
  let '(out, method') :=
    match method_map method with
    | None =>
        (["Unknown method '" +:+ method +:+ "', falling back to Clarke-Wright."],
         "Clarke-Wright")
    | Some _ => ([], method)
    end in
  '(func, label) ← method_map method';
  '(sol, g') ← run_construction func fuel coords demands capacity dist g;
  Some {| printed := out; built_solution := sol; built_label := label;
          built_rng := g' |}.

(** *** The main loop *)

Record vns_state : Type := {
  best : solution;
  best_cost : Q;
  k : nat;
  iteration : nat;
  last_improvement : nat;
  tabu_skips : nat;
  tabu_list : list fingerprint;
  gen : rng
}.

Definition tabu_tenure (n : nat) : nat :=
  min TABU_TENURE_MAX (max TABU_TENURE_MIN (n / 20)).
Definition patience (n : nat) : nat :=
  min PATIENCE_MAX (max PATIENCE_MIN (n / 5)).
Definition min_iterations (n : nat) : nat := max 50 (n / 10).

(** [tabu_list.append(h)], then [pop(0)] when the list got too long. *)
Definition tabu_insert (tenure : nat) (tabu : list fingerprint)
    (h : fingerprint) : list fingerprint :=
  let tabu' := tabu ++ [h] in
  if tenure <? length tabu' then drop 1 tabu' else tabu'.

(** [shake_neighborhoods[shake_idx]] *)
Definition shake (shake_idx : nat) (sol : solution) (demands : list Z)
    (capacity : Z) (k : nat) (g : rng) : solution * rng :=
  match shake_idx with
  | 0 => Shake_N1_random_relocate sol demands capacity k g
  | 1 => Shake_N2_random_swap sol demands capacity k g
  | _ => Shake_N3_double_bridge sol demands capacity k g
  end.

(** How a turn of the loop ends. *)
Inductive turn_end : Type := TabuSkip | TurnDone | EarlyStop.

Definition next_k (k : nat) : nat := k mod K_MAX + 1.

Definition VNS_body (fuel n : nat) (demands : list Z) (capacity : Z)
    (dist : matrix) (use_or_opt : bool) (st : vns_state)
  : option (vns_state * turn_end) :=
  let shake_idx := (k st - 1) mod 3 in
  let '(s_shaken, g) := shake shake_idx (best st) demands capacity (k st) (gen st) in
  if bool_decide (_solution_hash s_shaken ∈ tabu_list st) then
    Some ({| best := best st; best_cost := best_cost st;
             k := next_k (k st); iteration := iteration st + 1;
             last_improvement := last_improvement st;
             tabu_skips := tabu_skips st + 1;
             tabu_list := tabu_list st; gen := g |}, TabuSkip)
  else
    s_local ← VND fuel s_shaken demands capacity dist use_or_opt;
    let cost_local := solution_cost s_local dist in
    let routes_local := length s_local in
    let accept :=
      Qlt_bool cost_local (best_cost st - EPS)
      || (Qlt_bool (Qabs (cost_local - best_cost st)) EPS
          && (routes_local <? length (best st))) in
    let st' :=
      if accept then
        {| best := s_local; best_cost := cost_local;
           k := 1; iteration := iteration st + 1;
           last_improvement := iteration st;
           tabu_skips := tabu_skips st;
           tabu_list := tabu_insert (tabu_tenure n) (tabu_list st)
                          (_solution_hash s_local);
           gen := g |}
      else
        {| best := best st; best_cost := best_cost st;
           k := next_k (k st); iteration := iteration st + 1;
           last_improvement := last_improvement st;
           tabu_skips := tabu_skips st;
           tabu_list := tabu_list st; gen := g |} in
    if (min_iterations n <? iteration st')
       && (patience n <? iteration st' - last_improvement st')
    then Some (st', EarlyStop)
    else Some (st', TurnDone).

(** [while iteration < max_iter and (time.time() - start_time) < max_time];
    [elapsed i] is the time read by the test that starts turn [i]. *)
Fixpoint VNS_loop (fuel n : nat) (demands : list Z) (capacity : Z)
    (dist : matrix) (use_or_opt : bool) (max_iter : nat) (max_time : Q)
    (elapsed : nat -> Q) (st : vns_state) : option vns_state :=
  if (iteration st <? max_iter) && Qlt_bool (elapsed (iteration st)) max_time then
    match fuel with
    | O => None
    | S fuel' =>
        '(st', e) ← VNS_body fuel' n demands capacity dist use_or_opt st;
        match e with
        | EarlyStop => Some st'
        | _ => VNS_loop fuel' n demands capacity dist use_or_opt
                 max_iter max_time elapsed st'
        end
    end
  else Some st.

(** The state in which the loop is entered. *)
Definition VNS_init (fuel : nat) (coords : list (Q * Q)) (demands : list Z)
    (capacity : Z) (construction_method : string) (use_or_opt : bool)
    (g : rng) : option (list string * vns_state) :=
  let dist := compute_distance_matrix coords in
  b ← _build_initial_solution fuel construction_method coords demands
        capacity dist g;
  s ← VND fuel (built_solution b) demands capacity dist use_or_opt;
  Some (printed b,
        {| best := s; best_cost := solution_cost s dist; k := 1;
           iteration := 0; last_improvement := 0; tabu_skips := 0;
           tabu_list := []; gen := built_rng b |}).

Definition VNS_run (fuel : nat) (coords : list (Q * Q)) (demands : list Z)
    (capacity : Z) (max_iter : nat) (max_time : Q)
    (construction_method : string) (use_or_opt : bool)
    (g : rng) (elapsed : nat -> Q) : option (list string * vns_state) :=
  '(out, st) ← VNS_init fuel coords demands capacity construction_method
                 use_or_opt g;
  st' ← VNS_loop fuel (length coords) demands capacity
          (compute_distance_matrix coords) use_or_opt max_iter max_time
          elapsed st;
  Some (out, st').

(** [return best, best_cost, recorder]; the recorder takes no part in the
    search and is left out. *)
Definition VNS_solver (fuel : nat) (coords : list (Q * Q)) (demands : list Z)
    (capacity : Z) (max_iter : nat) (max_time : Q)
    (construction_method : string) (use_or_opt : bool)
    (g : rng) (elapsed : nat -> Q) : option (solution * Q) :=
  '(_, st) ← VNS_run fuel coords demands capacity max_iter max_time
               construction_method use_or_opt g elapsed;
  Some (best st, best_cost st).

End Solver.

(** ** Notions used to state the properties *)


(** A route and the same route, possibly traversed backwards. *)
Inductive same_route : route -> route -> Prop :=
  | same_forward r : same_route r r
  | same_reversed r : same_route r (reverse r).

(** ** A small instance on one axis

    The depot is at the origin and five customers lie on the horizontal
    axis, at [2^-22], [1], [1.5], [-1] and [1.75].  All coordinates and all
    sums of distances that occur are multiples of [2^-22] below 16, hence
    exact in double precision. *)

(** [math.hypot] on the horizontal axis: [hypot(x, 0.0) = |x|].  The
    instance only ever calls it with a second argument equal to zero. *)
Definition hypot_axis (x y : Q) : Q := Qabs x.

Definition axis_coords : list (Q * Q) :=
  [(0, 0); (1 # 4194304, 0); (1, 0); (3 # 2, 0); (-1, 0); (7 # 4, 0)]%Q.
Definition axis_demands : list Z := [0; 1; 1; 4; 5; 6]%Z.
Definition axis_capacity : Z := 10%Z.
Definition axis_dist : matrix := compute_distance_matrix hypot_axis axis_coords.

(** Draws that make the first shake move customer 4 between customers 1 and
    2, and every later shake either fail its capacity test or reorder a
    route. *)
Definition quiet_draws (k : nat) : list nat :=
  match (k - 1) mod 3 with
  | 0 => concat (replicate k [0; 0; 0; 0])
  | 1 => concat (replicate k [0; 0; 0; 1])
  | _ => concat (replicate k [0; 0; 0])
  end.

Definition axis_draws (turns : nat) : rng :=
  [1; 0; 0; 1] ++ flat_map (fun i => quiet_draws (i mod K_MAX + 1)) (seq 0 turns).

(** A clock that never advances. *)
Definition frozen_clock : nat -> Q := fun _ => 0%Q.

(** The state in which the instance enters the main loop (nearest
    neighbour construction followed by the descent), and the state after
    the first turn. *)
Definition axis_start : vns_state :=
  Eval vm_compute in
    match VNS_init hypot_axis 30 axis_coords axis_demands axis_capacity
            "nearest_neighbor" false (axis_draws 0) with
    | Some (_, st) => st
    | None => {| best := []; best_cost := 0; k := 0; iteration := 0;
                 last_improvement := 0; tabu_skips := 0; tabu_list := [];
                 gen := [] |}
    end.

Definition axis_second : vns_state :=
  Eval vm_compute in
    match VNS_body 30 6 axis_demands axis_capacity axis_dist false axis_start with
    | Some (st, _) => st
    | None => axis_start
    end.

(** ** Feasible solutions *)

(** A route starts and ends at the depot. *)
Definition wf_route (r : route) : Prop :=
  head r = Some 0 ∧ last r = Some 0 ∧ 2 ≤ length r.

(** The interior customers of all routes, with repetitions. *)
Definition customers (sol : solution) : list nat := concat (map interior sol).

(** The customers are exactly [1 .. n-1], each once, and no route exceeds
    the capacity. *)
Definition feasible (n : nat) (demands : list Z) (capacity : Z)
    (sol : solution) : Prop :=
  Forall wf_route sol
  ∧ customers sol ≡ₚ seq 1 (n - 1)
  ∧ Forall (fun r => (route_demand r demands <= capacity)%Z) sol.

Global Instance wf_route_dec r : Decision (wf_route r).
Proof. unfold wf_route. apply _. Defined.

Global Instance feasible_dec n demands capacity sol :
  Decision (feasible n demands capacity sol).
Proof. unfold feasible. apply _. Defined.

(** An instance: one demand per node, none negative. *)
Definition instance_ok (n : nat) (demands : list Z) : Prop :=
  length demands = n ∧ Forall (fun q => (0 <= q)%Z) demands.

(** A distance matrix: no negative entry, symmetric. *)
Definition dist_ok (dist : matrix) : Prop :=
  ∀ a b, (0 <= d dist a b)%Q ∧ (d dist a b == d dist b a)%Q.

(** ** Notions used in the proofs *)

(** The number of occurrences of a node. *)
Abbreviation cnt l x := (count_occ Nat.eq_dec l x).

(** The demand that [route_demand] charges for a node. *)
Definition charged (demands : list Z) (c : nat) : Z :=
  if decide (c = 0) then 0%Z else demand demands c.

(** The last node of a path. *)
Definition tail_node (l : route) : nat := node l (length l - 1).

(** The route after an intra-route move of the chain [start .. start+len-1]
    to the place in front of position [insert_pos]. *)
Definition or_intra (r : route) (start chain_len insert_pos : nat) : route :=
  insert_chain
    (if start <? insert_pos then insert_pos - chain_len else insert_pos)
    (slice r start (start + chain_len))
    (del_slice r start (start + chain_len)).

(** The pass that a neighbourhood repeats. *)
Definition pass_of (nb : neighborhood) (demands : list Z) (capacity : Z)
    (dist : matrix) : solution → option solution :=
  match nb with
  | NB_N1 => N1_pass dist
  | NB_N5 => N5_pass demands capacity dist
  | NB_N2 => N2_pass demands capacity dist
  | NB_N3 => N3_pass demands capacity dist
  | NB_N4 => N4_pass demands capacity dist
  | NB_N6 => N6_pass demands capacity dist
  end.

(** No neighbourhood of the list has an improving move. *)
Definition stable (use_or_opt : bool) (demands : list Z) (capacity : Z)
    (dist : matrix) (sol : solution) : Prop :=
  ∀ nb, nb ∈ neighborhoods use_or_opt →
    pass_of nb demands capacity dist sol = None.

(** The quantity that every accepted step lowers by more than 1e-6. *)
Definition potential (dist : matrix) (sol : solution) : Q :=
  (solution_cost sol dist + (2 # 1000000) * inject_Z (Z.of_nat (length sol)))%Q.

(** ** Notions used to state further properties *)

(** The tabu list is empty or holds the fingerprint of the best solution. *)
Definition tabu_knows_best (st : vns_state) : Prop :=
  tabu_list st = [] ∨ _solution_hash (best st) ∈ tabu_list st.

(** What the main loop keeps true of its state. *)
Definition vns_sane (n : nat) (demands : list Z) (capacity : Z) (dist : matrix)
    (st : vns_state) : Prop :=
  1 ≤ k st ≤ K_MAX
  ∧ last_improvement st ≤ iteration st
  ∧ tabu_skips st ≤ iteration st
  ∧ best_cost st = solution_cost (best st) dist
  ∧ feasible n demands capacity (best st).

(** The state of the instance on the axis after its first turn, entering a
    turn of strength 3, and its state after three turns. *)
Definition axis_second_k3 : vns_state :=
  {| best := best axis_second; best_cost := best_cost axis_second; k := 3;
     iteration := 1; last_improvement := 0; tabu_skips := 0;
     tabu_list := tabu_list axis_second; gen := [0; 0; 0; 0; 0; 0; 0; 0; 0] |}.

Definition axis_after_three : vns_state :=
  Eval vm_compute in
    match VNS_loop 30 6 axis_demands axis_capacity axis_dist false 3 600
            frozen_clock axis_start with
    | Some st => st
    | None => axis_start
    end.

(** A distance matrix with [n] rows of [n] entries. *)
Definition square (n : nat) (dist : matrix) : Prop :=
  length dist = n ∧ Forall (λ row, length row = n) dist.

(** Every customer alone fits into a vehicle. *)
Definition all_fit (n : nat) (demands : list Z) (capacity : Z) : Prop :=
  ∀ c, 1 ≤ c < n → (demand demands c <= capacity)%Z.

(** The customers of a fragment, and of all fragments. *)
Definition cust (f : list nat) : list nat := filter (λ c, c ≠ 0) f.
Definition members (F : list (list nat)) : list nat := concat (map cust F).

(** A fragment is a path [m] of customers with, possibly, the depot in
    front and the depot behind. *)
Definition shaped (f m : list nat) : Prop :=
  (0 ∉ m) ∧ m ≠ []
  ∧ (f = m ∨ f = 0 :: m ∨ f = m ++ [0] ∨ f = 0 :: m ++ [0]).

(** What the greedy construction keeps true of its state. *)
Definition greedy_inv (n : nat) (demands : list Z) (capacity : Z)
    (st : greedy_state) : Prop :=
  length (fragment_loads st) = length (fragments st)
  ∧ Forall (λ f, f = [] ∨ ∃ m, shaped f m) (fragments st)
  ∧ (∀ c idx, customer_to_fragment st !! c = Some idx →
       c ≠ 0 ∧ c ∈ nth idx (fragments st) [])
  ∧ (∀ c, 0 < cnt (members (fragments st)) c →
       is_Some (customer_to_fragment st !! c) ∧ 1 ≤ c < n)
  ∧ (∀ c, cnt (members (fragments st)) c ≤ 1)
  ∧ (∀ idx, idx < length (fragments st) →
       nth idx (fragment_loads st) 0%Z
       = route_demand (nth idx (fragments st) []) demands
       ∧ (nth idx (fragments st) [] ≠ [] →
          (route_demand (nth idx (fragments st) []) demands <= capacity)%Z)).

(** ** animation.py *)

(** A stored frame: [{'solution', 'cost', 'operation', 'details'}]. *)
Record frame : Type := {
  frame_solution : solution;
  frame_cost : Q;
  frame_operation : string;
  frame_details : string
}.

(** The state of a [VNSAnimationRecorder]. *)
Record VNSAnimationRecorder : Type := {
  recorder_coords : list (Q * Q);
  frames : list frame
}.

(** [add_frame]: the frame is stored when [force] is set, when no frame is
    stored yet, or when the cost is below the cost of the last stored frame
    by more than 1e-6. *)
Definition add_frame (self : VNSAnimationRecorder) (sol : solution) (cost : Q)
    (operation details : string) (force : bool) : VNSAnimationRecorder :=
  if force
     || match last (frames self) with
        | None => true
        | Some f => Qlt_bool cost (frame_cost f - EPS)
        end
  then {| recorder_coords := recorder_coords self;
          frames := frames self
                    ++ [{| frame_solution := sol; frame_cost := cost;
                           frame_operation := operation;
                           frame_details := details |}] |}
  else self.

(** [__init__] *)
Definition recorder_init (coords : list (Q * Q)) (initial_solution : solution)
    (initial_cost : Q) : VNSAnimationRecorder :=
  add_frame {| recorder_coords := coords; frames := [] |}
    initial_solution initial_cost "Initial Solution" "" true.

(** A sequence of calls [add_frame(solution, cost, operation, details)]
    without [force]. *)
Definition add_frames (self : VNSAnimationRecorder)
    (calls : list (solution * Q * string * string)) : VNSAnimationRecorder :=
  fold_left (λ r '(s, c, o, dt), add_frame r s c o dt false) calls self.

From Stdlib Require Import Ascii Qround DecimalString DecimalNat.

(** ** visualization.py and parser.py: solution files

    The text of a file is the list of its characters.  The model covers
    ASCII text: the characters are the characters of Rocq, and the
    functions of Python strings below are given for ASCII. *)

Abbreviation text := (list ascii).

(** A literal of the source. *)
Definition lit (s : string) : text := String.list_ascii_of_string s.

(** [c.isspace()], [c.isdigit()] and [c.lower()] on one ASCII character:
    the white space is [\t \n \v \f \r], [\x1c .. \x1f] and the blank. *)
Definition isspace (c : ascii) : bool :=
  let n := nat_of_ascii c in
  ((9 <=? n) && (n <=? 13)) || ((28 <=? n) && (n <=? 31)) || (n =? 32).
Definition isdigit_char (c : ascii) : bool :=
  let n := nat_of_ascii c in (48 <=? n) && (n <=? 57).
Definition lower_char (c : ascii) : ascii :=
  let n := nat_of_ascii c in
  if (65 <=? n) && (n <=? 90) then ascii_of_nat (n + 32) else c.

(** [s.lower()], [s.lstrip()], [s.rstrip()], [s.strip()],
    [s.startswith(p)] *)
Definition lower (s : text) : text := map lower_char s.
Fixpoint lstrip (s : text) : text :=
  match s with
  | [] => []
  | c :: s' => if isspace c then lstrip s' else s
  end.
Definition rstrip (s : text) : text := reverse (lstrip (reverse s)).
Definition strip (s : text) : text := rstrip (lstrip s).
Fixpoint startswith (p s : text) : bool :=
  match p, s with
  | [], _ => true
  | _ :: _, [] => false
  | a :: p', b :: s' => Ascii.eqb a b && startswith p' s'
  end.

(** The pieces of a text between the characters that satisfy [sep]:
    [s.split(':')] splits at every colon, the lines of a file are split at
    every end of line, and [s.split()] keeps the pieces between white
    space that are not empty. *)
Fixpoint split_when (sep : ascii → bool) (s : text) : list text :=
  match s with
  | [] => [[]]
  | c :: s' =>
      if sep c then [] :: split_when sep s'
      else match split_when sep s' with
           | [] => [[c]]
           | w :: ws => (c :: w) :: ws
           end
  end.
Definition is_colon (c : ascii) : bool := Ascii.eqb c ":".
Definition is_newline (c : ascii) : bool :=
  Ascii.eqb c "010" || Ascii.eqb c "013".
Definition nonempty (s : text) : bool := negb (length s =? 0).
Definition words (s : text) : list text := filter nonempty (split_when isspace s).

(** [[line.strip() for line in f if line.strip()]] *)
Definition stripped_lines (content : text) : list text :=
  filter nonempty (map strip (split_when is_newline content)).

(** [s.isdigit()], [int(s)] and [str(n)] for decimal digits. *)
Definition isdigit (s : text) : bool := nonempty s && forallb isdigit_char s.
Definition digits_value (s : text) : option nat :=
  Nat.of_uint <$> NilEmpty.uint_of_string (String.string_of_list_ascii s).
Definition int_of (s : text) : option nat :=
  if nonempty s then digits_value s else None.
Definition str_of_nat (n : nat) : text :=
  String.list_ascii_of_string (NilEmpty.string_of_uint (Nat.to_uint n)).
Definition str_of_Z (z : Z) : text :=
  if (z <? 0)%Z then lit "-" ++ str_of_nat (Z.abs_nat z)
  else str_of_nat (Z.abs_nat z).

(** [' '.join(l)] *)
Fixpoint join (sep : text) (l : list text) : text :=
  match l with
  | [] => []
  | [x] => x
  | x :: l' => x ++ sep ++ join sep l'
  end.

(** [re.search(r'[\d.]+', s)]: the first longest run of digits and dots. *)
Definition is_numchar (c : ascii) : bool := isdigit_char c || Ascii.eqb c ".".
Fixpoint skip_to_number (s : text) : text :=
  match s with
  | [] => []
  | c :: s' => if is_numchar c then s else skip_to_number s'
  end.
Fixpoint number_run (s : text) : text :=
  match s with
  | [] => []
  | c :: s' => if is_numchar c then c :: number_run s' else []
  end.
Definition search_number (s : text) : option text :=
  match skip_to_number s with
  | [] => None
  | rest => Some (number_run rest)
  end.

(** [float(m)] for a text [m] of digits and dots: digits with at most one
    dot, and at least one digit; anything else raises ValueError. *)
Definition float_of (m : text) : option Q :=
  match split_when (λ c, Ascii.eqb c ".") m with
  | [a] => n ← int_of a; Some (inject_Z (Z.of_nat n))
  | [a; b] =>
      n ← digits_value a; f ← digits_value b;
      if nonempty a || nonempty b
      then Some (inject_Z (Z.of_nat n)
                 + inject_Z (Z.of_nat f) / inject_Z (10 ^ Z.of_nat (length b)))%Q
      else None
  | _ => None
  end.

(** [int(round(cost))]: the nearest integer, the even one of two. *)
Definition py_round (q : Q) : Z :=
  let f := Qfloor q in
  let r := (q - inject_Z f)%Q in
  if Qlt_bool r (1 # 2) then f
  else if Qlt_bool (1 # 2) r then (f + 1)%Z
  else if Z.even f then f else (f + 1)%Z.

(** [save_solution]: the text written to the file, one [f.write] after
    the other. *)
Definition newline : text := ["010"%char].
Definition route_text (i : nat) (r : route) : text :=
  lit "Route #" ++ str_of_nat (i + 1) ++ lit ": "
  ++ join (lit " ") (map (λ c, str_of_nat (c + 1)) (interior r)).
Definition cost_text (cost : Q) : text := lit "Cost " ++ str_of_Z (py_round cost).
Definition save_solution (sol : solution) (cost : Q) : text :=
  concat (map (λ '(i, r), route_text i r ++ newline) (enumerate sol))
  ++ cost_text cost ++ newline.

(** [parse_sol]: the routes and the cost read so far, and one line. *)
Definition parse_sol_line (st : list (list Z) * option Q) (line : text)
  : option (list (list Z) * option Q) :=
  if startswith (lit "cost") (lower line) then
    match search_number line with
    | Some m => q ← float_of m; Some (st.1, Some q)
    | None => Some st
    end
  else if startswith (lit "route") (lower line) then
    let route_part :=
      if existsb is_colon line then nth 1 (split_when is_colon line) []
      else [] in
    nodes ← mapM (λ n, (λ k, (Z.of_nat k - 1)%Z) <$> int_of n)
                 (filter (λ n, isdigit (strip n)) (words route_part));
    match nodes with
    | [] => Some st
    | _ => Some (st.1 ++ [nodes], st.2)
    end
  else Some st.

Fixpoint parse_sol_lines (st : list (list Z) * option Q) (lines : list text)
  : option (list (list Z) * option Q) :=
  match lines with
  | [] => Some st
  | line :: rest => st' ← parse_sol_line st line; parse_sol_lines st' rest
  end.

(** [parse_sol]: the routes and the cost, or no value when the call
    raises an error. *)
Definition parse_sol (content : text) : option (list (list Z) * option Q) :=
  parse_sol_lines ([], None) (stripped_lines content).

From Stdlib Require Import PrimFloat.

(** ** The arithmetic of the costs

    The distances and the costs of the source are Python floats.  The
    definitions above compute them with exact rationals; this section gives
    the functions of [utils.py], [neighborhoods.py] and [vnd.py] once more,
    with the same text, over an arithmetic that is a parameter: the
    operations [+], [-], unary [-], [abs], [<] and [sum] on numbers, and
    the two constants [IMPROVEMENT_THRESHOLD = 0.001] and [1e-6].  Two
    arithmetics are given: [exact], the rationals used above, and
    [binary64], the double precision numbers of the machine, where every
    operation rounds to the nearest double (ties to even) as Python does.
    What is proved for every arithmetic holds of both; a run in
    [binary64] shows what rounding can do.

    The functions that do not compute with numbers (the candidate moves of
    N1 and N4, the moves themselves, the [while improved] loop) are the
    ones defined above. *)

Module Num.

Record arith : Type := {
  num : Type;
  zero : num;
  add : num → num → num;
  sub : num → num → num;
  neg : num → num;
  absolute : num → num;
  lt : num → num → bool;
  (** [sum(...)] over numbers *)
  total : list num → num;
  (** [IMPROVEMENT_THRESHOLD] and the literal [1e-6] *)
  threshold : num;
  eps : num
}.

(** The rationals, without rounding. *)
Definition exact : arith :=
  {| num := Q; zero := 0%Q; add := Qplus; sub := Qminus; neg := Qopp;
     absolute := Qabs; lt := Qlt_bool; total := Qsum;
     threshold := IMPROVEMENT_THRESHOLD; eps := EPS |}.

(** Double precision.  [0x1.0624dd2f1a9fcp-10] and [0x1.0c6f7a0b5ed8dp-20]
    are the doubles that the literals [0.001] and [1e-6] denote; [sum]
    adds from left to right, starting from 0 (an interpreter whose [sum]
    compensates the rounding errors of the partial sums is another value
    of [total]). *)
Definition binary64 : arith :=
  {| num := float; zero := 0%float; add := PrimFloat.add;
     sub := PrimFloat.sub; neg := PrimFloat.opp; absolute := PrimFloat.abs;
     lt := PrimFloat.ltb;
     total := fun l => fold_left PrimFloat.add l 0%float;
     threshold := 0x1.0624dd2f1a9fcp-10%float;
     eps := 0x1.0c6f7a0b5ed8dp-20%float |}.

Section Generic.

Context (A : arith).

Local Notation "x + y" := (add A x y) (at level 50, left associativity).
Local Notation "x - y" := (sub A x y) (at level 50, left associativity).

(** [dist[a][b]] *)
Definition d (dist : list (list (num A))) (a b : nat) : num A :=
  nth b (nth a dist []) (zero A).

(** *** utils.py *)

Definition route_cost (r : route) (dist : list (list (num A))) : num A :=
  total A (map (fun i => d dist (node r i) (node r (i + 1)%nat))
               (range 0 (length r - 1)%nat)).

Definition solution_cost (sol : solution) (dist : list (list (num A))) : num A :=
  total A (map (fun r => route_cost r dist) sol).

(** *** neighborhoods.py *)

Definition best_step {M} (acc : num A * option M) (c : num A * M)
  : num A * option M :=
  if lt A (fst c) (fst acc) then (fst c, Some (snd c)) else acc.

Definition best_of {M} (cands : list (num A * M)) : option M :=
  snd (fold_left best_step cands (neg A (threshold A), None)).

Definition two_opt_delta (dist : list (list (num A))) (r : route) (i j : nat)
  : num A :=
  d dist (node r (i - 1)%nat) (node r j)
  + d dist (node r i) (node r (j + 1)%nat)
  - d dist (node r (i - 1)%nat) (node r i)
  - d dist (node r j) (node r (j + 1)%nat).

Definition N1_pass (dist : list (list (num A))) (sol : solution)
  : option solution :=
  match find (fun '(r_idx, i, j) =>
                lt A (two_opt_delta dist (route_at sol r_idx) i j)
                     (neg A (threshold A)))
             (N1_candidates sol) with
  | Some (r_idx, i, j) =>
      Some (<[r_idx := reverse_segment (route_at sol r_idx) i j]> sol)
  | None => None
  end.

Definition N1_two_opt_intra (fuel : nat) (sol : solution)
    (dist : list (list (num A))) : option solution :=
  improve_loop (N1_pass dist) fuel sol.

Definition N2_candidates (sol : solution) (demands : list Z) (capacity : Z)
    (dist : list (list (num A))) : list (num A * (nat * nat * nat * nat)) :=
  flat_map (fun r1_idx =>
    let r1 := route_at sol r1_idx in
    if (length r1 <=? 2)%nat then []
    else flat_map (fun c_idx =>
      let customer := node r1 c_idx in
      let removal_delta :=
        d dist (node r1 (c_idx - 1)%nat) (node r1 (c_idx + 1)%nat)
        - d dist (node r1 (c_idx - 1)%nat) customer
        - d dist customer (node r1 (c_idx + 1)%nat) in
      flat_map (fun r2_idx =>
        let r2 := route_at sol r2_idx in
        if (r1_idx =? r2_idx)%nat then []
        else if (capacity <? route_demand r2 demands + demand demands customer)%Z
        then []
        else map (fun pos =>
          let insert_delta :=
            d dist (node r2 (pos - 1)%nat) customer + d dist customer (node r2 pos)
            - d dist (node r2 (pos - 1)%nat) (node r2 pos) in
          (removal_delta + insert_delta, (r1_idx, c_idx, r2_idx, pos)))
          (range 1 (length r2)))
        (range 0 (length sol)))
      (range 1 (length r1 - 1)%nat))
    (range 0 (length sol)).

Definition N2_pass (demands : list Z) (capacity : Z)
    (dist : list (list (num A))) (sol : solution) : option solution :=
  N2_apply sol <$> best_of (N2_candidates sol demands capacity dist).

Definition N2_relocate_inter (fuel : nat) (sol : solution) (demands : list Z)
    (capacity : Z) (dist : list (list (num A))) : option solution :=
  improve_loop (N2_pass demands capacity dist) fuel sol.

Definition N3_candidates (sol : solution) (demands : list Z) (capacity : Z)
    (dist : list (list (num A))) : list (num A * (nat * nat * nat * nat)) :=
  flat_map (fun r1_idx =>
    let r1 := route_at sol r1_idx in
    if (length r1 <=? 2)%nat then []
    else flat_map (fun c1_idx =>
      let c1 := node r1 c1_idx in
      flat_map (fun r2_idx =>
        let r2 := route_at sol r2_idx in
        if (length r2 <=? 2)%nat then []
        else flat_map (fun c2_idx =>
          let c2 := node r2 c2_idx in
          let load1 := (route_demand r1 demands - demand demands c1
                        + demand demands c2)%Z in
          let load2 := (route_demand r2 demands - demand demands c2
                        + demand demands c1)%Z in
          if (capacity <? load1)%Z || (capacity <? load2)%Z then []
          else
            let delta :=
              d dist (node r1 (c1_idx - 1)%nat) c2
              + d dist c2 (node r1 (c1_idx + 1)%nat)
              + d dist (node r2 (c2_idx - 1)%nat) c1
              + d dist c1 (node r2 (c2_idx + 1)%nat)
              - d dist (node r1 (c1_idx - 1)%nat) c1
              - d dist c1 (node r1 (c1_idx + 1)%nat)
              - d dist (node r2 (c2_idx - 1)%nat) c2
              - d dist c2 (node r2 (c2_idx + 1)%nat) in
            [(delta, (r1_idx, c1_idx, r2_idx, c2_idx))])
          (range 1 (length r2 - 1)%nat))
        (range (r1_idx + 1)%nat (length sol)))
      (range 1 (length r1 - 1)%nat))
    (range 0 (length sol)).

Definition N3_pass (demands : list Z) (capacity : Z)
    (dist : list (list (num A))) (sol : solution) : option solution :=
  N3_apply sol <$> best_of (N3_candidates sol demands capacity dist).

Definition N3_swap_inter (fuel : nat) (sol : solution) (demands : list Z)
    (capacity : Z) (dist : list (list (num A))) : option solution :=
  improve_loop (N3_pass demands capacity dist) fuel sol.

Definition N4_improves (sol : solution) (demands : list Z) (capacity : Z)
    (dist : list (list (num A))) (m : nat * nat * nat * nat) : bool :=
  let '(r1_idx, r2_idx, i, j) := m in
  let new_r1 := N4_new_r1 sol r1_idx r2_idx i j in
  let new_r2 := N4_new_r2 sol r1_idx r2_idx i j in
  if (route_demand new_r1 demands <=? capacity)%Z
     && (route_demand new_r2 demands <=? capacity)%Z
  then
    let old_cost := route_cost (route_at sol r1_idx) dist
                    + route_cost (route_at sol r2_idx) dist in
    let new_cost := route_cost new_r1 dist + route_cost new_r2 dist in
    lt A new_cost (old_cost - threshold A)
  else false.

Definition N4_pass (demands : list Z) (capacity : Z)
    (dist : list (list (num A))) (sol : solution) : option solution :=
  N4_apply sol <$> find (N4_improves sol demands capacity dist) (N4_candidates sol).

Definition N4_two_opt_inter (fuel : nat) (sol : solution) (demands : list Z)
    (capacity : Z) (dist : list (list (num A))) : option solution :=
  improve_loop (N4_pass demands capacity dist) fuel sol.

Definition N5_candidates (sol : solution) (demands : list Z) (capacity : Z)
    (dist : list (list (num A))) : list (num A * (nat * nat * route)) :=
  flat_map (fun r1_idx =>
    flat_map (fun r2_idx =>
      let r1 := route_at sol r1_idx in
      let r2 := route_at sol r2_idx in
      let total_demand := (route_demand r1 demands + route_demand r2 demands)%Z in
      if (total_demand <=? capacity)%Z then
        let old_cost := route_cost r1 dist + route_cost r2 dist in
        map (fun merged => (route_cost merged dist - old_cost,
                            (r1_idx, r2_idx, merged)))
            (N5_configs r1 r2)
      else [])
      (range (r1_idx + 1)%nat (length sol)))
    (range 0 (length sol)).

Definition N5_pass (demands : list Z) (capacity : Z)
    (dist : list (list (num A))) (sol : solution) : option solution :=
  N5_apply sol <$> best_of (N5_candidates sol demands capacity dist).

Definition N5_merge_routes (fuel : nat) (sol : solution) (demands : list Z)
    (capacity : Z) (dist : list (list (num A))) : option solution :=
  improve_loop (N5_pass demands capacity dist) fuel sol.

Definition N6_intra_candidates (sol : solution) (dist : list (list (num A)))
    (chain_len : nat) : list (num A * or_move) :=
  flat_map (fun r_idx =>
    let r := route_at sol r_idx in
    if (length r <=? chain_len + 2)%nat then []
    else flat_map (fun start =>
      flat_map (fun insert_pos =>
        if (start <=? insert_pos)%nat && (insert_pos <=? start + chain_len)%nat
        then []
        else
          let old_cost :=
            d dist (node r (start - 1)%nat) (node r start)
            + d dist (node r (start + chain_len - 1)%nat)
                (node r (start + chain_len)%nat)
            + d dist (node r (insert_pos - 1)%nat) (node r insert_pos) in
          let new_cost :=
            d dist (node r (start - 1)%nat) (node r (start + chain_len)%nat)
            + d dist (node r (insert_pos - 1)%nat) (node r start)
            + d dist (node r (start + chain_len - 1)%nat) (node r insert_pos) in
          [(new_cost - old_cost, Intra r_idx start chain_len insert_pos)])
        (range 1 (length r - 1)%nat))
      (range 1 (length r - chain_len)%nat))
    (range 0 (length sol)).

Definition chain_edges (dist : list (list (num A))) (r : route)
    (start chain_len : nat) : list (num A) :=
  map (fun i => d dist (node r (start + i)%nat) (node r (start + i + 1)%nat))
      (range 0 (chain_len - 1)%nat).

Definition N6_inter_candidates (sol : solution) (demands : list Z)
    (capacity : Z) (dist : list (list (num A))) (chain_len : nat)
  : list (num A * or_move) :=
  flat_map (fun r1_idx =>
    let r1 := route_at sol r1_idx in
    if (length r1 <=? chain_len + 1)%nat then []
    else flat_map (fun start =>
      let chain_demand :=
        Zsum (map (fun i => demand demands (node r1 (start + i)%nat))
                  (range 0 chain_len)) in
      flat_map (fun r2_idx =>
        let r2 := route_at sol r2_idx in
        if (r1_idx =? r2_idx)%nat then []
        else if (capacity <? route_demand r2 demands + chain_demand)%Z then []
        else map (fun insert_pos =>
          let removal_cost :=
            fold_left (sub A) (chain_edges dist r1 start chain_len)
              (d dist (node r1 (start - 1)%nat) (node r1 (start + chain_len)%nat)
               - d dist (node r1 (start - 1)%nat) (node r1 start))
            - d dist (node r1 (start + chain_len - 1)%nat)
                (node r1 (start + chain_len)%nat) in
          let insert_cost :=
            fold_left (add A) (chain_edges dist r1 start chain_len)
              (d dist (node r2 (insert_pos - 1)%nat) (node r1 start)
               + d dist (node r1 (start + chain_len - 1)%nat) (node r2 insert_pos)
               - d dist (node r2 (insert_pos - 1)%nat) (node r2 insert_pos)) in
          (removal_cost + insert_cost,
           Inter r1_idx start chain_len r2_idx insert_pos))
          (range 1 (length r2)))
        (range 0 (length sol)))
      (range 1 (length r1 - chain_len)%nat))
    (range 0 (length sol)).

Definition N6_candidates (sol : solution) (demands : list Z) (capacity : Z)
    (dist : list (list (num A))) : list (num A * or_move) :=
  flat_map (fun chain_len =>
    N6_intra_candidates sol dist chain_len
    ++ N6_inter_candidates sol demands capacity dist chain_len)
    [1; 2; 3]%nat.

Definition N6_pass (demands : list Z) (capacity : Z)
    (dist : list (list (num A))) (sol : solution) : option solution :=
  N6_apply sol <$> best_of (N6_candidates sol demands capacity dist).

Definition N6_or_opt (fuel : nat) (sol : solution) (demands : list Z)
    (capacity : Z) (dist : list (list (num A))) : option solution :=
  improve_loop (N6_pass demands capacity dist) fuel sol.

(** *** vnd.py *)

(** The pass that a neighbourhood repeats. *)
Definition pass_of (nb : neighborhood) (demands : list Z) (capacity : Z)
    (dist : list (list (num A))) : solution → option solution :=
  match nb with
  | NB_N1 => N1_pass dist
  | NB_N5 => N5_pass demands capacity dist
  | NB_N2 => N2_pass demands capacity dist
  | NB_N3 => N3_pass demands capacity dist
  | NB_N4 => N4_pass demands capacity dist
  | NB_N6 => N6_pass demands capacity dist
  end.

Definition run_neighborhood (nb : neighborhood) (fuel : nat) (sol : solution)
    (demands : list Z) (capacity : Z) (dist : list (list (num A)))
  : option solution :=
  match nb with
  | NB_N1 => N1_two_opt_intra fuel sol dist
  | NB_N5 => N5_merge_routes fuel sol demands capacity dist
  | NB_N2 => N2_relocate_inter fuel sol demands capacity dist
  | NB_N3 => N3_swap_inter fuel sol demands capacity dist
  | NB_N4 => N4_two_opt_inter fuel sol demands capacity dist
  | NB_N6 => N6_or_opt fuel sol demands capacity dist
  end.

Definition cost_improved (new_cost old_cost : num A) : bool :=
  lt A new_cost (old_cost - eps A).
Definition routes_reduced (new_cost old_cost : num A)
    (new_routes old_routes : nat) : bool :=
  lt A (absolute A (new_cost - old_cost)) (eps A)
  && (new_routes <? old_routes)%nat.

(** The test [cost_improved or routes_reduced] on a result of a
    neighbourhood. *)
Definition accepted (dist : list (list (num A))) (sol_new sol : solution)
  : bool :=
  cost_improved (solution_cost sol_new dist) (solution_cost sol dist)
  || routes_reduced (solution_cost sol_new dist) (solution_cost sol dist)
       (length sol_new) (length sol).

Definition VND_step (use_or_opt : bool) (fuel : nat) (demands : list Z)
    (capacity : Z) (dist : list (list (num A))) (st : solution * nat)
  : option (solution * nat) :=
  let '(sol, k) := st in
  let old_cost := solution_cost sol dist in
  let old_routes := length sol in
  nb ← neighborhoods use_or_opt !! k;
  sol_new ← run_neighborhood nb fuel sol demands capacity dist;
  let new_cost := solution_cost sol_new dist in
  let new_routes := length sol_new in
  if cost_improved new_cost old_cost
     || routes_reduced new_cost old_cost new_routes old_routes
  then Some (sol_new, 0%nat)
  else Some (sol, (k + 1)%nat).

Fixpoint VND_loop (use_or_opt : bool) (fuel : nat) (demands : list Z)
    (capacity : Z) (dist : list (list (num A))) (st : solution * nat)
  : option solution :=
  match fuel with
  | O => None
  | S fuel' =>
      if (st.2 <? length (neighborhoods use_or_opt))%nat then
        st' ← VND_step use_or_opt fuel' demands capacity dist st;
        VND_loop use_or_opt fuel' demands capacity dist st'
      else Some st.1
  end.

Definition VND (fuel : nat) (sol : solution) (demands : list Z) (capacity : Z)
    (dist : list (list (num A))) (use_or_opt : bool) : option solution :=
  VND_loop use_or_opt fuel demands capacity dist (sol, 0%nat).

End Generic.

End Num.

(** ** Two instances in double precision

    Four points on one axis: the depot at 0 and three customers at
    [2^53 - 1], [2^53] and [2^53 - 2].  The distances are the absolute
    differences of the coordinates, all of them doubles. *)
Definition far_dist : list (list float) :=
  [ [0; 9007199254740991; 9007199254740992; 9007199254740990];
    [9007199254740991; 0; 1; 1];
    [9007199254740992; 1; 0; 2];
    [9007199254740990; 1; 2; 0] ]%float.

(** The depot at 0 and three customers at [2^52 - 0.5], [2^52] and
    [2^52 + 2]. *)
Definition half_dist : list (list float) :=
  [ [0; 4503599627370495.5; 4503599627370496; 4503599627370498];
    [4503599627370495.5; 0; 0.5; 2.5];
    [4503599627370496; 0.5; 0; 2];
    [4503599627370498; 2.5; 2; 0] ]%float.

Definition unit_demands : list Z := [0; 1; 1; 1]%Z.

(** ** A full tabu list

    The state in which the small instance enters the main loop, with a
    tabu list of ten fingerprints that no solution of the instance has. *)
Definition axis_full : vns_state :=
  {| best := best axis_start; best_cost := best_cost axis_start;
     k := k axis_start; iteration := iteration axis_start;
     last_improvement := last_improvement axis_start;
     tabu_skips := tabu_skips axis_start;
     tabu_list := map (fun i => [[i]]) (seq 100 10);
     gen := gen axis_start |}.

(** The state after a turn of the main loop from [axis_full]. *)
Definition axis_full_second : vns_state :=
  Eval vm_compute in
    match VNS_body 30 6 axis_demands axis_capacity axis_dist false axis_full with
    | Some (st, _) => st
    | None => axis_full
    end.

(** * Properties *)

(** ** Comparisons *)

Lemma Qlt_bool_iff (x y : Q) : Qlt_bool x y = true <-> (x < y)%Q.
Proof.
  unfold Qlt_bool. rewrite negb_true_iff, <- not_true_iff_false, Qle_bool_iff.
  split; [apply Qnot_le_lt | apply Qlt_not_le].
Qed.

(** ** The fingerprint *)

Lemma tuple_le_total a b : tuple_le a b = true ∨ tuple_le b a = true.
Proof.
  revert b. induction a as [|x a IH]; intros [|y b]; simpl; auto.
  destruct (x <? y) eqn:E1, (y <? x) eqn:E2; auto.
Qed.

Lemma tuple_le_trans a b c :
  tuple_le a b = true → tuple_le b c = true → tuple_le a c = true.
Proof.
  revert b c. induction a as [|x a IH]; intros [|y b] [|z c]; simpl; auto; try done.
  destruct (x <? y) eqn:E1, (y <? x) eqn:E2, (y <? z) eqn:E3, (z <? y) eqn:E4,
           (x <? z) eqn:E5, (z <? x) eqn:E6; try done;
    rewrite ?Nat.ltb_lt, ?Nat.ltb_ge in *; try lia.
  apply IH.
Qed.

Lemma tuple_le_antisym a b :
  tuple_le a b = true → tuple_le b a = true → a = b.
Proof.
  revert b. induction a as [|x a IH]; intros [|y b]; simpl; auto; try done.
  destruct (x <? y) eqn:E1, (y <? x) eqn:E2; try done;
    rewrite ?Nat.ltb_lt, ?Nat.ltb_ge in *; try lia.
  intros. f_equal; [lia | auto].
Qed.

Global Instance tuple_leR_total : Total tuple_leR.
Proof. intros a b. apply tuple_le_total. Qed.
Global Instance tuple_leR_trans : Transitive tuple_leR.
Proof. intros a b c. apply tuple_le_trans. Qed.
Global Instance tuple_leR_antisym : AntiSymm (=) tuple_leR.
Proof. intros a b. apply tuple_le_antisym. Qed.

(** Sorting forgets the order of its input. *)
Lemma merge_sort_perm {A} (R : relation A) `{!∀ x y, Decision (R x y)}
    `{!Total R, !Transitive R, !AntiSymm (=) R} (l1 l2 : list A) :
  l1 ≡ₚ l2 → merge_sort R l1 = merge_sort R l2.
Proof.
  intros HP. apply (Sorted_unique R); try apply Sorted_merge_sort; try apply _.
  by rewrite !merge_sort_Permutation.
Qed.

Lemma interior_wrap (x y : nat) (m : list nat) : interior (x :: m ++ [y]) = m.
Proof.
  unfold interior, slice. simpl. rewrite length_app. simpl.
  replace (length m + 1 - 0) with (S (length m)) by lia. simpl.
  rewrite drop_0, take_app_length. done.
Qed.

Lemma list_ends {A} (l : list A) :
  l = [] ∨ (∃ x, l = [x]) ∨ (∃ x m y, l = x :: m ++ [y]).
Proof.
  destruct l as [|x l]; [by left|]. right.
  destruct l as [|z l' _] using rev_ind; [left; eauto|].
  right. eauto.
Qed.

Lemma interior_reverse (r : route) : interior (reverse r) = reverse (interior r).
Proof.
  destruct (list_ends r) as [-> | [[x ->] | (x & m & y & ->)]]; [done..|].
  rewrite reverse_cons, reverse_app. simpl. by rewrite !interior_wrap.
Qed.

Lemma interior_same_route r r' :
  same_route r r' → merge_sort le (interior r') = merge_sort le (interior r).
Proof.
  intros [|]; [done|]. rewrite interior_reverse.
  apply merge_sort_perm; try apply _. by rewrite reverse_Permutation.
Qed.

Lemma sorted_interiors_same (s s1 : solution) :
  Forall2 same_route s s1 →
  map (λ r, merge_sort le (interior r)) s1 = map (λ r, merge_sort le (interior r)) s.
Proof.
  induction 1 as [|r r' s s1 Hr _ IH]; simpl; [done|].
  by rewrite IH, (interior_same_route r r').
Qed.

(** C7. The fingerprint of a solution does not change when any of its
    routes are traversed backwards and when its routes are listed in another
    order: [s1] is [s] with some routes reversed, [s2] is a permutation of
    [s1], and [s2] has the fingerprint of [s]. *)
Theorem solution_hash_invariant (s s1 s2 : solution) :
  Forall2 same_route s s1 → s1 ≡ₚ s2 →
  _solution_hash s2 = _solution_hash s.
Proof.
  intros HF HP. unfold _solution_hash.
  rewrite <- (sorted_interiors_same s s1 HF).
  apply merge_sort_perm; try apply _.
  by rewrite HP.
Qed.

Lemma solution_hash_invariant_witness :
  Forall2 same_route [[0; 1; 2; 0]; [0; 3; 0]] [[0; 2; 1; 0]; [0; 3; 0]]
  ∧ [[0; 2; 1; 0]; [0; 3; 0]] ≡ₚ [[0; 3; 0]; [0; 2; 1; 0]]
  ∧ _solution_hash [[0; 3; 0]; [0; 2; 1; 0]]
    = _solution_hash [[0; 1; 2; 0]; [0; 3; 0]].
Proof.
  assert (H1 : Forall2 same_route [[0; 1; 2; 0]; [0; 3; 0]]
                                  [[0; 2; 1; 0]; [0; 3; 0]]).
  { constructor; [apply (same_reversed [0; 1; 2; 0])|].
    constructor; [apply same_forward | constructor]. }
  assert (H2 : [[0; 2; 1; 0]; [0; 3; 0]] ≡ₚ [[0; 3; 0]; [0; 2; 1; 0]])
    by apply perm_swap.
  split; [exact H1|]. split; [exact H2|].
  exact (solution_hash_invariant _ _ _ H1 H2).
Defined.

(** ** The tabu list *)

Lemma tabu_insert_length (tenure : nat) (tabu : list fingerprint) h :
  length tabu ≤ tenure → length (tabu_insert tenure tabu h) ≤ tenure.
Proof.
  intros H. unfold tabu_insert.
  destruct (tenure <? length (tabu ++ [h])) eqn:E.
  - rewrite length_drop, length_app. simpl. lia.
  - by apply Nat.ltb_ge in E.
Qed.

Lemma tabu_tenure_bounds n : 10 ≤ tabu_tenure n ≤ 20.
Proof. unfold tabu_tenure, TABU_TENURE_MAX, TABU_TENURE_MIN. lia. Qed.

Lemma VNS_body_tabu fuel n demands capacity dist use_or_opt st st' e :
  VNS_body fuel n demands capacity dist use_or_opt st = Some (st', e) →
  tabu_list st' = tabu_list st
  ∨ ∃ h, tabu_list st' = tabu_insert (tabu_tenure n) (tabu_list st) h.
Proof.
  unfold VNS_body.
  destruct (shake _ _ _ _ _ _) as [s_shaken g].
  case_bool_decide; [intros [= <- <-]; by left|].
  destruct (VND _ _ _ _ _ _) as [s_local|]; simpl; [|done].
  match goal with |- context [if ?a || ?b then _ else _] => destruct (a || b) end;
    match goal with |- context [if ?c then Some _ else Some _] => destruct c end;
    intros [= <- <-]; simpl; eauto.
Qed.


Lemma axis_start_init :
  VNS_init hypot_axis 30 axis_coords axis_demands axis_capacity
    "nearest_neighbor" false (axis_draws 0) = Some ([], axis_start).
Proof. vm_compute. reflexivity. Qed.

Lemma axis_first_turn :
  VNS_body 30 6 axis_demands axis_capacity axis_dist false axis_start
  = Some (axis_second, TurnDone).
Proof. vm_compute. reflexivity. Qed.

(** ** The descent engine *)

Lemma VND_loop_S use_or_opt fuel demands capacity dist st :
  VND_loop use_or_opt (S fuel) demands capacity dist st
  = if st.2 <? length (neighborhoods use_or_opt)
    then VND_step use_or_opt fuel demands capacity dist st
         ≫= VND_loop use_or_opt fuel demands capacity dist
    else Some st.1.
Proof. reflexivity. Qed.



(** ** Choice of the construction *)


(** ** Nearest neighbour and customers that fit no vehicle *)

Lemma nn_fold_infeasible demands capacity dist unvisited current route_load acc :
  Forall (λ c, (capacity < route_load + demand demands c)%Z) unvisited →
  fold_left (nn_step demands capacity dist current route_load) unvisited acc = acc.
Proof.
  intros H. revert acc.
  induction H as [|c l Hc _ IH]; intros acc; simpl; [done|].
  unfold nn_step at 2. apply Z.leb_gt in Hc. rewrite Hc. apply IH.
Qed.

Lemma nn_best_none demands capacity dist unvisited current route_load :
  Forall (λ c, (capacity < route_load + demand demands c)%Z) unvisited →
  nn_best demands capacity dist unvisited current route_load = None.
Proof.
  intros H. unfold nn_best. by rewrite nn_fold_infeasible.
Qed.

(** When every customer that is left exceeds the capacity, a turn of the
    outer loop changes nothing, and no amount of fuel ends the loop. *)
Lemma nn_loop_stalls demands capacity dist unvisited routes fuel :
  unvisited ≠ [] →
  Forall (λ c, (capacity < demand demands c)%Z) unvisited →
  nn_loop fuel demands capacity dist unvisited routes = None.
Proof.
  intros Hne H. revert routes.
  induction fuel as [|fuel IH]; intros routes;
    destruct unvisited as [|c rest] eqn:E; try done.
  rewrite <- E in *. cbn [nn_loop]. rewrite E at 1.
  assert (Hext : nn_extend (length unvisited) demands capacity dist unvisited
                   [0] 0 0%Z = (unvisited, [0])).
  { rewrite E at 1. cbn [length nn_extend]. by rewrite nn_best_none. }
  rewrite Hext. simpl. apply IH.
Qed.

(** C3 (violated by the code).  One customer of demand 5 and vehicles of
    capacity 3: the construction never returns, whatever the fuel. *)
Theorem nearest_neighbor_never_returns (fuel : nat) :
  nearest_neighbor_vrp fuel 2 [0; 5]%Z 3%Z [[0; 1]; [1; 0]]%Q = None.
Proof.
  unfold nearest_neighbor_vrp. apply nn_loop_stalls; [done|].
  repeat constructor.
Qed.

(** ** The main loop: the tracked best cost *)

(** C2 (as the code has it).  A turn of the main loop leaves [best_cost]
    unchanged, or lowers it by more than 1e-6, or replaces it by a cost that
    differs from it by less than 1e-6 while the number of routes goes down;
    so it never rises by 1e-6 or more, whatever the shake drew. *)
Theorem best_cost_step fuel n demands capacity dist use_or_opt st st' e :
  VNS_body fuel n demands capacity dist use_or_opt st = Some (st', e) →
  (best_cost st' < best_cost st + EPS)%Q
  ∧ ((best_cost st' = best_cost st ∧ best st' = best st)
     ∨ (best_cost st' < best_cost st - EPS)%Q
     ∨ ((Qabs (best_cost st' - best_cost st) < EPS)%Q
        ∧ length (best st') < length (best st))).
Proof.
  unfold VNS_body.
  destruct (shake _ _ _ _ _ _) as [s_shaken g].
  assert (Hsame : (best_cost st < best_cost st + EPS)%Q)
    by (unfold EPS; lra).
  case_bool_decide; [intros [= <- <-]; simpl; auto|].
  destruct (VND _ _ _ _ _ _) as [s_local|]; [|done].
  cbn [mbind option_bind].
  set (cost_local := solution_cost s_local dist).
  destruct (Qlt_bool cost_local (best_cost st - EPS)
            || Qlt_bool (Qabs (cost_local - best_cost st)) EPS
               && (length s_local <? length (best st))) eqn:Eacc.
  - assert (Hacc : (cost_local < best_cost st - EPS)%Q
             ∨ ((Qabs (cost_local - best_cost st) < EPS)%Q
                ∧ length s_local < length (best st))).
    { apply orb_true_iff in Eacc as [E|E]; [left; by apply Qlt_bool_iff|].
      apply andb_true_iff in E as [E1 E2]. right.
      split; [by apply Qlt_bool_iff | by apply Nat.ltb_lt]. }
    match goal with |- context [if ?c then Some _ else Some _] => destruct c end;
      intros [= <- <-]; cbn [best_cost best]; (split; [|auto]);
      destruct Hacc as [Hacc | [Hacc _]];
      try apply Qabs_Qlt_condition in Hacc; unfold EPS in *; lra.
  - match goal with |- context [if ?c then Some _ else Some _] => destruct c end;
      intros [= <- <-]; cbn [best_cost best]; auto.
Qed.

Lemma best_cost_step_witness :
  VNS_body 30 6 axis_demands axis_capacity axis_dist false axis_start
  = Some (axis_second, TurnDone)
  ∧ (best_cost axis_second < best_cost axis_start + EPS)%Q.
Proof.
  split; [exact axis_first_turn|].
  exact (proj1 (best_cost_step _ _ _ _ _ _ _ _ _ axis_first_turn)).
Defined.

(** C2 (as stated) fails.  On the axis instance, built by nearest neighbour
    and descended, the first shake moves customer 4 from its own route to
    the place between customers 1 and 2.  The result has two routes instead
    of three and costs [2^-21] more; it is taken as the new best solution. *)
Lemma best_cost_can_rise :
  VNS_init hypot_axis 30 axis_coords axis_demands axis_capacity
    "nearest_neighbor" false (axis_draws 0) = Some ([], axis_start)
  ∧ VNS_body 30 (length axis_coords) axis_demands axis_capacity
      (compute_distance_matrix hypot_axis axis_coords) false axis_start
    = Some (axis_second, TurnDone)
  ∧ (best_cost axis_start == 15 # 2)%Q
  ∧ (best_cost axis_second == (15 # 2) + (1 # 2097152))%Q
  ∧ ¬ (best_cost axis_second <= best_cost axis_start)%Q.
Proof.
  split; [exact axis_start_init|]. split; [exact axis_first_turn|].
  split; [reflexivity|]. split; [reflexivity|].
  apply Qlt_not_le. reflexivity.
Qed.

(** ** The main loop: early stop *)

(** What ends a turn: the tabu test comes first and leaves the turn at
    once; only a turn that ran the descent looks at the patience. *)
Lemma VNS_body_end fuel n demands capacity dist use_or_opt st st' e :
  VNS_body fuel n demands capacity dist use_or_opt st = Some (st', e) →
  iteration st' = iteration st + 1
  ∧ (e = TabuSkip ↔
     _solution_hash (shake ((k st - 1) mod 3) (best st) demands capacity
                       (k st) (gen st)).1 ∈ tabu_list st)
  ∧ (e = EarlyStop ↔
     e ≠ TabuSkip ∧ min_iterations n < iteration st'
     ∧ patience n < iteration st' - last_improvement st').
Proof.
  unfold VNS_body.
  destruct (shake _ _ _ _ _ _) as [s_shaken g]. cbn [fst].
  case_bool_decide as Htabu.
  { intros [= <- <-]. simpl. split; [done|]. split; [done|].
    split; [done | by intros [? _]]. }
  destruct (VND _ _ _ _ _ _) as [s_local|]; simpl; [|done].
  match goal with |- context [if ?a && ?b then Some _ else Some _] =>
    destruct (a && b) eqn:E end; intros [= <- <-].
  - apply andb_true_iff in E as [E1 E2].
    apply Nat.ltb_lt in E1, E2.
    split; [by destruct (_ || _)|]. split; [done|]. done.
  - split; [by destruct (_ || _)|]. split; [done|].
    split; [done|]. intros (_ & E1 & E2).
    apply Nat.ltb_lt in E1, E2. rewrite E1, E2 in E. done.
Qed.

(** C8 (violated by the code).  On the axis instance the first turn
    improves, and from then on every shake returns a solution whose
    fingerprint is in the tabu list.  With [max_iter = 1000] the loop runs
    all 1000 turns, although from turn 301 on more than 50 turns have been
    made and more than 300 of them without improvement. *)
Theorem early_stop_missed_on_tabu_skips :
  ∃ st,
    VNS_run hypot_axis 1001 axis_coords axis_demands axis_capacity 1000 600
      "nearest_neighbor" false (axis_draws 999) frozen_clock = Some ([], st)
    ∧ iteration st = 1000 ∧ last_improvement st = 0 ∧ tabu_skips st = 999
    ∧ min_iterations (length axis_coords) = 50
    ∧ patience (length axis_coords) = 300.
Proof.
  eexists. split; [vm_compute; reflexivity|]. repeat split.
Qed.

(** ** Sums and the cost of a route *)

Lemma Qsum_from (l : list Q) (a : Q) : (fold_left Qplus l a == a + Qsum l)%Q.
Proof.
  unfold Qsum. revert a. induction l as [|x l IH]; intros a; simpl.
  - lra.
  - rewrite (IH (a + x)%Q), (IH (0 + x)%Q). lra.
Qed.

Lemma Qsum_nil : Qsum [] = 0%Q.
Proof. reflexivity. Qed.

Lemma Qsum_cons (x : Q) (l : list Q) : (Qsum (x :: l) == x + Qsum l)%Q.
Proof. unfold Qsum at 1. simpl. rewrite Qsum_from. lra. Qed.

Lemma Qsum_app (l1 l2 : list Q) : (Qsum (l1 ++ l2) == Qsum l1 + Qsum l2)%Q.
Proof.
  induction l1 as [|x l1 IH]; simpl.
  - rewrite Qsum_nil. lra.
  - rewrite !Qsum_cons, IH. lra.
Qed.

Lemma Zsum_from (l : list Z) (a : Z) : fold_left Z.add l a = (a + Zsum l)%Z.
Proof.
  unfold Zsum. revert a. induction l as [|x l IH]; intros a; simpl.
  - lia.
  - rewrite (IH (a + x)%Z), (IH (0 + x)%Z). lia.
Qed.

Lemma Zsum_cons (x : Z) (l : list Z) : Zsum (x :: l) = (x + Zsum l)%Z.
Proof. unfold Zsum at 1. simpl. rewrite Zsum_from. lia. Qed.

Lemma Zsum_app (l1 l2 : list Z) : Zsum (l1 ++ l2) = (Zsum l1 + Zsum l2)%Z.
Proof.
  induction l1 as [|x l1 IH]; simpl; [done|].
  rewrite !Zsum_cons, IH. lia.
Qed.

Lemma route_cost_nil dist : route_cost [] dist = 0%Q.
Proof. reflexivity. Qed.

Lemma route_cost_one dist a : route_cost [a] dist = 0%Q.
Proof. reflexivity. Qed.

Lemma route_cost_cons dist a b t :
  (route_cost (a :: b :: t) dist == d dist a b + route_cost (b :: t) dist)%Q.
Proof.
  unfold route_cost, range. cbn [length]. rewrite !Nat.sub_0_r.
  replace (S (S (length t)) - 1) with (S (length t)) by lia.
  replace (S (length t) - 1) with (length t) by lia.
  cbn [seq map]. rewrite Qsum_cons. rewrite <- seq_shift, map_map.
  apply Qplus_comp; [reflexivity|].
  erewrite map_ext; [reflexivity|]. intros i. reflexivity.
Qed.

(** Cutting a path at one of its nodes. *)
Lemma route_cost_split dist l1 x l2 :
  (route_cost (l1 ++ x :: l2) dist
   == route_cost (l1 ++ [x]) dist + route_cost (x :: l2) dist)%Q.
Proof.
  induction l1 as [|a l1 IH]; simpl.
  - rewrite route_cost_one. lra.
  - destruct l1 as [|b l1]; simpl in *.
    + rewrite (route_cost_cons dist a x l2), (route_cost_cons dist a x []).
      rewrite route_cost_one. lra.
    + rewrite (route_cost_cons dist a b), (route_cost_cons dist a b), IH. lra.
Qed.

Lemma route_cost_nonneg dist r :
  (∀ a b, 0 <= d dist a b)%Q → (0 <= route_cost r dist)%Q.
Proof.
  intros Hd. induction r as [|a [|b t] IH].
  - rewrite route_cost_nil. lra.
  - rewrite route_cost_one. lra.
  - rewrite route_cost_cons. specialize (Hd a b). lra.
Qed.

Lemma route_cost_reverse dist r :
  (∀ a b, d dist a b == d dist b a)%Q →
  (route_cost (reverse r) dist == route_cost r dist)%Q.
Proof.
  intros Hs. induction r as [|a [|b t] IH]; [reflexivity..|].
  rewrite reverse_cons, route_cost_cons.
  rewrite reverse_cons in *. rewrite <- (assoc_L (++)). simpl.
  rewrite route_cost_split. rewrite IH.
  rewrite (route_cost_cons dist b a []), route_cost_one, (Hs b a). lra.
Qed.

Lemma solution_cost_nil dist : solution_cost [] dist = 0%Q.
Proof. reflexivity. Qed.

Lemma solution_cost_cons dist r sol :
  (solution_cost (r :: sol) dist == route_cost r dist + solution_cost sol dist)%Q.
Proof. unfold solution_cost. simpl. apply Qsum_cons. Qed.

Lemma solution_cost_app dist s1 s2 :
  (solution_cost (s1 ++ s2) dist
   == solution_cost s1 dist + solution_cost s2 dist)%Q.
Proof. unfold solution_cost. rewrite map_app. apply Qsum_app. Qed.

Lemma solution_cost_nonneg dist sol :
  (∀ a b, 0 <= d dist a b)%Q → (0 <= solution_cost sol dist)%Q.
Proof.
  intros Hd. induction sol as [|r sol IH].
  - rewrite solution_cost_nil. lra.
  - rewrite solution_cost_cons. pose proof (route_cost_nonneg dist r Hd). lra.
Qed.

(** [sol[i] = r'] changes the cost by the difference of the two routes. *)
Lemma solution_cost_insert dist sol i r' :
  i < length sol →
  (solution_cost (<[i := r']> sol) dist + route_cost (route_at sol i) dist
   == solution_cost sol dist + route_cost r' dist)%Q.
Proof.
  revert i. induction sol as [|r sol IH]; intros [|i] Hi; simpl in *; try lia.
  - rewrite !solution_cost_cons. unfold route_at. simpl. lra.
  - rewrite !solution_cost_cons. unfold route_at in *. simpl.
    specialize (IH i ltac:(lia)). lra.
Qed.

(** ** The improvement loop *)

Lemma improve_loop_invariant (P : solution → Prop) pass fuel sol sol' :
  (∀ s s', P s → pass s = Some s' → P s') →
  P sol → improve_loop pass fuel sol = Some sol' → P sol'.
Proof.
  intros Hstep. revert sol.
  induction fuel as [|fuel IH]; intros sol HP; simpl; [done|].
  destruct (pass sol) as [s'|] eqn:E.
  - apply IH. by apply (Hstep sol).
  - by intros [= <-].
Qed.

Lemma improve_loop_mono pass fuel fuel' sol r :
  fuel ≤ fuel' →
  improve_loop pass fuel sol = Some r → improve_loop pass fuel' sol = Some r.
Proof.
  revert fuel' sol. induction fuel as [|fuel IH]; intros fuel' sol Hle; [done|].
  destruct fuel' as [|fuel']; [lia|]. simpl.
  destruct (pass sol); [|done]. apply IH. lia.
Qed.

Lemma improve_loop_stable pass fuel sol :
  pass sol = None → improve_loop pass (S fuel) sol = Some sol.
Proof. intros H. simpl. by rewrite H. Qed.

Lemma improve_loop_fixpoint pass fuel sol r :
  improve_loop pass fuel sol = Some r → pass r = None.
Proof.
  revert sol. induction fuel as [|fuel IH]; intros sol; simpl; [done|].
  destruct (pass sol) as [s'|] eqn:E; [apply IH|].
  by intros [= <-].
Qed.

(** A quantity that every pass lowers by more than [delta]. *)
Section Measure.

Variable pass : solution -> option solution.
Variable mu : solution -> Q.
Variable delta : Q.
Hypothesis delta_pos : (0 < delta)%Q.
Hypothesis pass_lowers : ∀ s s', pass s = Some s' → (mu s' < mu s - delta)%Q.

Hypothesis mu_nonneg : ∀ s, (0 <= mu s)%Q.

Lemma improve_loop_bounded (N : nat) sol :
  (mu sol < inject_Z (Z.of_nat N) * delta)%Q →
  ∃ r, improve_loop pass (S N) sol = Some r.
Proof.
  revert sol. induction N as [|N IH]; intros sol Hlt.
  - pose proof (mu_nonneg sol).
    change (inject_Z (Z.of_nat 0)) with 0%Q in Hlt. lra.
  - cbn [improve_loop]. destruct (pass sol) as [s'|] eqn:E; [|eauto].
    apply IH. apply pass_lowers in E.
    rewrite Nat2Z.inj_succ, <- Z.add_1_r, inject_Z_plus in Hlt.
    change (inject_Z 1) with 1%Q in Hlt. lra.
Qed.

Lemma improve_loop_terminates sol : ∃ fuel r, improve_loop pass fuel sol = Some r.
Proof.
  destruct (Qarchimedean (mu sol / delta)) as [p Hp].
  exists (S (Pos.to_nat p)). apply improve_loop_bounded.
  rewrite positive_nat_Z.
  assert (Hq : (mu sol == mu sol / delta * delta)%Q) by (field; lra).
  rewrite Hq. apply Qmult_lt_compat_r; [done|]. exact Hp.
Qed.

End Measure.

(** ** Best-of-pass selection *)

Lemma best_fold_spec {M} (P : M → Q → Prop) (cands : list (Q * M)) acc :
  (∀ m, acc.2 = Some m → P m acc.1 ∧ (acc.1 < - IMPROVEMENT_THRESHOLD)%Q) →
  (∀ c, In c cands → P c.2 c.1) →
  (acc.1 <= - IMPROVEMENT_THRESHOLD)%Q →
  ∀ m, (fold_left best_step cands acc).2 = Some m →
    P m (fold_left best_step cands acc).1
    ∧ ((fold_left best_step cands acc).1 < - IMPROVEMENT_THRESHOLD)%Q.
Proof.
  revert acc. induction cands as [|c cands IH]; intros acc Hacc Hc Hle; [done|].
  simpl. apply IH.
  - unfold best_step. destruct (Qlt_bool c.1 acc.1) eqn:E; [|done].
    apply Qlt_bool_iff in E. simpl. intros m [= <-].
    split; [apply Hc; by left | lra].
  - intros c' Hin. apply Hc. by right.
  - unfold best_step. destruct (Qlt_bool c.1 acc.1) eqn:E; [|done].
    apply Qlt_bool_iff in E. simpl. lra.
Qed.

Lemma best_of_Some {M} (cands : list (Q * M)) m :
  best_of cands = Some m →
  ∃ dlt, In (dlt, m) cands ∧ (dlt < - IMPROVEMENT_THRESHOLD)%Q.
Proof.
  unfold best_of. intros H.
  eapply (best_fold_spec (λ m dlt, In (dlt, m) cands)) in H as [H1 H2].
  - eauto.
  - done.
  - by intros [dlt m'].
  - simpl. lra.
Qed.

(** Membership in [range]. *)
Lemma in_range x a b : In x (range a b) ↔ a ≤ x < b.
Proof. unfold range. rewrite in_seq. lia. Qed.

(** ** Counting nodes *)

Lemma cnt_app (l1 l2 : list nat) x : cnt (l1 ++ l2) x = cnt l1 x + cnt l2 x.
Proof. apply count_occ_app. Qed.

Lemma cnt_cons (l : list nat) y x :
  cnt (y :: l) x = (if decide (y = x) then 1 else 0) + cnt l x.
Proof.
  simpl. destruct (Nat.eq_dec y x), (decide (y = x)); done.
Qed.

Lemma cnt_perm (l1 l2 : list nat) : l1 ≡ₚ l2 ↔ ∀ x, cnt l1 x = cnt l2 x.
Proof. apply Permutation_count_occ. Qed.

Lemma cnt_reverse (l : list nat) x : cnt (reverse l) x = cnt l x.
Proof. revert x. apply cnt_perm, reverse_Permutation. Qed.

Lemma cnt_take_drop (l : list nat) i x : cnt (take i l) x + cnt (drop i l) x = cnt l x.
Proof. by rewrite <- cnt_app, take_drop. Qed.

Lemma cnt_node (r : route) i x :
  i < length r →
  cnt r x = cnt (take i r) x + (if decide (node r i = x) then 1 else 0)
            + cnt (drop (S i) r) x.
Proof.
  intros Hi. unfold node.
  destruct (lookup_lt_is_Some_2 r i Hi) as [y Hy].
  rewrite (nth_lookup_Some _ _ _ _ Hy).
  rewrite <- (take_drop_middle r i y Hy) at 1.
  rewrite cnt_app, cnt_cons. lia.
Qed.

Lemma route_demand_app demands (l1 l2 : route) :
  route_demand (l1 ++ l2) demands
  = (route_demand l1 demands + route_demand l2 demands)%Z.
Proof. unfold route_demand. by rewrite filter_app, map_app, Zsum_app. Qed.

Lemma route_demand_nil demands : route_demand [] demands = 0%Z.
Proof. reflexivity. Qed.

Lemma route_demand_cons demands c (l : route) :
  route_demand (c :: l) demands = (charged demands c + route_demand l demands)%Z.
Proof.
  unfold route_demand, charged. rewrite filter_cons.
  destruct (decide (c ≠ 0)), (decide (c = 0)); try done.
  simpl. by rewrite Zsum_cons.
Qed.

Lemma route_demand_reverse demands (l : route) :
  route_demand (reverse l) demands = route_demand l demands.
Proof.
  induction l as [|c l IH]; [done|].
  rewrite reverse_cons, route_demand_app, !route_demand_cons, IH.
  rewrite route_demand_nil. lia.
Qed.

Lemma route_demand_take_drop demands (l : route) i :
  (route_demand (take i l) demands + route_demand (drop i l) demands
   = route_demand l demands)%Z.
Proof. by rewrite <- route_demand_app, take_drop. Qed.

Lemma route_demand_node demands (r : route) i :
  i < length r →
  route_demand r demands
  = (route_demand (take i r) demands + charged demands (node r i)
     + route_demand (drop (S i) r) demands)%Z.
Proof.
  intros Hi. unfold node.
  destruct (lookup_lt_is_Some_2 r i Hi) as [y Hy].
  rewrite (nth_lookup_Some _ _ _ _ Hy).
  rewrite <- (take_drop_middle r i y Hy) at 1.
  rewrite route_demand_app, route_demand_cons. lia.
Qed.

Lemma demand_nonneg demands c :
  Forall (λ q, (0 <= q)%Z) demands → (0 <= demand demands c)%Z.
Proof.
  intros H. unfold demand.
  destruct (nth_in_or_default c demands 0%Z) as [Hin | ->]; [|done].
  rewrite Forall_forall in H. by apply H, list_elem_of_In.
Qed.

Lemma charged_bounds demands c :
  Forall (λ q, (0 <= q)%Z) demands →
  (0 <= charged demands c <= demand demands c)%Z.
Proof.
  intros H. pose proof (demand_nonneg demands c H).
  unfold charged. destruct (decide (c = 0)); lia.
Qed.

Lemma route_demand_nonneg demands (l : route) :
  Forall (λ q, (0 <= q)%Z) demands → (0 <= route_demand l demands)%Z.
Proof.
  intros H. induction l as [|c l IH]; [done|].
  rewrite route_demand_cons. pose proof (charged_bounds demands c H). lia.
Qed.

(** ** Well-formed routes *)

Lemma wf_route_wrap (r : route) : wf_route r ↔ r = 0 :: interior r ++ [0].
Proof.
  split.
  - intros (Hh & Hl & Hlen).
    destruct (list_ends r) as [-> | [[x ->] | (x & m & y & ->)]];
      [done | simpl in Hlen; lia |].
    rewrite interior_wrap. simpl in Hh.
    change (x :: m ++ [y]) with ((x :: m) ++ [y]) in Hl.
    rewrite last_snoc in Hl. congruence.
  - intros ->. unfold wf_route.
    change (0 :: interior r ++ [0]) with ((0 :: interior r) ++ [0]).
    rewrite last_snoc, length_app. simpl.
    split; [done|]. split; [done | lia].
Qed.

Lemma cnt_interior (r : route) x :
  wf_route r →
  cnt r x = cnt (interior r) x + (if decide (x = 0) then 2 else 0).
Proof.
  intros H. apply wf_route_wrap in H. rewrite H at 1.
  rewrite cnt_cons, cnt_app, cnt_cons. simpl.
  destruct (decide (0 = x)), (decide (x = 0)); lia.
Qed.

Lemma interior_short (r : route) : length r ≤ 2 → interior r = [].
Proof.
  intros H. unfold interior, slice. apply nil_length_inv.
  rewrite length_drop, length_take. lia.
Qed.

Lemma head_take_app (r l : route) i : 1 ≤ i → r ≠ [] → head (take i r ++ l) = head r.
Proof. destruct r, i; try done; lia. Qed.

Lemma last_app_drop (r l : route) j :
  j < length r → last (l ++ drop j r) = last r.
Proof.
  intros Hj. rewrite <- (take_drop j r) at 2.
  destruct (drop j r) as [|y t] eqn:E.
  - apply (f_equal length) in E. rewrite length_drop in E. simpl in E. lia.
  - rewrite !last_app_cons. done.
Qed.

Lemma wf_route_nonempty r : wf_route r → r ≠ [].
Proof. intros (_ & _ & H) ->. simpl in H. lia. Qed.

(** ** Replacing routes of a solution *)

Lemma route_at_lookup (sol : solution) i :
  i < length sol → sol !! i = Some (route_at sol i).
Proof.
  intros Hi. destruct (lookup_lt_is_Some_2 sol i Hi) as [r Hr].
  unfold route_at. by rewrite (nth_lookup_Some _ _ _ _ Hr).
Qed.

Lemma route_at_insert_eq (sol : solution) i r :
  i < length sol → route_at (<[i := r]> sol) i = r.
Proof.
  intros Hi. unfold route_at.
  apply nth_lookup_Some. by apply list_lookup_insert_eq.
Qed.

Lemma route_at_insert_ne (sol : solution) i j r :
  i ≠ j → route_at (<[i := r]> sol) j = route_at sol j.
Proof.
  intros Hij. unfold route_at.
  rewrite !nth_lookup. by rewrite list_lookup_insert_ne.
Qed.

Lemma Forall_route_at (P : route → Prop) (sol : solution) i :
  Forall P sol → i < length sol → P (route_at sol i).
Proof.
  intros H Hi. eapply Forall_lookup_1; [exact H | by apply route_at_lookup].
Qed.

Lemma customers_cons r (sol : solution) :
  customers (r :: sol) = interior r ++ customers sol.
Proof. reflexivity. Qed.

Lemma customers_app (s1 s2 : solution) :
  customers (s1 ++ s2) = customers s1 ++ customers s2.
Proof. unfold customers. by rewrite map_app, concat_app. Qed.

Lemma customers_insert (sol : solution) i r' x :
  i < length sol →
  cnt (customers (<[i := r']> sol)) x + cnt (interior (route_at sol i)) x
  = cnt (customers sol) x + cnt (interior r') x.
Proof.
  revert i. induction sol as [|r sol IH]; intros [|i] Hi; simpl in *; try lia.
  - rewrite !customers_cons, !cnt_app. unfold route_at. simpl. lia.
  - rewrite !customers_cons, !cnt_app.
    specialize (IH i ltac:(lia)). unfold route_at in *. simpl. lia.
Qed.

Lemma customers_delete (sol : solution) i x :
  i < length sol →
  cnt (customers (delete i sol)) x + cnt (interior (route_at sol i)) x
  = cnt (customers sol) x.
Proof.
  revert i. induction sol as [|r sol IH]; intros [|i] Hi; simpl in *; try lia.
  - rewrite !customers_cons, !cnt_app. unfold route_at. simpl. lia.
  - rewrite !customers_cons, !cnt_app.
    specialize (IH i ltac:(lia)). unfold route_at in *. simpl. lia.
Qed.

Lemma customers_drop_trivial (sol : solution) :
  customers (drop_trivial sol) = customers sol.
Proof.
  unfold drop_trivial. induction sol as [|r sol IH]; [done|].
  rewrite filter_cons. destruct (decide (2 < length r)).
  - by rewrite !customers_cons, IH.
  - rewrite customers_cons, IH, interior_short; [done | lia].
Qed.

Lemma solution_cost_delete dist (sol : solution) i :
  i < length sol →
  (solution_cost (delete i sol) dist + route_cost (route_at sol i) dist
   == solution_cost sol dist)%Q.
Proof.
  revert i. induction sol as [|r sol IH]; intros [|i] Hi; simpl in *; try lia.
  - rewrite !solution_cost_cons. unfold route_at. simpl. lra.
  - rewrite !solution_cost_cons.
    specialize (IH i ltac:(lia)). unfold route_at in *. simpl. lra.
Qed.

Lemma solution_cost_drop_trivial dist (sol : solution) :
  (∀ a b, 0 <= d dist a b)%Q →
  (solution_cost (drop_trivial sol) dist <= solution_cost sol dist)%Q.
Proof.
  intros Hd. unfold drop_trivial. induction sol as [|r sol IH]; [apply Qle_refl|].
  rewrite filter_cons. destruct (decide (2 < length r)).
  - rewrite !solution_cost_cons. lra.
  - rewrite solution_cost_cons. pose proof (route_cost_nonneg dist r Hd). lra.
Qed.

Lemma length_drop_trivial (sol : solution) : length (drop_trivial sol) ≤ length sol.
Proof. apply length_filter. Qed.

(** ** Feasibility under replacement *)

Lemma Forall_drop_trivial (P : route → Prop) (sol : solution) :
  Forall P sol → Forall P (drop_trivial sol).
Proof.
  rewrite !Forall_forall. intros H r Hr.
  apply list_elem_of_filter in Hr as [_ Hr]. by apply H.
Qed.

Lemma feasible_customers_cnt n demands capacity sol :
  feasible n demands capacity sol ↔
  Forall wf_route sol
  ∧ (∀ x, cnt (customers sol) x = cnt (seq 1 (n - 1)) x)
  ∧ Forall (λ r, (route_demand r demands <= capacity)%Z) sol.
Proof. unfold feasible. by rewrite cnt_perm. Qed.

Lemma feasible_replace n demands capacity sol i r' :
  feasible n demands capacity sol → i < length sol →
  wf_route r' → (∀ x, cnt r' x = cnt (route_at sol i) x) →
  (route_demand r' demands <= capacity)%Z →
  feasible n demands capacity (<[i := r']> sol).
Proof.
  rewrite !feasible_customers_cnt. intros (Hwf & Hc & Hcap) Hi Hwf' Hcnt Hcap'.
  split; [by apply Forall_insert|]. split; [|by apply Forall_insert].
  intros x. rewrite <- Hc.
  pose proof (customers_insert sol i r' x Hi).
  pose proof (cnt_interior r' x Hwf').
  pose proof (cnt_interior _ x (Forall_route_at _ _ _ Hwf Hi)).
  specialize (Hcnt x). lia.
Qed.

Lemma feasible_replace2 n demands capacity sol i j r1' r2' :
  feasible n demands capacity sol → i < length sol → j < length sol → i ≠ j →
  wf_route r1' → wf_route r2' →
  (∀ x, cnt r1' x + cnt r2' x = cnt (route_at sol i) x + cnt (route_at sol j) x) →
  (route_demand r1' demands <= capacity)%Z →
  (route_demand r2' demands <= capacity)%Z →
  feasible n demands capacity (<[j := r2']> (<[i := r1']> sol)).
Proof.
  rewrite !feasible_customers_cnt.
  intros (Hwf & Hc & Hcap) Hi Hj Hij Hwf1 Hwf2 Hcnt Hcap1 Hcap2.
  split; [apply Forall_insert; [apply Forall_insert|]; done|].
  split; [|apply Forall_insert; [apply Forall_insert|]; done].
  intros x. rewrite <- Hc.
  pose proof (customers_insert sol i r1' x Hi).
  pose proof (customers_insert (<[i := r1']> sol) j r2' x
                ltac:(by rewrite length_insert)) as H2.
  rewrite route_at_insert_ne in H2 by done.
  pose proof (cnt_interior r1' x Hwf1).
  pose proof (cnt_interior r2' x Hwf2).
  pose proof (cnt_interior _ x (Forall_route_at _ _ _ Hwf Hi)).
  pose proof (cnt_interior _ x (Forall_route_at _ _ _ Hwf Hj)).
  specialize (Hcnt x). lia.
Qed.

Lemma feasible_drop_trivial n demands capacity sol :
  feasible n demands capacity sol →
  feasible n demands capacity (drop_trivial sol).
Proof.
  intros (Hwf & Hc & Hcap). split; [|split].
  - by apply Forall_drop_trivial.
  - by rewrite customers_drop_trivial.
  - by apply Forall_drop_trivial.
Qed.

(** Interior customers of a feasible solution are not the depot. *)
Lemma feasible_interior_nonzero n demands capacity sol r i :
  feasible n demands capacity sol → i < length sol →
  1 ≤ r → r + 1 < length (route_at sol i) →
  node (route_at sol i) r ≠ 0.
Proof.
  intros (Hwf & Hc & _) Hi Hr1 Hr2 Hz.
  pose proof (Forall_route_at _ _ _ Hwf Hi) as Hw.
  assert (Hin : node (route_at sol i) r ∈ interior (route_at sol i)).
  { apply wf_route_wrap in Hw.
    remember (interior (route_at sol i)) as m eqn:Em. clear Em.
    rewrite Hw in Hr2 |- *. rewrite length_cons, length_app in Hr2.
    simpl in Hr2. unfold node.
    destruct r as [|r]; [lia|]. simpl.
    apply list_elem_of_In. rewrite app_nth1 by lia.
    apply nth_In. lia. }
  assert (Hin' : node (route_at sol i) r ∈ customers sol).
  { unfold customers. apply list_elem_of_In, in_concat.
    exists (interior (route_at sol i)). split; [|by apply list_elem_of_In].
    apply in_map, list_elem_of_In, list_elem_of_lookup.
    exists i. by apply route_at_lookup. }
  rewrite Hc, Hz in Hin'. apply elem_of_seq in Hin'. lia.
Qed.

(** ** Pieces of a route *)

Lemma node_lookup (r : route) i : i < length r → r !! i = Some (node r i).
Proof.
  intros Hi. destruct (lookup_lt_is_Some_2 r i Hi) as [y Hy].
  unfold node. by rewrite (nth_lookup_Some _ _ _ _ Hy).
Qed.

Lemma take_S_node (r : route) i :
  i < length r → take (S i) r = take i r ++ [node r i].
Proof. intros Hi. by apply take_S_r, node_lookup. Qed.

Lemma drop_node (r : route) i :
  i < length r → drop i r = node r i :: drop (S i) r.
Proof. intros Hi. by apply drop_S, node_lookup. Qed.

Lemma node_take (r : route) i j : i < j → node (take j r) i = node r i.
Proof. intros Hij. unfold node. rewrite !nth_lookup. by rewrite lookup_take_lt. Qed.

Lemma node_drop (r : route) i j : node (drop j r) i = node r (j + i).
Proof. unfold node. rewrite !nth_lookup. by rewrite lookup_drop. Qed.

Lemma length_slice {A} (l : list A) a b :
  b ≤ length l → length (slice l a b) = b - a.
Proof. intros Hb. unfold slice. rewrite length_drop, length_take. lia. Qed.

Lemma slice_first (r : route) a b :
  a < b → b ≤ length r → node (slice r a b) 0 = node r a.
Proof.
  intros Hab Hb. unfold slice. rewrite node_drop, node_take; [|lia].
  f_equal. lia.
Qed.

Lemma slice_last (r : route) a b :
  a < b → b ≤ length r →
  node (slice r a b) (length (slice r a b) - 1) = node r (b - 1).
Proof.
  intros Hab Hb. rewrite length_slice by done.
  unfold slice. rewrite node_drop, node_take; [|lia]. f_equal. lia.
Qed.

(** A route cut into a prefix, a slice and a suffix. *)
Lemma take_slice_drop {A} (l : list A) a b :
  a ≤ b → take a l ++ slice l a b ++ drop b l = l.
Proof.
  intros Hab. unfold slice.
  rewrite (assoc_L (++)).
  rewrite <- (take_drop b l) at 4. f_equal.
  rewrite <- (take_drop a (take b l)) at 2. f_equal.
  rewrite take_take. f_equal. lia.
Qed.

Lemma route_demand_perm demands (l1 l2 : route) :
  l1 ≡ₚ l2 → route_demand l1 demands = route_demand l2 demands.
Proof.
  induction 1; rewrite ?route_demand_cons; lia.
Qed.

(** The cost of a path between two nodes [p] and [q]. *)
Lemma route_cost_between dist p q (s : route) :
  s ≠ [] →
  (route_cost (p :: s ++ [q]) dist
   == d dist p (node s 0) + route_cost s dist
      + d dist (node s (length s - 1)) q)%Q.
Proof.
  intros Hs. destruct s as [|h s]; [done|]. clear Hs.
  simpl. rewrite route_cost_cons. unfold node at 1. simpl.
  rewrite Nat.sub_0_r.
  assert (H : (route_cost (h :: s ++ [q]) dist
              == route_cost (h :: s) dist + d dist (node (h :: s) (length s)) q)%Q).
  { clear p. revert h. induction s as [|b s IH]; intros h.
    - simpl. rewrite route_cost_cons, !route_cost_one. unfold node. simpl. lra.
    - simpl. rewrite route_cost_cons, (route_cost_cons dist h b s), IH.
      unfold node. simpl. lra. }
  rewrite H. lra.
Qed.

(** [enumerate] pairs each element with its index. *)
Lemma in_enumerate_from {A} (l : list A) s i x :
  In (i, x) (zip (seq s (length l)) l) ↔ s ≤ i ∧ l !! (i - s) = Some x.
Proof.
  revert s. induction l as [|y l IH]; intros s; simpl.
  - split; [done | by intros [_ ?]].
  - rewrite IH. split.
    + intros [[= <- <-] | [Hs Hl]].
      * rewrite Nat.sub_diag. done.
      * split; [lia|]. by replace (i - s) with (S (i - S s)) by lia.
    + intros [Hs Hl]. destruct (decide (i = s)) as [->|Hne].
      * left. rewrite Nat.sub_diag in Hl. simpl in Hl. congruence.
      * right. split; [lia|].
        by replace (i - s) with (S (i - S s)) in Hl by lia.
Qed.

Lemma in_enumerate {A} (l : list A) i x :
  In (i, x) (enumerate l) ↔ l !! i = Some x.
Proof.
  unfold enumerate. rewrite in_enumerate_from, Nat.sub_0_r.
  split; [by intros [_ ?] | intros; split; [lia | done]].
Qed.

Lemma in_enumerate_route (sol : solution) i r :
  In (i, r) (enumerate sol) → i < length sol ∧ r = route_at sol i.
Proof.
  rewrite in_enumerate. intros H. split; [by eapply lookup_lt_Some|].
  unfold route_at. by rewrite (nth_lookup_Some _ _ _ _ H).
Qed.

(** ** N1: 2-opt inside a route *)

Lemma N1_candidates_spec (sol : solution) r_idx i j :
  In (r_idx, i, j) (N1_candidates sol) →
  r_idx < length sol ∧ 1 ≤ i ∧ i < j ∧ j + 1 < length (route_at sol r_idx).
Proof.
  unfold N1_candidates. intros H.
  apply in_flat_map in H as ([r' r] & Hr & H).
  apply in_enumerate_route in Hr as [Hr ->].
  destruct (length _ <=? 3); [done|].
  apply in_flat_map in H as (i' & Hi & H).
  apply in_map_iff in H as (j' & [= <- <- <-] & Hj).
  apply in_range in Hi, Hj. lia.
Qed.

Lemma reverse_segment_perm (r : route) i j :
  i ≤ j + 1 → reverse_segment r i j ≡ₚ r.
Proof.
  intros Hij. unfold reverse_segment.
  rewrite reverse_Permutation. by rewrite take_slice_drop.
Qed.

Lemma reverse_segment_wf (r : route) i j :
  wf_route r → 1 ≤ i → i ≤ j → j + 1 < length r →
  wf_route (reverse_segment r i j).
Proof.
  intros Hw Hi Hij Hj. pose proof Hw as (Hh & Hl & Hlen).
  split; [|split].
  - unfold reverse_segment. rewrite head_take_app; [done.. |].
    by apply wf_route_nonempty.
  - unfold reverse_segment. rewrite (assoc_L (++)), last_app_drop; done.
  - rewrite (Permutation_length (reverse_segment_perm r i j ltac:(lia))). done.
Qed.

Lemma route_cost_three dist (a : route) p (m : route) q (b : route) :
  (route_cost (a ++ p :: m ++ q :: b) dist
   == route_cost (a ++ [p]) dist + route_cost (p :: m ++ [q]) dist
      + route_cost (q :: b) dist)%Q.
Proof.
  rewrite (route_cost_split dist a p (m ++ q :: b)).
  change (p :: m ++ q :: b) with ((p :: m) ++ q :: b).
  rewrite (route_cost_split dist (p :: m) q b). simpl. lra.
Qed.

Lemma reverse_segment_cost dist (r : route) i j :
  (∀ a b, d dist a b == d dist b a)%Q →
  1 ≤ i → i ≤ j → j + 1 < length r →
  (route_cost (reverse_segment r i j) dist
   == route_cost r dist + two_opt_delta dist r i j)%Q.
Proof.
  intros Hs Hi Hij Hj. unfold two_opt_delta.
  set (s := slice r i (j + 1)).
  assert (Hslen : length s = j + 1 - i) by (apply length_slice; lia).
  assert (Hsne : s ≠ []) by (intros E; rewrite E in Hslen; simpl in Hslen; lia).
  assert (Hrne : reverse s ≠ []).
  { intros E. apply (f_equal length) in E. rewrite length_reverse in E.
    simpl in E. lia. }
  assert (Hfirst : node s 0 = node r i) by (apply slice_first; lia).
  assert (Hlast : node s (length s - 1) = node r j).
  { unfold s. rewrite slice_last by lia. f_equal. lia. }
  assert (Hrfirst : node (reverse s) 0 = node r j).
  { rewrite <- Hlast. unfold node. rewrite !nth_lookup, reverse_lookup by lia.
    done. }
  assert (Hrlast : node (reverse s) (length (reverse s) - 1) = node r i).
  { rewrite <- Hfirst, length_reverse. unfold node.
    rewrite !nth_lookup, reverse_lookup by lia.
    by replace (length s - S (length s - 1)) with 0 by lia. }
  assert (Hpre : take i r = take (i - 1) r ++ [node r (i - 1)]).
  { replace i with (S (i - 1)) at 1 by lia. apply take_S_node. lia. }
  assert (Hsuf : drop (j + 1) r = node r (j + 1) :: drop (S (j + 1)) r)
    by (apply drop_node; lia).
  assert (Hshape : ∀ m : route,
    (route_cost (take i r ++ m ++ drop (j + 1) r) dist
     == route_cost (take i r) dist
        + route_cost (node r (i - 1) :: m ++ [node r (j + 1)]) dist
        + route_cost (drop (j + 1) r) dist)%Q).
  { intros m. rewrite Hpre, Hsuf.
    rewrite <- (assoc_L (++) (take (i - 1) r)). simpl.
    rewrite route_cost_three. lra. }
  unfold reverse_segment. fold s. rewrite (Hshape (reverse s)).
  assert (Hr : take i r ++ s ++ drop (j + 1) r = r)
    by (apply take_slice_drop; lia).
  assert (Hrc : (route_cost r dist
                 == route_cost (take i r ++ s ++ drop (j + 1) r) dist)%Q)
    by (by rewrite Hr).
  rewrite Hrc, (Hshape s). rewrite !route_cost_between by done.
  rewrite Hfirst, Hlast, Hrfirst, Hrlast, route_cost_reverse by done.
  lra.
Qed.

Lemma N1_pass_spec dist (sol sol' : solution) :
  N1_pass dist sol = Some sol' →
  ∃ r_idx i j,
    sol' = <[r_idx := reverse_segment (route_at sol r_idx) i j]> sol
    ∧ r_idx < length sol ∧ 1 ≤ i ∧ i < j ∧ j + 1 < length (route_at sol r_idx)
    ∧ (two_opt_delta dist (route_at sol r_idx) i j < - IMPROVEMENT_THRESHOLD)%Q.
Proof.
  unfold N1_pass.
  destruct (find _ _) as [[[r_idx i] j]|] eqn:E; [|done].
  intros [= <-]. apply find_some in E as [Hin Hlt].
  apply N1_candidates_spec in Hin. apply Qlt_bool_iff in Hlt.
  exists r_idx, i, j. tauto.
Qed.

(** Reversing the segment [i .. j] of a route. *)
Lemma two_opt_feasible n demands capacity (sol : solution) r_idx i j :
  feasible n demands capacity sol →
  r_idx < length sol → 1 ≤ i → i < j → j + 1 < length (route_at sol r_idx) →
  feasible n demands capacity
    (<[r_idx := reverse_segment (route_at sol r_idx) i j]> sol).
Proof.
  intros Hf Hr Hi Hij Hj.
  pose proof Hf as (Hwf & _ & Hcap).
  apply feasible_replace; [done.. | | |].
  - apply reverse_segment_wf; [by apply Forall_route_at | lia..].
  - apply cnt_perm, reverse_segment_perm. lia.
  - rewrite (route_demand_perm _ _ _ (reverse_segment_perm _ i j ltac:(lia))).
    by apply (Forall_route_at _ _ _ Hcap).
Qed.

Lemma N1_pass_feasible n demands capacity dist sol sol' :
  feasible n demands capacity sol → N1_pass dist sol = Some sol' →
  feasible n demands capacity sol'.
Proof.
  intros Hf H. apply N1_pass_spec in H as (r_idx & i & j & -> & Hr & Hi & Hij & Hj & _).
  by apply two_opt_feasible.
Qed.

Lemma N1_pass_length dist (sol sol' : solution) :
  N1_pass dist sol = Some sol' → length sol' = length sol.
Proof.
  intros H. apply N1_pass_spec in H as (r_idx & i & j & -> & _).
  apply length_insert.
Qed.

Lemma N1_pass_cost dist (sol sol' : solution) :
  (∀ a b, d dist a b == d dist b a)%Q →
  N1_pass dist sol = Some sol' →
  (solution_cost sol' dist < solution_cost sol dist - IMPROVEMENT_THRESHOLD)%Q.
Proof.
  intros Hs H.
  apply N1_pass_spec in H as (r_idx & i & j & -> & Hr & Hi & Hij & Hj & Hlt).
  pose proof (solution_cost_insert dist sol r_idx
                (reverse_segment (route_at sol r_idx) i j) Hr) as Hc.
  rewrite reverse_segment_cost in Hc by (done || lia). lra.
Qed.

(** ** Replacing a stretch of a route *)

Lemma take_pred_node (r : route) i :
  1 ≤ i → i ≤ length r → take i r = take (i - 1) r ++ [node r (i - 1)].
Proof.
  intros H1 H2. replace i with (S (i - 1)) at 1 by lia. apply take_S_node. lia.
Qed.

(** The cost of a route whose stretch between positions [i] and [k] is
    replaced by [m]. *)
Lemma route_cost_frame dist (r : route) i k (m : route) :
  1 ≤ i → i ≤ length r → k < length r →
  (route_cost (take i r ++ m ++ drop k r) dist
   == route_cost (take i r) dist
      + route_cost (node r (i - 1) :: m ++ [node r k]) dist
      + route_cost (drop k r) dist)%Q.
Proof.
  intros H1 H2 Hk.
  rewrite (take_pred_node r i), (drop_node r k) by done.
  rewrite <- (assoc_L (++) (take (i - 1) r)). simpl.
  rewrite route_cost_three. lra.
Qed.

Lemma route_cost_two dist a b : (route_cost [a; b] dist == d dist a b)%Q.
Proof. rewrite route_cost_cons, route_cost_one. lra. Qed.

Lemma route_cost_three_nodes dist a b c :
  (route_cost [a; b; c] dist == d dist a b + d dist b c)%Q.
Proof. rewrite route_cost_cons, route_cost_two. lra. Qed.

(** Facts about every short path that occurs in the context. *)
Ltac short_paths :=
  repeat match goal with
  | H : context [route_cost [?a; ?b; ?c] ?dist] |- _ =>
      lazymatch goal with
      | _ : (route_cost [a; b; c] dist == d dist a b + d dist b c)%Q |- _ => fail
      | _ => pose proof (route_cost_three_nodes dist a b c)
      end
  | H : context [route_cost [?a; ?b] ?dist] |- _ =>
      lazymatch goal with
      | _ : (route_cost [a; b] dist == d dist a b)%Q |- _ => fail
      | _ => pose proof (route_cost_two dist a b)
      end
  end.

Lemma route_middle (r : route) i :
  i < length r → take i r ++ [node r i] ++ drop (S i) r = r.
Proof. intros Hi. apply take_drop_middle. by apply node_lookup. Qed.

Lemma delete_frame (r : route) i : delete i r = take i r ++ [] ++ drop (S i) r.
Proof. apply delete_take_drop. Qed.

Lemma insert_frame (r : route) i x :
  i < length r → <[i := x]> r = take i r ++ [x] ++ drop (S i) r.
Proof. intros Hi. by apply insert_take_drop. Qed.

Lemma insert_at_frame (r : route) i x : insert_at i x r = take i r ++ [x] ++ drop i r.
Proof. reflexivity. Qed.

Lemma frame_wf (r m : route) i k :
  wf_route r → 1 ≤ i → k < length r → wf_route (take i r ++ m ++ drop k r).
Proof.
  intros Hw Hi Hk. pose proof Hw as (Hh & Hl & Hlen). split; [|split].
  - rewrite head_take_app; [done.. |]. by apply wf_route_nonempty.
  - rewrite (assoc_L (++)), last_app_drop; done.
  - rewrite !length_app, length_take, length_drop. lia.
Qed.

(** ** N2: relocation *)

Lemma N2_candidates_spec sol demands capacity dist dlt r1 c r2 pos :
  In (dlt, (r1, c, r2, pos)) (N2_candidates sol demands capacity dist) →
  r1 < length sol ∧ r2 < length sol ∧ r1 ≠ r2
  ∧ 1 ≤ c ∧ c + 1 < length (route_at sol r1)
  ∧ 1 ≤ pos ∧ pos < length (route_at sol r2)
  ∧ (route_demand (route_at sol r2) demands
     + demand demands (node (route_at sol r1) c) <= capacity)%Z
  ∧ dlt = ((d dist (node (route_at sol r1) (c - 1)) (node (route_at sol r1) (c + 1))
            - d dist (node (route_at sol r1) (c - 1)) (node (route_at sol r1) c)
            - d dist (node (route_at sol r1) c) (node (route_at sol r1) (c + 1)))
           + (d dist (node (route_at sol r2) (pos - 1)) (node (route_at sol r1) c)
              + d dist (node (route_at sol r1) c) (node (route_at sol r2) pos)
              - d dist (node (route_at sol r2) (pos - 1))
                  (node (route_at sol r2) pos)))%Q.
Proof.
  unfold N2_candidates. intros H.
  apply in_flat_map in H as (r1' & Hr1 & H).
  destruct (length _ <=? 2); [done|].
  apply in_flat_map in H as (c' & Hc & H).
  apply in_flat_map in H as (r2' & Hr2 & H).
  destruct (r1' =? r2') eqn:E1; [done|]. apply Nat.eqb_neq in E1.
  destruct (capacity <? _)%Z eqn:E2; [done|]. apply Z.ltb_ge in E2.
  apply in_map_iff in H as (pos' & [= <- <- <- <- <-] & Hpos).
  apply in_range in Hr1, Hc, Hr2, Hpos.
  repeat split; try lia; done.
Qed.

Lemma N2_pass_spec demands capacity dist (sol sol' : solution) :
  N2_pass demands capacity dist sol = Some sol' →
  ∃ dlt r1 c r2 pos,
    sol' = N2_apply sol (r1, c, r2, pos)
    ∧ In (dlt, (r1, c, r2, pos)) (N2_candidates sol demands capacity dist)
    ∧ (dlt < - IMPROVEMENT_THRESHOLD)%Q.
Proof.
  unfold N2_pass. destruct (best_of _) as [[[[r1 c] r2] pos]|] eqn:E; [|done].
  intros [= <-]. apply best_of_Some in E as (dlt & Hin & Hlt).
  by exists dlt, r1, c, r2, pos.
Qed.

(** Moving the node at position [c] of [r1] into [r2] at position [pos]. *)
Lemma relocate_feasible n demands capacity (sol : solution) r1 c r2 pos :
  instance_ok n demands → feasible n demands capacity sol →
  r1 < length sol → r2 < length sol → r1 ≠ r2 →
  1 ≤ c → c + 1 < length (route_at sol r1) →
  1 ≤ pos → pos < length (route_at sol r2) →
  (route_demand (route_at sol r2) demands
   + demand demands (node (route_at sol r1) c) <= capacity)%Z →
  feasible n demands capacity
    (<[r2 := insert_at pos (node (route_at sol r1) c) (route_at sol r2)]>
       (<[r1 := delete c (route_at sol r1)]> sol)).
Proof.
  intros [_ Hnn] Hf Hr1 Hr2 Hne Hc1 Hc2 Hp1 Hp2 Hcap.
  pose proof Hf as (Hwf & _ & Hcaps).
  pose proof (Forall_route_at _ _ _ Hwf Hr1) as Hw1.
  pose proof (Forall_route_at _ _ _ Hwf Hr2) as Hw2.
  pose proof (Forall_route_at _ _ _ Hcaps Hr1) as Hcap1. simpl in Hcap1.
  set (R1 := route_at sol r1) in *. set (R2 := route_at sol r2) in *.
  set (cust := node R1 c) in *.
  pose proof (charged_bounds demands cust Hnn) as Hch.
  apply feasible_replace2; try done.
  - rewrite delete_frame. apply frame_wf; [done | lia..].
  - rewrite insert_at_frame. apply frame_wf; [done | lia..].
  - intros x. rewrite delete_frame, insert_at_frame, !cnt_app, cnt_cons. simpl.
    pose proof (cnt_node R1 c x ltac:(lia)).
    pose proof (cnt_take_drop R2 pos x). fold cust in H. fold R1 R2. lia.
  - rewrite delete_frame, !route_demand_app, route_demand_nil.
    pose proof (route_demand_node demands R1 c ltac:(lia)). fold cust in H. lia.
  - rewrite insert_at_frame, !route_demand_app, route_demand_cons, route_demand_nil.
    pose proof (route_demand_take_drop demands R2 pos). lia.
Qed.

Lemma relocate_cost dist (sol : solution) r1 c r2 pos :
  r1 < length sol → r2 < length sol → r1 ≠ r2 →
  1 ≤ c → c + 1 < length (route_at sol r1) →
  1 ≤ pos → pos < length (route_at sol r2) →
  (solution_cost
     (<[r2 := insert_at pos (node (route_at sol r1) c) (route_at sol r2)]>
        (<[r1 := delete c (route_at sol r1)]> sol)) dist
   == solution_cost sol dist
      + ((d dist (node (route_at sol r1) (c - 1)) (node (route_at sol r1) (c + 1))
          - d dist (node (route_at sol r1) (c - 1)) (node (route_at sol r1) c)
          - d dist (node (route_at sol r1) c) (node (route_at sol r1) (c + 1)))
         + (d dist (node (route_at sol r2) (pos - 1)) (node (route_at sol r1) c)
            + d dist (node (route_at sol r1) c) (node (route_at sol r2) pos)
            - d dist (node (route_at sol r2) (pos - 1))
                (node (route_at sol r2) pos))))%Q.
Proof.
  intros Hr1 Hr2 Hne Hc1 Hc2 Hp1 Hp2.
  set (R1 := route_at sol r1). set (R2 := route_at sol r2).
  set (cust := node R1 c).
  pose proof (solution_cost_insert dist sol r1 (delete c R1) Hr1) as H1.
  pose proof (solution_cost_insert dist (<[r1 := delete c R1]> sol) r2
                (insert_at pos cust R2) ltac:(by rewrite length_insert)) as H2.
  rewrite route_at_insert_ne in H2 by done. fold R1 R2 in H1, H2.
  pose proof (route_cost_frame dist R1 c (S c) [cust]
                ltac:(lia) ltac:(unfold R1; lia) ltac:(unfold R1; lia)) as F1.
  pose proof (route_cost_frame dist R1 c (S c) []
                ltac:(lia) ltac:(unfold R1; lia) ltac:(unfold R1; lia)) as F2.
  pose proof (route_cost_frame dist R2 pos pos []
                ltac:(lia) ltac:(unfold R2; lia) ltac:(unfold R2; lia)) as F3.
  pose proof (route_cost_frame dist R2 pos pos [cust]
                ltac:(lia) ltac:(unfold R2; lia) ltac:(unfold R2; lia)) as F4.
  unfold cust in F1 at 1. rewrite route_middle in F1 by (unfold R1; lia).
  rewrite <- delete_frame in F2.
  rewrite app_nil_l, take_drop in F3.
  rewrite <- insert_at_frame in F4.
  cbn [app] in F1, F2, F3, F4.
  short_paths.
  replace (S c) with (c + 1) in * by lia.
  fold cust. lra.
Qed.

Lemma N2_pass_feasible n demands capacity dist sol sol' :
  instance_ok n demands → feasible n demands capacity sol →
  N2_pass demands capacity dist sol = Some sol' →
  feasible n demands capacity sol'.
Proof.
  intros Hi Hf H.
  apply N2_pass_spec in H as (dlt & r1 & c & r2 & pos & -> & Hin & _).
  apply N2_candidates_spec in Hin as (? & ? & ? & ? & ? & ? & ? & ? & _).
  unfold N2_apply. rewrite route_at_insert_ne by done.
  by apply feasible_drop_trivial, relocate_feasible.
Qed.

Lemma N2_pass_length demands capacity dist (sol sol' : solution) :
  N2_pass demands capacity dist sol = Some sol' → length sol' ≤ length sol.
Proof.
  intros H.
  apply N2_pass_spec in H as (dlt & r1 & c & r2 & pos & -> & _).
  unfold N2_apply. etrans; [apply length_drop_trivial|].
  by rewrite !length_insert.
Qed.

Lemma N2_pass_cost demands capacity dist (sol sol' : solution) :
  (∀ a b, 0 <= d dist a b)%Q →
  N2_pass demands capacity dist sol = Some sol' →
  (solution_cost sol' dist < solution_cost sol dist - IMPROVEMENT_THRESHOLD)%Q.
Proof.
  intros Hd H.
  apply N2_pass_spec in H as (dlt & r1 & c & r2 & pos & -> & Hin & Hlt).
  apply N2_candidates_spec in Hin as (? & ? & ? & ? & ? & ? & ? & ? & ->).
  unfold N2_apply. rewrite route_at_insert_ne by done.
  eapply Qle_lt_trans; [by apply solution_cost_drop_trivial|].
  rewrite relocate_cost by done. lra.
Qed.

(** ** N3: swap *)

Lemma N3_candidates_spec sol demands capacity dist dlt r1 c1 r2 c2 :
  In (dlt, (r1, c1, r2, c2)) (N3_candidates sol demands capacity dist) →
  r1 < r2 ∧ r2 < length sol
  ∧ 1 ≤ c1 ∧ c1 + 1 < length (route_at sol r1)
  ∧ 1 ≤ c2 ∧ c2 + 1 < length (route_at sol r2)
  ∧ (route_demand (route_at sol r1) demands
     - demand demands (node (route_at sol r1) c1)
     + demand demands (node (route_at sol r2) c2) <= capacity)%Z
  ∧ (route_demand (route_at sol r2) demands
     - demand demands (node (route_at sol r2) c2)
     + demand demands (node (route_at sol r1) c1) <= capacity)%Z
  ∧ dlt = (d dist (node (route_at sol r1) (c1 - 1)) (node (route_at sol r2) c2)
           + d dist (node (route_at sol r2) c2) (node (route_at sol r1) (c1 + 1))
           + d dist (node (route_at sol r2) (c2 - 1)) (node (route_at sol r1) c1)
           + d dist (node (route_at sol r1) c1) (node (route_at sol r2) (c2 + 1))
           - d dist (node (route_at sol r1) (c1 - 1)) (node (route_at sol r1) c1)
           - d dist (node (route_at sol r1) c1) (node (route_at sol r1) (c1 + 1))
           - d dist (node (route_at sol r2) (c2 - 1)) (node (route_at sol r2) c2)
           - d dist (node (route_at sol r2) c2) (node (route_at sol r2) (c2 + 1)))%Q.
Proof.
  unfold N3_candidates. intros H.
  apply in_flat_map in H as (r1' & Hr1 & H).
  destruct (length _ <=? 2); [done|].
  apply in_flat_map in H as (c1' & Hc1 & H).
  apply in_flat_map in H as (r2' & Hr2 & H).
  destruct (length _ <=? 2); [done|].
  apply in_flat_map in H as (c2' & Hc2 & H).
  destruct (_ || _) eqn:E; [done|].
  apply orb_false_iff in E as [E1 E2]. apply Z.ltb_ge in E1, E2.
  destruct H as [[= <- <- <- <- <-]|[]].
  apply in_range in Hr1, Hc1, Hr2, Hc2.
  repeat split; try lia; done.
Qed.

(** Exchanging the nodes at positions [c1] of [r1] and [c2] of [r2]. *)
Lemma swap_feasible n demands capacity (sol : solution) r1 c1 r2 c2 :
  feasible n demands capacity sol →
  r1 < length sol → r2 < length sol → r1 ≠ r2 →
  1 ≤ c1 → c1 + 1 < length (route_at sol r1) →
  1 ≤ c2 → c2 + 1 < length (route_at sol r2) →
  (route_demand (route_at sol r1) demands
   - demand demands (node (route_at sol r1) c1)
   + demand demands (node (route_at sol r2) c2) <= capacity)%Z →
  (route_demand (route_at sol r2) demands
   - demand demands (node (route_at sol r2) c2)
   + demand demands (node (route_at sol r1) c1) <= capacity)%Z →
  feasible n demands capacity (N3_apply sol (r1, c1, r2, c2)).
Proof.
  intros Hf Hr1 Hr2 Hne Hc1 Hc1' Hc2 Hc2' Hl1 Hl2.
  pose proof Hf as (Hwf & _ & _).
  pose proof (Forall_route_at _ _ _ Hwf Hr1) as Hw1.
  pose proof (Forall_route_at _ _ _ Hwf Hr2) as Hw2.
  pose proof (feasible_interior_nonzero _ _ _ _ c1 r1 Hf Hr1 Hc1 Hc1') as Hz1.
  pose proof (feasible_interior_nonzero _ _ _ _ c2 r2 Hf Hr2 Hc2 Hc2') as Hz2.
  unfold N3_apply. rewrite route_at_insert_ne by done.
  set (R1 := route_at sol r1) in *. set (R2 := route_at sol r2) in *.
  set (C1 := node R1 c1) in *. set (C2 := node R2 c2) in *.
  assert (Hch1 : charged demands C1 = demand demands C1)
    by (unfold charged; by rewrite decide_False).
  assert (Hch2 : charged demands C2 = demand demands C2)
    by (unfold charged; by rewrite decide_False).
  pose proof (route_demand_node demands R1 c1 ltac:(lia)) as D1.
  pose proof (route_demand_node demands R2 c2 ltac:(lia)) as D2.
  fold C1 in D1. fold C2 in D2.
  apply feasible_replace2; try done.
  - rewrite insert_frame by lia. apply frame_wf; [done | lia..].
  - rewrite insert_frame by lia. apply frame_wf; [done | lia..].
  - intros x. fold R1 R2. rewrite !insert_frame by lia.
    rewrite !cnt_app, !cnt_cons. simpl.
    pose proof (cnt_node R1 c1 x ltac:(lia)) as E1.
    pose proof (cnt_node R2 c2 x ltac:(lia)) as E2.
    fold C1 in E1. fold C2 in E2. lia.
  - rewrite insert_frame by lia.
    rewrite !route_demand_app, route_demand_cons, route_demand_nil. lia.
  - rewrite insert_frame by lia.
    rewrite !route_demand_app, route_demand_cons, route_demand_nil. lia.
Qed.

Lemma swap_cost dist (sol : solution) r1 c1 r2 c2 :
  r1 < length sol → r2 < length sol → r1 ≠ r2 →
  1 ≤ c1 → c1 + 1 < length (route_at sol r1) →
  1 ≤ c2 → c2 + 1 < length (route_at sol r2) →
  (solution_cost (N3_apply sol (r1, c1, r2, c2)) dist
   == solution_cost sol dist
      + (d dist (node (route_at sol r1) (c1 - 1)) (node (route_at sol r2) c2)
         + d dist (node (route_at sol r2) c2) (node (route_at sol r1) (c1 + 1))
         + d dist (node (route_at sol r2) (c2 - 1)) (node (route_at sol r1) c1)
         + d dist (node (route_at sol r1) c1) (node (route_at sol r2) (c2 + 1))
         - d dist (node (route_at sol r1) (c1 - 1)) (node (route_at sol r1) c1)
         - d dist (node (route_at sol r1) c1) (node (route_at sol r1) (c1 + 1))
         - d dist (node (route_at sol r2) (c2 - 1)) (node (route_at sol r2) c2)
         - d dist (node (route_at sol r2) c2) (node (route_at sol r2) (c2 + 1))))%Q.
Proof.
  intros Hr1 Hr2 Hne Hc1 Hc1' Hc2 Hc2'.
  unfold N3_apply. rewrite route_at_insert_ne by done.
  set (R1 := route_at sol r1) in *. set (R2 := route_at sol r2) in *.
  set (C1 := node R1 c1). set (C2 := node R2 c2).
  pose proof (solution_cost_insert dist sol r1 (<[c1 := C2]> R1) Hr1) as H1.
  pose proof (solution_cost_insert dist (<[r1 := <[c1 := C2]> R1]> sol) r2
                (<[c2 := C1]> R2) ltac:(by rewrite length_insert)) as H2.
  rewrite route_at_insert_ne in H2 by done. fold R1 R2 in H1, H2.
  pose proof (route_cost_frame dist R1 c1 (S c1) [C1]
                ltac:(lia) ltac:(lia) ltac:(lia)) as F1.
  pose proof (route_cost_frame dist R1 c1 (S c1) [C2]
                ltac:(lia) ltac:(lia) ltac:(lia)) as F2.
  pose proof (route_cost_frame dist R2 c2 (S c2) [C2]
                ltac:(lia) ltac:(lia) ltac:(lia)) as F3.
  pose proof (route_cost_frame dist R2 c2 (S c2) [C1]
                ltac:(lia) ltac:(lia) ltac:(lia)) as F4.
  unfold C1 in F1 at 1. rewrite route_middle in F1 by lia.
  unfold C2 in F3 at 1. rewrite route_middle in F3 by lia.
  rewrite <- insert_frame in F2, F4 by lia.
  cbn [app] in F1, F2, F3, F4. short_paths.
  replace (S c1) with (c1 + 1) in * by lia.
  replace (S c2) with (c2 + 1) in * by lia.
  fold C1 C2. lra.
Qed.

Lemma N3_pass_spec demands capacity dist (sol sol' : solution) :
  N3_pass demands capacity dist sol = Some sol' →
  ∃ dlt r1 c1 r2 c2,
    sol' = N3_apply sol (r1, c1, r2, c2)
    ∧ In (dlt, (r1, c1, r2, c2)) (N3_candidates sol demands capacity dist)
    ∧ (dlt < - IMPROVEMENT_THRESHOLD)%Q.
Proof.
  unfold N3_pass. destruct (best_of _) as [[[[r1 c1] r2] c2]|] eqn:E; [|done].
  intros [= <-]. apply best_of_Some in E as (dlt & Hin & Hlt).
  by exists dlt, r1, c1, r2, c2.
Qed.

Lemma N3_pass_feasible n demands capacity dist sol sol' :
  feasible n demands capacity sol →
  N3_pass demands capacity dist sol = Some sol' →
  feasible n demands capacity sol'.
Proof.
  intros Hf H.
  apply N3_pass_spec in H as (dlt & r1 & c1 & r2 & c2 & -> & Hin & _).
  apply N3_candidates_spec in Hin as (? & ? & ? & ? & ? & ? & ? & ? & _).
  apply swap_feasible; try done; lia.
Qed.

Lemma N3_apply_length (sol : solution) m : length (N3_apply sol m) = length sol.
Proof. destruct m as [[[r1 c1] r2] c2]. unfold N3_apply. by rewrite !length_insert. Qed.

Lemma N3_pass_length demands capacity dist (sol sol' : solution) :
  N3_pass demands capacity dist sol = Some sol' → length sol' = length sol.
Proof.
  intros H. apply N3_pass_spec in H as (dlt & r1 & c1 & r2 & c2 & -> & _).
  apply N3_apply_length.
Qed.

Lemma N3_pass_cost demands capacity dist (sol sol' : solution) :
  N3_pass demands capacity dist sol = Some sol' →
  (solution_cost sol' dist < solution_cost sol dist - IMPROVEMENT_THRESHOLD)%Q.
Proof.
  intros H.
  apply N3_pass_spec in H as (dlt & r1 & c1 & r2 & c2 & -> & Hin & Hlt).
  apply N3_candidates_spec in Hin as (? & ? & ? & ? & ? & ? & ? & ? & ->).
  rewrite swap_cost by (done || lia). lra.
Qed.

(** ** N4: exchange of tails *)

Lemma N4_candidates_spec (sol : solution) r1 r2 i j :
  In (r1, r2, i, j) (N4_candidates sol) →
  r1 < r2 ∧ r2 < length sol
  ∧ 1 ≤ i ∧ i + 1 < length (route_at sol r1)
  ∧ 1 ≤ j ∧ j + 1 < length (route_at sol r2).
Proof.
  unfold N4_candidates. intros H.
  apply in_flat_map in H as (r1' & Hr1 & H).
  destruct (length _ <=? 2); [done|].
  apply in_flat_map in H as (r2' & Hr2 & H).
  destruct (length _ <=? 2); [done|].
  apply in_flat_map in H as (i' & Hi & H).
  apply in_map_iff in H as (j' & [= <- <- <- <-] & Hj).
  apply in_range in Hr1, Hr2, Hi, Hj. lia.
Qed.

(** The head of one route followed by the tail of another. *)
Lemma join_wf (r1 r2 : route) a b :
  wf_route r1 → wf_route r2 → 1 ≤ a → b < length r2 →
  wf_route (take a r1 ++ drop b r2).
Proof.
  intros Hw1 Hw2 Ha Hb.
  pose proof Hw1 as (Hh1 & _ & Hlen1). pose proof Hw2 as (_ & Hl2 & _).
  split; [|split].
  - rewrite head_take_app; [done.. |]. by apply wf_route_nonempty.
  - by rewrite last_app_drop.
  - rewrite length_app, length_take, length_drop. lia.
Qed.

Lemma N4_pass_spec demands capacity dist (sol sol' : solution) :
  N4_pass demands capacity dist sol = Some sol' →
  ∃ r1 r2 i j,
    sol' = N4_apply sol (r1, r2, i, j)
    ∧ In (r1, r2, i, j) (N4_candidates sol)
    ∧ N4_improves sol demands capacity dist (r1, r2, i, j) = true.
Proof.
  unfold N4_pass. destruct (find _ _) as [[[[r1 r2] i] j]|] eqn:E; [|done].
  intros [= <-]. apply find_some in E as [Hin Himp].
  by exists r1, r2, i, j.
Qed.

Lemma N4_improves_spec sol demands capacity dist r1 r2 i j :
  N4_improves sol demands capacity dist (r1, r2, i, j) = true →
  (route_demand (N4_new_r1 sol r1 r2 i j) demands <= capacity)%Z
  ∧ (route_demand (N4_new_r2 sol r1 r2 i j) demands <= capacity)%Z
  ∧ (route_cost (N4_new_r1 sol r1 r2 i j) dist
     + route_cost (N4_new_r2 sol r1 r2 i j) dist
     < route_cost (route_at sol r1) dist + route_cost (route_at sol r2) dist
       - IMPROVEMENT_THRESHOLD)%Q.
Proof.
  unfold N4_improves. destruct (_ && _) eqn:E; [|done].
  apply andb_true_iff in E as [E1 E2]. apply Z.leb_le in E1, E2.
  intros H. apply Qlt_bool_iff in H. done.
Qed.

(** Exchanging the tails of [r1] after position [i] and of [r2] after
    position [j]. *)
Lemma exchange_feasible n demands capacity (sol : solution) r1 r2 i j :
  feasible n demands capacity sol →
  In (r1, r2, i, j) (N4_candidates sol) →
  (route_demand (N4_new_r1 sol r1 r2 i j) demands <= capacity)%Z →
  (route_demand (N4_new_r2 sol r1 r2 i j) demands <= capacity)%Z →
  feasible n demands capacity (N4_apply sol (r1, r2, i, j)).
Proof.
  intros Hf Hin Hd1 Hd2.
  apply N4_candidates_spec in Hin as (Hr12 & Hr2 & Hi1 & Hi2 & Hj1 & Hj2).
  pose proof Hf as (Hwf & _ & _).
  assert (Hr1 : r1 < length sol) by lia.
  pose proof (Forall_route_at _ _ _ Hwf Hr1) as Hw1.
  pose proof (Forall_route_at _ _ _ Hwf Hr2) as Hw2.
  unfold N4_apply. apply feasible_replace2; try done; try lia.
  - apply join_wf; [done.. | lia | lia].
  - apply join_wf; [done.. | lia | lia].
  - intros x. unfold N4_new_r1, N4_new_r2. rewrite !cnt_app.
    pose proof (cnt_take_drop (route_at sol r1) (i + 1) x).
    pose proof (cnt_take_drop (route_at sol r2) (j + 1) x). lia.
Qed.

Lemma N4_pass_feasible n demands capacity dist sol sol' :
  feasible n demands capacity sol →
  N4_pass demands capacity dist sol = Some sol' →
  feasible n demands capacity sol'.
Proof.
  intros Hf H.
  apply N4_pass_spec in H as (r1 & r2 & i & j & -> & Hin & Himp).
  apply N4_improves_spec in Himp as (Hd1 & Hd2 & _).
  by apply exchange_feasible.
Qed.

Lemma N4_pass_length demands capacity dist (sol sol' : solution) :
  N4_pass demands capacity dist sol = Some sol' → length sol' = length sol.
Proof.
  intros H. apply N4_pass_spec in H as (r1 & r2 & i & j & -> & _).
  unfold N4_apply. by rewrite !length_insert.
Qed.

Lemma N4_pass_cost demands capacity dist (sol sol' : solution) :
  N4_pass demands capacity dist sol = Some sol' →
  (solution_cost sol' dist < solution_cost sol dist - IMPROVEMENT_THRESHOLD)%Q.
Proof.
  intros H.
  apply N4_pass_spec in H as (r1 & r2 & i & j & -> & Hin & Himp).
  apply N4_candidates_spec in Hin as (Hr12 & Hr2 & Hi1 & Hi2 & Hj1 & Hj2).
  apply N4_improves_spec in Himp as (_ & _ & Hlt).
  unfold N4_apply.
  pose proof (solution_cost_insert dist sol r1 (N4_new_r1 sol r1 r2 i j)
                ltac:(lia)) as H1.
  pose proof (solution_cost_insert dist (<[r1 := N4_new_r1 sol r1 r2 i j]> sol)
                r2 (N4_new_r2 sol r1 r2 i j)
                ltac:(rewrite length_insert; lia)) as H2.
  rewrite route_at_insert_ne in H2 by lia. lra.
Qed.

(** ** N5: merging two routes *)

Lemma enum_filter_ext {A} (P Q : nat → Prop)
    `{!∀ p : nat * A, Decision (P p.1)} `{!∀ p : nat * A, Decision (Q p.1)}
    s (l : list A) :
  (∀ i, s ≤ i → (P i ↔ Q i)) →
  filter (λ p : nat * A, P p.1) (zip (seq s (length l)) l)
  = filter (λ p : nat * A, Q p.1) (zip (seq s (length l)) l).
Proof.
  revert s. induction l as [|x l IH]; intros s Hext; [done|].
  simpl. rewrite !filter_cons. simpl.
  rewrite (IH (S s)) by (intros i Hi; apply Hext; lia).
  pose proof (Hext s ltac:(lia)) as Hs.
  destruct (decide (P s)) as [HP|HP], (decide (Q s)) as [HQ|HQ];
    try done; tauto.
Qed.

Lemma enum_filter_all {A} (P : nat → Prop)
    `{!∀ p : nat * A, Decision (P p.1)} s (l : list A) :
  (∀ i, s ≤ i → P i) →
  map snd (filter (λ p : nat * A, P p.1) (zip (seq s (length l)) l)) = l.
Proof.
  revert s. induction l as [|x l IH]; intros s Hall; [done|].
  simpl. rewrite filter_cons_True by (apply Hall; simpl; lia).
  simpl. f_equal. apply IH. intros i Hi. apply Hall. lia.
Qed.

Lemma enum_filter_one {A} s (l : list A) b :
  map snd (filter (λ p : nat * A, p.1 ≠ s + b) (zip (seq s (length l)) l))
  = delete b l.
Proof.
  revert s b. induction l as [|x l IH]; intros s b; [by destruct b|].
  simpl. destruct b as [|b].
  - rewrite filter_cons_False by (simpl; lia). simpl.
    apply (enum_filter_all (λ i, i ≠ s + 0)). lia.
  - rewrite filter_cons_True by (simpl; lia). simpl. f_equal.
    rewrite <- (IH (S s) b).
    f_equal. apply (enum_filter_ext (λ i, i ≠ s + S b) (λ i, i ≠ S s + b)). lia.
Qed.

Lemma enum_filter_two {A} s (l : list A) a b :
  a < b →
  map snd (filter (λ p : nat * A, p.1 ≠ s + a ∧ p.1 ≠ s + b)
             (zip (seq s (length l)) l))
  = delete a (delete b l).
Proof.
  revert s a b. induction l as [|x l IH]; intros s a b Hab.
  { destruct a, b; done. }
  destruct b as [|b]; [lia|]. simpl. destruct a as [|a].
  - rewrite filter_cons_False by (simpl; lia). simpl.
    rewrite <- (enum_filter_one (S s) l b). f_equal.
    apply (enum_filter_ext (λ i, i ≠ s + 0 ∧ i ≠ s + S b) (λ i, i ≠ S s + b)). lia.
  - rewrite filter_cons_True by (simpl; lia). simpl. f_equal.
    rewrite <- (IH (S s) a b) by lia. f_equal.
    apply (enum_filter_ext (λ i, i ≠ s + S a ∧ i ≠ s + S b)
                           (λ i, i ≠ S s + a ∧ i ≠ S s + b)). lia.
Qed.

Lemma N5_apply_delete (sol : solution) r1 r2 merged :
  r1 < r2 →
  N5_apply sol (r1, r2, merged) = delete r1 (delete r2 sol) ++ [merged].
Proof.
  intros H. unfold N5_apply, enumerate. f_equal.
  by apply (enum_filter_two 0 sol r1 r2).
Qed.

Lemma route_at_delete_lt (sol : solution) i j :
  i < j → route_at (delete j sol) i = route_at sol i.
Proof.
  intros Hij. unfold route_at. rewrite !nth_lookup.
  by rewrite list_lookup_delete_lt.
Qed.

Lemma N5_candidates_spec sol demands capacity dist dlt r1 r2 merged :
  In (dlt, (r1, r2, merged)) (N5_candidates sol demands capacity dist) →
  r1 < r2 ∧ r2 < length sol
  ∧ (route_demand (route_at sol r1) demands
     + route_demand (route_at sol r2) demands <= capacity)%Z
  ∧ In merged (N5_configs (route_at sol r1) (route_at sol r2))
  ∧ dlt = (route_cost merged dist
           - (route_cost (route_at sol r1) dist
              + route_cost (route_at sol r2) dist))%Q.
Proof.
  unfold N5_candidates. intros H.
  apply in_flat_map in H as (r1' & Hr1 & H).
  apply in_flat_map in H as (r2' & Hr2 & H).
  destruct (_ <=? _)%Z eqn:E; [|done]. apply Z.leb_le in E.
  apply in_map_iff in H as (m & [= <- <- <- <-] & Hm).
  apply in_range in Hr1, Hr2. repeat split; try lia; done.
Qed.

Lemma but_last_wrap (m : list nat) : but_last (0 :: m ++ [0]) = 0 :: m.
Proof.
  unfold but_last. simpl. rewrite length_app. simpl.
  replace (length m + 1 - 0) with (S (length m)) by lia.
  simpl. by rewrite take_app_length.
Qed.

Lemma rev_interior_wrap (m : list nat) : rev_interior (0 :: m ++ [0]) = reverse m.
Proof.
  unfold rev_interior. change (slice ?r 1 (length ?r - 1)) with (interior r).
  by rewrite interior_wrap.
Qed.

Lemma wrap_wf (m : list nat) : wf_route (0 :: m ++ [0]).
Proof. apply wf_route_wrap. by rewrite interior_wrap. Qed.

Lemma route_demand_wrap demands (m : list nat) :
  route_demand (0 :: m ++ [0]) demands = route_demand m demands.
Proof.
  rewrite route_demand_cons, route_demand_app, route_demand_cons, route_demand_nil.
  unfold charged. simpl. lia.
Qed.

(** Each way of merging two routes visits the customers of both. *)
Lemma N5_configs_spec (r1 r2 merged : route) :
  wf_route r1 → wf_route r2 → In merged (N5_configs r1 r2) →
  ∃ m, merged = 0 :: m ++ [0] ∧ m ≡ₚ interior r1 ++ interior r2.
Proof.
  intros Hw1 Hw2 Hin.
  apply wf_route_wrap in Hw1, Hw2.
  remember (interior r1) as m1 eqn:E1. remember (interior r2) as m2 eqn:E2.
  clear E1 E2. subst r1 r2. unfold N5_configs in Hin.
  rewrite !but_last_wrap, !rev_interior_wrap in Hin. simpl in Hin.
  destruct Hin as [<- | [<- | [<- | [<- | []]]]].
  - exists (m1 ++ m2). by rewrite <- (assoc_L (++)).
  - exists (m2 ++ m1). rewrite <- (assoc_L (++)). split; [done|].
    apply Permutation_app_comm.
  - exists (m1 ++ reverse m2). rewrite <- (assoc_L (++)). split; [done|].
    by rewrite reverse_Permutation.
  - exists (m2 ++ reverse m1). rewrite <- (assoc_L (++)). split; [done|].
    rewrite reverse_Permutation. apply Permutation_app_comm.
Qed.

Lemma N5_pass_spec demands capacity dist (sol sol' : solution) :
  N5_pass demands capacity dist sol = Some sol' →
  ∃ dlt r1 r2 merged,
    sol' = delete r1 (delete r2 sol) ++ [merged]
    ∧ In (dlt, (r1, r2, merged)) (N5_candidates sol demands capacity dist)
    ∧ (dlt < - IMPROVEMENT_THRESHOLD)%Q.
Proof.
  unfold N5_pass. destruct (best_of _) as [[[r1 r2] merged]|] eqn:E; [|done].
  intros [= <-]. apply best_of_Some in E as (dlt & Hin & Hlt).
  exists dlt, r1, r2, merged. split; [|done].
  apply N5_apply_delete.
  by apply N5_candidates_spec in Hin as (? & _).
Qed.

(** Replacing the routes [r1] and [r2] by one of their merges. *)
Lemma merge_feasible n demands capacity (sol : solution) r1 r2 merged :
  feasible n demands capacity sol →
  r1 < r2 → r2 < length sol →
  (route_demand (route_at sol r1) demands
   + route_demand (route_at sol r2) demands <= capacity)%Z →
  In merged (N5_configs (route_at sol r1) (route_at sol r2)) →
  feasible n demands capacity (delete r1 (delete r2 sol) ++ [merged]).
Proof.
  intros Hf Hr12 Hr2 Hcap Hm.
  apply feasible_customers_cnt in Hf as (Hwf & Hc & Hcaps).
  assert (Hr1 : r1 < length sol) by lia.
  pose proof (Forall_route_at _ _ _ Hwf Hr1) as Hw1.
  pose proof (Forall_route_at _ _ _ Hwf Hr2) as Hw2.
  destruct (N5_configs_spec _ _ _ Hw1 Hw2 Hm) as (m & -> & Hperm).
  apply feasible_customers_cnt. split; [|split].
  - apply Forall_app. split; [by do 2 apply Forall_delete|].
    constructor; [apply wrap_wf | constructor].
  - intros x. rewrite <- Hc, customers_app, cnt_app.
    pose proof (customers_delete sol r2 x Hr2) as D2.
    pose proof (customers_delete (delete r2 sol) r1 x) as D1.
    rewrite route_at_delete_lt in D1 by done.
    rewrite length_delete in D1 by (by apply lookup_lt_is_Some_2).
    specialize (D1 ltac:(lia)).
    unfold customers at 2. simpl. rewrite app_nil_r, interior_wrap.
    rewrite (proj1 (cnt_perm _ _) Hperm x), cnt_app. lia.
  - apply Forall_app. split; [by do 2 apply Forall_delete|].
    constructor; [|constructor].
    rewrite route_demand_wrap, (route_demand_perm _ _ _ Hperm), route_demand_app.
    apply wf_route_wrap in Hw1, Hw2.
    rewrite Hw1, Hw2, !route_demand_wrap in Hcap. done.
Qed.

Lemma N5_pass_feasible n demands capacity dist sol sol' :
  feasible n demands capacity sol →
  N5_pass demands capacity dist sol = Some sol' →
  feasible n demands capacity sol'.
Proof.
  intros Hf H.
  apply N5_pass_spec in H as (dlt & r1 & r2 & merged & -> & Hin & _).
  apply N5_candidates_spec in Hin as (Hr12 & Hr2 & Hcap & Hm & _).
  by apply merge_feasible.
Qed.

Lemma merge_length (sol : solution) r1 r2 (merged : route) :
  r1 < r2 → r2 < length sol →
  length (delete r1 (delete r2 sol) ++ [merged]) + 1 = length sol.
Proof.
  intros Hr12 Hr2.
  rewrite length_app. simpl.
  rewrite !length_delete; try (apply lookup_lt_is_Some_2; lia); [lia|].
  apply lookup_lt_is_Some_2.
  rewrite length_delete by (apply lookup_lt_is_Some_2; lia). lia.
Qed.

Lemma N5_pass_length demands capacity dist (sol sol' : solution) :
  N5_pass demands capacity dist sol = Some sol' → length sol' + 1 = length sol.
Proof.
  intros H.
  apply N5_pass_spec in H as (dlt & r1 & r2 & merged & -> & Hin & _).
  apply N5_candidates_spec in Hin as (Hr12 & Hr2 & _).
  by apply merge_length.
Qed.

Lemma N5_pass_cost demands capacity dist (sol sol' : solution) :
  N5_pass demands capacity dist sol = Some sol' →
  (solution_cost sol' dist < solution_cost sol dist - IMPROVEMENT_THRESHOLD)%Q.
Proof.
  intros H.
  apply N5_pass_spec in H as (dlt & r1 & r2 & merged & -> & Hin & Hlt).
  apply N5_candidates_spec in Hin as (Hr12 & Hr2 & _ & _ & ->).
  rewrite solution_cost_app, solution_cost_cons, solution_cost_nil.
  pose proof (solution_cost_delete dist sol r2 Hr2) as D2.
  pose proof (solution_cost_delete dist (delete r2 sol) r1) as D1.
  rewrite route_at_delete_lt in D1 by done.
  rewrite length_delete in D1 by (by apply lookup_lt_is_Some_2).
  specialize (D1 ltac:(lia)). lra.
Qed.

(** ** Gluing paths *)

Lemma route_cost_app dist (l1 l2 : route) :
  l1 ≠ [] → l2 ≠ [] →
  (route_cost (l1 ++ l2) dist
   == route_cost l1 dist + d dist (tail_node l1) (node l2 0)
      + route_cost l2 dist)%Q.
Proof.
  intros H1 H2. destruct l2 as [|y l2]; [done|]. clear H2.
  destruct l1 as [|x l1 _] using rev_ind; [done|]. clear H1.
  rewrite <- (assoc_L (++)). simpl.
  rewrite route_cost_split.
  assert (Ht : tail_node (l1 ++ [x]) = x).
  { unfold tail_node, node. rewrite length_app. simpl.
    replace (length l1 + 1 - 1) with (length l1) by lia.
    by rewrite nth_middle. }
  rewrite Ht. unfold node at 1. simpl.
  rewrite (route_cost_cons dist x y l2). lra.
Qed.

Lemma node_app_first (l1 l2 : route) : l1 ≠ [] → node (l1 ++ l2) 0 = node l1 0.
Proof. by destruct l1. Qed.

Lemma tail_node_take (r : route) k :
  1 ≤ k → k ≤ length r → tail_node (take k r) = node r (k - 1).
Proof.
  intros H1 H2. unfold tail_node. rewrite length_take.
  replace (k `min` length r) with k by lia. apply node_take. lia.
Qed.

Lemma tail_node_slice (r : route) a b :
  a < b → b ≤ length r → tail_node (slice r a b) = node r (b - 1).
Proof. apply slice_last. Qed.

Lemma node_drop_first (r : route) k : node (drop k r) 0 = node r k.
Proof. rewrite node_drop. f_equal. lia. Qed.

Lemma nonempty_length {A} (l : list A) : 0 < length l → l ≠ [].
Proof. intros H ->. simpl in H. lia. Qed.

Lemma take_nonempty (r : route) k : 1 ≤ k → 1 ≤ length r → take k r ≠ [].
Proof. intros. apply nonempty_length. rewrite length_take. lia. Qed.

Lemma drop_nonempty (r : route) k : k < length r → drop k r ≠ [].
Proof. intros. apply nonempty_length. rewrite length_drop. lia. Qed.

Lemma slice_nonempty (r : route) a b : a < b → b ≤ length r → slice r a b ≠ [].
Proof. intros. apply nonempty_length. rewrite length_slice; lia. Qed.

Lemma app_nonempty_l {A} (l1 l2 : list A) : l1 ≠ [] → l1 ++ l2 ≠ [].
Proof. by destruct l1. Qed.

(** Four pieces in a row. *)
Lemma route_cost_four dist (a x y b : route) :
  a ≠ [] → x ≠ [] → y ≠ [] → b ≠ [] →
  (route_cost (a ++ x ++ y ++ b) dist
   == route_cost a dist + d dist (tail_node a) (node x 0)
      + route_cost x dist + d dist (tail_node x) (node y 0)
      + route_cost y dist + d dist (tail_node y) (node b 0)
      + route_cost b dist)%Q.
Proof.
  intros Ha Hx Hy Hb.
  rewrite (route_cost_app dist a (x ++ y ++ b))
    by (done || by apply app_nonempty_l).
  rewrite (route_cost_app dist x (y ++ b)) by (done || by apply app_nonempty_l).
  rewrite (route_cost_app dist y b) by done.
  rewrite !node_app_first by (done || by apply app_nonempty_l). lra.
Qed.

Lemma route_cost_three_pieces dist (a x b : route) :
  a ≠ [] → x ≠ [] → b ≠ [] →
  (route_cost (a ++ x ++ b) dist
   == route_cost a dist + d dist (tail_node a) (node x 0)
      + route_cost x dist + d dist (tail_node x) (node b 0)
      + route_cost b dist)%Q.
Proof.
  intros Ha Hx Hb.
  rewrite (route_cost_app dist a (x ++ b)) by (done || by apply app_nonempty_l).
  rewrite (route_cost_app dist x b) by done.
  rewrite !node_app_first by done. lra.
Qed.

(** ** Inserting a chain *)

Lemma insert_chain_from (chain : list nat) s pos (r : route) :
  pos + s ≤ length r →
  fold_left (λ acc '(i, customer), insert_at (pos + i) customer acc)
            (zip (seq s (length chain)) chain) r
  = take (pos + s) r ++ chain ++ drop (pos + s) r.
Proof.
  revert s r. induction chain as [|c chain IH]; intros s r Hle.
  - simpl. by rewrite take_drop.
  - cbn [length seq zip zip_with fold_left].
    assert (Hlen : length (take (pos + s) r) = pos + s)
      by (rewrite length_take; lia).
    rewrite (IH (S s)).
    + unfold insert_at.
      set (A := take (pos + s) r) in *. set (B := drop (pos + s) r).
      replace (A ++ c :: B) with ((A ++ [c]) ++ B)
        by (by rewrite <- (assoc_L (++))).
      rewrite take_app_length', drop_app_length'
        by (rewrite length_app; simpl; lia).
      by rewrite <- (assoc_L (++)).
    + unfold insert_at. rewrite length_app, Hlen. simpl.
      rewrite length_drop. lia.
Qed.

Lemma insert_chain_block (chain : list nat) pos (r : route) :
  pos ≤ length r →
  insert_chain pos chain r = take pos r ++ chain ++ drop pos r.
Proof.
  intros H. unfold insert_chain, enumerate.
  rewrite (insert_chain_from chain 0 pos r) by lia.
  by rewrite Nat.add_0_r.
Qed.

(** ** N6: Or-opt *)

Lemma take_slice {A} (l : list A) a b : a ≤ b → take a l ++ slice l a b = take b l.
Proof.
  intros Hab. unfold slice.
  rewrite <- (take_drop a (take b l)) at 2. f_equal.
  rewrite take_take. f_equal. lia.
Qed.

Lemma four_slices {A} (l : list A) a b c :
  a ≤ b → b ≤ c → take a l ++ slice l a b ++ slice l b c ++ drop c l = l.
Proof.
  intros Hab Hbc.
  rewrite (assoc_L (++) (take a l)), take_slice by done.
  by apply take_slice_drop.
Qed.

Lemma or_intra_before (r : route) s L ip :
  ip < s → s + L ≤ length r →
  or_intra r s L ip
  = take ip r ++ slice r s (s + L) ++ slice r ip s ++ drop (s + L) r.
Proof.
  intros H1 H2. unfold or_intra, del_slice.
  replace (s <? ip) with false by (symmetry; apply Nat.ltb_ge; lia).
  assert (Hlen : length (take s r) = s) by (rewrite length_take; lia).
  rewrite insert_chain_block by (rewrite length_app, Hlen; lia).
  rewrite take_app_le, drop_app_le by lia.
  rewrite take_take. replace (ip `min` s) with ip by lia.
  done.
Qed.

Lemma or_intra_after (r : route) s L ip :
  s + L < ip → ip ≤ length r →
  or_intra r s L ip
  = take s r ++ slice r (s + L) ip ++ slice r s (s + L) ++ drop ip r.
Proof.
  intros H1 H2. unfold or_intra, del_slice.
  replace (s <? ip) with true by (symmetry; apply Nat.ltb_lt; lia).
  assert (Hlen : length (take s r) = s) by (rewrite length_take; lia).
  rewrite insert_chain_block
    by (rewrite length_app, Hlen, length_drop; lia).
  rewrite take_app_ge, drop_app_ge by lia. rewrite Hlen.
  rewrite take_drop_commute, drop_drop.
  replace (s + L + (ip - L - s)) with ip by lia.
  by rewrite <- !(assoc_L (++)).
Qed.

Lemma or_intra_perm (r : route) s L ip :
  s + L ≤ length r → ip ≤ length r → (ip < s ∨ s + L < ip) →
  or_intra r s L ip ≡ₚ r.
Proof.
  intros H1 H2 [H|H].
  - rewrite or_intra_before by done.
    rewrite <- (four_slices r ip s (s + L)) at 5 by lia.
    apply Permutation_app_head.
    rewrite !(assoc_L (++)). apply Permutation_app_tail, Permutation_app_comm.
  - rewrite or_intra_after by done.
    rewrite <- (four_slices r s (s + L) ip) at 5 by lia.
    apply Permutation_app_head.
    rewrite !(assoc_L (++)). apply Permutation_app_tail, Permutation_app_comm.
Qed.

Lemma or_intra_wf (r : route) s L ip :
  wf_route r → 1 ≤ s → s + L < length r → 1 ≤ ip → ip < length r →
  (ip < s ∨ s + L < ip) → wf_route (or_intra r s L ip).
Proof.
  intros Hw Hs HsL Hip1 Hip2 Hcase.
  pose proof Hw as (Hh & Hl & Hlen).
  assert (Hperm : or_intra r s L ip ≡ₚ r) by (apply or_intra_perm; lia || done).
  split; [|split].
  - destruct Hcase as [H|H].
    + rewrite or_intra_before by lia.
      rewrite head_take_app; [done | lia | by apply wf_route_nonempty].
    + rewrite or_intra_after by lia.
      rewrite head_take_app; [done | lia | by apply wf_route_nonempty].
  - destruct Hcase as [H|H].
    + rewrite or_intra_before by lia.
      rewrite !(assoc_L (++)). by rewrite last_app_drop.
    + rewrite or_intra_after by lia.
      rewrite !(assoc_L (++)). by rewrite last_app_drop.
  - by rewrite (Permutation_length Hperm).
Qed.

Lemma or_intra_cost dist (r : route) s L ip :
  1 ≤ L → 1 ≤ s → s + L < length r → 1 ≤ ip → ip < length r →
  (ip < s ∨ s + L < ip) →
  (route_cost (or_intra r s L ip) dist
   == route_cost r dist
      + ((d dist (node r (s - 1)) (node r (s + L))
          + d dist (node r (ip - 1)) (node r s)
          + d dist (node r (s + L - 1)) (node r ip))
         - (d dist (node r (s - 1)) (node r s)
            + d dist (node r (s + L - 1)) (node r (s + L))
            + d dist (node r (ip - 1)) (node r ip))))%Q.
Proof.
  intros HL Hs HsL Hip1 Hip2 [H|H].
  - rewrite or_intra_before by lia.
    assert (Hr : (route_cost r dist
                  == route_cost (take ip r ++ slice r ip s ++ slice r s (s + L)
                                 ++ drop (s + L) r) dist)%Q)
      by (by rewrite four_slices by lia).
    rewrite Hr.
    rewrite !route_cost_four
      by (apply take_nonempty || apply slice_nonempty || apply drop_nonempty; lia).
    rewrite !tail_node_take, !tail_node_slice, !slice_first, !node_drop_first by lia.
    replace (s + L - 1) with (s + L - 1) by lia. lra.
  - rewrite or_intra_after by lia.
    assert (Hr : (route_cost r dist
                  == route_cost (take s r ++ slice r s (s + L) ++ slice r (s + L) ip
                                 ++ drop ip r) dist)%Q)
      by (by rewrite four_slices by lia).
    rewrite Hr.
    rewrite !route_cost_four
      by (apply take_nonempty || apply slice_nonempty || apply drop_nonempty; lia).
    rewrite !tail_node_take, !tail_node_slice, !slice_first, !node_drop_first by lia.
    lra.
Qed.

Lemma slice_snoc (r : route) a b :
  a ≤ b → b < length r → slice r a (S b) = slice r a b ++ [node r b].
Proof.
  intros Hab Hb. unfold slice. rewrite (take_S_node r b Hb).
  rewrite drop_app_le by (rewrite length_take; lia). done.
Qed.

Lemma slice_as_map (r : route) s L :
  s + L ≤ length r → slice r s (s + L) = map (λ i, node r (s + i)) (seq 0 L).
Proof.
  induction L as [|L IH]; intros H.
  - rewrite Nat.add_0_r. unfold slice. simpl.
    apply nil_length_inv. rewrite length_drop, length_take. lia.
  - rewrite seq_S, map_app. simpl. rewrite <- IH by lia.
    rewrite Nat.add_succ_r. apply slice_snoc; lia.
Qed.

Lemma chain_demand_bound demands (r : route) s L :
  Forall (λ q, (0 <= q)%Z) demands → s + L ≤ length r →
  (0 <= route_demand (slice r s (s + L)) demands
   <= Zsum (map (λ i, demand demands (node r (s + i))) (range 0 L)))%Z.
Proof.
  intros Hnn H. rewrite slice_as_map by done. unfold range.
  rewrite Nat.sub_0_r. generalize (seq 0 L). intros l.
  induction l as [|i l IH]; simpl.
  - rewrite route_demand_nil. unfold Zsum. simpl. lia.
  - rewrite route_demand_cons, Zsum_cons.
    pose proof (charged_bounds demands (node r (s + i)) Hnn). lia.
Qed.

Lemma Qminus_from (l : list Q) (a : Q) : (fold_left Qminus l a == a - Qsum l)%Q.
Proof.
  revert a. induction l as [|x l IH]; intros a; simpl.
  - rewrite Qsum_nil. lra.
  - rewrite IH, Qsum_cons. lra.
Qed.

Lemma N6_intra_spec sol dist L dlt m :
  In (dlt, m) (N6_intra_candidates sol dist L) →
  ∃ r s ip,
    m = Intra r s L ip
    ∧ r < length sol ∧ 1 ≤ s ∧ s + L < length (route_at sol r)
    ∧ 1 ≤ ip ∧ ip + 1 < length (route_at sol r)
    ∧ (ip < s ∨ s + L < ip)
    ∧ dlt = ((d dist (node (route_at sol r) (s - 1)) (node (route_at sol r) (s + L))
              + d dist (node (route_at sol r) (ip - 1)) (node (route_at sol r) s)
              + d dist (node (route_at sol r) (s + L - 1)) (node (route_at sol r) ip))
             - (d dist (node (route_at sol r) (s - 1)) (node (route_at sol r) s)
                + d dist (node (route_at sol r) (s + L - 1))
                    (node (route_at sol r) (s + L))
                + d dist (node (route_at sol r) (ip - 1))
                    (node (route_at sol r) ip)))%Q.
Proof.
  unfold N6_intra_candidates. intros H.
  apply in_flat_map in H as (r & Hr & H).
  destruct (length _ <=? L + 2); [done|].
  apply in_flat_map in H as (s & Hs & H).
  apply in_flat_map in H as (ip & Hip & H).
  destruct (_ && _) eqn:E; [done|].
  destruct H as [[= <- <-]|[]].
  apply in_range in Hr, Hs, Hip.
  exists r, s, ip. split; [done|].
  apply andb_false_iff in E.
  rewrite Nat.leb_gt, Nat.leb_gt in E.
  repeat split; try lia.
Qed.

Lemma N6_inter_spec sol demands capacity dist L dlt m :
  In (dlt, m) (N6_inter_candidates sol demands capacity dist L) →
  ∃ r1 s r2 ip,
    m = Inter r1 s L r2 ip
    ∧ r1 < length sol ∧ r2 < length sol ∧ r1 ≠ r2
    ∧ 1 ≤ s ∧ s + L < length (route_at sol r1)
    ∧ 1 ≤ ip ∧ ip < length (route_at sol r2)
    ∧ (route_demand (route_at sol r2) demands
       + Zsum (map (λ i, demand demands (node (route_at sol r1) (s + i)))
                   (range 0 L)) <= capacity)%Z
    ∧ (dlt ==
       (d dist (node (route_at sol r1) (s - 1)) (node (route_at sol r1) (s + L))
        - d dist (node (route_at sol r1) (s - 1)) (node (route_at sol r1) s)
        - d dist (node (route_at sol r1) (s + L - 1))
            (node (route_at sol r1) (s + L)))
       + (d dist (node (route_at sol r2) (ip - 1)) (node (route_at sol r1) s)
          + d dist (node (route_at sol r1) (s + L - 1)) (node (route_at sol r2) ip)
          - d dist (node (route_at sol r2) (ip - 1)) (node (route_at sol r2) ip)))%Q.
Proof.
  unfold N6_inter_candidates. intros H.
  apply in_flat_map in H as (r1 & Hr1 & H).
  destruct (length _ <=? L + 1); [done|].
  apply in_flat_map in H as (s & Hs & H).
  apply in_flat_map in H as (r2 & Hr2 & H).
  destruct (r1 =? r2) eqn:E1; [done|]. apply Nat.eqb_neq in E1.
  destruct (capacity <? _)%Z eqn:E2; [done|]. apply Z.ltb_ge in E2.
  apply in_map_iff in H as (ip & [= <- <-] & Hip).
  apply in_range in Hr1, Hs, Hr2, Hip.
  exists r1, s, r2, ip. split; [done|].
  repeat split; try lia; try done.
  rewrite Qminus_from, Qsum_from. lra.
Qed.

Lemma N6_candidates_spec sol demands capacity dist dlt m :
  In (dlt, m) (N6_candidates sol demands capacity dist) →
  ∃ L, 1 ≤ L
    ∧ (In (dlt, m) (N6_intra_candidates sol dist L)
       ∨ In (dlt, m) (N6_inter_candidates sol demands capacity dist L)).
Proof.
  unfold N6_candidates. intros H.
  apply in_flat_map in H as (L & HL & H).
  apply in_app_or in H. exists L. split; [|done].
  simpl in HL. lia.
Qed.

Lemma N6_pass_spec demands capacity dist (sol sol' : solution) :
  N6_pass demands capacity dist sol = Some sol' →
  ∃ dlt m,
    sol' = N6_apply sol m
    ∧ In (dlt, m) (N6_candidates sol demands capacity dist)
    ∧ (dlt < - IMPROVEMENT_THRESHOLD)%Q.
Proof.
  unfold N6_pass. destruct (best_of _) as [m|] eqn:E; [|done].
  intros [= <-]. apply best_of_Some in E as (dlt & Hin & Hlt).
  by exists dlt, m.
Qed.

(** Moving the chain [start .. start+len-1] of [r1] into [r2]. *)
Lemma or_inter_feasible n demands capacity (sol : solution) r1 s L r2 ip :
  instance_ok n demands → feasible n demands capacity sol →
  r1 < length sol → r2 < length sol → r1 ≠ r2 →
  1 ≤ s → s + L < length (route_at sol r1) →
  1 ≤ ip → ip < length (route_at sol r2) →
  (route_demand (route_at sol r2) demands
   + Zsum (map (λ i, demand demands (node (route_at sol r1) (s + i)))
               (range 0 L)) <= capacity)%Z →
  feasible n demands capacity
    (<[r2 := insert_chain ip (slice (route_at sol r1) s (s + L)) (route_at sol r2)]>
       (<[r1 := del_slice (route_at sol r1) s (s + L)]> sol)).
Proof.
  intros [_ Hnn] Hf Hr1 Hr2 Hne Hs HsL Hip1 Hip2 Hcap.
  pose proof Hf as (Hwf & _ & Hcaps).
  pose proof (Forall_route_at _ _ _ Hwf Hr1) as Hw1.
  pose proof (Forall_route_at _ _ _ Hwf Hr2) as Hw2.
  pose proof (Forall_route_at _ _ _ Hcaps Hr1) as Hcap1. simpl in Hcap1.
  set (R1 := route_at sol r1) in *. set (R2 := route_at sol r2) in *.
  pose proof (chain_demand_bound demands R1 s L Hnn ltac:(lia)) as Hch.
  rewrite insert_chain_block by lia. unfold del_slice.
  assert (E1 : take s R1 ++ slice R1 s (s + L) ++ drop (s + L) R1 = R1)
    by (apply take_slice_drop; lia).
  apply feasible_replace2; try done.
  - apply (frame_wf R1 [] s (s + L)); [done | lia..].
  - apply frame_wf; [done | lia..].
  - intros x. fold R1 R2. rewrite !cnt_app.
    pose proof (cnt_take_drop R2 ip x).
    assert (C1 : cnt R1 x = cnt (take s R1) x + cnt (slice R1 s (s + L)) x
                            + cnt (drop (s + L) R1) x).
    { rewrite <- E1 at 1. rewrite !cnt_app. lia. }
    lia.
  - rewrite route_demand_app.
    assert (D1 : route_demand R1 demands
                 = (route_demand (take s R1) demands
                    + route_demand (slice R1 s (s + L)) demands
                    + route_demand (drop (s + L) R1) demands)%Z).
    { rewrite <- E1 at 1. rewrite !route_demand_app. lia. }
    lia.
  - rewrite !route_demand_app.
    pose proof (route_demand_take_drop demands R2 ip). lia.
Qed.

Lemma or_inter_cost dist (sol : solution) r1 s L r2 ip :
  r1 < length sol → r2 < length sol → r1 ≠ r2 →
  1 ≤ L → 1 ≤ s → s + L < length (route_at sol r1) →
  1 ≤ ip → ip < length (route_at sol r2) →
  (solution_cost
     (<[r2 := insert_chain ip (slice (route_at sol r1) s (s + L)) (route_at sol r2)]>
        (<[r1 := del_slice (route_at sol r1) s (s + L)]> sol)) dist
   == solution_cost sol dist
      + ((d dist (node (route_at sol r1) (s - 1)) (node (route_at sol r1) (s + L))
          - d dist (node (route_at sol r1) (s - 1)) (node (route_at sol r1) s)
          - d dist (node (route_at sol r1) (s + L - 1))
              (node (route_at sol r1) (s + L)))
         + (d dist (node (route_at sol r2) (ip - 1)) (node (route_at sol r1) s)
            + d dist (node (route_at sol r1) (s + L - 1)) (node (route_at sol r2) ip)
            - d dist (node (route_at sol r2) (ip - 1))
                (node (route_at sol r2) ip))))%Q.
Proof.
  intros Hr1 Hr2 Hne HL Hs HsL Hip1 Hip2.
  set (R1 := route_at sol r1) in *. set (R2 := route_at sol r2) in *.
  set (chain := slice R1 s (s + L)).
  rewrite insert_chain_block by lia. unfold del_slice.
  pose proof (solution_cost_insert dist sol r1
                (take s R1 ++ drop (s + L) R1) Hr1) as H1.
  pose proof (solution_cost_insert dist
                (<[r1 := take s R1 ++ drop (s + L) R1]> sol) r2
                (take ip R2 ++ chain ++ drop ip R2)
                ltac:(by rewrite length_insert)) as H2.
  rewrite route_at_insert_ne in H2 by done. fold R1 R2 in H1, H2.
  assert (Hc : chain ≠ []) by (apply slice_nonempty; lia).
  pose proof (route_cost_three_pieces dist (take s R1) chain (drop (s + L) R1)
    ltac:(apply take_nonempty; lia) Hc ltac:(apply drop_nonempty; lia)) as F1.
  pose proof (route_cost_app dist (take s R1) (drop (s + L) R1)
    ltac:(apply take_nonempty; lia) ltac:(apply drop_nonempty; lia)) as F2.
  pose proof (route_cost_app dist (take ip R2) (drop ip R2)
    ltac:(apply take_nonempty; lia) ltac:(apply drop_nonempty; lia)) as F3.
  pose proof (route_cost_three_pieces dist (take ip R2) chain (drop ip R2)
    ltac:(apply take_nonempty; lia) Hc ltac:(apply drop_nonempty; lia)) as F4.
  unfold chain in F1 at 1. rewrite take_slice_drop in F1 by lia.
  rewrite take_drop in F3.
  rewrite !tail_node_take, !node_drop_first in F1, F2, F3, F4 by lia.
  unfold chain in F1, F4.
  rewrite tail_node_slice, slice_first in F1, F4 by lia.
  fold chain in F1, F4.
  replace (s + L - 1) with (s + L - 1) in * by lia.
  lra.
Qed.

(** Moving a chain inside its route. *)
Lemma or_intra_feasible n demands capacity (sol : solution) r s L ip :
  feasible n demands capacity sol →
  1 ≤ L → r < length sol → 1 ≤ s → s + L < length (route_at sol r) →
  1 ≤ ip → ip + 1 < length (route_at sol r) →
  ip < s ∨ s + L < ip →
  feasible n demands capacity (N6_apply sol (Intra r s L ip)).
Proof.
  intros Hf HL Hr Hs HsL Hip1 Hip2 Hcase.
  pose proof Hf as (Hwf & _ & Hcaps).
  change (N6_apply sol (Intra r s L ip))
    with (<[r := or_intra (route_at sol r) s L ip]> sol).
  assert (Hperm : or_intra (route_at sol r) s L ip ≡ₚ route_at sol r)
    by (apply or_intra_perm; lia).
  apply feasible_replace; try done.
  - apply or_intra_wf; [by apply Forall_route_at | lia..].
  - by apply cnt_perm.
  - rewrite (route_demand_perm _ _ _ Hperm).
    by apply (Forall_route_at _ _ _ Hcaps).
Qed.

Lemma N6_pass_feasible n demands capacity dist sol sol' :
  instance_ok n demands → feasible n demands capacity sol →
  N6_pass demands capacity dist sol = Some sol' →
  feasible n demands capacity sol'.
Proof.
  intros Hi Hf H.
  apply N6_pass_spec in H as (dlt & m & -> & Hin & _).
  apply N6_candidates_spec in Hin as (L & HL & [Hin|Hin]).
  - apply N6_intra_spec in Hin
      as (r & s & ip & -> & Hr & Hs & HsL & Hip1 & Hip2 & Hcase & _).
    by apply or_intra_feasible.
  - apply N6_inter_spec in Hin
      as (r1 & s & r2 & ip & -> & Hr1 & Hr2 & Hne & Hs & HsL & Hip1 & Hip2 & Hcap & _).
    cbn [N6_apply]. rewrite route_at_insert_ne by done.
    by apply feasible_drop_trivial, or_inter_feasible.
Qed.

Lemma N6_pass_length demands capacity dist (sol sol' : solution) :
  N6_pass demands capacity dist sol = Some sol' → length sol' ≤ length sol.
Proof.
  intros H. apply N6_pass_spec in H as (dlt & m & -> & _).
  destruct m; cbn [N6_apply].
  - by rewrite length_insert.
  - etrans; [apply length_drop_trivial|]. by rewrite !length_insert.
Qed.

Lemma N6_pass_cost demands capacity dist (sol sol' : solution) :
  (∀ a b, 0 <= d dist a b)%Q →
  N6_pass demands capacity dist sol = Some sol' →
  (solution_cost sol' dist < solution_cost sol dist - IMPROVEMENT_THRESHOLD)%Q.
Proof.
  intros Hd H.
  apply N6_pass_spec in H as (dlt & m & -> & Hin & Hlt).
  apply N6_candidates_spec in Hin as (L & HL & [Hin|Hin]).
  - apply N6_intra_spec in Hin
      as (r & s & ip & -> & Hr & Hs & HsL & Hip1 & Hip2 & Hcase & ->).
    change (N6_apply sol (Intra r s L ip))
      with (<[r := or_intra (route_at sol r) s L ip]> sol).
    pose proof (solution_cost_insert dist sol r
                  (or_intra (route_at sol r) s L ip) Hr) as H1.
    rewrite or_intra_cost in H1 by lia. lra.
  - apply N6_inter_spec in Hin
      as (r1 & s & r2 & ip & -> & Hr1 & Hr2 & Hne & Hs & HsL & Hip1 & Hip2 & _ & Hd').
    cbn [N6_apply]. rewrite route_at_insert_ne by done.
    eapply Qle_lt_trans; [by apply solution_cost_drop_trivial|].
    rewrite or_inter_cost by done. lra.
Qed.

(** ** The six operators together *)

Lemma run_neighborhood_loop nb fuel sol demands capacity dist :
  run_neighborhood nb fuel sol demands capacity dist
  = improve_loop (pass_of nb demands capacity dist) fuel sol.
Proof. by destruct nb. Qed.

Lemma pass_feasible nb n demands capacity dist sol sol' :
  instance_ok n demands → feasible n demands capacity sol →
  pass_of nb demands capacity dist sol = Some sol' →
  feasible n demands capacity sol'.
Proof.
  intros Hi Hf. destruct nb; simpl.
  - by apply N1_pass_feasible.
  - by apply N5_pass_feasible.
  - by apply N2_pass_feasible.
  - by apply N3_pass_feasible.
  - by apply N4_pass_feasible.
  - by apply N6_pass_feasible.
Qed.

Lemma pass_length nb demands capacity dist (sol sol' : solution) :
  pass_of nb demands capacity dist sol = Some sol' → length sol' ≤ length sol.
Proof.
  destruct nb; simpl; intros H.
  - by rewrite (N1_pass_length _ _ _ H).
  - pose proof (N5_pass_length _ _ _ _ _ H). lia.
  - by apply N2_pass_length in H.
  - by rewrite (N3_pass_length _ _ _ _ _ H).
  - by rewrite (N4_pass_length _ _ _ _ _ H).
  - by apply N6_pass_length in H.
Qed.

Lemma pass_cost nb demands capacity dist (sol sol' : solution) :
  dist_ok dist →
  pass_of nb demands capacity dist sol = Some sol' →
  (solution_cost sol' dist < solution_cost sol dist - IMPROVEMENT_THRESHOLD)%Q.
Proof.
  intros Hd.
  assert (Hnn : ∀ a b, (0 <= d dist a b)%Q) by (intros a b; apply Hd).
  assert (Hsym : ∀ a b, (d dist a b == d dist b a)%Q) by (intros a b; apply Hd).
  destruct nb; simpl.
  - by apply N1_pass_cost.
  - by apply N5_pass_cost.
  - by apply N2_pass_cost.
  - by apply N3_pass_cost.
  - by apply N4_pass_cost.
  - by apply N6_pass_cost.
Qed.

Lemma threshold_pos : (0 < IMPROVEMENT_THRESHOLD)%Q.
Proof. reflexivity. Qed.

Lemma run_neighborhood_feasible nb fuel n demands capacity dist sol sol' :
  instance_ok n demands → feasible n demands capacity sol →
  run_neighborhood nb fuel sol demands capacity dist = Some sol' →
  feasible n demands capacity sol'.
Proof.
  intros Hi Hf. rewrite run_neighborhood_loop.
  apply (improve_loop_invariant (feasible n demands capacity)); [|done].
  intros s s' Hs. by apply pass_feasible.
Qed.

Lemma run_neighborhood_length nb fuel demands capacity dist (sol sol' : solution) :
  run_neighborhood nb fuel sol demands capacity dist = Some sol' →
  length sol' ≤ length sol.
Proof.
  rewrite run_neighborhood_loop.
  apply (improve_loop_invariant (λ s, length s ≤ length sol)); [|done].
  intros s s' Hs Hp. apply pass_length in Hp. lia.
Qed.

Lemma run_neighborhood_mono nb fuel fuel' demands capacity dist (sol r : solution) :
  fuel ≤ fuel' →
  run_neighborhood nb fuel sol demands capacity dist = Some r →
  run_neighborhood nb fuel' sol demands capacity dist = Some r.
Proof. rewrite !run_neighborhood_loop. apply improve_loop_mono. Qed.

Lemma run_neighborhood_terminates nb demands capacity dist (sol : solution) :
  dist_ok dist →
  ∃ fuel r, run_neighborhood nb fuel sol demands capacity dist = Some r.
Proof.
  intros Hd.
  destruct (improve_loop_terminates (pass_of nb demands capacity dist)
              (λ s, solution_cost s dist) IMPROVEMENT_THRESHOLD threshold_pos)
    with (sol := sol) as (fuel & r & H).
  - intros s s'. by apply pass_cost.
  - intros s. apply solution_cost_nonneg. intros a b. apply Hd.
  - exists fuel, r. by rewrite run_neighborhood_loop.
Qed.


(** ** Random draws *)

Lemma randint_range a b g : a ≤ b → a ≤ (randint a b g).1 ≤ b.
Proof.
  intros Hab. unfold randint. destruct (draw g) as [x g']. simpl.
  pose proof (Nat.mod_upper_bound x (b - a + 1)). lia.
Qed.

Lemma choice_in (l : list nat) g : l ≠ [] → (choice l g).1 ∈ l.
Proof.
  intros Hl. unfold choice. destruct (draw g) as [x g']. simpl.
  apply list_elem_of_In, nth_In, Nat.mod_upper_bound.
  by destruct l.
Qed.

Lemma sample2_distinct (l : list nat) g :
  NoDup l → 2 ≤ length l →
  (sample2 l g).1.1 ∈ l ∧ (sample2 l g).1.2 ∈ l
  ∧ (sample2 l g).1.1 ≠ (sample2 l g).1.2.
Proof.
  intros Hnd Hlen. unfold sample2.
  destruct (draw g) as [x g1]. destruct (draw g1) as [y g2]. simpl.
  set (i := x mod length l).
  assert (Hi : i < length l) by (apply Nat.mod_upper_bound; lia).
  pose proof (node_lookup l i Hi) as Hli. unfold node in Hli.
  pose proof (delete_Permutation l i _ Hli) as Hperm.
  assert (Hj : nth (y mod length (delete i l)) (delete i l) 0 ∈ delete i l).
  { apply list_elem_of_In, nth_In, Nat.mod_upper_bound.
    rewrite length_delete by eauto. lia. }
  remember (nth (y mod length (delete i l)) (delete i l) 0) as b eqn:Eb.
  remember (delete i l) as l' eqn:El'. clear Eb El'.
  split; [by eapply list_elem_of_lookup_2|].
  split.
  - rewrite Hperm. by right.
  - rewrite Hperm in Hnd. apply NoDup_cons in Hnd as [Hnotin _].
    intros E. apply Hnotin. by rewrite E.
Qed.

Lemma valid_routes_from m s (l : solution) i :
  i ∈ map fst (filter (λ p : nat * route, m < length p.2) (zip (seq s (length l)) l))
  → s ≤ i ∧ ∃ r, l !! (i - s) = Some r ∧ m < length r.
Proof.
  intros H. apply list_elem_of_In, in_map_iff in H as ([i' r] & <- & H).
  apply list_elem_of_In, list_elem_of_filter in H as [Hm H].
  apply list_elem_of_In, in_enumerate_from in H as [Hs Hl].
  simpl in *. eauto.
Qed.

Lemma valid_routes_spec m (sol : solution) i :
  i ∈ valid_routes m sol → i < length sol ∧ m < length (route_at sol i).
Proof.
  intros H. apply valid_routes_from in H as (_ & r & Hr & Hm).
  rewrite Nat.sub_0_r in Hr. split; [by eapply lookup_lt_Some|].
  unfold route_at. by rewrite (nth_lookup_Some _ _ _ _ Hr).
Qed.

Lemma valid_routes_NoDup m (sol : solution) : NoDup (valid_routes m sol).
Proof.
  unfold valid_routes, enumerate. generalize 0 as s.
  induction sol as [|r sol IH]; intros s; simpl; [constructor|].
  rewrite filter_cons. destruct (decide _); simpl; [|apply IH].
  constructor; [|apply IH].
  intros H. apply valid_routes_from in H as [H _]. lia.
Qed.

(** ** The shaking operators *)

Lemma shake_loop_invariant (P : solution → Prop) step k st :
  (∀ s g s' g', P s → step (s, g) = Some (s', g') → P s') →
  P st.1 → P (shake_loop step k st).1.
Proof.
  intros Hstep. revert st. induction k as [|k IH]; intros [s g] HP; simpl; [done|].
  destruct (step (s, g)) as [[s' g']|] eqn:E; [|done].
  apply IH. simpl. by eapply Hstep.
Qed.

Lemma Shake_N1_step_feasible n demands capacity s g s' g' :
  instance_ok n demands → feasible n demands capacity s →
  Shake_N1_step demands capacity (s, g) = Some (s', g') →
  feasible n demands capacity s'.
Proof.
  intros Hi Hf. unfold Shake_N1_step.
  destruct (length s <? 2) eqn:E1; [done|]. apply Nat.ltb_ge in E1.
  destruct (length (valid_routes 2 s) =? 0) eqn:E2; [done|].
  apply Nat.eqb_neq in E2.
  assert (Hval : valid_routes 2 s ≠ []) by (by apply nonempty_length; lia).
  pose proof (choice_in (valid_routes 2 s) g Hval) as Hr1.
  destruct (choice (valid_routes 2 s) g) as [r1 g1]. simpl in Hr1.
  apply valid_routes_spec in Hr1 as [Hr1 Hlen1].
  pose proof (randint_range 1 (length (route_at s r1) - 2) g1 ltac:(lia)) as Hc.
  destruct (randint 1 (length (route_at s r1) - 2) g1) as [c g2]. simpl in Hc.
  pose proof (randint_range 0 (length s - 1) g2 ltac:(lia)) as Hr2.
  destruct (randint 0 (length s - 1) g2) as [r2 g3]. simpl in Hr2.
  destruct (_ <=? capacity)%Z eqn:E3; [|by intros [= <- <-]].
  apply Z.leb_le in E3.
  pose proof Hf as (Hwf & _ & Hcaps).
  pose proof (Forall_route_at _ _ _ Hwf Hr1) as Hw1.
  destruct (decide (r1 = r2)) as [<-|Hne].
  - rewrite route_at_insert_eq by done.
    assert (Hwd : wf_route (delete c (route_at s r1))).
    { rewrite delete_frame. apply frame_wf; [done | lia..]. }
    pose proof Hwd as (_ & _ & Hlend).
    pose proof (randint_range 1 (length (delete c (route_at s r1)) - 1) g3
                  ltac:(lia)) as Hp.
    destruct (randint 1 _ g3) as [pos g4]. simpl in Hp.
    intros [= <- <-]. rewrite list_insert_insert_eq.
    assert (Hperm : insert_at pos (node (route_at s r1) c)
                      (delete c (route_at s r1)) ≡ₚ route_at s r1).
    { apply cnt_perm. intros x.
      rewrite insert_at_frame, !cnt_app, cnt_cons. simpl.
      pose proof (cnt_take_drop (delete c (route_at s r1)) pos x) as C1.
      rewrite delete_frame in C1 at 3. rewrite !cnt_app in C1. simpl in C1.
      pose proof (cnt_node (route_at s r1) c x ltac:(lia)). lia. }
    apply feasible_replace; try done.
    + rewrite insert_at_frame. apply frame_wf; [done | lia..].
    + by apply cnt_perm.
    + rewrite (route_demand_perm _ _ _ Hperm).
      by apply (Forall_route_at _ _ _ Hcaps).
  - rewrite route_at_insert_ne by done.
    assert (Hr2' : r2 < length s) by lia.
    pose proof (Forall_route_at _ _ _ Hwf Hr2') as Hw2.
    pose proof Hw2 as (_ & _ & Hlen2).
    pose proof (randint_range 1 (length (route_at s r2) - 1) g3 ltac:(lia)) as Hp.
    destruct (randint 1 _ g3) as [pos g4]. simpl in Hp.
    intros [= <- <-]. apply relocate_feasible; try done; lia.
Qed.

Lemma Shake_N2_step_feasible n demands capacity s g s' g' :
  feasible n demands capacity s →
  Shake_N2_step demands capacity (s, g) = Some (s', g') →
  feasible n demands capacity s'.
Proof.
  intros Hf. unfold Shake_N2_step.
  destruct (length s <? 2); [done|].
  destruct (length (valid_routes 2 s) <? 2) eqn:E2; [done|].
  apply Nat.ltb_ge in E2.
  pose proof (sample2_distinct (valid_routes 2 s) g
                (valid_routes_NoDup 2 s) E2) as (Hr1 & Hr2 & Hne).
  destruct (sample2 (valid_routes 2 s) g) as [[r1 r2] g1]. simpl in Hr1, Hr2, Hne.
  apply valid_routes_spec in Hr1 as [Hr1 Hlen1].
  apply valid_routes_spec in Hr2 as [Hr2 Hlen2].
  pose proof (randint_range 1 (length (route_at s r1) - 2) g1 ltac:(lia)) as Hc1.
  destruct (randint 1 (length (route_at s r1) - 2) g1) as [c1 g2]. simpl in Hc1.
  pose proof (randint_range 1 (length (route_at s r2) - 2) g2 ltac:(lia)) as Hc2.
  destruct (randint 1 (length (route_at s r2) - 2) g2) as [c2 g3]. simpl in Hc2.
  destruct (_ && _) eqn:E3; [|by intros [= <- <-]].
  apply andb_true_iff in E3 as [E3 E4]. apply Z.leb_le in E3, E4.
  intros [= <- <-]. apply swap_feasible; try done; lia.
Qed.

Lemma Shake_N3_step_feasible n demands capacity s g s' g' :
  feasible n demands capacity s →
  Shake_N3_step (s, g) = Some (s', g') →
  feasible n demands capacity s'.
Proof.
  intros Hf. unfold Shake_N3_step.
  destruct (length (valid_routes 4 s) =? 0) eqn:E2; [done|].
  apply Nat.eqb_neq in E2.
  assert (Hval : valid_routes 4 s ≠ []) by (by apply nonempty_length; lia).
  pose proof (choice_in (valid_routes 4 s) g Hval) as Hr.
  destruct (choice (valid_routes 4 s) g) as [r g1]. simpl in Hr.
  apply valid_routes_spec in Hr as [Hr Hlen].
  pose proof (randint_range 1 (length (route_at s r) - 3) g1 ltac:(lia)) as Hi.
  destruct (randint 1 (length (route_at s r) - 3) g1) as [i g2]. simpl in Hi.
  pose proof (randint_range (i + 1) (length (route_at s r) - 2) g2 ltac:(lia)) as Hj.
  destruct (randint (i + 1) (length (route_at s r) - 2) g2) as [j g3]. simpl in Hj.
  intros [= <- <-].
  pose proof Hf as (Hwf & _ & Hcaps).
  apply feasible_replace; [done.. | | |].
  - apply reverse_segment_wf; [by apply Forall_route_at | lia..].
  - apply cnt_perm, reverse_segment_perm. lia.
  - rewrite (route_demand_perm _ _ _ (reverse_segment_perm _ i j ltac:(lia))).
    by apply (Forall_route_at _ _ _ Hcaps).
Qed.

Lemma Shake_N1_feasible n demands capacity sol k g :
  instance_ok n demands → feasible n demands capacity sol →
  feasible n demands capacity (Shake_N1_random_relocate sol demands capacity k g).1.
Proof.
  intros Hi Hf. unfold Shake_N1_random_relocate.
  pose proof (shake_loop_invariant (feasible n demands capacity)
                (Shake_N1_step demands capacity) k (sol, g)) as H.
  destruct (shake_loop _ k (sol, g)) as [sol' g']. simpl in *.
  apply feasible_drop_trivial, H; [|done].
  intros s g0 s' g0' Hs. by apply Shake_N1_step_feasible.
Qed.

Lemma Shake_N2_feasible n demands capacity sol k g :
  feasible n demands capacity sol →
  feasible n demands capacity (Shake_N2_random_swap sol demands capacity k g).1.
Proof.
  intros Hf. unfold Shake_N2_random_swap.
  apply (shake_loop_invariant (feasible n demands capacity)); [|done].
  intros s g0 s' g0' Hs. by apply Shake_N2_step_feasible.
Qed.

Lemma Shake_N3_feasible n demands capacity sol k g :
  feasible n demands capacity sol →
  feasible n demands capacity (Shake_N3_double_bridge sol demands capacity k g).1.
Proof.
  intros Hf. unfold Shake_N3_double_bridge.
  apply (shake_loop_invariant (feasible n demands capacity)); [|done].
  intros s g0 s' g0' Hs. by apply Shake_N3_step_feasible.
Qed.


(** ** The descent engine: termination *)

Lemma VND_step_mono use_or_opt fuel fuel' demands capacity dist st st' :
  fuel ≤ fuel' →
  VND_step use_or_opt fuel demands capacity dist st = Some st' →
  VND_step use_or_opt fuel' demands capacity dist st = Some st'.
Proof.
  intros Hle. destruct st as [sol k]. unfold VND_step.
  destruct (neighborhoods use_or_opt !! k) as [nb|]; [|done]. simpl.
  destruct (run_neighborhood nb fuel _ _ _ _) as [sol_new|] eqn:E; [|done].
  by rewrite (run_neighborhood_mono _ _ _ _ _ _ _ _ Hle E).
Qed.

Lemma VND_loop_mono use_or_opt fuel fuel' demands capacity dist st r :
  fuel ≤ fuel' →
  VND_loop use_or_opt fuel demands capacity dist st = Some r →
  VND_loop use_or_opt fuel' demands capacity dist st = Some r.
Proof.
  revert fuel' st. induction fuel as [|fuel IH]; intros fuel' st Hle; [done|].
  destruct fuel' as [|fuel']; [lia|]. rewrite !VND_loop_S.
  assert (Hle' : fuel ≤ fuel') by lia.
  destruct (st.2 <? _); [|done].
  destruct (VND_step use_or_opt fuel _ _ _ _) as [st'|] eqn:E; [|done].
  rewrite (VND_step_mono _ _ fuel' _ _ _ _ _ Hle' E).
  cbn [mbind option_bind]. by apply IH.
Qed.



Lemma potential_nonneg dist sol :
  dist_ok dist → (0 <= potential dist sol)%Q.
Proof.
  intros Hd. unfold potential.
  pose proof (solution_cost_nonneg dist sol ltac:(intros a b; apply Hd)).
  assert (0 <= inject_Z (Z.of_nat (length sol)))%Q.
  { change 0%Q with (inject_Z 0). rewrite <- Zle_Qle. lia. }
  lra.
Qed.

Lemma VND_step_potential use_or_opt fuel demands capacity dist sol k sol' k' :
  VND_step use_or_opt fuel demands capacity dist (sol, k) = Some (sol', k') →
  (sol' = sol ∧ k' = k + 1)
  ∨ (k' = 0 ∧ (potential dist sol' < potential dist sol - EPS)%Q).
Proof.
  unfold VND_step.
  destruct (neighborhoods use_or_opt !! k) as [nb|]; [|done]. simpl.
  destruct (run_neighborhood _ _ _ _ _ _) as [sol_new|] eqn:E; [|done]. simpl.
  apply run_neighborhood_length in E.
  destruct (_ || _) eqn:Ea; intros [= <- <-]; [right | by left].
  split; [done|]. unfold potential.
  assert (Hlen : (inject_Z (Z.of_nat (length sol_new))
                  <= inject_Z (Z.of_nat (length sol)))%Q)
    by (rewrite <- Zle_Qle; lia).
  apply orb_true_iff in Ea as [Ea|Ea].
  - apply Qlt_bool_iff in Ea. unfold EPS in *. lra.
  - apply andb_true_iff in Ea as [Ea1 Ea2].
    apply Qlt_bool_iff, Qabs_Qlt_condition in Ea1. apply Nat.ltb_lt in Ea2.
    assert (Hlt : (inject_Z (Z.of_nat (length sol_new)) + 1
                   <= inject_Z (Z.of_nat (length sol)))%Q).
    { change 1%Q with (inject_Z 1). rewrite <- inject_Z_plus, <- Zle_Qle. lia. }
    unfold EPS in *. lra.
Qed.

Lemma VND_loop_bounded use_or_opt demands capacity dist :
  dist_ok dist →
  ∀ N sol, (potential dist sol < inject_Z (Z.of_nat N) * EPS)%Q →
  ∀ m k, length (neighborhoods use_or_opt) - k ≤ m →
  ∃ fuel r, VND_loop use_or_opt fuel demands capacity dist (sol, k) = Some r.
Proof.
  intros Hd. induction N as [|N IHN]; intros sol Hpot.
  { pose proof (potential_nonneg dist sol Hd).
    change (inject_Z (Z.of_nat 0)) with 0%Q in Hpot. lra. }
  induction m as [|m IHm]; intros k Hk.
  { exists 1. exists sol. rewrite VND_loop_S. cbn [fst snd].
    by replace (k <? _) with false by (symmetry; apply Nat.ltb_ge; lia). }
  destruct (k <? length (neighborhoods use_or_opt)) eqn:E.
  - apply Nat.ltb_lt in E.
    destruct (lookup_lt_is_Some_2 _ _ E) as [nb Hnb].
    destruct (run_neighborhood_terminates nb demands capacity dist sol Hd)
      as (f1 & sol_new & Hrun).
    assert (Hstep : ∃ st', VND_step use_or_opt f1 demands capacity dist (sol, k)
                           = Some st').
    { unfold VND_step. rewrite Hnb. simpl. rewrite Hrun. simpl.
      destruct (_ || _); eauto. }
    destruct Hstep as [[sol' k'] Hstep].
    assert (Hnext : ∃ f2 r, VND_loop use_or_opt f2 demands capacity dist (sol', k')
                            = Some r).
    { destruct (VND_step_potential _ _ _ _ _ _ _ _ _ Hstep)
        as [[-> ->] | [-> Hlt]].
      - apply IHm. lia.
      - apply (IHN sol'
                 ltac:(rewrite Nat2Z.inj_succ, <- Z.add_1_r, inject_Z_plus in Hpot;
                       change (inject_Z 1) with 1%Q in Hpot; lra)
                 (length (neighborhoods use_or_opt))). lia. }
    destruct Hnext as (f2 & r & Hloop).
    exists (S (max f1 f2)), r. rewrite VND_loop_S. cbn [fst snd].
    apply Nat.ltb_lt in E. rewrite E.
    rewrite (VND_step_mono _ f1 (max f1 f2) _ _ _ _ _ ltac:(lia) Hstep).
    cbn [mbind option_bind].
    apply (VND_loop_mono _ f2); [lia | done].
  - exists 1, sol. rewrite VND_loop_S. cbn [fst snd]. by rewrite E.
Qed.

Lemma VND_terminates use_or_opt demands capacity dist sol :
  dist_ok dist →
  ∃ fuel r, VND fuel sol demands capacity dist use_or_opt = Some r.
Proof.
  intros Hd. unfold VND.
  destruct (Qarchimedean (potential dist sol / EPS)) as [p Hp].
  apply (VND_loop_bounded use_or_opt demands capacity dist Hd (Pos.to_nat p) sol)
    with (m := length (neighborhoods use_or_opt)); [|lia].
  rewrite positive_nat_Z.
  assert (Hq : (potential dist sol == potential dist sol / EPS * EPS)%Q)
    by (field; discriminate).
  rewrite Hq. apply Qmult_lt_compat_r; [reflexivity|]. exact Hp.
Qed.



(** The matrix that the solver computes. *)
Lemma d_compute_distance_matrix hypot coords a b :
  d (compute_distance_matrix hypot coords) a b
  = match coords !! a, coords !! b with
    | Some ca, Some cb => euclidean hypot ca cb
    | _, _ => 0%Q
    end.
Proof.
  unfold d, compute_distance_matrix. rewrite !nth_lookup.
  rewrite list_lookup_fmap. destruct (coords !! a) as [ca|]; simpl.
  - rewrite list_lookup_fmap. by destruct (coords !! b).
  - by destruct b.
Qed.

Lemma euclidean_dist_ok hypot coords :
  (∀ x y, 0 <= hypot x y)%Q →
  (∀ x y x' y', hypot (x - x') (y - y') == hypot (x' - x) (y' - y))%Q →
  dist_ok (compute_distance_matrix hypot coords).
Proof.
  intros Hnn Hsym a b. rewrite !d_compute_distance_matrix.
  destruct (coords !! a) as [ca|], (coords !! b) as [cb|];
    unfold euclidean; split; try apply Qle_refl; try reflexivity; auto.
Qed.

Lemma axis_instance_ok : instance_ok 6 axis_demands.
Proof. split; [reflexivity|]. unfold axis_demands. repeat constructor; done. Qed.


(** * Further properties of the descent and of the operators *)

(** What a turn of the descent can do. *)
Lemma VND_step_cases use_or_opt fuel demands capacity dist sol k sol' k' :
  VND_step use_or_opt fuel demands capacity dist (sol, k) = Some (sol', k') →
  (sol' = sol ∧ k' = k + 1)
  ∨ (k' = 0 ∧ ∃ nb, neighborhoods use_or_opt !! k = Some nb
       ∧ run_neighborhood nb fuel sol demands capacity dist = Some sol').
Proof.
  unfold VND_step.
  destruct (neighborhoods use_or_opt !! k) as [nb|]; [|done]. simpl.
  destruct (run_neighborhood nb fuel sol demands capacity dist)
    as [sol_new|] eqn:E; [|done]. simpl.
  destruct (_ || _); intros [= <- <-]; [right|left]; eauto.
Qed.

(** A property kept by every operator is kept by the descent. *)
Lemma VND_loop_invariant (P : solution → Prop) use_or_opt demands capacity dist :
  (∀ nb fuel s s', P s →
     run_neighborhood nb fuel s demands capacity dist = Some s' → P s') →
  ∀ fuel sol k r, P sol →
    VND_loop use_or_opt fuel demands capacity dist (sol, k) = Some r → P r.
Proof.
  intros HP fuel. induction fuel as [|fuel IH]; intros sol k r Hs; [done|].
  rewrite VND_loop_S. cbn [fst snd].
  destruct (k <? _); [|by intros [= <-]].
  destruct (VND_step _ _ _ _ _ _) as [[sol' k']|] eqn:E; [|done].
  cbn [mbind option_bind]. apply IH.
  apply VND_step_cases in E as [[-> _]|[_ (nb & _ & Hr)]]; [done|].
  by eapply HP.
Qed.

(** X1. The descent keeps a feasible solution feasible: on an instance with
    non-negative demands, whatever [VND] returns on a feasible solution
    serves every customer [1 .. n-1] once, in routes that start and end at
    the depot and respect the capacity. *)
Theorem VND_preserves_feasibility n demands capacity dist use_or_opt fuel sol r :
  instance_ok n demands → feasible n demands capacity sol →
  VND fuel sol demands capacity dist use_or_opt = Some r →
  feasible n demands capacity r.
Proof.
  intros Hi Hf. unfold VND.
  apply (VND_loop_invariant (feasible n demands capacity)); [|done].
  intros nb fuel' s s' Hs. by apply run_neighborhood_feasible.
Qed.

Lemma VND_preserves_feasibility_witness :
  instance_ok 6 axis_demands
  ∧ feasible 6 axis_demands axis_capacity [[0; 1; 2; 3; 0]; [0; 4; 0]; [0; 5; 0]]
  ∧ VND 30 [[0; 1; 2; 3; 0]; [0; 4; 0]; [0; 5; 0]] axis_demands axis_capacity
      axis_dist false = Some [[0; 1; 2; 0]; [0; 4; 0]; [0; 3; 5; 0]]
  ∧ feasible 6 axis_demands axis_capacity [[0; 1; 2; 0]; [0; 4; 0]; [0; 3; 5; 0]].
Proof.
  assert (Hf : feasible 6 axis_demands axis_capacity
                 [[0; 1; 2; 3; 0]; [0; 4; 0]; [0; 5; 0]]).
  { split; [|split].
    - repeat constructor; simpl; lia.
    - reflexivity.
    - repeat constructor; vm_compute; discriminate. }
  assert (H : VND 30 [[0; 1; 2; 3; 0]; [0; 4; 0]; [0; 5; 0]] axis_demands
                axis_capacity axis_dist false
              = Some [[0; 1; 2; 0]; [0; 4; 0]; [0; 3; 5; 0]])
    by (vm_compute; reflexivity).
  split; [exact axis_instance_ok|]. split; [exact Hf|]. split; [exact H|].
  exact (VND_preserves_feasibility 6 axis_demands axis_capacity axis_dist false
           30 _ _ axis_instance_ok Hf H).
Defined.


(** * Moves inside a route and the fingerprint *)

Lemma interior_middle (a m b : list nat) :
  a ≠ [] → b ≠ [] →
  interior (a ++ m ++ b) = drop 1 a ++ m ++ take (length b - 1) b.
Proof.
  intros Ha Hb. unfold interior, slice.
  destruct a as [|x a]; [done|]. destruct b as [|y b]; [done|].
  replace (length ((x :: a) ++ m ++ y :: b) - 1)
    with (length ((x :: a) ++ m) + length b)
    by (rewrite !length_app; simpl; lia).
  rewrite (assoc_L (++)), take_app_add.
  simpl. rewrite Nat.sub_0_r, drop_0.
  by rewrite <- (assoc_L (++)).
Qed.

(** Reversing a segment that stays clear of both ends permutes the
    interior. *)
Lemma interior_reverse_segment (r : route) i j :
  1 ≤ i → i ≤ j + 1 → j + 1 < length r →
  interior (reverse_segment r i j) ≡ₚ interior r.
Proof.
  intros Hi Hij Hj.
  assert (Ha : take i r ≠ []).
  { intros E. apply (f_equal length) in E. rewrite length_take in E.
    simpl in E. lia. }
  assert (Hb : drop (j + 1) r ≠ []).
  { intros E. apply (f_equal length) in E. rewrite length_drop in E.
    simpl in E. lia. }
  rewrite <- (take_slice_drop r i (j + 1)) at 2 by lia.
  unfold reverse_segment. rewrite !interior_middle by done.
  by rewrite reverse_Permutation.
Qed.

(** Routes that agree, position by position, up to the order of their
    interior customers have the same fingerprint. *)
Lemma solution_hash_interiors (s s' : solution) :
  Forall2 (λ a b, interior a ≡ₚ interior b) s s' →
  _solution_hash s = _solution_hash s'.
Proof.
  intros H. unfold _solution_hash. f_equal.
  induction H as [|a b s s' Hab _ IH]; simpl; [done|].
  rewrite IH. f_equal. apply merge_sort_perm; [apply _..|done].
Qed.

(** The relation kept by the moves inside a route. *)
Lemma reordered_insert (sol s : solution) i (r' : route) :
  Forall2 (λ a b, a ≡ₚ b ∧ interior a ≡ₚ interior b) s sol →
  r' ≡ₚ route_at s i → interior r' ≡ₚ interior (route_at s i) →
  Forall2 (λ a b, a ≡ₚ b ∧ interior a ≡ₚ interior b) (<[i := r']> s) sol.
Proof.
  intros H Hp Hi. revert i Hp Hi.
  induction H as [|a b s sol [Hab Hab'] H IH]; intros i Hp Hi; [done|].
  destruct i as [|i]; simpl in *.
  - constructor; [|done]. split; [by rewrite Hp | by rewrite Hi].
  - constructor; [done|]. by apply IH.
Qed.

Lemma reordered_refl (sol : solution) :
  Forall2 (λ a b : route, a ≡ₚ b ∧ interior a ≡ₚ interior b) sol sol.
Proof. induction sol; constructor; done. Qed.

Lemma reordered_hash (s sol : solution) :
  Forall2 (λ a b : route, a ≡ₚ b ∧ interior a ≡ₚ interior b) s sol →
  _solution_hash s = _solution_hash sol ∧ Forall2 (≡ₚ) s sol.
Proof.
  intros H. split.
  - apply solution_hash_interiors. eapply Forall2_impl; [exact H|].
    by intros a b [_ ?].
  - eapply Forall2_impl; [exact H|]. by intros a b [? _].
Qed.

(** X5. The intra-route 2-opt only reorders customers inside their routes:
    what [N1_two_opt_intra] returns has, position by position, routes that
    are permutations of the routes of the input, and it has the
    fingerprint of the input. *)
Theorem N1_keeps_fingerprint fuel (sol r : solution) dist :
  N1_two_opt_intra fuel sol dist = Some r →
  _solution_hash r = _solution_hash sol ∧ Forall2 (≡ₚ) r sol.
Proof.
  intros H. apply reordered_hash. revert H. unfold N1_two_opt_intra.
  apply (improve_loop_invariant
           (λ s, Forall2 (λ a b : route, a ≡ₚ b ∧ interior a ≡ₚ interior b) s sol));
    [|apply reordered_refl].
  intros s s' Hs Hp.
  apply N1_pass_spec in Hp as (r_idx & i & j & -> & _ & Hi & Hij & Hj & _).
  apply reordered_insert; [done| |].
  - apply reverse_segment_perm. lia.
  - apply interior_reverse_segment; lia.
Qed.

Lemma N1_keeps_fingerprint_witness :
  N1_two_opt_intra 5 [[0; 2; 1; 3; 0]] axis_dist = Some [[0; 1; 2; 3; 0]]
  ∧ _solution_hash [[0; 1; 2; 3; 0]] = _solution_hash [[0; 2; 1; 3; 0]].
Proof.
  assert (H : N1_two_opt_intra 5 [[0; 2; 1; 3; 0]] axis_dist
              = Some [[0; 1; 2; 3; 0]]) by (vm_compute; reflexivity).
  split; [exact H|].
  exact (proj1 (N1_keeps_fingerprint 5 _ _ axis_dist H)).
Defined.

Lemma Shake_N3_step_reordered (sol s s' : solution) g g' :
  Forall2 (λ a b : route, a ≡ₚ b ∧ interior a ≡ₚ interior b) s sol →
  Shake_N3_step (s, g) = Some (s', g') →
  Forall2 (λ a b : route, a ≡ₚ b ∧ interior a ≡ₚ interior b) s' sol.
Proof.
  intros Hs. unfold Shake_N3_step.
  destruct (length (valid_routes 4 s) =? 0) eqn:Ev; [done|].
  apply Nat.eqb_neq in Ev.
  assert (Hne : valid_routes 4 s ≠ []) by (by destruct (valid_routes 4 s)).
  pose proof (choice_in (valid_routes 4 s) g Hne) as Hc.
  destruct (choice (valid_routes 4 s) g) as [r_idx g1]. simpl in Hc.
  apply valid_routes_spec in Hc as [Hr Hlen].
  pose proof (randint_range 1 (length (route_at s r_idx) - 3) g1) as Hi.
  destruct (randint 1 (length (route_at s r_idx) - 3) g1) as [i g2].
  simpl in Hi. specialize (Hi ltac:(lia)).
  pose proof (randint_range (i + 1) (length (route_at s r_idx) - 2) g2) as Hj.
  destruct (randint (i + 1) (length (route_at s r_idx) - 2) g2) as [j g3].
  simpl in Hj. specialize (Hj ltac:(lia)).
  intros [= <- <-]. apply reordered_insert; [done| |].
  - apply reverse_segment_perm. lia.
  - apply interior_reverse_segment; lia.
Qed.

(** X6. The third shaking operator never leaves the fingerprint of its
    input: for every strength [k] and every sequence of random draws,
    [Shake_N3_double_bridge] returns routes that are, position by position,
    permutations of the routes of its input, with the same fingerprint.  A
    solution whose fingerprint is tabu is tabu again after this shake. *)
Theorem Shake_N3_keeps_fingerprint (sol : solution) demands capacity k g :
  _solution_hash (Shake_N3_double_bridge sol demands capacity k g).1
  = _solution_hash sol
  ∧ Forall2 (≡ₚ) (Shake_N3_double_bridge sol demands capacity k g).1 sol.
Proof.
  apply reordered_hash. unfold Shake_N3_double_bridge.
  apply (shake_loop_invariant
           (λ s, Forall2 (λ a b : route, a ≡ₚ b ∧ interior a ≡ₚ interior b) s sol)).
  - intros s g0 s' g0' Hs. by apply Shake_N3_step_reordered.
  - apply reordered_refl.
Qed.

(** * The main loop *)

Lemma tabu_insert_in tenure (tabu : list fingerprint) h :
  1 ≤ tenure → h ∈ tabu_insert tenure tabu h.
Proof.
  intros Ht. unfold tabu_insert.
  destruct (tenure <? length (tabu ++ [h])) eqn:E; [|set_solver].
  apply Nat.ltb_lt in E. rewrite length_app in E. simpl in E.
  destruct tabu as [|t tabu]; simpl in *; [lia|]. rewrite drop_0. set_solver.
Qed.

Lemma Shake_N3_hash (sol : solution) demands capacity k g :
  _solution_hash (Shake_N3_double_bridge sol demands capacity k g).1
  = _solution_hash sol.
Proof.
  apply reordered_hash. unfold Shake_N3_double_bridge.
  apply (shake_loop_invariant
           (λ s, Forall2 (λ a b : route, a ≡ₚ b ∧ interior a ≡ₚ interior b) s sol)).
  - intros s g0 s' g0' Hs. by apply Shake_N3_step_reordered.
  - apply reordered_refl.
Qed.

Lemma double_bridge_shaken_tabu demands capacity st :
  tabu_knows_best st → tabu_list st ≠ [] → (k st - 1) mod 3 = 2 →
  _solution_hash (shake ((k st - 1) mod 3) (best st) demands capacity
                    (k st) (gen st)).1 ∈ tabu_list st.
Proof.
  intros [Hk|Hk] Hne Hmod; [done|]. rewrite Hmod.
  change (shake 2 ?s ?d ?c ?k ?g) with (Shake_N3_double_bridge s d c k g).
  by rewrite Shake_N3_hash.
Qed.

(** X7. Once a solution has been accepted, the turns that shake with the
    double bridge do no work.  The tabu list of the main loop is empty or
    holds the fingerprint of the best solution, and every turn keeps it so;
    when the list is not empty, a turn whose shaking operator is
    [Shake_N3_double_bridge] (strength 3) ends as a tabu skip, with the
    best solution unchanged. *)
Theorem double_bridge_turn_is_tabu fuel n demands capacity dist use_or_opt st st' e :
  tabu_knows_best st →
  VNS_body fuel n demands capacity dist use_or_opt st = Some (st', e) →
  tabu_knows_best st'
  ∧ (tabu_list st ≠ [] → (k st - 1) mod 3 = 2 →
     e = TabuSkip ∧ best st' = best st ∧ best_cost st' = best_cost st).
Proof.
  intros Hk. pose proof (double_bridge_shaken_tabu demands capacity st Hk) as HT.
  unfold VNS_body.
  destruct (shake _ _ _ _ _ _) as [s_shaken g]. cbn [fst] in HT.
  case_bool_decide as Ht.
  - intros [= <- <-]. split; [exact Hk|]. by intros _ _.
  - destruct (VND _ _ _ _ _ _) as [s_local|]; simpl; [|done].
    match goal with
    | |- context [if ?a || ?b then _ else _] => destruct (a || b) eqn:Ea
    end.
    + match goal with
      | |- context [if ?c then _ else _] => destruct c
      end; intros [= <- <-]; (split;
        [right; simpl; apply tabu_insert_in;
         pose proof (tabu_tenure_bounds n); lia|]);
        intros Hne Hmod; exfalso; by apply Ht, HT.
    + match goal with
      | |- context [if ?c then _ else _] => destruct c
      end; intros [= <- <-]; (split; [exact Hk|]);
        intros Hne Hmod; exfalso; by apply Ht, HT.
Qed.

Lemma double_bridge_turn_is_tabu_witness :
  tabu_knows_best axis_second_k3
  ∧ VNS_body 30 6 axis_demands axis_capacity axis_dist false axis_second_k3
    = Some ({| best := best axis_second; best_cost := best_cost axis_second;
               k := 4; iteration := 2; last_improvement := 0; tabu_skips := 1;
               tabu_list := tabu_list axis_second; gen := [] |}, TabuSkip)
  ∧ tabu_list axis_second_k3 ≠ []
  ∧ (k axis_second_k3 - 1) mod 3 = 2
  ∧ tabu_knows_best
      {| best := best axis_second; best_cost := best_cost axis_second;
         k := 4; iteration := 2; last_improvement := 0; tabu_skips := 1;
         tabu_list := tabu_list axis_second; gen := [] |}.
Proof.
  assert (H1 : tabu_knows_best axis_second_k3).
  { right. vm_compute. apply list_elem_of_here. }
  assert (H2 : VNS_body 30 6 axis_demands axis_capacity axis_dist false
                 axis_second_k3
               = Some ({| best := best axis_second;
                          best_cost := best_cost axis_second;
                          k := 4; iteration := 2; last_improvement := 0;
                          tabu_skips := 1;
                          tabu_list := tabu_list axis_second; gen := [] |},
                       TabuSkip)) by (vm_compute; reflexivity).
  split; [exact H1|]. split; [exact H2|].
  split; [vm_compute; discriminate|]. split; [reflexivity|].
  exact (proj1 (double_bridge_turn_is_tabu 30 6 axis_demands axis_capacity
                  axis_dist false _ _ _ H1 H2)).
Defined.

Lemma shake_feasible idx n demands capacity sol k g :
  instance_ok n demands → feasible n demands capacity sol →
  feasible n demands capacity (shake idx sol demands capacity k g).1.
Proof.
  intros Hi Hf. destruct idx as [|[|idx]]; simpl.
  - by apply Shake_N1_feasible.
  - by apply Shake_N2_feasible.
  - by apply Shake_N3_feasible.
Qed.

Lemma next_k_range k : 1 ≤ next_k k ≤ K_MAX.
Proof.
  unfold next_k, K_MAX. pose proof (Nat.mod_upper_bound k 5). lia.
Qed.

Lemma VNS_body_sane fuel n demands capacity dist use_or_opt st st' e :
  instance_ok n demands →
  vns_sane n demands capacity dist st →
  VNS_body fuel n demands capacity dist use_or_opt st = Some (st', e) →
  vns_sane n demands capacity dist st' ∧ iteration st' = iteration st + 1.
Proof.
  intros Hi (Hk & Hl & Ht & Hc & Hf). unfold VNS_body.
  pose proof (shake_feasible ((k st - 1) mod 3) n demands capacity (best st)
                (k st) (gen st) Hi Hf) as Hs.
  pose proof (next_k_range (k st)) as Hn.
  destruct (shake _ _ _ _ _ _) as [s_shaken g]. cbn [fst] in Hs.
  case_bool_decide as Hh.
  - intros [= <- <-]. unfold vns_sane, K_MAX in *. simpl.
    split_and!; try done; lia.
  - destruct (VND _ _ _ _ _ _) as [s_local|] eqn:Ev; simpl; [|done].
    assert (Hfl : feasible n demands capacity s_local).
    { revert Ev. unfold VND.
      apply (VND_loop_invariant (feasible n demands capacity)); [|done].
      intros nb fuel' s s' Hs'. by apply run_neighborhood_feasible. }
    match goal with
    | |- context [if ?a || ?b then _ else _] => destruct (a || b)
    end;
    match goal with
    | |- context [if ?c then _ else _] => destruct c
    end; intros [= <- <-]; unfold vns_sane, K_MAX in *; simpl;
      split_and!; try done; lia.
Qed.

Lemma VNS_loop_S fuel n demands capacity dist use_or_opt max_iter max_time
    elapsed st :
  VNS_loop (S fuel) n demands capacity dist use_or_opt max_iter max_time
    elapsed st
  = if (iteration st <? max_iter) && Qlt_bool (elapsed (iteration st)) max_time
    then
      '(st', e) ← VNS_body fuel n demands capacity dist use_or_opt st;
      match e with
      | EarlyStop => Some st'
      | _ => VNS_loop fuel n demands capacity dist use_or_opt max_iter
               max_time elapsed st'
      end
    else Some st.
Proof. reflexivity. Qed.

Lemma VNS_loop_0 n demands capacity dist use_or_opt max_iter max_time
    elapsed st :
  VNS_loop 0 n demands capacity dist use_or_opt max_iter max_time elapsed st
  = if (iteration st <? max_iter) && Qlt_bool (elapsed (iteration st)) max_time
    then None else Some st.
Proof. reflexivity. Qed.

(** The loop keeps its state sound and stops at the iteration limit. *)
Lemma VNS_loop_sane fuel n demands capacity dist use_or_opt
    max_iter max_time elapsed st st' :
  instance_ok n demands →
  vns_sane n demands capacity dist st →
  VNS_loop fuel n demands capacity dist use_or_opt max_iter max_time elapsed st
  = Some st' →
  vns_sane n demands capacity dist st'
  ∧ iteration st ≤ iteration st' ≤ max max_iter (iteration st).
Proof.
  intros Hi. revert st. induction fuel as [|fuel IH]; intros st Hs.
  - rewrite VNS_loop_0. destruct (_ && _); [done|]. intros [= <-].
    split; [done|lia].
  - rewrite VNS_loop_S. destruct (_ && _) eqn:Ec.
    + apply andb_true_iff in Ec as [Ec _]. apply Nat.ltb_lt in Ec.
      destruct (VNS_body _ _ _ _ _ _ _) as [[st1 e]|] eqn:Eb; [|done].
      cbn [mbind option_bind].
      apply VNS_body_sane in Eb as [Hs1 Hit]; [|done..].
      destruct e.
      * intros H. apply IH in H as [? ?]; [|done]. split; [done|lia].
      * intros H. apply IH in H as [? ?]; [|done]. split; [done|lia].
      * intros [= <-]. split; [done|lia].
    + intros [= <-]. split; [done|lia].
Qed.

Lemma VNS_body_mono fuel fuel' n demands capacity dist use_or_opt st x :
  fuel ≤ fuel' →
  VNS_body fuel n demands capacity dist use_or_opt st = Some x →
  VNS_body fuel' n demands capacity dist use_or_opt st = Some x.
Proof.
  intros Hle. unfold VNS_body.
  destruct (shake _ _ _ _ _ _) as [s_shaken g].
  case_bool_decide; [done|].
  destruct (VND fuel _ _ _ _ _) as [s_local|] eqn:Ev; [|done].
  unfold VND in *. by rewrite (VND_loop_mono _ _ _ _ _ _ _ _ Hle Ev).
Qed.

Lemma VNS_loop_mono fuel fuel' n demands capacity dist use_or_opt max_iter
    max_time elapsed st r :
  fuel ≤ fuel' →
  VNS_loop fuel n demands capacity dist use_or_opt max_iter max_time elapsed st
  = Some r →
  VNS_loop fuel' n demands capacity dist use_or_opt max_iter max_time elapsed st
  = Some r.
Proof.
  revert fuel' st. induction fuel as [|fuel IH]; intros fuel' st Hle.
  - rewrite VNS_loop_0. destruct fuel' as [|fuel'].
    + by rewrite VNS_loop_0.
    + rewrite VNS_loop_S. by destruct (_ && _).
  - destruct fuel' as [|fuel']; [lia|]. rewrite !VNS_loop_S.
    destruct (_ && _); [|done].
    destruct (VNS_body fuel _ _ _ _ _ _) as [[st1 e]|] eqn:Eb; [|done].
    rewrite (VNS_body_mono fuel fuel' _ _ _ _ _ _ _ ltac:(lia) Eb).
    cbn [mbind option_bind]. destruct e; [apply IH; lia..|done].
Qed.

(** A turn returns as soon as the descent it runs returns. *)
Lemma VNS_body_returns n demands capacity dist use_or_opt st :
  (∀ sol, ∃ fuel r, VND fuel sol demands capacity dist use_or_opt = Some r) →
  ∃ fuel x, VNS_body fuel n demands capacity dist use_or_opt st = Some x.
Proof.
  intros Hd.
  destruct (shake ((k st - 1) mod 3) (best st) demands capacity (k st) (gen st))
    as [s_shaken g] eqn:Es.
  destruct (Hd s_shaken) as (fuel & r & Hr).
  exists fuel. unfold VNS_body. rewrite Es.
  case_bool_decide; [eauto|]. rewrite Hr. simpl.
  match goal with
  | |- context [if ?a || ?b then _ else _] => destruct (a || b)
  end;
  match goal with
  | |- context [if ?c then _ else _] => destruct c
  end; eauto.
Qed.

(** The loop ends when every descent does, and more fuel does not change
    its result: the iteration count grows at each turn, up to [max_iter]. *)
Lemma VNS_loop_returns n demands capacity dist use_or_opt max_iter
    max_time elapsed st :
  (∀ sol, ∃ fuel r, VND fuel sol demands capacity dist use_or_opt = Some r) →
  ∃ fuel st',
    ∀ fuel', fuel ≤ fuel' →
      VNS_loop fuel' n demands capacity dist use_or_opt max_iter max_time
        elapsed st = Some st'.
Proof.
  intros Hd.
  cut (∃ fuel st', VNS_loop fuel n demands capacity dist use_or_opt max_iter
                     max_time elapsed st = Some st').
  { intros (fuel & st' & H). exists fuel, st'. intros fuel' Hle.
    by eapply VNS_loop_mono. }
  remember (max_iter - iteration st) as m eqn:Em.
  revert st Em. induction m as [m IH] using lt_wf_ind. intros st Em.
  destruct ((iteration st <? max_iter)
            && Qlt_bool (elapsed (iteration st)) max_time) eqn:Ec.
  - destruct (VNS_body_returns n demands capacity dist use_or_opt st Hd)
      as (f1 & [st1 e] & Hb).
    pose proof Hb as Hit. apply VNS_body_end in Hit as [Hit _].
    apply andb_true_iff in Ec as [Ec1 Ec2]. pose proof Ec1 as Hlt.
    apply Nat.ltb_lt in Hlt.
    destruct (IH (max_iter - iteration st1) ltac:(lia) st1 eq_refl)
      as (f2 & r & Hr).
    exists (S (f1 `max` f2)). rewrite VNS_loop_S, Ec1, Ec2. simpl.
    rewrite (VNS_body_mono f1 (f1 `max` f2) _ _ _ _ _ _ _ ltac:(lia) Hb).
    cbn [mbind option_bind].
    destruct e; [| |by eauto];
      (exists r; apply (VNS_loop_mono f2); [lia|done]).
  - exists 0, st. by rewrite VNS_loop_0, Ec.
Qed.


(** * The shape of shaken solutions *)

Lemma same_shape_insert (sol s : solution) i (r' : route) :
  Forall2 (λ a b : route, length a = length b) s sol →
  length r' = length (route_at s i) →
  Forall2 (λ a b : route, length a = length b) (<[i := r']> s) sol.
Proof.
  intros H. revert i.
  induction H as [|a b s sol Hab H IH]; intros i Hl; [done|].
  unfold route_at in *. destruct i as [|i]; simpl in *.
  - constructor; [congruence|done].
  - constructor; [done|]. by apply IH.
Qed.

Lemma same_shape_refl (sol : solution) :
  Forall2 (λ a b : route, length a = length b) sol sol.
Proof. induction sol; constructor; done. Qed.

Lemma Shake_N2_step_shape demands capacity (sol s s' : solution) g g' :
  Forall2 (λ a b : route, length a = length b) s sol →
  Shake_N2_step demands capacity (s, g) = Some (s', g') →
  Forall2 (λ a b : route, length a = length b) s' sol.
Proof.
  intros Hs. unfold Shake_N2_step.
  destruct (length s <? 2); [done|].
  destruct (length (valid_routes 2 s) <? 2); [done|].
  destruct (sample2 _ _) as [[r1_idx r2_idx] g1].
  destruct (randint 1 _ g1) as [c1_idx g2].
  destruct (randint 1 _ g2) as [c2_idx g3].
  destruct (_ && _); intros [= <- <-]; [|done].
  unfold N3_apply. apply same_shape_insert.
  - apply same_shape_insert; [done|]. by rewrite length_insert.
  - by rewrite length_insert.
Qed.

Lemma Shake_N1_step_length demands capacity (s s' : solution) g g' :
  Shake_N1_step demands capacity (s, g) = Some (s', g') →
  length s' = length s.
Proof.
  unfold Shake_N1_step.
  destruct (length s <? 2); [done|].
  destruct (length (valid_routes 2 s) =? 0); [done|].
  destruct (choice _ _) as [r1_idx g1].
  destruct (randint 1 _ g1) as [c_idx g2].
  destruct (randint 0 _ g2) as [r2_idx g3].
  destruct (_ <=? _)%Z; [|by intros [= <- <-]].
  destruct (randint 1 _ g3) as [pos g4].
  intros [= <- <-]. by rewrite !length_insert.
Qed.

(** X10. The shaking operators never add a route.  For every strength and
    every sequence of random draws, [Shake_N2_random_swap] and
    [Shake_N3_double_bridge] return as many routes as they were given, each
    of the length it had, and [Shake_N1_random_relocate] returns at most as
    many routes as it was given, none of them without a customer. *)
Theorem shaking_keeps_shape (sol : solution) demands capacity k g :
  Forall2 (λ a b : route, length a = length b)
    (Shake_N2_random_swap sol demands capacity k g).1 sol
  ∧ Forall2 (λ a b : route, length a = length b)
      (Shake_N3_double_bridge sol demands capacity k g).1 sol
  ∧ length (Shake_N1_random_relocate sol demands capacity k g).1 ≤ length sol
  ∧ Forall (λ r : route, 2 < length r)
      (Shake_N1_random_relocate sol demands capacity k g).1.
Proof.
  split_and!.
  - unfold Shake_N2_random_swap.
    apply (shake_loop_invariant
             (λ s, Forall2 (λ a b : route, length a = length b) s sol)).
    + intros s g0 s' g0' Hs. by apply Shake_N2_step_shape.
    + apply same_shape_refl.
  - unfold Shake_N3_double_bridge.
    eapply Forall2_impl.
    + apply (shake_loop_invariant
               (λ s, Forall2 (λ a b : route, a ≡ₚ b ∧ interior a ≡ₚ interior b)
                       s sol)).
      * intros s g0 s' g0' Hs. by apply Shake_N3_step_reordered.
      * apply reordered_refl.
    + intros a b [Hab _]. by rewrite Hab.
  - unfold Shake_N1_random_relocate.
    pose proof (shake_loop_invariant (λ s, length s = length sol)
                  (Shake_N1_step demands capacity) k (sol, g)) as H.
    destruct (shake_loop _ _ _) as [sol' g']. simpl in *.
    rewrite <- H; [apply length_drop_trivial| |done].
    intros s g0 s' g0' Hs Hst. apply Shake_N1_step_length in Hst. congruence.
  - unfold Shake_N1_random_relocate.
    destruct (shake_loop _ _ _) as [sol' g']. simpl.
    apply Forall_forall. intros r Hr.
    unfold drop_trivial in Hr. by apply list_elem_of_filter in Hr as [? _].
Qed.

Lemma valid_routes_none m (sol : solution) :
  Forall (λ r : route, length r ≤ m) sol → valid_routes m sol = [].
Proof.
  intros H. destruct (valid_routes m sol) as [|i l] eqn:E; [done|].
  assert (Hi : i ∈ valid_routes m sol) by (rewrite E; left).
  apply valid_routes_spec in Hi as [Hi Hl].
  pose proof (Forall_route_at _ _ i H Hi) as Hle. simpl in Hle. lia.
Qed.

Lemma shake_loop_stuck step k (st : solution * rng) :
  step st = None → shake_loop step k st = st.
Proof. intros H. destruct k; simpl; [done|]. by rewrite H. Qed.

(** X11. A shake that has nothing to move returns its input and consumes
    no random draw.  On a solution with fewer than two routes
    [Shake_N1_random_relocate] returns the routes that hold a customer and
    [Shake_N2_random_swap] returns the solution; on a solution whose routes
    all have at most four nodes [Shake_N3_double_bridge] returns the
    solution. *)
Theorem shake_without_candidates (sol : solution) demands capacity k g :
  (length sol < 2 →
     Shake_N1_random_relocate sol demands capacity k g = (drop_trivial sol, g)
     ∧ Shake_N2_random_swap sol demands capacity k g = (sol, g))
  ∧ (Forall (λ r : route, length r ≤ 4) sol →
       Shake_N3_double_bridge sol demands capacity k g = (sol, g)).
Proof.
  split.
  - intros Hl. apply Nat.ltb_lt in Hl. split.
    + unfold Shake_N1_random_relocate. rewrite shake_loop_stuck; [done|].
      unfold Shake_N1_step. by rewrite Hl.
    + unfold Shake_N2_random_swap. rewrite shake_loop_stuck; [done|].
      unfold Shake_N2_step. by rewrite Hl.
  - intros Hs. unfold Shake_N3_double_bridge. rewrite shake_loop_stuck; [done|].
    unfold Shake_N3_step. by rewrite (valid_routes_none 4 sol Hs).
Qed.

Lemma shake_without_candidates_witness :
  length [[0; 1; 2; 0]] < 2
  ∧ Shake_N1_random_relocate [[0; 1; 2; 0]] axis_demands axis_capacity 3 [5; 7]
    = (drop_trivial [[0; 1; 2; 0]], [5; 7]).
Proof.
  split; [simpl; lia|].
  exact (proj1 (proj1 (shake_without_candidates [[0; 1; 2; 0]] axis_demands
                         axis_capacity 3 [5; 7]) ltac:(simpl; lia))).
Defined.

(** * Distances *)

(** X13. The distance matrix has one row per node and one entry per node
    in every row, its entry [i, j] is the distance between the coordinates
    of [i] and of [j], and it is symmetric without negative entries as soon
    as [hypot] has no negative value and does not change when both its
    arguments change sign. *)
Theorem distance_matrix_shape hypot (coords : list (Q * Q)) :
  (∀ x y, 0 <= hypot x y)%Q →
  (∀ x y x' y', hypot (x - x') (y - y') == hypot (x' - x) (y' - y))%Q →
  square (length coords) (compute_distance_matrix hypot coords)
  ∧ (∀ i j a b, coords !! i = Some a → coords !! j = Some b →
       d (compute_distance_matrix hypot coords) i j = euclidean hypot a b)
  ∧ dist_ok (compute_distance_matrix hypot coords).
Proof.
  intros Hn Hs. split_and!.
  - unfold square, compute_distance_matrix. rewrite length_map. split; [done|].
    apply Forall_forall. intros row Hr.
    apply list_elem_of_fmap in Hr as (a & -> & _). by rewrite length_map.
  - intros i j a b Hi Hj. by rewrite d_compute_distance_matrix, Hi, Hj.
  - by apply euclidean_dist_ok.
Qed.

Lemma distance_matrix_shape_witness :
  (∀ x y, 0 <= hypot_axis x y)%Q
  ∧ (∀ x y x' y', hypot_axis (x - x') (y - y') == hypot_axis (x' - x) (y' - y))%Q
  ∧ square 6 axis_dist.
Proof.
  assert (H1 : (∀ x y, 0 <= hypot_axis x y)%Q)
    by (intros x y; apply Qabs_nonneg).
  assert (H2 : (∀ x y x' y',
                  hypot_axis (x - x') (y - y') == hypot_axis (x' - x) (y' - y))%Q).
  { intros x y x' y'. unfold hypot_axis. by rewrite Qabs_Qminus. }
  split; [exact H1|]. split; [exact H2|].
  exact (proj1 (distance_matrix_shape hypot_axis axis_coords H1 H2)).
Defined.

(** * The constructions *)

Lemma customers_perm (s1 s2 : solution) :
  s1 ≡ₚ s2 → customers s1 ≡ₚ customers s2.
Proof.
  induction 1 as [|r s1 s2 _ IH|r1 r2 s|s1 s2 s3 _ IH1 _ IH2].
  - done.
  - rewrite !customers_cons. by rewrite IH.
  - rewrite !customers_cons. rewrite !(assoc_L (++)).
    by rewrite (comm (++) (interior r2)).
  - by rewrite IH1.
Qed.

Lemma remove_first_perm (r : route) (routes : list route) :
  r ∈ routes → routes ≡ₚ r :: remove_first r routes.
Proof.
  induction routes as [|r' routes IH]; intros H; [by apply elem_of_nil in H|].
  simpl. case_decide as E; [by subst|].
  apply elem_of_cons in H as [->|H]; [done|].
  rewrite (IH H) at 1. apply perm_swap.
Qed.

Lemma remove_first_other (r r' : route) (routes : list route) :
  r' ∈ routes → r' ≠ r → r' ∈ remove_first r routes.
Proof.
  induction routes as [|r0 routes IH]; intros H Hne; [done|].
  simpl. case_decide as E.
  - subst. apply elem_of_cons in H as [->|H]; done.
  - apply elem_of_cons in H as [->|H]; [left|right; by apply IH].
Qed.

Lemma route_of_elem i (routes : list route) r :
  route_of i routes = Some r → r ∈ routes.
Proof.
  unfold route_of. intros H. apply last_Some in H as [l Hl].
  assert (Hr : r ∈ filter (λ r : route, i ∈ r) routes)
    by (rewrite Hl; set_solver).
  by apply list_elem_of_filter in Hr as [_ ?].
Qed.

(** What a merge of the savings algorithm does to the list of routes. *)
Lemma savings_merge_spec demands capacity (routes : list route) sij :
  Forall wf_route routes →
  savings_merge demands capacity routes sij = routes
  ∨ ∃ ri rj rest m,
      routes ≡ₚ ri :: rj :: rest
      ∧ savings_merge demands capacity routes sij = rest ++ [0 :: m ++ [0]]
      ∧ m ≡ₚ interior ri ++ interior rj
      ∧ (route_demand ri demands + route_demand rj demands <= capacity)%Z.
Proof.
  intros Hwf. destruct sij as [[s i] j]. unfold savings_merge.
  destruct (route_of i routes) as [ri|] eqn:Ei; [|by left].
  destruct (route_of j routes) as [rj|] eqn:Ej; [|by left].
  destruct (_ || _) eqn:Eb; [by left|].
  apply orb_false_iff in Eb as [_ Eb]. apply bool_decide_eq_false in Eb.
  destruct (_ && _); [|by left].
  destruct (_ <=? _)%Z eqn:Ec; [|by left]. apply Z.leb_le in Ec.
  apply route_of_elem in Ei, Ej.
  pose proof (remove_first_perm ri routes Ei) as P1.
  assert (Ej' : rj ∈ remove_first ri routes)
    by (apply remove_first_other; [done|congruence]).
  pose proof (remove_first_perm rj _ Ej') as P2.
  assert (Hi : wf_route ri) by (eapply Forall_forall in Hwf; done).
  assert (Hj : wf_route rj) by (eapply Forall_forall in Hwf; done).
  apply wf_route_wrap in Hi, Hj.
  set (mi := interior ri) in *. set (mj := interior rj) in *.
  assert (HP : routes ≡ₚ ri :: rj :: remove_first rj (remove_first ri routes))
    by (rewrite P1 at 1; by rewrite P2 at 1).
  assert (E1 : but_last ri ++ drop 1 rj = 0 :: (mi ++ mj) ++ [0]).
  { rewrite Hi, Hj, but_last_wrap. simpl. rewrite drop_0.
    by rewrite <- (assoc_L (++)). }
  assert (E2 : but_last rj ++ drop 1 ri = 0 :: (mj ++ mi) ++ [0]).
  { rewrite Hi, Hj, but_last_wrap. simpl. rewrite drop_0.
    by rewrite <- (assoc_L (++)). }
  assert (E3 : but_last ri ++ rev_interior rj ++ [0]
               = 0 :: (mi ++ reverse mj) ++ [0]).
  { rewrite Hi, Hj, but_last_wrap, rev_interior_wrap. simpl.
    by rewrite <- (assoc_L (++)). }
  assert (E4 : [0] ++ rev_interior ri ++ drop 1 rj
               = 0 :: (reverse mi ++ mj) ++ [0]).
  { rewrite Hi, Hj, rev_interior_wrap. simpl. rewrite drop_0.
    by rewrite <- (assoc_L (++)). }
  repeat match goal with
         | |- context [if ?c then _ else _] => destruct c
         end; [| | | |by left]; right.
  - exists ri, rj, (remove_first rj (remove_first ri routes)), (mi ++ mj).
    by rewrite E1.
  - exists ri, rj, (remove_first rj (remove_first ri routes)), (mj ++ mi).
    rewrite E2. split_and!; try done. apply Permutation_app_comm.
  - exists ri, rj, (remove_first rj (remove_first ri routes)), (mi ++ reverse mj).
    rewrite E3. split_and!; try done. by rewrite reverse_Permutation.
  - exists ri, rj, (remove_first rj (remove_first ri routes)), (reverse mi ++ mj).
    rewrite E4. split_and!; try done. by rewrite reverse_Permutation.
Qed.

Lemma savings_merge_routed n demands capacity (routes : list route) sij :
  Forall wf_route routes ∧ customers routes ≡ₚ seq 1 (n - 1) →
  Forall wf_route (savings_merge demands capacity routes sij)
  ∧ customers (savings_merge demands capacity routes sij) ≡ₚ seq 1 (n - 1).
Proof.
  intros [Hwf Hc].
  destruct (savings_merge_spec demands capacity routes sij Hwf)
    as [->|(ri & rj & rest & m & HP & -> & Hm & _)]; [done|].
  split.
  - rewrite HP in Hwf. apply Forall_cons in Hwf as [_ Hwf].
    apply Forall_cons in Hwf as [_ Hwf].
    apply Forall_app. split; [done|]. constructor; [apply wrap_wf|done].
  - rewrite <- Hc, (customers_perm _ _ HP), customers_app, !customers_cons.
    unfold customers at 2. simpl. rewrite interior_wrap, app_nil_r, Hm.
    rewrite (comm (++)). by rewrite (assoc_L (++)).
Qed.

Lemma savings_merge_capacity demands capacity (routes : list route) sij :
  Forall wf_route routes →
  Forall (λ r, (route_demand r demands <= capacity)%Z) routes →
  Forall (λ r, (route_demand r demands <= capacity)%Z)
    (savings_merge demands capacity routes sij).
Proof.
  intros Hwf Hc.
  destruct (savings_merge_spec demands capacity routes sij Hwf)
    as [->|(ri & rj & rest & m & HP & -> & Hm & Hle)]; [done|].
  pose proof Hwf as Hwf'. rewrite HP in Hwf', Hc.
  apply Forall_cons in Hc as [_ Hc]. apply Forall_cons in Hc as [_ Hc].
  apply Forall_cons in Hwf' as [Hi Hwf']. apply Forall_cons in Hwf' as [Hj _].
  apply Forall_app. split; [done|]. constructor; [|done].
  rewrite route_demand_wrap, (route_demand_perm _ _ _ Hm), route_demand_app.
  apply wf_route_wrap in Hi, Hj.
  rewrite Hi, Hj, !route_demand_wrap in Hle. done.
Qed.

Lemma singles_routed (l : list nat) :
  Forall wf_route (map (λ i, [0; i; 0]) l)
  ∧ customers (map (λ i, [0; i; 0]) l) = l.
Proof.
  induction l as [|i l [IH1 IH2]]; [done|]. split.
  - constructor; [|done]. repeat split; simpl; lia.
  - simpl. rewrite customers_cons, IH2. done.
Qed.

Lemma customer_demand_bound demands (r : route) c :
  Forall (λ q, (0 <= q)%Z) demands → c ∈ r → c ≠ 0 →
  (demand demands c <= route_demand r demands)%Z.
Proof.
  intros Hd Hc Hne. induction r as [|x r IH]; [by apply elem_of_nil in Hc|].
  rewrite route_demand_cons.
  pose proof (route_demand_nonneg demands r Hd).
  pose proof (charged_bounds demands x Hd).
  apply elem_of_cons in Hc as [->|Hc].
  - unfold charged. case_decide; [done|]. lia.
  - specialize (IH Hc). lia.
Qed.

Lemma customer_in_route (sol : solution) c :
  c ∈ customers sol → ∃ r, r ∈ sol ∧ c ∈ r.
Proof.
  induction sol as [|r sol IH]; [by intros ?%elem_of_nil|].
  rewrite customers_cons. intros [H|H]%elem_of_app.
  - exists r. split; [left|].
    unfold interior, slice in H.
    by apply subseteq_drop, subseteq_take in H.
  - destruct (IH H) as (r' & ? & ?). exists r'. split; [by right|done].
Qed.

Lemma savings_fold_routed n demands capacity (l : list (Q * nat * nat)) routes :
  Forall wf_route routes ∧ customers routes ≡ₚ seq 1 (n - 1) →
  Forall wf_route (fold_left (savings_merge demands capacity) l routes)
  ∧ customers (fold_left (savings_merge demands capacity) l routes)
    ≡ₚ seq 1 (n - 1).
Proof.
  revert routes. induction l as [|x l IH]; intros routes H; [done|]. simpl.
  apply IH. by apply savings_merge_routed.
Qed.

Lemma savings_fold_capacity n demands capacity (l : list (Q * nat * nat)) routes :
  Forall wf_route routes ∧ customers routes ≡ₚ seq 1 (n - 1) →
  Forall (λ r, (route_demand r demands <= capacity)%Z) routes →
  Forall (λ r, (route_demand r demands <= capacity)%Z)
    (fold_left (savings_merge demands capacity) l routes).
Proof.
  revert routes. induction l as [|x l IH]; intros routes H Hc; [done|]. simpl.
  apply IH; [by apply savings_merge_routed|].
  apply savings_merge_capacity; [by destruct H|done].
Qed.

Lemma complete_capacity_fits n demands capacity (sol : solution) :
  Forall (λ q, (0 <= q)%Z) demands →
  customers sol ≡ₚ seq 1 (n - 1) →
  Forall (λ r, (route_demand r demands <= capacity)%Z) sol →
  all_fit n demands capacity.
Proof.
  intros Hd Hc Hcap c Hr.
  assert (Hin : c ∈ customers sol).
  { rewrite Hc. apply list_elem_of_In, in_seq. lia. }
  apply customer_in_route in Hin as (r & Hr' & Hcr).
  eapply Forall_forall in Hcap; [|exact Hr'].
  pose proof (customer_demand_bound demands r c Hd Hcr ltac:(lia)). lia.
Qed.

Lemma single_route_demand demands (c : nat) :
  c ≠ 0 → route_demand [0; c; 0] demands = demand demands c.
Proof.
  intros Hc. change [0; c; 0] with (0 :: [c] ++ [0]).
  rewrite route_demand_wrap, route_demand_cons, route_demand_nil.
  unfold charged. rewrite decide_False by done. lia.
Qed.

Lemma savings_routed demands capacity dist :
  Forall wf_route (savings_algorithm demands capacity dist)
  ∧ customers (savings_algorithm demands capacity dist)
    ≡ₚ seq 1 (length demands - 1).
Proof.
  unfold savings_algorithm. apply savings_fold_routed.
  destruct (singles_routed (range 1 (length demands))) as [? E].
  split; [done|]. by rewrite E.
Qed.

Lemma savings_feasible demands capacity dist :
  all_fit (length demands) demands capacity →
  feasible (length demands) demands capacity
    (savings_algorithm demands capacity dist).
Proof.
  intros Hfit. destruct (savings_routed demands capacity dist) as [R1 R2].
  split_and!; [done|done|].
  unfold savings_algorithm.
  destruct (singles_routed (range 1 (length demands))) as [W E].
  apply (savings_fold_capacity (length demands)).
  - split; [done|]. by rewrite E.
  - apply Forall_forall. intros r Hr.
    apply list_elem_of_fmap in Hr as (i & -> & Hi).
    apply list_elem_of_In, in_range in Hi.
    rewrite single_route_demand by lia. by apply Hfit.
Qed.

(** X14. The Clarke-Wright construction never leaves a customer out.  With
    one demand per node and a distance entry for every pair of nodes, the
    routes it returns start and end at the depot and serve every customer
    [1 .. n-1] exactly once; they all respect the capacity when every
    customer alone fits into a vehicle, and, with non-negative demands,
    only then. *)
Theorem savings_algorithm_routes_everyone demands capacity dist :
  square (length demands) dist →
  Forall wf_route (savings_algorithm demands capacity dist)
  ∧ customers (savings_algorithm demands capacity dist)
    ≡ₚ seq 1 (length demands - 1)
  ∧ (all_fit (length demands) demands capacity →
       feasible (length demands) demands capacity
         (savings_algorithm demands capacity dist))
  ∧ (Forall (λ q, (0 <= q)%Z) demands →
       Forall (λ r, (route_demand r demands <= capacity)%Z)
         (savings_algorithm demands capacity dist) →
       all_fit (length demands) demands capacity).
Proof.
  intros _. destruct (savings_routed demands capacity dist) as [R1 R2].
  split_and!; [done|done| |].
  - apply savings_feasible.
  - intros Hd Hcap. by eapply complete_capacity_fits.
Qed.

(** ** Nearest neighbour *)

Lemma filter_remove_perm (l : list nat) c :
  NoDup l → c ∈ l → c :: filter (λ x, x ≠ c) l ≡ₚ l.
Proof.
  induction l as [|x l IH]; intros Hn Hc; [by apply elem_of_nil in Hc|].
  apply NoDup_cons in Hn as [Hx Hn].
  destruct (decide (x = c)) as [->|Hne].
  - rewrite filter_cons_False by (intros ?; done).
    constructor. clear IH Hc Hn.
    induction l as [|y l IH]; [done|].
    apply not_elem_of_cons in Hx as [Hy Hx].
    rewrite filter_cons_True by done. by rewrite IH.
  - rewrite filter_cons_True by done.
    apply elem_of_cons in Hc as [->|Hc]; [done|].
    rewrite perm_swap. by rewrite IH.
Qed.

Lemma nn_fold_picks demands capacity dist current route_load unvisited acc c :
  (fold_left (nn_step demands capacity dist current route_load) unvisited acc).2
  = Some c →
  acc.2 = Some c
  ∨ (c ∈ unvisited ∧ (route_load + demand demands c <= capacity)%Z).
Proof.
  revert acc. induction unvisited as [|x l IH]; intros acc; simpl; [by left|].
  intros H. apply IH in H as [H|[H1 H2]]; [|right; split; [by right|done]].
  unfold nn_step in H.
  destruct (_ <=? _)%Z eqn:E; [|by left]. apply Z.leb_le in E.
  destruct acc as [[b|] a2]; simpl in *.
  - destruct (Qlt_bool _ _); [|by left].
    simpl in H. injection H as <-. right. split; [left|done].
  - injection H as <-. right. split; [left|done].
Qed.

Lemma nn_fold_finds demands capacity dist current route_load unvisited acc :
  (is_Some acc.1 → is_Some acc.2) →
  let res := fold_left (nn_step demands capacity dist current route_load)
               unvisited acc in
  (is_Some res.1 → is_Some res.2)
  ∧ (is_Some acc.2 → is_Some res.2)
  ∧ (∀ c, c ∈ unvisited → (route_load + demand demands c <= capacity)%Z →
       is_Some res.2).
Proof.
  revert acc. induction unvisited as [|x l IH]; intros acc Hl; simpl.
  - split_and!; [done..|]. by intros c ?%elem_of_nil.
  - set (acc' := nn_step demands capacity dist current route_load acc x).
    assert (Hl' : is_Some acc'.1 → is_Some acc'.2).
    { unfold acc', nn_step. destruct (_ <=? _)%Z; [|done].
      destruct acc as [[b|] a2]; simpl in *; [|by eauto].
      destruct (Qlt_bool _ _); simpl; by eauto. }
    assert (Hk : is_Some acc.2 → is_Some acc'.2).
    { unfold acc', nn_step. destruct (_ <=? _)%Z; [|done].
      destruct acc as [[b|] a2]; simpl in *; [|by eauto].
      destruct (Qlt_bool _ _); simpl; by eauto. }
    destruct (IH acc' Hl') as (I1 & I2 & I3). split_and!; [done|by auto|].
    intros c [->|Hc]%elem_of_cons Hfit; [|by eapply I3].
    apply I2. unfold acc', nn_step.
    apply Z.leb_le in Hfit. rewrite Hfit. clear acc' Hl' Hk I1 I2 I3.
    destruct acc as [[b|] a2]; simpl in *; [|by eauto].
    destruct (Qlt_bool _ _); simpl; by eauto.
Qed.

Lemma nn_best_picks demands capacity dist unvisited current route_load c :
  nn_best demands capacity dist unvisited current route_load = Some c →
  c ∈ unvisited ∧ (route_load + demand demands c <= capacity)%Z.
Proof.
  unfold nn_best. intros H. by apply nn_fold_picks in H as [H|H].
Qed.

Lemma nn_best_finds demands capacity dist unvisited current route_load c :
  c ∈ unvisited → (route_load + demand demands c <= capacity)%Z →
  is_Some (nn_best demands capacity dist unvisited current route_load).
Proof.
  intros Hc Hfit. unfold nn_best.
  by eapply (nn_fold_finds demands capacity dist current route_load unvisited
               (None, None)); [intros [? [=]]|..].
Qed.

(** The inner loop appends customers that were not visited yet, within
    the capacity. *)
Lemma nn_extend_spec demands capacity dist turns unvisited r current route_load :
  NoDup unvisited → 0 ∉ unvisited →
  ∃ picked,
    (nn_extend turns demands capacity dist unvisited r current route_load).2
    = r ++ picked
    ∧ picked
      ++ (nn_extend turns demands capacity dist unvisited r current route_load).1
      ≡ₚ unvisited
    ∧ (picked = []
       ∨ (route_load + route_demand picked demands <= capacity)%Z)
    ∧ (1 ≤ turns →
       (∃ c, c ∈ unvisited ∧ (route_load + demand demands c <= capacity)%Z) →
       picked ≠ []).
Proof.
  revert unvisited r current route_load.
  induction turns as [|turns IH]; intros unvisited r current route_load Hn H0.
  - exists []. simpl. rewrite app_nil_r. split_and!; [done|done|by left|lia].
  - simpl.
    destruct (nn_best demands capacity dist unvisited current route_load)
      as [c|] eqn:Eb.
    + apply nn_best_picks in Eb as [Hc Hfit].
      assert (Hc0 : c ≠ 0) by (intros ->; done).
      pose proof (filter_remove_perm unvisited c Hn Hc) as HP.
      assert (Hn' : NoDup (filter (λ x, x ≠ c) unvisited))
        by (by apply NoDup_filter).
      assert (H0' : 0 ∉ filter (λ x, x ≠ c) unvisited)
        by (intros [_ ?]%list_elem_of_filter; done).
      destruct (IH (filter (λ x, x ≠ c) unvisited) (r ++ [c]) c
                  (route_load + demand demands c)%Z Hn' H0')
        as (picked & E1 & E2 & E3 & _).
      exists (c :: picked). split_and!.
      * rewrite E1. by rewrite <- (assoc_L (++)).
      * simpl. rewrite E2. done.
      * right. rewrite route_demand_cons. unfold charged.
        rewrite decide_False by done.
        destruct E3 as [->|E3]; [rewrite route_demand_nil|]; lia.
      * done.
    + exists []. simpl. rewrite app_nil_r. split_and!; [done|done|by left|].
      intros _ (c & Hc & Hfit).
      destruct (nn_best_finds demands capacity dist unvisited current
                  route_load c Hc Hfit) as [? E]. congruence.
Qed.

Lemma nn_loop_sound demands capacity dist fuel unvisited routes res :
  NoDup unvisited → 0 ∉ unvisited →
  nn_loop fuel demands capacity dist unvisited routes = Some res →
  ∃ new, res = routes ++ new
    ∧ Forall wf_route new
    ∧ customers new ≡ₚ unvisited
    ∧ Forall (λ r, (route_demand r demands <= capacity)%Z) new.
Proof.
  revert unvisited routes.
  induction fuel as [|fuel IH]; intros unvisited routes Hn H0.
  - destruct unvisited; simpl; [|done]. intros [= <-]. exists [].
    by rewrite app_nil_r.
  - destruct unvisited as [|x l] eqn:Eu.
    { simpl. intros [= <-]. exists []. by rewrite app_nil_r. }
    rewrite <- Eu in *. replace (nn_loop (S fuel) demands capacity dist unvisited routes)
      with (let '(unvisited', r) :=
              nn_extend (length unvisited) demands capacity dist unvisited [0] 0 0%Z in
            nn_loop fuel demands capacity dist unvisited'
              (if 1 <? length r then routes ++ [r ++ [0]] else routes))
      by (by rewrite Eu).
    destruct (nn_extend_spec demands capacity dist (length unvisited) unvisited
                [0] 0 0%Z Hn H0) as (picked & E1 & E2 & E3 & _).
    destruct (nn_extend _ _ _ _ _ _ _ _) as [u' r]. simpl in E1, E2.
    assert (Hn' : NoDup u').
    { rewrite <- E2 in Hn. by apply NoDup_app in Hn as (_ & _ & ?). }
    assert (H0' : 0 ∉ u').
    { intros ?. apply H0. rewrite <- E2. apply elem_of_app. by right. }
    intros H. apply IH in H as (new & -> & W & C & D); [|done..].
    subst r. destruct picked as [|c picked].
    + simpl. exists new. split_and!; try done. by rewrite C, <- E2.
    + replace (1 <? length ([0] ++ c :: picked)) with true
        by (symmetry; apply Nat.ltb_lt; simpl; lia).
      exists ((0 :: (c :: picked) ++ [0]) :: new). split_and!.
      * by rewrite (cons_middle _ routes new), (assoc_L (++)).
      * constructor; [apply wrap_wf|done].
      * rewrite customers_cons, interior_wrap, C. done.
      * constructor; [|done]. rewrite route_demand_wrap.
        destruct E3 as [?|E3]; [done|lia].
Qed.

Lemma nn_loop_cons demands capacity dist fuel x l routes :
  nn_loop (S fuel) demands capacity dist (x :: l) routes
  = let '(unvisited', r) :=
      nn_extend (length (x :: l)) demands capacity dist (x :: l) [0] 0 0%Z in
    nn_loop fuel demands capacity dist unvisited'
      (if 1 <? length r then routes ++ [r ++ [0]] else routes).
Proof. reflexivity. Qed.

Lemma nn_loop_mono demands capacity dist fuel fuel' unvisited routes res :
  fuel ≤ fuel' →
  nn_loop fuel demands capacity dist unvisited routes = Some res →
  nn_loop fuel' demands capacity dist unvisited routes = Some res.
Proof.
  revert fuel' unvisited routes.
  induction fuel as [|fuel IH]; intros fuel' unvisited routes Hle.
  - destruct unvisited; [|done]. by destruct fuel'.
  - destruct fuel' as [|fuel']; [lia|].
    destruct unvisited as [|x l]; [done|]. rewrite !nn_loop_cons.
    destruct (nn_extend _ _ _ _ _ _ _ _) as [u' r]. apply IH. lia.
Qed.

Lemma nn_feasible n demands capacity dist fuel sol :
  nearest_neighbor_vrp fuel n demands capacity dist = Some sol →
  feasible n demands capacity sol.
Proof.
  unfold nearest_neighbor_vrp. intros H.
  apply nn_loop_sound in H as (new & -> & W & C & D).
  - simpl. split_and!; [done| |done]. by rewrite C.
  - apply NoDup_seq.
  - intros H0. apply list_elem_of_In, in_range in H0. lia.
Qed.

(** X15. The nearest-neighbour construction returns a feasible solution
    whenever it returns.  With one demand and one distance entry per node,
    every solution it returns serves the customers [1 .. n-1] exactly once
    in routes that start and end at the depot and respect the capacity,
    whichever customer the comparison of the distances picks at each
    step. *)
Theorem nearest_neighbor_feasible n demands capacity dist fuel sol :
  length demands = n → square n dist →
  nearest_neighbor_vrp fuel n demands capacity dist = Some sol →
  feasible n demands capacity sol.
Proof.
  intros _ _. apply nn_feasible.
Qed.

Lemma axis_square : square 6 axis_dist.
Proof. split; [reflexivity|]. repeat constructor. Qed.

Lemma savings_algorithm_routes_everyone_witness :
  square (length axis_demands) axis_dist
  ∧ customers (savings_algorithm axis_demands axis_capacity axis_dist)
    ≡ₚ seq 1 (length axis_demands - 1).
Proof.
  split; [exact axis_square|].
  exact (proj1 (proj2 (savings_algorithm_routes_everyone axis_demands
                         axis_capacity axis_dist axis_square))).
Defined.

Lemma nearest_neighbor_feasible_witness :
  length axis_demands = 6 ∧ square 6 axis_dist
  ∧ nearest_neighbor_vrp 30 6 axis_demands axis_capacity axis_dist
    = Some [[0; 1; 2; 3; 0]; [0; 4; 0]; [0; 5; 0]]
  ∧ feasible 6 axis_demands axis_capacity [[0; 1; 2; 3; 0]; [0; 4; 0]; [0; 5; 0]].
Proof.
  assert (H : nearest_neighbor_vrp 30 6 axis_demands axis_capacity axis_dist
              = Some [[0; 1; 2; 3; 0]; [0; 4; 0]; [0; 5; 0]])
    by (vm_compute; reflexivity).
  split; [reflexivity|]. split; [exact axis_square|]. split; [exact H|].
  exact (nearest_neighbor_feasible 6 axis_demands axis_capacity axis_dist
           30 _ eq_refl axis_square H).
Defined.

(** ** Random construction *)

Lemma cnt_insert (l : list nat) i x y :
  i < length l →
  cnt (<[i := x]> l) y + (if decide (node l i = y) then 1 else 0)
  = cnt l y + (if decide (x = y) then 1 else 0).
Proof.
  intros Hi. rewrite (cnt_node l i y Hi), insert_frame by done.
  rewrite !cnt_app, cnt_cons. simpl. lia.
Qed.

Lemma node_insert (l : list nat) i j x :
  i < length l → node (<[i := x]> l) j = if decide (i = j) then x else node l j.
Proof.
  intros Hi. unfold node. rewrite !nth_lookup.
  case_decide as E.
  - subst. by rewrite list_lookup_insert_eq.
  - by rewrite list_lookup_insert_ne.
Qed.

Lemma swap_entries_perm (l : list nat) i j :
  i < length l → j < length l → swap_entries l i j ≡ₚ l.
Proof.
  intros Hi Hj. apply cnt_perm. intros y. unfold swap_entries.
  fold (node l i). fold (node l j).
  pose proof (cnt_insert l i (node l j) y Hi) as H1.
  pose proof (cnt_insert (<[i := node l j]> l) j (node l i) y
                ltac:(by rewrite length_insert)) as H2.
  rewrite node_insert in H2 by done.
  destruct (decide (i = j)) as [->|Hne]; repeat case_decide; lia.
Qed.

Lemma shuffle_perm (l : list nat) g : (shuffle l g).1 ≡ₚ l.
Proof.
  unfold shuffle.
  assert (H : ∀ (idxs : list nat) (st : list nat * rng),
             Forall (λ i, i < length l) idxs → st.1 ≡ₚ l →
             (fold_left (λ '(x, g) i,
                let '(j, g') := randint 0 i g in (swap_entries x i j, g'))
                idxs st).1 ≡ₚ l).
  { induction idxs as [|i idxs IH]; intros [x g0] Hi Hp; simpl in *; [done|].
    apply Forall_cons in Hi as [Hi His].
    pose proof (randint_range 0 i g0 ltac:(lia)) as Hj.
    destruct (randint 0 i g0) as [j g1]. simpl in Hj.
    apply IH; [done|]. simpl. rewrite <- Hp.
    apply Permutation_length in Hp.
    apply swap_entries_perm; lia. }
  apply H; [|done].
  apply Forall_forall. intros i Hi.
  apply elem_of_reverse, list_elem_of_In, in_range in Hi. lia.
Qed.

(** The packing loop: closed routes, the open route and its load. *)
Lemma pack_fold_spec demands capacity (cs : list nat) routes cur load :
  0 ∉ cs → Forall wf_route routes →
  load = route_demand cur demands →
  ∃ routes' cur',
    fold_left (pack_step demands capacity) cs (routes, 0 :: cur, load)
    = (routes', 0 :: cur', route_demand cur' demands)
    ∧ Forall wf_route routes'
    ∧ customers routes' ++ cur' ≡ₚ customers routes ++ cur ++ cs
    ∧ (Forall (λ c, (demand demands c <= capacity)%Z) cs →
       Forall (λ r, (route_demand r demands <= capacity)%Z) routes →
       (cur ≠ [] → (load <= capacity)%Z) →
       Forall (λ r, (route_demand r demands <= capacity)%Z) routes'
       ∧ (cur' ≠ [] → (route_demand cur' demands <= capacity)%Z)).
Proof.
  revert routes cur load.
  induction cs as [|c cs IH]; intros routes cur load H0 Hwf ->.
  - exists routes, cur. simpl. rewrite app_nil_r. split_and!; try done.
  - apply not_elem_of_cons in H0 as [Hc0 H0]. simpl.
    assert (Hch : charged demands c = demand demands c).
    { unfold charged. by rewrite decide_False. }
    destruct (_ <=? _)%Z eqn:E.
    + apply Z.leb_le in E.
      destruct (IH routes (cur ++ [c])
                  (route_demand cur demands + demand demands c)%Z H0 Hwf)
        as (routes' & cur' & E1 & W & C & K).
      { rewrite route_demand_app, route_demand_cons, route_demand_nil, Hch. lia. }
      exists routes', cur'. split_and!; [done|done| |].
      * rewrite C. rewrite <- !(assoc_L (++)). done.
      * intros Hfit Hcap Hl. apply Forall_cons in Hfit as [_ Hfit].
        apply K; [done|done|]. intros _. lia.
    + apply Z.leb_gt in E.
      set (routes1 := if 1 <? length (0 :: cur)
                      then routes ++ [(0 :: cur) ++ [0]] else routes).
      assert (W1 : Forall wf_route routes1).
      { unfold routes1. destruct (1 <? _); [|done].
        apply Forall_app. split; [done|]. constructor; [apply wrap_wf|done]. }
      assert (C1 : customers routes1 = customers routes ++ cur).
      { unfold routes1. destruct cur as [|x cur]; simpl.
        - by rewrite app_nil_r.
        - rewrite customers_app. unfold customers at 2. simpl.
          change (0 :: x :: cur ++ [0]) with (0 :: (x :: cur) ++ [0]).
          by rewrite interior_wrap, app_nil_r. }
      destruct (IH routes1 [c] (demand demands c) H0 W1)
        as (routes' & cur' & E1 & W & C & K).
      { rewrite route_demand_cons, route_demand_nil, Hch. lia. }
      exists routes', cur'. split_and!; [done|done| |].
      * rewrite C, C1. rewrite <- !(assoc_L (++)). done.
      * intros Hfit Hcap Hl. apply Forall_cons in Hfit as [Hfc Hfit].
        apply K; [done| |done].
        unfold routes1. destruct cur as [|x cur]; simpl; [done|].
        apply Forall_app. split; [done|]. constructor; [|done].
        change (0 :: x :: cur ++ [0]) with (0 :: (x :: cur) ++ [0]).
        rewrite route_demand_wrap. by apply Hl.
Qed.

Lemma random_routed n demands capacity g :
  Forall wf_route (random_initial_solution n demands capacity g).1
  ∧ customers (random_initial_solution n demands capacity g).1
    ≡ₚ seq 1 (n - 1)
  ∧ (all_fit n demands capacity →
       Forall (λ r, (route_demand r demands <= capacity)%Z)
         (random_initial_solution n demands capacity g).1).
Proof.
  unfold random_initial_solution.
  pose proof (shuffle_perm (range 1 n) g) as HP.
  destruct (shuffle (range 1 n) g) as [cs g']. simpl in HP.
  assert (H0 : 0 ∉ cs).
  { rewrite HP. intros H. apply list_elem_of_In, in_range in H. lia. }
  destruct (pack_fold_spec demands capacity cs [] [] 0%Z H0)
    as (routes' & cur' & E & W & C & K); [done|done|].
  rewrite E. simpl in C. simpl.
  set (res := if 1 <? length (0 :: cur') then routes' ++ [(0 :: cur') ++ [0]]
              else routes').
  assert (W' : Forall wf_route res).
  { unfold res. destruct (1 <? _); [|done].
    apply Forall_app. split; [done|]. constructor; [apply wrap_wf|done]. }
  assert (C' : customers res ≡ₚ seq 1 (n - 1)).
  { rewrite <- HP, <- C. unfold res. destruct cur' as [|x cur']; simpl.
    - by rewrite app_nil_r.
    - rewrite customers_app. unfold customers at 2. simpl.
      change (0 :: x :: cur' ++ [0]) with (0 :: (x :: cur') ++ [0]).
      by rewrite interior_wrap, app_nil_r. }
  split_and!; [done|done|].
  intros Hfit.
  destruct K as [K1 K2]; [|done|done|].
  { apply Forall_forall. intros c Hc. rewrite HP in Hc.
    apply list_elem_of_In, in_range in Hc. by apply Hfit. }
  unfold res. destruct cur' as [|x cur']; simpl; [done|].
  apply Forall_app. split; [done|]. constructor; [|done].
  change (0 :: x :: cur' ++ [0]) with (0 :: (x :: cur') ++ [0]).
  rewrite route_demand_wrap. by apply K2.
Qed.

(** X16. The random construction never leaves a customer out.  For every
    sequence of random draws, with one demand per node, the routes it
    returns start and end at the depot and serve every customer [1 .. n-1]
    exactly once; they all respect the capacity when every customer alone
    fits into a vehicle, and, with non-negative demands, only then. *)
Theorem random_initial_solution_routes_everyone n demands capacity g :
  length demands = n →
  Forall wf_route (random_initial_solution n demands capacity g).1
  ∧ customers (random_initial_solution n demands capacity g).1
    ≡ₚ seq 1 (n - 1)
  ∧ (all_fit n demands capacity →
       feasible n demands capacity
         (random_initial_solution n demands capacity g).1)
  ∧ (Forall (λ q, (0 <= q)%Z) demands →
       Forall (λ r, (route_demand r demands <= capacity)%Z)
         (random_initial_solution n demands capacity g).1 →
       all_fit n demands capacity).
Proof.
  intros _. destruct (random_routed n demands capacity g) as (R1 & R2 & R3).
  split_and!; [done|done| |].
  - intros Hfit. split_and!; [done|done|by apply R3].
  - intros Hd Hcap. by eapply complete_capacity_fits.
Qed.

Lemma random_initial_solution_routes_everyone_witness :
  length axis_demands = 6
  ∧ customers (random_initial_solution 6 axis_demands axis_capacity [3; 1; 4; 1]).1
    ≡ₚ seq 1 (6 - 1).
Proof.
  split; [reflexivity|].
  exact (proj1 (proj2 (random_initial_solution_routes_everyone 6 axis_demands
                         axis_capacity [3; 1; 4; 1] eq_refl))).
Defined.

(** ** Cheapest insertion *)

Lemma farthest_customer_in dist (unvisited : list nat) f :
  farthest_customer dist unvisited = Some f → f ∈ unvisited.
Proof.
  destruct unvisited as [|c rest]; [done|]. simpl. intros [= <-].
  assert (H : ∀ l b, fold_left (λ best c',
                 if Qlt_bool (d dist 0 best) (d dist 0 c') then c' else best)
               l b ∈ b :: l).
  { induction l as [|x l IH]; intros b; simpl; [left|].
    specialize (IH (if Qlt_bool (d dist 0 b) (d dist 0 x) then x else b)).
    destruct (Qlt_bool _ _);
      apply elem_of_cons in IH as [->|IH]; set_solver. }
  apply H.
Qed.

Lemma ci_fold_in (cands : list (Q * (nat * nat * nat))) acc m :
  (fold_left ci_step cands acc).2 = Some m →
  acc.2 = Some m ∨ ∃ c, In (c, m) cands.
Proof.
  revert acc. induction cands as [|[c x] cands IH]; intros acc; simpl; [by left|].
  intros H. apply IH in H as [H|[c' H]]; [|right; eauto].
  unfold ci_step in H. simpl in H.
  destruct (match acc.1 with None => true | Some b => _ end).
  - simpl in H. injection H as <-. right. eauto.
  - by left.
Qed.

Lemma ci_candidates_spec demands capacity dist unvisited routes route_loads
    c customer r_idx pos :
  In (c, (customer, r_idx, pos))
     (ci_candidates demands capacity dist unvisited routes route_loads) →
  customer ∈ unvisited ∧ r_idx < length routes
  ∧ 1 ≤ pos < length (route_at routes r_idx)
  ∧ (nth r_idx route_loads 0 + demand demands customer <= capacity)%Z.
Proof.
  unfold ci_candidates. intros H.
  apply in_flat_map in H as (cu & Hcu & H).
  apply in_flat_map in H as ([ri r] & Hr & H).
  apply in_enumerate_route in Hr as [Hri ->].
  destruct (_ <? _)%Z eqn:E; [done|]. apply Z.ltb_ge in E.
  apply in_map_iff in H as (p & [= _ <- <- <-] & Hp).
  apply in_range in Hp. by apply list_elem_of_In in Hcu.
Qed.

Lemma nth_insert_Z (l : list Z) i j x :
  i < length l → nth j (<[i := x]> l) 0%Z = if decide (i = j) then x else nth j l 0%Z.
Proof.
  intros Hi. rewrite !nth_lookup. case_decide as E.
  - subst. by rewrite list_lookup_insert_eq.
  - by rewrite list_lookup_insert_ne.
Qed.

Lemma insert_customer_interior (r : route) pos c x :
  wf_route r → 1 ≤ pos < length r →
  cnt (interior (insert_at pos c r)) x
  = cnt (interior r) x + (if decide (c = x) then 1 else 0).
Proof.
  intros Hwf Hp.
  assert (Hw' : wf_route (insert_at pos c r)).
  { rewrite insert_at_frame. apply frame_wf; [done|lia..]. }
  pose proof (cnt_interior _ x Hw') as H1.
  pose proof (cnt_interior _ x Hwf) as H2.
  assert (E : cnt (insert_at pos c r) x
              = cnt (take pos r) x + (if decide (c = x) then 1 else 0)
                + cnt (drop pos r) x).
  { rewrite insert_at_frame, !cnt_app, cnt_cons. simpl. lia. }
  pose proof (cnt_take_drop r pos x). repeat case_decide; lia.
Qed.

Lemma ci_loop_S turns demands capacity dist first rest routes route_loads :
  ci_loop (S turns) demands capacity dist (first :: rest) routes route_loads
  = match (fold_left ci_step
             (ci_candidates demands capacity dist (first :: rest) routes
                route_loads) (None, None)).2 with
    | None =>
        if (demand demands first <=? capacity)%Z then
          ci_loop turns demands capacity dist rest
            (routes ++ [[0; first; 0]]) (route_loads ++ [demand demands first])
        else ci_loop turns demands capacity dist rest routes route_loads
    | Some (best_customer, best_route, best_position) =>
        ci_loop turns demands capacity dist
          (filter (λ c, c ≠ best_customer) (first :: rest))
          (<[best_route := insert_at best_position best_customer
                             (route_at routes best_route)]> routes)
          (<[best_route := (nth best_route route_loads 0
                            + demand demands best_customer)%Z]> route_loads)
    end.
Proof. reflexivity. Qed.

(** What the loop keeps true: the routes are well formed, the loads are
    their demands, and routes and unvisited customers together are the
    customers given. *)
Lemma ci_loop_spec demands capacity dist (all : list nat) turns unvisited
    routes route_loads :
  Forall (λ c, (demand demands c <= capacity)%Z) all →
  NoDup unvisited → 0 ∉ unvisited → length unvisited = turns →
  Forall wf_route routes → length route_loads = length routes →
  (∀ i, i < length routes →
     nth i route_loads 0%Z = route_demand (route_at routes i) demands) →
  customers routes ++ unvisited ≡ₚ all →
  Forall (λ r, (route_demand r demands <= capacity)%Z) routes →
  Forall wf_route
    (ci_loop turns demands capacity dist unvisited routes route_loads)
  ∧ customers
      (ci_loop turns demands capacity dist unvisited routes route_loads)
    ≡ₚ all
  ∧ Forall (λ r, (route_demand r demands <= capacity)%Z)
      (ci_loop turns demands capacity dist unvisited routes route_loads).
Proof.
  intros Hfit. revert unvisited routes route_loads.
  induction turns as [|turns IH];
    intros unvisited routes route_loads Hn H0 Hlen Hwf Hll Hld Hc Hcap.
  - destruct unvisited; [|done]. simpl. by rewrite app_nil_r in Hc.
  - destruct unvisited as [|first rest]; [done|].
    rewrite ci_loop_S. remember (first :: rest) as unvisited eqn:Eu.
    destruct (fold_left ci_step _ _).2 as [[[bc br] bp]|] eqn:Ef.
    + apply ci_fold_in in Ef as [Ef|[c Ef]]; [done|].
      apply ci_candidates_spec in Ef as (Hbc & Hbr & Hbp & Hbl).
      assert (Hbc0 : bc ≠ 0) by (intros ->; done).
      pose proof (filter_remove_perm unvisited bc Hn Hbc) as HP.
      assert (Hwr : wf_route (route_at routes br)) by (by apply Forall_route_at).
      assert (Hwi : wf_route (insert_at bp bc (route_at routes br))).
      { rewrite insert_at_frame. apply frame_wf; [done|lia..]. }
      assert (Hrd : route_demand (insert_at bp bc (route_at routes br)) demands
                    = (route_demand (route_at routes br) demands
                       + demand demands bc)%Z).
      { rewrite insert_at_frame, !route_demand_app, route_demand_cons,
          route_demand_nil.
        pose proof (route_demand_take_drop demands (route_at routes br) bp).
        unfold charged. rewrite decide_False by done. lia. }
      apply IH.
      * by apply NoDup_filter.
      * intros [_ ?]%list_elem_of_filter. done.
      * apply Permutation_length in HP. simpl in HP. rewrite Eu in *.
        simpl in *. lia.
      * by apply Forall_insert.
      * by rewrite !length_insert.
      * intros i Hi. rewrite length_insert in Hi.
        rewrite nth_insert_Z by lia.
        case_decide as E.
        -- subst i. rewrite route_at_insert_eq by done.
           rewrite Hrd, Hld by done. done.
        -- rewrite route_at_insert_ne by done. by apply Hld.
      * rewrite <- Hc. apply cnt_perm. intros x. rewrite !cnt_app.
        pose proof (customers_insert routes br
                      (insert_at bp bc (route_at routes br)) x Hbr) as H1.
        pose proof (insert_customer_interior (route_at routes br) bp bc x
                      Hwr Hbp) as H2.
        pose proof (proj1 (cnt_perm _ _) HP x) as H3.
        rewrite cnt_cons in H3. lia.
      * apply Forall_insert; [done|]. rewrite Hrd.
        rewrite <- Hld by done. done.
    + rewrite Eu in Hn, H0, Hc, Hlen.
      apply NoDup_cons in Hn as [Hf Hn].
      apply not_elem_of_cons in H0 as [Hf0 H0].
      assert (Hff : (demand demands first <= capacity)%Z).
      { eapply Forall_forall in Hfit; [exact Hfit|].
        rewrite <- Hc. apply elem_of_app. right. left. }
      apply Z.leb_le in Hff. rewrite Hff. apply Z.leb_le in Hff.
      assert (Hrd : route_demand [0; first; 0] demands = demand demands first).
      { change [0; first; 0] with (0 :: [first] ++ [0]).
        rewrite route_demand_wrap, route_demand_cons, route_demand_nil.
        unfold charged. rewrite decide_False by done. lia. }
      apply IH.
      * done.
      * done.
      * simpl in Hlen. lia.
      * apply Forall_app. split; [done|].
        constructor; [repeat split; simpl; lia|done].
      * rewrite !length_app. simpl. lia.
      * intros i Hi. rewrite length_app in Hi. simpl in Hi.
        destruct (decide (i < length routes)) as [Hlt|Hge].
        -- rewrite app_nth1 by lia. unfold route_at.
           rewrite app_nth1 by lia. by apply Hld.
        -- assert (i = length routes) as -> by lia.
           rewrite app_nth2 by lia. unfold route_at.
           rewrite app_nth2 by lia. rewrite Hll, !Nat.sub_diag. simpl.
           by rewrite Hrd.
      * rewrite <- Hc, customers_app. unfold customers at 2. simpl.
        rewrite <- !(assoc_L (++)). done.
      * apply Forall_app. split; [done|]. constructor; [|done].
        rewrite Hrd. done.
Qed.

Lemma cheapest_returns n demands capacity dist :
  2 ≤ n → is_Some (cheapest_insertion_vrp n demands capacity dist).
Proof.
  intros Hn. unfold cheapest_insertion_vrp, range.
  destruct (n - 1) as [|m] eqn:E; [lia|]. simpl. by eauto.
Qed.

Lemma cheapest_feasible n demands capacity dist sol :
  all_fit n demands capacity →
  cheapest_insertion_vrp n demands capacity dist = Some sol →
  feasible n demands capacity sol.
Proof.
  intros Hfit. unfold cheapest_insertion_vrp.
  destruct (farthest_customer dist (range 1 n)) as [f|] eqn:Ef; [|done].
  simpl. intros [= <-].
  apply farthest_customer_in in Ef.
  assert (Hn : NoDup (range 1 n)) by apply NoDup_seq.
  assert (H0 : 0 ∉ range 1 n).
  { intros H. apply list_elem_of_In, in_range in H. lia. }
  assert (Hf0 : f ≠ 0) by (intros ->; done).
  pose proof (filter_remove_perm (range 1 n) f Hn Ef) as HP.
  pose proof (single_route_demand demands f Hf0) as Hrd.
  assert (Hall : Forall (λ c, (demand demands c <= capacity)%Z) (range 1 n)).
  { apply Forall_forall. intros c Hc.
    apply list_elem_of_In, in_range in Hc. by apply Hfit. }
  apply (ci_loop_spec demands capacity dist (range 1 n)); try done.
  + by apply NoDup_filter.
  + intros [_ ?]%list_elem_of_filter. done.
  + constructor; [repeat split; simpl; lia|done].
  + intros i Hi. simpl in Hi. assert (i = 0) as -> by lia.
    unfold route_at. cbn [nth]. by rewrite Hrd.
  + constructor; [|done]. rewrite Hrd.
    eapply Forall_forall in Hall; [exact Hall|done].
Qed.

(** X17. Cheapest insertion fails when there is no customer and returns a
    feasible solution otherwise.  With a single node or none the call
    raises an error ([max] of an empty set); with at least one customer it
    returns, and when every customer alone fits into a vehicle what it
    returns serves the customers [1 .. n-1] exactly once in routes that
    start and end at the depot and respect the capacity. *)
Theorem cheapest_insertion_feasible n demands capacity dist :
  length demands = n → square n dist →
  (n ≤ 1 → cheapest_insertion_vrp n demands capacity dist = None)
  ∧ (2 ≤ n → is_Some (cheapest_insertion_vrp n demands capacity dist))
  ∧ (all_fit n demands capacity →
     ∀ sol, cheapest_insertion_vrp n demands capacity dist = Some sol →
       feasible n demands capacity sol).
Proof.
  intros _ _. split_and!.
  - intros Hn. unfold cheapest_insertion_vrp, range.
    replace (n - 1) with 0 by lia. done.
  - apply cheapest_returns.
  - intros Hfit sol. by apply cheapest_feasible.
Qed.

Lemma cheapest_insertion_feasible_witness :
  length axis_demands = 6 ∧ square 6 axis_dist
  ∧ is_Some (cheapest_insertion_vrp 6 axis_demands axis_capacity axis_dist).
Proof.
  split; [reflexivity|]. split; [exact axis_square|].
  exact (proj1 (proj2 (cheapest_insertion_feasible 6 axis_demands axis_capacity
                         axis_dist eq_refl axis_square)) ltac:(lia)).
Defined.

(** ** Greedy construction *)

Lemma cust_app (f1 f2 : list nat) : cust (f1 ++ f2) = cust f1 ++ cust f2.
Proof. apply filter_app. Qed.

Lemma cnt_cust (f : list nat) x :
  cnt (cust f) x = if decide (x = 0) then 0 else cnt f x.
Proof.
  induction f as [|y f IH]; [by case_decide|].
  unfold cust in *. destruct (decide (y = 0)) as [->|Hy].
  - rewrite filter_cons_False by (intros ?; done). rewrite IH, cnt_cons.
    repeat case_decide; lia.
  - rewrite filter_cons_True by done. rewrite !cnt_cons, IH.
    repeat case_decide; lia.
Qed.

Lemma cnt_pos_elem (l : list nat) x : 0 < cnt l x ↔ x ∈ l.
Proof.
  rewrite list_elem_of_In. symmetry. apply count_occ_In.
Qed.

Lemma route_demand_cust demands (f : list nat) :
  route_demand (cust f) demands = route_demand f demands.
Proof.
  induction f as [|y f IH]; [done|].
  unfold cust in *. destruct (decide (y = 0)) as [->|Hy].
  - rewrite filter_cons_False by (intros ?; done).
    rewrite route_demand_cons, IH. unfold charged. by rewrite decide_True.
  - rewrite filter_cons_True by done. by rewrite !route_demand_cons, IH.
Qed.

Lemma members_app (F : list (list nat)) f : members (F ++ [f]) = members F ++ cust f.
Proof. unfold members. rewrite map_app, concat_app. simpl. by rewrite app_nil_r. Qed.

Lemma members_insert (F : list (list nat)) i f' x :
  i < length F →
  cnt (members (<[i := f']> F)) x + cnt (cust (nth i F [])) x
  = cnt (members F) x + cnt (cust f') x.
Proof.
  revert i. induction F as [|f F IH]; intros i Hi; simpl in *; [lia|].
  destruct i as [|i]; simpl; unfold members in *; simpl; rewrite !cnt_app.
  - lia.
  - specialize (IH i ltac:(lia)). lia.
Qed.

Lemma members_elem (F : list (list nat)) idx c :
  c ≠ 0 → c ∈ nth idx F [] → 0 < cnt (members F) c.
Proof.
  revert idx. induction F as [|f F IH]; intros idx Hc Hin.
  - destruct idx; by apply elem_of_nil in Hin.
  - unfold members in *. simpl. rewrite cnt_app.
    destruct idx as [|idx]; simpl in *.
    + assert (0 < cnt (cust f) c); [|lia].
      rewrite cnt_cust. rewrite decide_False by done. by apply cnt_pos_elem.
    + specialize (IH idx Hc Hin). lia.
Qed.

Lemma nth_elem_length {A} (F : list (list A)) idx (c : A) :
  c ∈ nth idx F [] → idx < length F.
Proof.
  intros H. destruct (decide (idx < length F)); [done|].
  rewrite nth_overflow in H by lia. by apply elem_of_nil in H.
Qed.

Lemma nth_insert_list {A} (l : list A) i j x (dflt : A) :
  i < length l →
  nth j (<[i := x]> l) dflt = if decide (i = j) then x else nth j l dflt.
Proof.
  intros Hi. rewrite !nth_lookup. case_decide as E.
  - subst. by rewrite list_lookup_insert_eq.
  - by rewrite list_lookup_insert_ne.
Qed.

(** Fragments and their ends. *)
Lemma cust_depot (f : list nat) : cust (0 :: f) = cust f.
Proof. unfold cust. by rewrite filter_cons_False by (intros ?; done). Qed.

Lemma shaped_cust (f m : list nat) : shaped f m → cust f = m.
Proof.
  intros (H0 & _ & H).
  assert (E : cust m = m).
  { unfold cust. clear H. induction m as [|x m IH]; [done|].
    apply not_elem_of_cons in H0 as [? ?].
    rewrite filter_cons_True by done. by rewrite IH. }
  assert (Z0 : cust [0] = []) by apply cust_depot.
  destruct H as [->|[->|[->| ->]]]; [done|..].
  - by rewrite cust_depot.
  - by rewrite cust_app, E, Z0, app_nil_r.
  - by rewrite cust_depot, cust_app, E, Z0, app_nil_r.
Qed.

Lemma last_node_snoc (l : list nat) x : last_node (l ++ [x]) = x.
Proof. unfold last_node. apply last_last. Qed.

Lemma last_node_cons (l : list nat) x : l ≠ [] → last_node (x :: l) = last_node l.
Proof. unfold last_node. destruct l; [done|]. done. Qed.

Lemma first_node_app (l1 l2 : list nat) :
  l1 ≠ [] → first_node (l1 ++ l2) = first_node l1.
Proof. by destruct l1. Qed.

Lemma first_node_reverse (l : list nat) : first_node (reverse l) = last_node l.
Proof.
  destruct (list_ends l) as [->|[[x ->]|(x & m & y & ->)]]; [done..|].
  change (x :: m ++ [y]) with ((x :: m) ++ [y]).
  by rewrite reverse_app, last_node_snoc.
Qed.

Lemma last_node_reverse (l : list nat) : last_node (reverse l) = first_node l.
Proof.
  destruct l as [|x l]; [done|]. by rewrite reverse_cons, last_node_snoc.
Qed.

Lemma shaped_first (f m : list nat) :
  shaped f m → first_node f ≠ 0 → f = m ∨ f = m ++ [0].
Proof. intros (H0 & Hm & [->|[->|[->| ->]]]) Hf; by eauto. Qed.

Lemma shaped_last (f m : list nat) :
  shaped f m → last_node f ≠ 0 → f = m ∨ f = 0 :: m.
Proof.
  intros (H0 & Hm & [->|[->|[->| ->]]]) Hf; [by eauto..| |].
  - by rewrite last_node_snoc in Hf.
  - change (0 :: m ++ [0]) with ((0 :: m) ++ [0]) in Hf.
    by rewrite last_node_snoc in Hf.
Qed.

Lemma shaped_reverse (f m : list nat) : shaped f m → shaped (reverse f) (reverse m).
Proof.
  intros (H0 & Hm & H). split_and!.
  - by rewrite elem_of_reverse.
  - intros E. apply Hm. by rewrite <- (reverse_involutive m), E.
  - destruct H as [->|[->|[->| ->]]].
    + by left.
    + right. right. left. by rewrite reverse_cons.
    + right. left. by rewrite reverse_app.
    + right. right. right. rewrite reverse_cons, reverse_app. done.
Qed.

Ltac no_depot :=
  repeat first [ done
               | apply not_elem_of_nil
               | apply not_elem_of_app; split
               | apply not_elem_of_cons; split ].

Lemma shaped_cons (f m : list nat) y :
  shaped f m → first_node f ≠ 0 →
  shaped (y :: f) (if decide (y = 0) then m else y :: m).
Proof.
  intros Hs Hf. pose proof Hs as (H0 & Hm & _).
  apply shaped_first in Hs as [->| ->]; [| |done]; unfold shaped;
    case_decide; subst; (split_and!; [no_depot|done|by eauto 6]).
Qed.

Lemma shaped_snoc (f m : list nat) y :
  shaped f m → last_node f ≠ 0 →
  shaped (f ++ [y]) (if decide (y = 0) then m else m ++ [y]).
Proof.
  intros Hs Hf. pose proof Hs as (H0 & Hm & _).
  apply shaped_last in Hs as [->| ->]; [| |done]; unfold shaped;
    case_decide; subst;
    (split_and!; [no_depot|by destruct m|rewrite <- ?(assoc_L (++)); by eauto 6]).
Qed.

Lemma shaped_app (f1 m1 f2 m2 : list nat) :
  shaped f1 m1 → last_node f1 ≠ 0 → shaped f2 m2 → first_node f2 ≠ 0 →
  shaped (f1 ++ f2) (m1 ++ m2).
Proof.
  intros Hs1 Hl Hs2 Hf.
  pose proof Hs1 as (H1 & Hm1 & _). pose proof Hs2 as (H2 & Hm2 & _).
  apply shaped_last in Hs1 as [->| ->]; [| |done];
    (apply shaped_first in Hs2 as [->| ->]; [| |done]);
    unfold shaped; (split_and!; [no_depot|by destruct m1| ]).
  - by left.
  - right. right. left. by rewrite (assoc_L (++)).
  - right. by left.
  - right. right. right. simpl. by rewrite (assoc_L (++)).
Qed.

Lemma close_fragment_nonempty (f : list nat) :
  f ≠ [] →
  close_fragment f
  = (let f1 := if first_node f =? 0 then f else 0 :: f in
     let f2 := if last_node f1 =? 0 then f1 else f1 ++ [0] in
     if 2 <? length f2 then Some f2 else None).
Proof. by destruct f. Qed.

Lemma close_fragment_shaped (f m : list nat) :
  shaped f m → close_fragment f = Some (0 :: m ++ [0]).
Proof.
  intros (H0 & Hm & H).
  assert (Hh : (first_node m =? 0) = false).
  { apply Nat.eqb_neq. intros E. apply H0.
    destruct m as [|x m]; [done|]. unfold first_node in E. simpl in E.
    subst. left. }
  assert (Hl : (last_node m =? 0) = false).
  { apply Nat.eqb_neq.
    destruct (list_ends m) as [->|[[x ->]|(x & m' & y & ->)]]; [done|..].
    - unfold last_node. simpl. intros ->. apply H0. left.
    - change (x :: m' ++ [y]) with ((x :: m') ++ [y]).
      rewrite last_node_snoc. intros ->. apply H0.
      right. apply elem_of_app. right. left. }
  assert (Hlen : (2 <? length ((0 :: m) ++ [0])) = true).
  { apply Nat.ltb_lt. rewrite length_app. simpl.
    destruct m; [done|]. simpl. lia. }
  assert (L0 : (last_node ((0 :: m) ++ [0]) =? 0) = true)
    by (by rewrite last_node_snoc).
  assert (L1 : (last_node (0 :: m) =? 0) = false)
    by (by rewrite last_node_cons).
  assert (F1 : (first_node (m ++ [0]) =? 0) = false)
    by (by rewrite first_node_app).
  change (0 :: m ++ [0]) with ((0 :: m) ++ [0]) in *.
  destruct H as [->|[->|[->| ->]]].
  - rewrite close_fragment_nonempty by done. cbv zeta.
    by rewrite Hh, L1, Hlen.
  - rewrite close_fragment_nonempty by done. cbv zeta.
    change (first_node (0 :: m) =? 0) with true. cbv iota.
    by rewrite L1, Hlen.
  - rewrite close_fragment_nonempty by (by destruct m). cbv zeta.
    rewrite F1. change (0 :: m ++ [0]) with ((0 :: m) ++ [0]).
    by rewrite L0, Hlen.
  - rewrite close_fragment_nonempty by done. cbv zeta.
    change (first_node ((0 :: m) ++ [0]) =? 0) with true. cbv iota.
    by rewrite L0, Hlen.
Qed.

Lemma assign_lookup (y f c : nat) (c2f : gmap nat nat) :
  assign y f c2f !! c
  = if decide (c = y ∧ y ≠ 0) then Some f else c2f !! c.
Proof.
  unfold assign. destruct (y =? 0) eqn:E.
  - apply Nat.eqb_eq in E. by rewrite decide_False by (intros [_ ?]; done).
  - apply Nat.eqb_neq in E. destruct (decide (c = y)) as [->|Hne].
    + rewrite lookup_insert_eq. by rewrite decide_True.
    + rewrite lookup_insert_ne by done.
      by rewrite decide_False by (intros [? _]; done).
Qed.

Lemma assign_all_lookup (l : list nat) (f c : nat) (c2f : gmap nat nat) :
  fold_left (λ m customer, assign customer f m) l c2f !! c
  = if decide (c ∈ l ∧ c ≠ 0) then Some f else c2f !! c.
Proof.
  revert c2f. induction l as [|y l IH]; intros c2f; cbn [fold_left].
  - case_decide as H; [|done]. by destruct H as [?%elem_of_nil _].
  - rewrite IH, assign_lookup.
    destruct (decide (c ∈ l ∧ c ≠ 0)) as [[H1 H2]|H1].
    + rewrite decide_True; [done|]. split; [by right|done].
    + destruct (decide (c = y ∧ y ≠ 0)) as [[-> H2]|H2].
      * rewrite decide_True; [done|]. split; [left|done].
      * rewrite decide_False; [done|].
        intros [[->|H3]%elem_of_cons H4]; [by apply H2|by apply H1].
Qed.

Lemma cust_elem (f : list nat) c : c ≠ 0 → c ∈ f ↔ 0 < cnt (cust f) c.
Proof.
  intros Hc. rewrite cnt_cust, decide_False by done. symmetry.
  apply cnt_pos_elem.
Qed.

(** A new fragment is opened. *)
Lemma greedy_new_inv n demands capacity st (f m : list nat) load dg c2f' :
  greedy_inv n demands capacity st →
  shaped f m → NoDup m →
  (∀ c, c ∈ m → customer_to_fragment st !! c = None ∧ 1 ≤ c < n) →
  load = route_demand f demands → (load <= capacity)%Z →
  (∀ c, c2f' !! c = if decide (c ∈ m) then Some (length (fragments st))
                    else customer_to_fragment st !! c) →
  greedy_inv n demands capacity
    {| fragments := fragments st ++ [f];
       fragment_loads := fragment_loads st ++ [load];
       customer_degree := dg; customer_to_fragment := c2f' |}.
Proof.
  intros (G1 & G2 & G3 & G4 & G5 & G6) Hs Hnd Hnew -> Hcap Hc2f.
  pose proof (shaped_cust f m Hs) as Hcu.
  unfold greedy_inv. simpl. split_and!.
  - rewrite !length_app. simpl. lia.
  - apply Forall_app. split; [done|]. constructor; [|done]. right. by exists m.
  - intros c idx. rewrite Hc2f. destruct (decide (c ∈ m)) as [Hm|Hm].
    + intros [= <-]. split.
      * intros ->. by destruct Hs as [? _].
      * rewrite app_nth2 by lia. rewrite Nat.sub_diag. simpl.
        rewrite cust_elem; [|intros ->; by destruct Hs as [? _]].
        rewrite Hcu. by apply cnt_pos_elem.
    + intros H. apply G3 in H as [Hc Hin]. split; [done|].
      pose proof (nth_elem_length _ _ _ Hin). by rewrite app_nth1.
  - intros c. rewrite members_app, cnt_app, Hcu, Hc2f. intros Hpos.
    destruct (decide (c ∈ m)) as [Hm|Hm].
    + split; [by eauto|]. by apply Hnew.
    + assert (cnt m c = 0).
      { destruct (cnt m c) eqn:E; [done|]. exfalso. apply Hm.
        apply cnt_pos_elem. lia. }
      apply G4. lia.
  - intros c. rewrite members_app, cnt_app, Hcu.
    destruct (decide (c ∈ m)) as [Hm|Hm].
    + destruct (Hnew c Hm) as [Hn _].
      assert (cnt (members (fragments st)) c = 0).
      { destruct (cnt (members (fragments st)) c) eqn:E; [done|].
        destruct (G4 c ltac:(lia)) as [[? ?] _]. congruence. }
      pose proof (proj1 (NoDup_count_occ Nat.eq_dec m) ltac:(by apply NoDup_ListNoDup) c).
      lia.
    + assert (cnt m c = 0).
      { destruct (cnt m c) eqn:E; [done|]. exfalso. apply Hm.
        apply cnt_pos_elem. lia. }
      specialize (G5 c). lia.
  - intros idx. rewrite length_app. simpl. intros Hi.
    destruct (decide (idx < length (fragments st))) as [Hlt|Hge].
    + rewrite !app_nth1 by lia. by apply G6.
    + assert (idx = length (fragments st)) as -> by lia.
      rewrite app_nth2 by lia. rewrite (app_nth2 (fragments st)) by lia.
      rewrite G1, !Nat.sub_diag. simpl. done.
Qed.

(** A fragment takes one more node [y]. *)
Lemma greedy_replace_inv n demands capacity st fi (f' : list nat) y load dg :
  greedy_inv n demands capacity st →
  fi < length (fragments st) →
  (∃ m', shaped f' m') →
  (∀ c, cnt (cust f') c
        = cnt (cust (nth fi (fragments st) [])) c
          + (if decide (c = y ∧ y ≠ 0) then 1 else 0)) →
  (y ≠ 0 → customer_to_fragment st !! y = None ∧ 1 ≤ y < n) →
  load = route_demand f' demands → (load <= capacity)%Z →
  greedy_inv n demands capacity
    {| fragments := <[fi := f']> (fragments st);
       fragment_loads := <[fi := load]> (fragment_loads st);
       customer_degree := dg;
       customer_to_fragment := assign y fi (customer_to_fragment st) |}.
Proof.
  intros (G1 & G2 & G3 & G4 & G5 & G6) Hfi Hs Hcnt Hy -> Hcap.
  assert (Hmem : ∀ c, cnt (members (<[fi := f']> (fragments st))) c
                      = cnt (members (fragments st)) c
                        + (if decide (c = y ∧ y ≠ 0) then 1 else 0)).
  { intros c. pose proof (members_insert (fragments st) fi f' c Hfi).
    specialize (Hcnt c). lia. }
  unfold greedy_inv. simpl. split_and!.
  - by rewrite !length_insert.
  - apply Forall_insert; [done|]. by right.
  - intros c idx. rewrite assign_lookup.
    destruct (decide (c = y ∧ y ≠ 0)) as [Hc|Hc].
    + destruct Hc as [-> Hy0]. intros [= <-]. split; [done|].
      rewrite nth_insert_list by done.
      rewrite decide_True by done. apply cust_elem; [done|].
      rewrite Hcnt. rewrite decide_True by done. lia.
    + intros H. apply G3 in H as [Hc0 Hin]. split; [done|].
      rewrite nth_insert_list by done.
      destruct (decide (fi = idx)) as [E|E]; [|done]. subst idx.
      apply cust_elem; [done|]. rewrite Hcnt.
      apply cust_elem in Hin; [|done]. lia.
  - intros c. rewrite Hmem, assign_lookup. intros Hpos.
    destruct (decide (c = y ∧ y ≠ 0)) as [Hc|Hc].
    + destruct Hc as [-> Hy0]. split; [by eauto|]. by apply Hy.
    + apply G4. lia.
  - intros c. rewrite Hmem.
    destruct (decide (c = y ∧ y ≠ 0)) as [Hc|Hc]; [|specialize (G5 c); lia].
    destruct Hc as [-> Hy0]. destruct (Hy Hy0) as [Hn _].
    destruct (cnt (members (fragments st)) y) eqn:E; [lia|].
    destruct (G4 y ltac:(lia)) as [[? ?] _]. congruence.
  - intros idx. rewrite length_insert. intros Hi.
    rewrite nth_insert_Z by lia. rewrite nth_insert_list by done.
    destruct (decide (fi = idx)); [done|]. by apply G6.
Qed.

(** Two fragments are joined. *)
Lemma greedy_merge_inv n demands capacity st fi fj (merged : list nat) load dg :
  greedy_inv n demands capacity st →
  fi < length (fragments st) → fj < length (fragments st) → fi ≠ fj →
  (∃ m, shaped merged m) →
  (∀ c, cnt (cust merged) c
        = cnt (cust (nth fi (fragments st) [])) c
          + cnt (cust (nth fj (fragments st) [])) c) →
  load = route_demand merged demands → (load <= capacity)%Z →
  greedy_inv n demands capacity
    {| fragments := <[fj := []]> (<[fi := merged]> (fragments st));
       fragment_loads := <[fj := 0%Z]> (<[fi := load]> (fragment_loads st));
       customer_degree := dg;
       customer_to_fragment :=
         fold_left (λ c2f customer, assign customer fi c2f)
           (nth fj (fragments st) []) (customer_to_fragment st) |}.
Proof.
  intros (G1 & G2 & G3 & G4 & G5 & G6) Hfi Hfj Hne Hs Hcnt -> Hcap.
  assert (Hmem : ∀ c, cnt (members (<[fj := []]> (<[fi := merged]> (fragments st)))) c
                      = cnt (members (fragments st)) c).
  { intros c.
    pose proof (members_insert (fragments st) fi merged c Hfi) as H1.
    pose proof (members_insert (<[fi := merged]> (fragments st)) fj [] c
                  ltac:(by rewrite length_insert)) as H2.
    rewrite nth_insert_list in H2 by done.
    rewrite decide_False in H2 by done.
    specialize (Hcnt c). simpl in H2. lia. }
  unfold greedy_inv. simpl. split_and!.
  - by rewrite !length_insert.
  - apply Forall_insert; [|by left]. apply Forall_insert; [done|]. by right.
  - intros c idx. rewrite assign_all_lookup.
    destruct (decide (c ∈ nth fj (fragments st) [] ∧ c ≠ 0)) as [Hc|Hc].
    + destruct Hc as [Hin Hc0]. intros [= <-]. split; [done|].
      rewrite nth_insert_list by (by rewrite length_insert).
      rewrite nth_insert_list by done.
      rewrite decide_False by done. rewrite decide_True by done.
      apply cust_elem; [done|]. rewrite Hcnt.
      apply cust_elem in Hin; [|done]. lia.
    + intros H. apply G3 in H as [Hc0 Hin]. split; [done|].
      rewrite nth_insert_list by (by rewrite length_insert).
      rewrite nth_insert_list by done.
      destruct (decide (fj = idx)) as [E1|E1].
      { subst idx. exfalso. by apply Hc. }
      destruct (decide (fi = idx)) as [E2|E2]; [|done]. subst idx.
      apply cust_elem; [done|]. rewrite Hcnt.
      apply cust_elem in Hin; [|done]. lia.
  - intros c. rewrite Hmem, assign_all_lookup. intros Hpos.
    destruct (G4 c Hpos) as [Hsome Hr]. split; [|done].
    destruct (decide (c ∈ nth fj (fragments st) [] ∧ c ≠ 0)); [by eauto|done].
  - intros c. rewrite Hmem. apply G5.
  - intros idx. rewrite !length_insert. intros Hi.
    rewrite nth_insert_Z by (by rewrite length_insert; lia).
    rewrite nth_insert_Z by lia.
    rewrite nth_insert_list by (by rewrite length_insert).
    rewrite nth_insert_list by done.
    destruct (decide (fj = idx)); [done|].
    destruct (decide (fi = idx)); [done|]. by apply G6.
Qed.

Lemma fragment_shaped n demands capacity st idx c :
  greedy_inv n demands capacity st →
  c ∈ nth idx (fragments st) [] →
  idx < length (fragments st) ∧ ∃ m, shaped (nth idx (fragments st) []) m.
Proof.
  intros (_ & G2 & _) Hin. pose proof (nth_elem_length _ _ _ Hin) as Hi.
  split; [done|].
  pose proof (Forall_route_at _ _ idx G2 Hi) as H. unfold route_at in H.
  simpl in H. destruct H as [H|H]; [|done].
  rewrite H in Hin. by apply elem_of_nil in Hin.
Qed.

Lemma charged_test demands (y : nat) :
  (if y =? 0 then 0%Z else demand demands y) = charged demands y.
Proof.
  unfold charged. destruct (y =? 0) eqn:E.
  - apply Nat.eqb_eq in E. by rewrite decide_True.
  - apply Nat.eqb_neq in E. by rewrite decide_False.
Qed.

Lemma cnt_cust_cons (f : list nat) y c :
  cnt (cust (y :: f)) c
  = cnt (cust f) c + (if decide (c = y ∧ y ≠ 0) then 1 else 0).
Proof.
  rewrite !cnt_cust, cnt_cons.
  destruct (decide (c = 0)); destruct (decide (y = c));
    destruct (decide (c = y ∧ y ≠ 0)) as [[? ?]|Hn]; try lia; try congruence.
Qed.

Lemma cnt_cust_snoc (f : list nat) y c :
  cnt (cust (f ++ [y])) c
  = cnt (cust f) c + (if decide (c = y ∧ y ≠ 0) then 1 else 0).
Proof.
  rewrite cust_app, cnt_app. pose proof (cnt_cust_cons [] y c) as H.
  simpl in H. unfold cust at 2. unfold cust in H. simpl in *. lia.
Qed.

Lemma greedy_attach_inv n demands capacity st x y f_idx :
  greedy_inv n demands capacity st →
  x ≠ 0 → x ∈ nth f_idx (fragments st) [] →
  (y ≠ 0 → customer_to_fragment st !! y = None ∧ 1 ≤ y < n) →
  greedy_inv n demands capacity (greedy_attach demands capacity st x y f_idx).
Proof.
  intros Hinv Hx Hin Hy.
  destruct (fragment_shaped _ _ _ _ _ _ Hinv Hin) as [Hfi [m Hs]].
  pose proof Hinv as (_ & _ & _ & _ & _ & G6).
  destruct (G6 f_idx Hfi) as [Hload _].
  unfold greedy_attach. rewrite charged_test, Hload.
  set (f := nth f_idx (fragments st) []) in *.
  destruct (_ <=? _)%Z eqn:Ec; [|done]. apply Z.leb_le in Ec.
  destruct (x =? first_node f) eqn:E1; simpl.
  - apply Nat.eqb_eq in E1.
    apply greedy_replace_inv; try done.
    + eexists. apply shaped_cons; [done|congruence].
    + intros c. apply cnt_cust_cons.
    + rewrite route_demand_cons. lia.
  - destruct (x =? last_node f) eqn:E2; [|done].
    apply Nat.eqb_eq in E2.
    apply greedy_replace_inv; try done.
    + eexists. apply shaped_snoc; [done|congruence].
    + intros c. apply cnt_cust_snoc.
    + rewrite route_demand_app, route_demand_cons, route_demand_nil. lia.
Qed.

Lemma cnt_cust_app (f1 f2 : list nat) c :
  cnt (cust (f1 ++ f2)) c = cnt (cust f1) c + cnt (cust f2) c.
Proof. by rewrite cust_app, cnt_app. Qed.

Lemma cnt_cust_reverse (f : list nat) c : cnt (cust (reverse f)) c = cnt (cust f) c.
Proof. by rewrite !cnt_cust, cnt_reverse. Qed.

Lemma greedy_join_inv n demands capacity st i j fi fj :
  greedy_inv n demands capacity st →
  i ≠ 0 → j ≠ 0 → fi ≠ fj →
  i ∈ nth fi (fragments st) [] → j ∈ nth fj (fragments st) [] →
  greedy_inv n demands capacity (greedy_join capacity st i j fi fj).
Proof.
  intros Hinv Hi Hj Hne Hini Hinj.
  destruct (fragment_shaped _ _ _ _ _ _ Hinv Hini) as [Hfi [m1 Hs1]].
  destruct (fragment_shaped _ _ _ _ _ _ Hinv Hinj) as [Hfj [m2 Hs2]].
  pose proof Hinv as (_ & _ & _ & _ & _ & G6).
  destruct (G6 fi Hfi) as [Hl1 _]. destruct (G6 fj Hfj) as [Hl2 _].
  unfold greedy_join. rewrite Hl1, Hl2.
  set (f1 := nth fi (fragments st) []) in *.
  set (f2 := nth fj (fragments st) []) in *.
  destruct (_ <=? _)%Z eqn:Ec; [|done]. apply Z.leb_le in Ec.
  destruct (_ && _) eqn:Eends; [|done]. clear Eends.
  destruct ((i =? last_node f1) && (j =? first_node f2)) eqn:E1.
  { apply andb_true_iff in E1 as [Ea Eb].
    apply Nat.eqb_eq in Ea, Eb.
    apply greedy_merge_inv; try done.
    - eexists. apply shaped_app; [done|congruence|done|congruence].
    - intros c. apply cnt_cust_app.
    - rewrite route_demand_app. lia. }
  destruct ((i =? first_node f1) && (j =? last_node f2)) eqn:E2.
  { apply andb_true_iff in E2 as [Ea Eb].
    apply Nat.eqb_eq in Ea, Eb.
    apply greedy_merge_inv; try done.
    - eexists. apply shaped_app; [done|congruence|done|congruence].
    - intros c. rewrite cnt_cust_app. fold f1 f2. lia.
    - rewrite route_demand_app. lia. }
  destruct ((i =? last_node f1) && (j =? last_node f2)) eqn:E3.
  { apply andb_true_iff in E3 as [Ea Eb].
    apply Nat.eqb_eq in Ea, Eb.
    apply greedy_merge_inv; try done.
    - eexists. apply shaped_app; [done|congruence| |].
      + by apply shaped_reverse.
      + rewrite first_node_reverse. congruence.
    - intros c. by rewrite cnt_cust_app, cnt_cust_reverse.
    - rewrite route_demand_app, route_demand_reverse. lia. }
  destruct ((i =? first_node f1) && (j =? first_node f2)) eqn:E4; [|done].
  apply andb_true_iff in E4 as [Ea Eb].
  apply Nat.eqb_eq in Ea, Eb.
  apply greedy_merge_inv; try done.
  - eexists. apply shaped_app; [| |done|congruence].
    + by apply shaped_reverse.
    + rewrite last_node_reverse. congruence.
  - intros c. by rewrite cnt_cust_app, cnt_cust_reverse.
  - rewrite route_demand_app, route_demand_reverse. lia.
Qed.

Lemma greedy_edge_inv n demands capacity st (cst : Q) i j :
  greedy_inv n demands capacity st → i < j → j < n →
  greedy_inv n demands capacity (greedy_edge demands capacity st (cst, i, j)).
Proof.
  intros Hinv Hij Hjn. pose proof Hinv as (G1 & G2 & G3 & G4 & G5 & G6).
  unfold greedy_edge.
  destruct (negb (i =? 0) && _); [done|].
  destruct (negb (j =? 0) && _); [done|].
  destruct (customer_to_fragment st !! i) as [fi|] eqn:Ei;
    destruct (customer_to_fragment st !! j) as [fj|] eqn:Ej.
  - destruct (fi =? fj) eqn:E; [done|]. apply Nat.eqb_neq in E.
    destruct (G3 _ _ Ei) as [? ?]. destruct (G3 _ _ Ej) as [? ?].
    by apply greedy_join_inv.
  - destruct (G3 _ _ Ei) as [? ?].
    apply greedy_attach_inv; [done..|]. intros _. split; [done|lia].
  - destruct (G3 _ _ Ej) as [? ?].
    apply greedy_attach_inv; [done..|]. intros Hi0. split; [done|lia].
  - assert (Hj0 : j ≠ 0) by lia.
    assert (Ej0 : (j =? 0) = false) by (by apply Nat.eqb_neq).
    destruct (i =? 0) eqn:Ei0; rewrite ?Ej0; cbn [orb].
    + apply Nat.eqb_eq in Ei0. subst i.
      destruct (_ <=? _)%Z eqn:Ec; [|done]. apply Z.leb_le in Ec.
      apply (greedy_new_inv n demands capacity st [0; j] [j]); try done.
      * split_and!; [no_depot|done|]. right. by left.
      * apply NoDup_singleton.
      * intros c ->%list_elem_of_singleton. split; [done|lia].
      * rewrite !route_demand_cons, route_demand_nil. unfold charged.
        rewrite decide_True by done. rewrite decide_False by done. lia.
      * intros c. rewrite assign_lookup.
        destruct (decide (c = j ∧ j ≠ 0)) as [[-> _]|Hn].
        -- rewrite decide_True; [done|]. left.
        -- rewrite decide_False; [done|].
           intros ->%list_elem_of_singleton. by apply Hn.
    + apply Nat.eqb_neq in Ei0.
      destruct (_ <=? _)%Z eqn:Ec; [|done]. apply Z.leb_le in Ec.
      apply (greedy_new_inv n demands capacity st [i; j] [i; j]); try done.
      * split_and!; [no_depot|done|]. by left.
      * apply NoDup_cons. split; [|apply NoDup_singleton].
        intros ->%list_elem_of_singleton. lia.
      * intros c [->| ->%list_elem_of_singleton]%elem_of_cons;
          (split; [done|lia]).
      * rewrite !route_demand_cons, route_demand_nil. unfold charged.
        rewrite !decide_False by done. lia.
      * intros c. destruct (decide (c = j)) as [->|Hcj].
        -- rewrite lookup_insert_eq. rewrite decide_True; [done|].
           right. left.
        -- rewrite lookup_insert_ne by done.
           destruct (decide (c = i)) as [->|Hci].
           ++ rewrite lookup_insert_eq. rewrite decide_True; [done|]. left.
           ++ rewrite lookup_insert_ne by done. rewrite decide_False; [done|].
              intros [->| ->%list_elem_of_singleton]%elem_of_cons; done.
Qed.

Lemma greedy_fold_inv n demands capacity (edges : list (Q * nat * nat)) st :
  Forall (λ e, e.1.2 < e.2 ∧ e.2 < n) edges →
  greedy_inv n demands capacity st →
  greedy_inv n demands capacity (fold_left (greedy_edge demands capacity) edges st).
Proof.
  revert st. induction edges as [|[[c i] j] edges IH]; intros st He Hinv; [done|].
  apply Forall_cons in He as [[Hij Hjn] He]. cbn [fst snd] in *.
  cbn [fold_left]. apply IH; [done|]. by apply greedy_edge_inv.
Qed.

Lemma edge_list_spec n dist :
  Forall (λ e : Q * nat * nat, e.1.2 < e.2 ∧ e.2 < n) (edge_list n dist).
Proof.
  apply Forall_forall. intros [[c i] j] H.
  apply list_elem_of_In, in_flat_map in H as (i' & Hi & H).
  apply in_map_iff in H as (j' & [= _ <- <-] & Hj).
  apply in_range in Hj. simpl. lia.
Qed.

Lemma closed_fragments_spec demands capacity (F : list (list nat)) :
  Forall (λ f, f = [] ∨ ∃ m, shaped f m) F →
  Forall (λ f, f ≠ [] → (route_demand f demands <= capacity)%Z) F →
  Forall wf_route (omap close_fragment F)
  ∧ customers (omap close_fragment F) = members F
  ∧ Forall (λ r, (route_demand r demands <= capacity)%Z)
      (omap close_fragment F).
Proof.
  induction F as [|f F IH]; intros Hs Hc; [done|].
  apply Forall_cons in Hs as [Hf Hs]. apply Forall_cons in Hc as [Hcf Hc].
  destruct (IH Hs Hc) as (I1 & I2 & I3).
  destruct Hf as [->|[m Hm]]; [done|].
  cbn [omap list_omap]. rewrite (close_fragment_shaped f m Hm).
  pose proof (shaped_cust f m Hm) as Hcu.
  split_and!.
  - constructor; [apply wrap_wf|done].
  - rewrite customers_cons, interior_wrap, I2. unfold members. simpl.
    by rewrite Hcu.
  - constructor; [|done].
    rewrite route_demand_wrap, <- Hcu, route_demand_cust. apply Hcf.
    intros ->. by destruct Hm as (_ & ? & [<-|[?|[?|?]]]).
Qed.

Lemma greedy_singles_spec demands capacity (c2f : gmap nat nat) (l : list nat) :
  0 ∉ l →
  let singles := flat_map (λ customer,
       match c2f !! customer with
       | Some _ => []
       | None => if (demand demands customer <=? capacity)%Z
                 then [[0; customer; 0]] else []
       end) l in
  Forall wf_route singles
  ∧ customers singles
    = filter (λ c, c2f !! c = None ∧ (demand demands c <= capacity)%Z) l
  ∧ Forall (λ r, (route_demand r demands <= capacity)%Z) singles.
Proof.
  cbv zeta. induction l as [|c l IH]; intros H0; [done|].
  apply not_elem_of_cons in H0 as [Hc0 H0]. destruct (IH H0) as (I1 & I2 & I3).
  cbn [flat_map]. destruct (c2f !! c) as [idx|] eqn:E.
  - rewrite filter_cons_False by (intros [? _]; congruence). done.
  - destruct (_ <=? _)%Z eqn:Ec.
    + apply Z.leb_le in Ec. rewrite filter_cons_True by done.
      split_and!.
      * constructor; [repeat split; simpl; lia|done].
      * simpl. rewrite customers_cons. simpl in I2. rewrite I2. done.
      * constructor; [|done].
        change [0; c; 0] with (0 :: [c] ++ [0]).
        rewrite route_demand_wrap, route_demand_cons, route_demand_nil.
        unfold charged. rewrite decide_False by done. lia.
    + apply Z.leb_gt in Ec.
      rewrite filter_cons_False by (intros [_ ?]; lia). done.
Qed.

Lemma greedy_init_inv n demands capacity :
  greedy_inv n demands capacity
    {| fragments := []; fragment_loads := [];
       customer_degree := ∅; customer_to_fragment := ∅ |}.
Proof.
  unfold greedy_inv. simpl. split_and!; try done.
  - intros c. unfold members. simpl. lia.
  - intros c. unfold members. simpl. lia.
  - intros idx. lia.
Qed.

Lemma greedy_result_spec n demands capacity dist :
  Forall wf_route (greedy_vrp n demands capacity dist)
  ∧ Forall (λ r, (route_demand r demands <= capacity)%Z)
      (greedy_vrp n demands capacity dist)
  ∧ NoDup (customers (greedy_vrp n demands capacity dist))
  ∧ (∀ c, c ∈ customers (greedy_vrp n demands capacity dist) → 1 ≤ c < n)
  ∧ (∀ c, 1 ≤ c < n → (demand demands c <= capacity)%Z →
       c ∈ customers (greedy_vrp n demands capacity dist))
  ∧ (all_fit n demands capacity →
       feasible n demands capacity (greedy_vrp n demands capacity dist)).
Proof.
  unfold greedy_vrp.
  set (edges := merge_sort edge_leR (edge_list n dist)).
  assert (He : Forall (λ e : Q * nat * nat, e.1.2 < e.2 ∧ e.2 < n) edges).
  { unfold edges. rewrite merge_sort_Permutation. apply edge_list_spec. }
  pose proof (greedy_fold_inv n demands capacity edges _ He
                (greedy_init_inv n demands capacity)) as Hinv.
  set (st := fold_left (greedy_edge demands capacity) edges _) in *.
  destruct Hinv as (G1 & G2 & G3 & G4 & G5 & G6).
  assert (Hcapf : Forall (λ f, f ≠ [] → (route_demand f demands <= capacity)%Z)
                    (fragments st)).
  { apply (Forall_nth _ []). intros idx Hi. by apply G6. }
  destruct (closed_fragments_spec demands capacity (fragments st) G2 Hcapf)
    as (C1 & C2 & C3).
  assert (H0 : 0 ∉ range 1 n).
  { intros H. apply list_elem_of_In, in_range in H. lia. }
  destruct (greedy_singles_spec demands capacity (customer_to_fragment st)
              (range 1 n) H0) as (S1 & S2 & S3).
  cbv zeta in S1, S2, S3.
  set (singles := flat_map _ (range 1 n)) in *.
  assert (Hcust : customers (omap close_fragment (fragments st) ++ singles)
                  = members (fragments st)
                    ++ filter (λ c, customer_to_fragment st !! c = None
                                    ∧ (demand demands c <= capacity)%Z)
                         (range 1 n)).
  { by rewrite customers_app, C2, S2. }
  assert (Hnd : NoDup (customers (omap close_fragment (fragments st) ++ singles))).
  { rewrite Hcust. apply NoDup_app. split_and!.
    - apply NoDup_ListNoDup, (NoDup_count_occ Nat.eq_dec). apply G5.
    - intros x Hx [[Hn _] _]%list_elem_of_filter.
      apply cnt_pos_elem in Hx. destruct (G4 x Hx) as [[? ?] _]. congruence.
    - apply NoDup_filter, NoDup_seq. }
  assert (Hrange : ∀ c, c ∈ customers (omap close_fragment (fragments st) ++ singles)
                        → 1 ≤ c < n).
  { intros c. rewrite Hcust. intros [Hc|Hc]%elem_of_app.
    - apply cnt_pos_elem in Hc. by apply G4.
    - apply list_elem_of_filter in Hc as [_ Hc].
      apply list_elem_of_In, in_range in Hc. lia. }
  assert (Hall : ∀ c, 1 ≤ c < n → (demand demands c <= capacity)%Z →
                      c ∈ customers (omap close_fragment (fragments st) ++ singles)).
  { intros c Hc Hfit. rewrite Hcust. apply elem_of_app.
    destruct (customer_to_fragment st !! c) as [idx|] eqn:E.
    - left. destruct (G3 _ _ E) as [Hc0 Hin].
      apply cnt_pos_elem. by eapply members_elem.
    - right. apply list_elem_of_filter. split; [done|].
      apply list_elem_of_In, in_range. lia. }
  split_and!; [|  |done|done|done|].
  - apply Forall_app. by split.
  - apply Forall_app. by split.
  - intros Hfit. split_and!.
    + apply Forall_app. by split.
    + apply NoDup_Permutation; [done|apply NoDup_seq|].
      intros x. split.
      * intros Hx. apply Hrange in Hx. apply list_elem_of_In, in_seq. lia.
      * intros Hx. apply list_elem_of_In, in_seq in Hx.
        apply Hall; [lia|]. apply Hfit. lia.
    + apply Forall_app. by split.
Qed.

(** X18. The greedy construction never overloads a vehicle and never
    serves a customer twice.  With one demand and one distance entry per
    node, the routes it returns start and end at the depot and respect the
    capacity; no customer occurs twice; the customers served are among
    [1 .. n-1] and include every customer whose demand fits into a
    vehicle.  When every customer alone fits, the solution is feasible. *)
Theorem greedy_vrp_respects_capacity n demands capacity dist :
  length demands = n → square n dist →
  Forall wf_route (greedy_vrp n demands capacity dist)
  ∧ Forall (λ r, (route_demand r demands <= capacity)%Z)
      (greedy_vrp n demands capacity dist)
  ∧ NoDup (customers (greedy_vrp n demands capacity dist))
  ∧ (∀ c, c ∈ customers (greedy_vrp n demands capacity dist) → 1 ≤ c < n)
  ∧ (∀ c, 1 ≤ c < n → (demand demands c <= capacity)%Z →
       c ∈ customers (greedy_vrp n demands capacity dist))
  ∧ (all_fit n demands capacity →
       feasible n demands capacity (greedy_vrp n demands capacity dist)).
Proof. intros _ _. apply greedy_result_spec. Qed.

Lemma greedy_vrp_respects_capacity_witness :
  length axis_demands = 6 ∧ square 6 axis_dist
  ∧ Forall (λ r, (route_demand r axis_demands <= axis_capacity)%Z)
      (greedy_vrp 6 axis_demands axis_capacity axis_dist).
Proof.
  split; [reflexivity|]. split; [exact axis_square|].
  exact (proj1 (proj2 (greedy_vrp_respects_capacity 6 axis_demands
                         axis_capacity axis_dist eq_refl axis_square))).
Defined.

(** * The solver *)

Lemma run_construction_feasible c fuel coords demands capacity dist g sol g' :
  length demands = length coords →
  all_fit (length coords) demands capacity →
  run_construction c fuel coords demands capacity dist g = Some (sol, g') →
  feasible (length coords) demands capacity sol.
Proof.
  intros Hlen Hfit. destruct c; simpl.
  - intros [= <- <-]. rewrite <- Hlen in *. by apply savings_feasible.
  - destruct (nearest_neighbor_vrp _ _ _ _ _) as [s|] eqn:E; [|done].
    simpl. intros [= <- <-]. by eapply nn_feasible.
  - intros [= <- <-]. by apply greedy_result_spec.
  - destruct (cheapest_insertion_vrp _ _ _ _) as [s|] eqn:E; [|done].
    simpl. intros [= <- <-]. by eapply cheapest_feasible.
  - destruct (random_initial_solution _ _ _ _) as [s g1] eqn:E.
    intros [= <- <-].
    destruct (random_routed (length coords) demands capacity g)
      as (R1 & R2 & R3).
    rewrite E in *. simpl in *. split_and!; [done|done|by apply R3].
Qed.

Lemma run_construction_mono c fuel fuel' coords demands capacity dist g x :
  fuel ≤ fuel' →
  run_construction c fuel coords demands capacity dist g = Some x →
  run_construction c fuel' coords demands capacity dist g = Some x.
Proof.
  intros Hle. destruct c; simpl; try done.
  unfold nearest_neighbor_vrp.
  destruct (nn_loop fuel _ _ _ _ _) as [s|] eqn:E; [|done].
  by rewrite (nn_loop_mono _ _ _ _ _ _ _ _ Hle E).
Qed.

(** The construction that a method name selects. *)
Lemma build_spec method coords demands capacity dist g :
  ∃ c, (method ≠ "cheapest_insertion" → c ≠ cheapest)
    ∧ (method = "cheapest_insertion" → c = cheapest)
    ∧ ∀ fuel,
        _build_initial_solution fuel method coords demands capacity dist g
        = '(sol, g') ← run_construction c fuel coords demands capacity dist g;
          Some {| printed :=
                    match method_map method with
                    | None => ["Unknown method '" +:+ method
                               +:+ "', falling back to Clarke-Wright."]
                    | Some _ => []
                    end;
                  built_solution := sol;
                  built_label :=
                    match method_map method with
                    | None => "Clarke-Wright Savings"
                    | Some (_, label) => label
                    end;
                  built_rng := g' |}.
Proof.
  unfold _build_initial_solution.
  destruct (method_map method) as [[c l]|] eqn:Em.
  - exists c. split_and!.
    + intros Hne ->. unfold method_map in Em.
      repeat match type of Em with
             | context [String.eqb method ?s] =>
                 destruct (String.eqb_spec method s) as [?|?]
             end; simplify_eq.
    + intros ->. vm_compute in Em. by simplify_eq.
    + intros fuel'. by rewrite Em.
  - exists savings. split_and!; [done| |done].
    intros ->. done.
Qed.

Lemma VNS_init_sane hypot fuel coords demands capacity method use_or_opt g out st :
  length demands = length coords →
  Forall (λ q, (0 <= q)%Z) demands →
  all_fit (length coords) demands capacity →
  VNS_init hypot fuel coords demands capacity method use_or_opt g
  = Some (out, st) →
  vns_sane (length coords) demands capacity
    (compute_distance_matrix hypot coords) st.
Proof.
  intros Hlen Hd Hfit. unfold VNS_init.
  destruct (build_spec method coords demands capacity
              (compute_distance_matrix hypot coords) g) as (c & _ & _ & Hb).
  rewrite Hb.
  destruct (run_construction _ _ _ _ _ _ _) as [[sol g']|] eqn:Er; [|done].
  cbn [mbind option_bind built_solution printed built_rng].
  apply run_construction_feasible in Er; [|done..].
  destruct (VND _ _ _ _ _ _) as [s|] eqn:Ev; [|done].
  cbn [mbind option_bind]. intros [= <- <-].
  unfold vns_sane, K_MAX. simpl. split_and!; try done; try lia.
  revert Ev. unfold VND.
  apply (VND_loop_invariant (feasible (length coords) demands capacity));
    [|done].
  intros nb fuel' s0 s' Hs. by apply run_neighborhood_feasible.
Qed.

(** X8. The solver returns a feasible solution and its cost.  With one
    demand per node, none negative, and every customer alone fitting into
    a vehicle, for every construction method, known or not, every limit,
    every sequence of random draws and every clock, the solution that
    [VNS_solver] returns serves the customers [1 .. n-1] exactly once in
    routes that start and end at the depot and respect the capacity, and
    the cost it returns is the cost of that solution. *)
Theorem VNS_solver_returns_feasible hypot fuel coords demands capacity
    max_iter max_time method use_or_opt g elapsed s c :
  length demands = length coords →
  Forall (λ q, (0 <= q)%Z) demands →
  all_fit (length coords) demands capacity →
  VNS_solver hypot fuel coords demands capacity max_iter max_time method
    use_or_opt g elapsed = Some (s, c) →
  feasible (length coords) demands capacity s
  ∧ c = solution_cost s (compute_distance_matrix hypot coords).
Proof.
  intros Hlen Hd Hfit. unfold VNS_solver, VNS_run.
  destruct (VNS_init _ _ _ _ _ _ _ _) as [[out st]|] eqn:Ei; [|done].
  cbn [mbind option_bind].
  apply VNS_init_sane in Ei; [|done..].
  destruct (VNS_loop _ _ _ _ _ _ _ _ _ _) as [st'|] eqn:El; [|done].
  cbn [mbind option_bind]. intros [= <- <-].
  apply VNS_loop_sane in El as [(_ & _ & _ & Hc & Hf) _]; [done| |done].
  by split.
Qed.

Lemma build_mono fuel fuel' method coords demands capacity dist g b :
  fuel ≤ fuel' →
  _build_initial_solution fuel method coords demands capacity dist g = Some b →
  _build_initial_solution fuel' method coords demands capacity dist g = Some b.
Proof.
  intros Hle.
  destruct (build_spec method coords demands capacity dist g)
    as (c & _ & _ & Hb).
  rewrite !Hb.
  destruct (run_construction c fuel _ _ _ _ _) as [x|] eqn:E; [|done].
  by rewrite (run_construction_mono _ _ _ _ _ _ _ _ _ Hle E).
Qed.

(** The solver returns as soon as its construction and its descents do. *)
Lemma VNS_run_returns hypot coords demands capacity max_iter max_time
    method use_or_opt g elapsed :
  (∀ sol, ∃ fuel r,
     VND fuel sol demands capacity (compute_distance_matrix hypot coords)
       use_or_opt = Some r) →
  (∃ fuel b,
     _build_initial_solution fuel method coords demands capacity
       (compute_distance_matrix hypot coords) g = Some b) →
  ∃ fuel r, ∀ fuel', fuel ≤ fuel' →
    VNS_solver hypot fuel' coords demands capacity max_iter max_time
      method use_or_opt g elapsed = Some r.
Proof.
  intros Hv (f0 & b & Hb).
  set (dist := compute_distance_matrix hypot coords) in *.
  destruct (Hv (built_solution b)) as (f1 & s & Hs).
  destruct (VNS_loop_returns (length coords) demands capacity dist use_or_opt
              max_iter max_time elapsed
              {| best := s; best_cost := solution_cost s dist; k := 1;
                 iteration := 0; last_improvement := 0; tabu_skips := 0;
                 tabu_list := []; gen := built_rng b |} Hv)
    as (f2 & st' & Hl).
  exists ((f0 `max` f1) `max` f2), (best st', best_cost st').
  intros fuel' Hle. unfold VNS_solver, VNS_run, VNS_init. fold dist.
  rewrite (build_mono f0 fuel' _ _ _ _ _ _ _ ltac:(lia) Hb).
  cbn [mbind option_bind].
  unfold VND in *.
  rewrite (VND_loop_mono _ f1 fuel' _ _ _ _ _ ltac:(lia) Hs).
  cbn [mbind option_bind]. rewrite Hl by lia. done.
Qed.

(** X9. The main loop adds no endless run of its own.  If the construction
    returns and every descent returns, then [VNS_solver] returns, for every
    [max_iter], every [max_time], every sequence of random draws and every
    clock: the iteration count grows at each turn, tabu skips included,
    and the loop stops at [max_iter] at the latest.  More fuel returns the
    same result. *)
Theorem VNS_solver_terminates hypot coords demands capacity max_iter max_time
    method use_or_opt g elapsed :
  (∀ sol, ∃ fuel r,
     VND fuel sol demands capacity (compute_distance_matrix hypot coords)
       use_or_opt = Some r) →
  (∃ fuel b,
     _build_initial_solution fuel method coords demands capacity
       (compute_distance_matrix hypot coords) g = Some b) →
  ∃ fuel r, ∀ fuel', fuel ≤ fuel' →
    VNS_solver hypot fuel' coords demands capacity max_iter max_time
      method use_or_opt g elapsed = Some r.
Proof.
  intros Hv Hb. by apply VNS_run_returns.
Qed.

Lemma axis_all_fit : all_fit 6 axis_demands axis_capacity.
Proof.
  intros c Hc. unfold axis_demands, axis_capacity.
  do 6 (destruct c as [|c]; [vm_compute; try discriminate; lia|]). lia.
Qed.

Lemma VNS_solver_returns_feasible_witness :
  length axis_demands = length axis_coords
  ∧ Forall (λ q, (0 <= q)%Z) axis_demands
  ∧ all_fit (length axis_coords) axis_demands axis_capacity
  ∧ VNS_solver hypot_axis 30 axis_coords axis_demands axis_capacity 3 600
      "nearest_neighbor" false (axis_draws 0) frozen_clock
    = Some (best axis_after_three, best_cost axis_after_three)
  ∧ feasible (length axis_coords) axis_demands axis_capacity
      (best axis_after_three).
Proof.
  assert (H : VNS_solver hypot_axis 30 axis_coords axis_demands axis_capacity
                3 600 "nearest_neighbor" false (axis_draws 0) frozen_clock
              = Some (best axis_after_three, best_cost axis_after_three))
    by (vm_compute; reflexivity).
  split; [reflexivity|]. split; [exact (proj2 axis_instance_ok)|].
  split; [exact axis_all_fit|]. split; [exact H|].
  exact (proj1 (VNS_solver_returns_feasible hypot_axis 30 axis_coords
                  axis_demands axis_capacity 3 600 "nearest_neighbor" false
                  (axis_draws 0) frozen_clock _ _ eq_refl
                  (proj2 axis_instance_ok) axis_all_fit H)).
Defined.

Lemma hypot_axis_nonneg : (∀ x y, 0 <= hypot_axis x y)%Q.
Proof. intros x y. apply Qabs_nonneg. Qed.

Lemma hypot_axis_symmetric :
  (∀ x y x' y', hypot_axis (x - x') (y - y') == hypot_axis (x' - x) (y' - y))%Q.
Proof. intros x y x' y'. unfold hypot_axis. by rewrite Qabs_Qminus. Qed.

Lemma axis_descents_return use_or_opt :
  ∀ sol, ∃ fuel r,
    VND fuel sol axis_demands axis_capacity
      (compute_distance_matrix hypot_axis axis_coords) use_or_opt = Some r.
Proof.
  intros sol. apply VND_terminates.
  apply euclidean_dist_ok; [exact hypot_axis_nonneg|exact hypot_axis_symmetric].
Qed.

Lemma VNS_solver_terminates_witness :
  (∀ sol, ∃ fuel r,
     VND fuel sol axis_demands axis_capacity
       (compute_distance_matrix hypot_axis axis_coords) false = Some r)
  ∧ (∃ fuel b,
       _build_initial_solution fuel "nearest_neighbor" axis_coords axis_demands
         axis_capacity (compute_distance_matrix hypot_axis axis_coords) []
       = Some b)
  ∧ ∃ fuel r, ∀ fuel', fuel ≤ fuel' →
      VNS_solver hypot_axis fuel' axis_coords axis_demands axis_capacity
        1000 600 "nearest_neighbor" false [] frozen_clock = Some r.
Proof.
  assert (Hb : ∃ fuel b,
             _build_initial_solution fuel "nearest_neighbor" axis_coords
               axis_demands axis_capacity
               (compute_distance_matrix hypot_axis axis_coords) [] = Some b).
  { exists 6. eexists. vm_compute. reflexivity. }
  split; [exact (axis_descents_return false)|]. split; [exact Hb|].
  exact (VNS_solver_terminates hypot_axis axis_coords axis_demands
           axis_capacity 1000 600 "nearest_neighbor" false [] frozen_clock
           (axis_descents_return false) Hb).
Defined.

(** X19. The early stop of the main loop.  The patience is 300 iterations
    whatever the size of the instance, and the floor [min_iterations] is at
    least 50.  A turn that is not a tabu skip stops the loop exactly when the
    iteration count is above the floor and more than 300 iterations have
    passed since the last improvement; hence no run stops early before its
    iteration 301. *)
Theorem early_stop_rule fuel n demands capacity dist use_or_opt st st' e :
  VNS_body fuel n demands capacity dist use_or_opt st = Some (st', e) →
  patience n = 300 ∧ 50 ≤ min_iterations n
  ∧ (e ≠ TabuSkip →
     (e = EarlyStop ↔
      min_iterations n < iteration st'
      ∧ 300 < iteration st' - last_improvement st'))
  ∧ (e = EarlyStop → 301 ≤ iteration st').
Proof.
  intros H. apply VNS_body_end in H as (_ & _ & He).
  assert (Hp : patience n = 300).
  { unfold patience, PATIENCE_MAX, PATIENCE_MIN. lia. }
  rewrite Hp in He. split_and!; [done| | |].
  - unfold min_iterations. lia.
  - intros Hne. rewrite He. by intuition.
  - intros Hs. apply He in Hs. lia.
Qed.

Lemma early_stop_rule_witness :
  VNS_body 30 6 axis_demands axis_capacity axis_dist false axis_start
  = Some (axis_second, TurnDone)
  ∧ patience 6 = 300.
Proof.
  split; [exact axis_first_turn|].
  exact (proj1 (early_stop_rule 30 6 axis_demands axis_capacity axis_dist false
                  _ _ _ axis_first_turn)).
Defined.

Lemma flat_map_all_nil {A B} (f : A → list B) (l : list A) :
  (∀ x, f x = []) → flat_map f l = [].
Proof. intros H. induction l as [|x l IH]; simpl; [done|]. by rewrite H, IH. Qed.

(** X20. The operators that move customers between routes need two
    routes.  On a solution with a single route, [N2_relocate_inter],
    [N3_swap_inter], [N4_two_opt_inter] and [N5_merge_routes] find no move
    and return the solution as it is. *)
Theorem inter_route_operators_need_two_routes nb fuel (r : route) demands
    capacity dist :
  nb ∈ [NB_N5; NB_N2; NB_N3; NB_N4] → 1 ≤ fuel →
  run_neighborhood nb fuel [r] demands capacity dist = Some [r].
Proof.
  intros Hnb Hf. rewrite run_neighborhood_loop.
  destruct fuel as [|fuel]; [lia|]. apply improve_loop_stable.
  repeat (apply elem_of_cons in Hnb as [-> | Hnb]); simpl.
  - unfold N5_pass, N5_candidates. reflexivity.
  - unfold N2_pass, N2_candidates. simpl.
    destruct (length (route_at [r] 0) <=? 2); [done|].
    rewrite flat_map_all_nil; [done|]. intros c_idx. reflexivity.
  - unfold N3_pass, N3_candidates. simpl.
    destruct (length (route_at [r] 0) <=? 2); [done|].
    rewrite flat_map_all_nil; [done|]. intros c_idx. reflexivity.
  - unfold N4_pass, N4_candidates. simpl.
    destruct (length (route_at [r] 0) <=? 2); done.
  - by apply elem_of_nil in Hnb.
Qed.

Lemma inter_route_operators_need_two_routes_witness :
  NB_N2 ∈ [NB_N5; NB_N2; NB_N3; NB_N4] ∧ 1 ≤ 1
  ∧ run_neighborhood NB_N2 1 [[0; 2; 1; 3; 0]] axis_demands axis_capacity
      axis_dist = Some [[0; 2; 1; 3; 0]].
Proof.
  assert (H1 : NB_N2 ∈ [NB_N5; NB_N2; NB_N3; NB_N4]) by (right; left).
  split; [exact H1|]. split; [exact (le_n 1)|].
  exact (inter_route_operators_need_two_routes NB_N2 1 [0; 2; 1; 3; 0]
           axis_demands axis_capacity axis_dist H1 (le_n 1)).
Defined.

(** * The animation recorder *)

Lemma add_frame_frames self sol cost operation details force :
  frames (add_frame self sol cost operation details force) = frames self
  ∨ (frames (add_frame self sol cost operation details force)
     = frames self
       ++ [{| frame_solution := sol; frame_cost := cost;
              frame_operation := operation; frame_details := details |}]
     ∧ (force = false →
        ∀ f, last (frames self) = Some f → (cost < frame_cost f - EPS)%Q)).
Proof.
  unfold add_frame. destruct force; simpl.
  - right. split; [done|]. done.
  - destruct (last (frames self)) as [f|] eqn:El.
    + destruct (Qlt_bool cost (frame_cost f - EPS)) eqn:Eq; simpl.
      * right. split; [done|]. intros _ f' [= <-]. by apply Qlt_bool_iff.
      * by left.
    + right. split; [done|]. done.
Qed.

(** X21. The frames of a recorder are strictly improving.  After
    [__init__] and any sequence of calls of [add_frame] without [force], the
    first stored frame is the initial solution, and each later stored frame
    costs less than the frame stored before it by more than 1e-6; at most
    one frame is stored per call. *)
Theorem recorder_frames_improve coords s0 c0
    (calls : list (solution * Q * string * string)) :
  let r := add_frames (recorder_init coords s0 c0) calls in
  head (frames r)
  = Some {| frame_solution := s0; frame_cost := c0;
            frame_operation := "Initial Solution"; frame_details := "" |}
  ∧ length (frames r) ≤ 1 + length calls
  ∧ ∀ i f g, frames r !! i = Some f → frames r !! S i = Some g →
      (frame_cost g < frame_cost f - EPS)%Q.
Proof.
  cbv zeta. unfold add_frames.
  set (f0 := {| frame_solution := s0; frame_cost := c0;
                frame_operation := "Initial Solution"; frame_details := "" |}).
  assert (H : ∀ calls r,
             head (frames r) = Some f0 →
             (∀ i f g, frames r !! i = Some f → frames r !! S i = Some g →
                (frame_cost g < frame_cost f - EPS)%Q) →
             let r' := fold_left (λ r '(s, c, o, dt), add_frame r s c o dt false)
                         calls r in
             head (frames r') = Some f0
             ∧ length (frames r') ≤ length (frames r) + length calls
             ∧ ∀ i f g, frames r' !! i = Some f → frames r' !! S i = Some g →
                 (frame_cost g < frame_cost f - EPS)%Q).
  { clear calls. induction calls as [|[[[s c] o] dt] calls IH];
      intros r Hh Hc; cbv zeta.
    - simpl. split_and!; [done|lia|done].
    - cbn [fold_left].
      destruct (add_frame_frames r s c o dt false) as [E|[E Hlt]].
      + destruct (IH (add_frame r s c o dt false)) as (I1 & I2 & I3).
        * by rewrite E.
        * by rewrite E.
        * cbv zeta in *. rewrite E in I2. split_and!; [done|simpl; lia|done].
      + destruct (IH (add_frame r s c o dt false)) as (I1 & I2 & I3).
        * rewrite E. destruct (frames r); [done|]. done.
        * rewrite E. intros i f g Hf Hg.
          destruct (decide (S i < length (frames r))) as [Hlt'|Hge].
          -- rewrite lookup_app_l in Hf by lia.
             rewrite lookup_app_l in Hg by lia. by eapply Hc.
          -- apply lookup_lt_Some in Hg as Hlg.
             rewrite length_app in Hlg. simpl in Hlg.
             assert (S i = length (frames r)) as Ei by lia.
             rewrite lookup_app_l in Hf by lia.
             rewrite lookup_app_r in Hg by lia.
             rewrite Ei, Nat.sub_diag in Hg. simpl in Hg.
             injection Hg as <-. simpl.
             apply (Hlt eq_refl). rewrite last_lookup.
             rewrite <- Ei. simpl. done.
        * cbv zeta in *. rewrite E, length_app in I2. simpl in I2.
          split_and!; [done|simpl; lia|done]. }
  destruct (H calls (recorder_init coords s0 c0)) as (I1 & I2 & I3).
  - done.
  - intros i f g Hf Hg. simpl in *. destruct i; done.
  - cbv zeta in *. split_and!; [done|simpl in I2; lia|done].
Qed.

(** * Solution files *)

Lemma digit_char_props (c : ascii) :
  isdigit_char c = true →
  isspace c = false ∧ is_colon c = false ∧ is_newline c = false
  ∧ is_numchar c = true ∧ Ascii.eqb c "." = false.
Proof.
  destruct c as [[] [] [] [] [] [] [] []]; vm_compute; intros H;
    try discriminate H; repeat split.
Qed.

Lemma uint_digits (dg : Decimal.uint) :
  Forall (λ c, isdigit_char c = true)
    (String.list_ascii_of_string (NilEmpty.string_of_uint dg)).
Proof. induction dg; simpl; constructor; done. Qed.

Lemma str_of_nat_digits n : Forall (λ c, isdigit_char c = true) (str_of_nat n).
Proof. apply uint_digits. Qed.

Lemma str_of_nat_nonempty n : str_of_nat n ≠ [].
Proof.
  unfold str_of_nat. intros E.
  assert (H : Nat.to_uint n = Decimal.Nil).
  { destruct (Nat.to_uint n); try done; simpl in E; discriminate. }
  pose proof (Unsigned.of_to n) as H1. rewrite H in H1. simpl in H1.
  subst n. discriminate H.
Qed.

Lemma digits_value_str n : digits_value (str_of_nat n) = Some n.
Proof.
  unfold digits_value, str_of_nat.
  rewrite String.string_of_list_ascii_of_string, NilEmpty.usu. simpl.
  by rewrite Unsigned.of_to.
Qed.

Lemma nonempty_true (s : text) : s ≠ [] → nonempty s = true.
Proof. by destruct s. Qed.

Lemma int_of_str n : int_of (str_of_nat n) = Some n.
Proof.
  unfold int_of. rewrite nonempty_true by apply str_of_nat_nonempty.
  apply digits_value_str.
Qed.

Lemma isdigit_str n : isdigit (str_of_nat n) = true.
Proof.
  unfold isdigit. rewrite nonempty_true by apply str_of_nat_nonempty.
  simpl. apply forallb_forall. intros c Hc.
  pose proof (str_of_nat_digits n) as H. rewrite Forall_forall in H.
  apply H. by apply list_elem_of_In.
Qed.

Lemma split_when_none sep (s : text) :
  Forall (λ c, sep c = false) s → split_when sep s = [s].
Proof.
  induction 1 as [|c s Hc _ IH]; simpl; [done|]. by rewrite Hc, IH.
Qed.

Lemma split_when_app sep (a b : text) c :
  Forall (λ c, sep c = false) a → sep c = true →
  split_when sep (a ++ c :: b) = a :: split_when sep b.
Proof.
  intros Ha Hc. induction Ha as [|x a Hx _ IH]; simpl.
  - by rewrite Hc.
  - by rewrite Hx, IH.
Qed.

(** Stripping. *)
Lemma lstrip_id (s : text) c :
  head s = Some c → isspace c = false → lstrip s = s.
Proof. destruct s as [|x s]; [done|]. simpl. intros [= ->] ->. done. Qed.

Lemma rstrip_id (s : text) c :
  last s = Some c → isspace c = false → rstrip s = s.
Proof.
  intros Hl Hc. unfold rstrip. apply last_Some in Hl as [s' ->].
  rewrite reverse_app. simpl. rewrite Hc.
  change (c :: reverse s') with ([c] ++ reverse s').
  by rewrite reverse_app, reverse_involutive.
Qed.

Lemma rstrip_space (s : text) c : isspace c = true → rstrip (s ++ [c]) = rstrip s.
Proof.
  intros Hc. unfold rstrip. rewrite reverse_app. simpl. by rewrite Hc.
Qed.

Lemma strip_id (s : text) c1 c2 :
  head s = Some c1 → isspace c1 = false →
  last s = Some c2 → isspace c2 = false → strip s = s.
Proof.
  intros H1 Hc1 H2 Hc2. unfold strip. rewrite (lstrip_id s c1) by done.
  by apply (rstrip_id s c2).
Qed.

Lemma plain_head_last (s : text) (P : ascii → Prop) :
  s ≠ [] → Forall P s →
  (∃ c, head s = Some c ∧ P c) ∧ (∃ c, last s = Some c ∧ P c).
Proof.
  intros Hne Hs. split.
  - destruct s as [|c s]; [done|]. apply Forall_cons in Hs as [? _]. by eauto.
  - destruct (list_ends s) as [->|[[x ->]|(x & m & y & ->)]]; [done|..].
    + apply Forall_cons in Hs as [? _]. by eauto.
    + exists y. split.
      * change (x :: m ++ [y]) with ((x :: m) ++ [y]). apply last_snoc.
      * apply Forall_cons in Hs as [_ Hs]. apply Forall_app in Hs as [_ Hs].
        by apply Forall_cons in Hs as [? _].
Qed.

Lemma strip_plain (s : text) : Forall (λ c, isspace c = false) s → strip s = s.
Proof.
  intros Hs. destruct (decide (s = [])) as [->|Hne]; [done|].
  destruct (plain_head_last s _ Hne Hs) as [(c1 & H1 & Hc1) (c2 & H2 & Hc2)].
  by eapply strip_id.
Qed.

Lemma words_space (s : text) c : isspace c = true → words (c :: s) = words s.
Proof. intros Hc. unfold words. simpl. by rewrite Hc. Qed.

Lemma words_plain (t : text) :
  t ≠ [] → Forall (λ c, isspace c = false) t → words t = [t].
Proof.
  intros Hne Ht. unfold words. rewrite split_when_none by done.
  rewrite filter_cons_True; [done|]. by rewrite nonempty_true.
Qed.

Lemma words_app (t s : text) c :
  t ≠ [] → Forall (λ c, isspace c = false) t → isspace c = true →
  words (t ++ c :: s) = t :: words s.
Proof.
  intros Hne Ht Hc. unfold words. rewrite split_when_app by done.
  rewrite filter_cons_True; [done|]. by rewrite nonempty_true.
Qed.

Lemma words_join (tokens : list text) :
  Forall (λ t, t ≠ [] ∧ Forall (λ c, isspace c = false) t) tokens →
  words (join (lit " ") tokens) = tokens.
Proof.
  induction 1 as [|t tokens [Hne Ht] Hts IH]; [done|].
  destruct tokens as [|t' tokens].
  - simpl. by apply words_plain.
  - change (join (lit " ") (t :: t' :: tokens))
      with (t ++ " "%char :: join (lit " ") (t' :: tokens)).
    rewrite words_app by done. by rewrite IH.
Qed.

(** Lines of a file. *)
Lemma stripped_lines_line (l rest : text) :
  Forall (λ c, is_newline c = false) l →
  stripped_lines (l ++ newline ++ rest)
  = (if nonempty (strip l) then [strip l] else []) ++ stripped_lines rest.
Proof.
  intros Hl. unfold stripped_lines, newline.
  change (l ++ ["010"%char] ++ rest) with (l ++ "010"%char :: rest).
  rewrite split_when_app by done. rewrite fmap_cons, filter_cons.
  by destruct (nonempty (strip l)).
Qed.

Lemma join_Forall (P : ascii → Prop) (sep : text) (l : list text) :
  Forall P sep → Forall (Forall P) l → Forall P (join sep l).
Proof.
  intros Hsep. induction 1 as [|t l Ht Hl IH]; [constructor|].
  destruct l as [|t' l]; [done|].
  change (join sep (t :: t' :: l)) with (t ++ sep ++ join sep (t' :: l)).
  by rewrite !Forall_app.
Qed.

Lemma join_last (P : ascii → Prop) (sep : text) (l : list text) :
  l ≠ [] → Forall (λ t, t ≠ [] ∧ Forall P t) l →
  ∃ c, last (join sep l) = Some c ∧ P c.
Proof.
  intros Hne Hl. induction Hl as [|t l [Ht HP] Hl IH]; [done|].
  destruct l as [|t' l].
  - simpl. by apply plain_head_last.
  - destruct IH as (c & Hc & HPc); [done|]. exists c. split; [|done].
    change (join sep (t :: t' :: l)) with (t ++ sep ++ join sep (t' :: l)).
    by rewrite !last_app, Hc.
Qed.

(** The numbers of the customers of a route, as [save_solution] writes
    them. *)
Lemma tokens_plain (cs : list nat) :
  Forall (λ t : text, t ≠ [] ∧ Forall (λ c, isdigit_char c = true) t)
    (map (λ c, str_of_nat (c + 1)) cs).
Proof.
  apply Forall_fmap, Forall_forall. intros c _. split.
  - apply str_of_nat_nonempty.
  - apply str_of_nat_digits.
Qed.

Lemma digits_weaken (P : ascii → Prop) (l : list text) :
  (∀ c, isdigit_char c = true → P c) →
  Forall (λ t : text, t ≠ [] ∧ Forall (λ c, isdigit_char c = true) t) l →
  Forall (λ t : text, t ≠ [] ∧ Forall P t) l.
Proof.
  intros HP Hl. eapply Forall_impl; [done|]. intros t [Hne Ht].
  split; [done|]. by eapply Forall_impl.
Qed.

Lemma tokens_read (cs : list nat) :
  mapM (λ n, (λ k, (Z.of_nat k - 1)%Z) <$> int_of n)
    (filter (λ n, isdigit (strip n)) (map (λ c, str_of_nat (c + 1)) cs))
  = Some (map Z.of_nat cs).
Proof.
  induction cs as [|c cs IH]; [done|].
  cbn [map]. rewrite filter_cons_True.
  - simpl. rewrite int_of_str. simpl. rewrite IH. simpl.
    do 3 f_equal. lia.
  - rewrite strip_plain.
    + apply Is_true_true, isdigit_str.
    + eapply Forall_impl; [apply str_of_nat_digits|].
      intros x Hx. by apply digit_char_props.
Qed.

(** The line of a route. *)
Lemma route_text_lines i (r : route) :
  Forall (λ c, is_newline c = false) (route_text i r).
Proof.
  unfold route_text. rewrite !Forall_app. split_and!.
  - by repeat constructor.
  - eapply Forall_impl; [apply str_of_nat_digits|].
    intros x Hx. by apply digit_char_props.
  - by repeat constructor.
  - apply join_Forall; [by repeat constructor|].
    apply Forall_fmap, Forall_forall. intros c _.
    eapply Forall_impl; [apply str_of_nat_digits|].
    intros x Hx. by apply digit_char_props.
Qed.

Lemma strip_route_text i (r : route) :
  strip (route_text i r)
  = lit "Route #" ++ str_of_nat (i + 1) ++ lit ":"
    ++ match interior r with
       | [] => []
       | _ => " "%char
              :: join (lit " ") (map (λ c, str_of_nat (c + 1)) (interior r))
       end.
Proof.
  unfold route_text, strip. rewrite (lstrip_id _ "R"%char) by done.
  destruct (interior r) as [|c cs] eqn:E.
  - simpl join. rewrite !app_nil_r.
    change (lit ": ") with (lit ":" ++ [" "%char]).
    rewrite !app_assoc. rewrite rstrip_space by done.
    apply (rstrip_id _ ":"%char); [|done]. apply last_snoc.
  - rewrite <- E.
    change (lit ": " ++ ?x) with (lit ":" ++ " "%char :: x).
    destruct (join_last (λ c, isspace c = false) (lit " ")
                (map (λ c, str_of_nat (c + 1)) (interior r)))
      as (x & Hx & Hsp).
    + by rewrite E.
    + apply digits_weaken, tokens_plain. intros y Hy. by apply digit_char_props.
    + apply (rstrip_id _ x); [|done].
      by rewrite !last_app, last_cons, Hx.
Qed.

Lemma route_line_read st i (r : route) :
  parse_sol_line st (strip (route_text i r))
  = Some (match interior r with
          | [] => st
          | _ => (st.1 ++ [map Z.of_nat (interior r)], st.2)
          end).
Proof.
  rewrite strip_route_text. unfold parse_sol_line.
  replace (startswith (lit "cost") _) with false by done.
  replace (startswith (lit "route") _) with true by done.
  set (pre := lit "Route #" ++ str_of_nat (i + 1)).
  set (rest := match interior r with
               | [] => []
               | _ => " "%char :: join (lit " ")
                        (map (λ c, str_of_nat (c + 1)) (interior r))
               end).
  assert (Hpre : Forall (λ c, is_colon c = false) pre).
  { apply Forall_app. split; [by repeat constructor|].
    eapply Forall_impl; [apply str_of_nat_digits|].
    intros x Hx. by apply digit_char_props. }
  assert (Hrest : Forall (λ c, is_colon c = false) rest).
  { subst rest. destruct (interior r) as [|c cs] eqn:E; [done|].
    constructor; [done|]. apply join_Forall; [by repeat constructor|].
    apply Forall_fmap, Forall_forall. intros y _.
    eapply Forall_impl; [apply str_of_nat_digits|].
    intros x Hx. by apply digit_char_props. }
  replace (lit "Route #" ++ str_of_nat (i + 1) ++ lit ":" ++ rest)
    with (pre ++ ":"%char :: rest) by (subst pre; by rewrite <- app_assoc).
  rewrite existsb_app. simpl existsb. rewrite orb_true_r.
  rewrite split_when_app by done. rewrite split_when_none by done.
  cbn [nth].
  assert (Hw : words rest = map (λ c, str_of_nat (c + 1)) (interior r)).
  { subst rest. destruct (interior r) as [|c cs] eqn:E; [done|].
    rewrite words_space by done. apply words_join.
    apply digits_weaken, tokens_plain. intros y Hy. by apply digit_char_props. }
  rewrite Hw, tokens_read. simpl.
  by destruct (interior r).
Qed.

(** The line of the cost. *)
Lemma str_of_Z_cases z :
  ∃ sign, (sign = [] ∨ sign = lit "-")
          ∧ str_of_Z z = sign ++ str_of_nat (Z.abs_nat z).
Proof.
  unfold str_of_Z. destruct (z <? 0)%Z.
  - exists (lit "-"). by split; [right|].
  - exists []. by split; [left|].
Qed.

Lemma cost_text_lines cost : Forall (λ c, is_newline c = false) (cost_text cost).
Proof.
  unfold cost_text. destruct (str_of_Z_cases (py_round cost)) as (s & Hs & ->).
  rewrite !Forall_app. split_and!.
  - by repeat constructor.
  - by destruct Hs as [-> | ->]; repeat constructor.
  - eapply Forall_impl; [apply str_of_nat_digits|].
    intros x Hx. by apply digit_char_props.
Qed.

Lemma str_of_nat_ends n :
  (∃ c, head (str_of_nat n) = Some c ∧ isdigit_char c = true)
  ∧ (∃ c, last (str_of_nat n) = Some c ∧ isdigit_char c = true).
Proof.
  apply plain_head_last; [apply str_of_nat_nonempty|apply str_of_nat_digits].
Qed.

Lemma strip_cost_text cost : strip (cost_text cost) = cost_text cost.
Proof.
  unfold cost_text. destruct (str_of_Z_cases (py_round cost)) as (s & Hs & ->).
  destruct (str_of_nat_ends (Z.abs_nat (py_round cost)))
    as [_ (c & Hc & Hd)].
  apply (strip_id _ "C"%char c); [done|done| |by apply digit_char_props].
  by rewrite !last_app, Hc.
Qed.

Lemma number_run_digits (d : text) :
  Forall (λ c, isdigit_char c = true) d → number_run d = d.
Proof.
  induction 1 as [|c d Hc _ IH]; [done|]. simpl.
  apply digit_char_props in Hc as (_ & _ & _ & -> & _). by rewrite IH.
Qed.

Lemma cost_line_read st cost :
  parse_sol_line st (cost_text cost)
  = Some (st.1, Some (inject_Z (Z.abs (py_round cost)))).
Proof.
  unfold parse_sol_line, cost_text.
  replace (startswith (lit "cost") _) with true by done.
  destruct (str_of_Z_cases (py_round cost)) as (s & Hs & ->).
  set (m := Z.abs_nat (py_round cost)).
  assert (Hsk : skip_to_number (lit "Cost " ++ s ++ str_of_nat m) = str_of_nat m).
  { destruct (str_of_nat_ends m) as [(c & Hc & Hd) _].
    assert (H : skip_to_number (str_of_nat m) = str_of_nat m).
    { destruct (str_of_nat m) as [|x d]; [done|]. simpl in *.
      injection Hc as ->.
      by apply digit_char_props in Hd as (_ & _ & _ & -> & _). }
    by destruct Hs as [-> | ->]. }
  unfold search_number. rewrite Hsk.
  destruct (str_of_nat m) as [|x d] eqn:E; [by apply str_of_nat_nonempty in E|].
  rewrite <- E. rewrite number_run_digits by apply str_of_nat_digits.
  unfold float_of. rewrite split_when_none.
  - rewrite int_of_str. simpl. subst m. by rewrite Zabs2Nat.id_abs.
  - eapply Forall_impl; [apply str_of_nat_digits|].
    intros y Hy. by apply digit_char_props.
Qed.

(** The lines of a saved solution, as [parse_sol] reads them. *)
Lemma saved_routes_read st (sol : solution) (s : nat) (rest : text) :
  parse_sol_lines st
    (stripped_lines
       (concat (map (λ '(i, r), route_text i r ++ newline)
                  (zip (seq s (length sol)) sol)) ++ rest))
  = parse_sol_lines
      (st.1 ++ map (map Z.of_nat) (filter (λ m, m ≠ []) (map interior sol)),
       st.2)
      (stripped_lines rest).
Proof.
  revert st s. induction sol as [|r sol IH]; intros st s.
  - simpl. rewrite app_nil_r. by destruct st.
  - cbn [length seq zip zip_with map concat]. rewrite <- !app_assoc.
    rewrite stripped_lines_line by apply route_text_lines.
    assert (Hne : nonempty (strip (route_text s r)) = true).
    { rewrite strip_route_text. done. }
    rewrite Hne. cbn [app parse_sol_lines].
    rewrite route_line_read. cbn [mbind option_bind]. rewrite IH.
    f_equal. destruct (interior r) as [|c cs] eqn:E.
    + by rewrite filter_cons_False by (intros H; by apply H).
    + rewrite filter_cons_True by done. cbn [map fst snd].
      by rewrite <- app_assoc.
Qed.

(** X22. A saved solution read back: [parse_sol] on the text that
    [save_solution] writes returns the customers of the routes without
    the depots, in the order written, leaving out the routes without a
    customer, and as cost the absolute value of the rounded cost. *)
Theorem parse_sol_reads_saved_solution (sol : solution) (cost : Q) :
  parse_sol (save_solution sol cost)
  = Some (map (map Z.of_nat) (filter (λ m, m ≠ []) (map interior sol)),
          Some (inject_Z (Z.abs (py_round cost)))).
Proof.
  unfold parse_sol, save_solution, enumerate.
  rewrite saved_routes_read. cbn [fst snd app].
  rewrite <- (app_nil_r newline).
  rewrite stripped_lines_line by apply cost_text_lines.
  rewrite strip_cost_text.
  replace (nonempty (cost_text cost)) with true by done.
  cbn [app]. change (stripped_lines []) with (@nil text).
  cbn [parse_sol_lines]. rewrite cost_line_read. done.
Qed.

(** * The operators and the descent over any arithmetic

    What follows holds whatever the numbers are and however their
    operations round: the moves that a pass can choose from, and the tests
    on the demands, do not depend on the distances. *)

Section AnyArithmetic.

Context (A : Num.arith).

Lemma num_best_fold_In {M} (cands : list (Num.num A * M)) acc m :
  (fold_left (Num.best_step A) cands acc).2 = Some m →
  acc.2 = Some m ∨ ∃ dlt, In (dlt, m) cands.
Proof.
  revert acc. induction cands as [|c cands IH]; intros acc; [by left|].
  simpl. intros H. apply IH in H as [H|[dlt H]].
  - unfold Num.best_step in H. destruct (Num.lt A c.1 acc.1).
    + simpl in H. injection H as <-. right. exists c.1. left. by destruct c.
    + by left.
  - right. exists dlt. by right.
Qed.

(** The move that a best-of-pass selection returns is one of the
    candidates. *)
Lemma num_best_of_In {M} (cands : list (Num.num A * M)) m :
  Num.best_of A cands = Some m → ∃ dlt, In (dlt, m) cands.
Proof.
  unfold Num.best_of. intros H. by apply num_best_fold_In in H as [H|H].
Qed.

Lemma num_N2_moves sol demands capacity dist dlt r1 c r2 pos :
  In (dlt, (r1, c, r2, pos)) (Num.N2_candidates A sol demands capacity dist) →
  r1 < length sol ∧ r2 < length sol ∧ r1 ≠ r2
  ∧ 1 ≤ c ∧ c + 1 < length (route_at sol r1)
  ∧ 1 ≤ pos ∧ pos < length (route_at sol r2)
  ∧ (route_demand (route_at sol r2) demands
     + demand demands (node (route_at sol r1) c) <= capacity)%Z.
Proof.
  unfold Num.N2_candidates. intros H.
  apply in_flat_map in H as (r1' & Hr1 & H).
  destruct (length _ <=? 2); [done|].
  apply in_flat_map in H as (c' & Hc & H).
  apply in_flat_map in H as (r2' & Hr2 & H).
  destruct (r1' =? r2') eqn:E1; [done|]. apply Nat.eqb_neq in E1.
  destruct (capacity <? _)%Z eqn:E2; [done|]. apply Z.ltb_ge in E2.
  apply in_map_iff in H as (pos' & [= <- <- <- <- <-] & Hpos).
  apply in_range in Hr1, Hc, Hr2, Hpos.
  repeat split; try lia; done.
Qed.

Lemma num_N3_moves sol demands capacity dist dlt r1 c1 r2 c2 :
  In (dlt, (r1, c1, r2, c2)) (Num.N3_candidates A sol demands capacity dist) →
  r1 < r2 ∧ r2 < length sol
  ∧ 1 ≤ c1 ∧ c1 + 1 < length (route_at sol r1)
  ∧ 1 ≤ c2 ∧ c2 + 1 < length (route_at sol r2)
  ∧ (route_demand (route_at sol r1) demands
     - demand demands (node (route_at sol r1) c1)
     + demand demands (node (route_at sol r2) c2) <= capacity)%Z
  ∧ (route_demand (route_at sol r2) demands
     - demand demands (node (route_at sol r2) c2)
     + demand demands (node (route_at sol r1) c1) <= capacity)%Z.
Proof.
  unfold Num.N3_candidates. intros H.
  apply in_flat_map in H as (r1' & Hr1 & H).
  destruct (length _ <=? 2); [done|].
  apply in_flat_map in H as (c1' & Hc1 & H).
  apply in_flat_map in H as (r2' & Hr2 & H).
  destruct (length _ <=? 2); [done|].
  apply in_flat_map in H as (c2' & Hc2 & H).
  destruct (_ || _) eqn:E; [done|].
  apply orb_false_iff in E as [E1 E2]. apply Z.ltb_ge in E1, E2.
  destruct H as [[= <- <- <- <- <-]|[]].
  apply in_range in Hr1, Hc1, Hr2, Hc2.
  repeat split; try lia; done.
Qed.

Lemma num_N5_moves sol demands capacity dist dlt r1 r2 merged :
  In (dlt, (r1, r2, merged)) (Num.N5_candidates A sol demands capacity dist) →
  r1 < r2 ∧ r2 < length sol
  ∧ (route_demand (route_at sol r1) demands
     + route_demand (route_at sol r2) demands <= capacity)%Z
  ∧ In merged (N5_configs (route_at sol r1) (route_at sol r2)).
Proof.
  unfold Num.N5_candidates. intros H.
  apply in_flat_map in H as (r1' & Hr1 & H).
  apply in_flat_map in H as (r2' & Hr2 & H).
  destruct (_ <=? _)%Z eqn:E; [|done]. apply Z.leb_le in E.
  apply in_map_iff in H as (m & [= <- <- <- <-] & Hm).
  apply in_range in Hr1, Hr2. repeat split; try lia; done.
Qed.

Lemma num_N6_intra_moves sol dist L dlt m :
  In (dlt, m) (Num.N6_intra_candidates A sol dist L) →
  ∃ r s ip,
    m = Intra r s L ip
    ∧ r < length sol ∧ 1 ≤ s ∧ s + L < length (route_at sol r)
    ∧ 1 ≤ ip ∧ ip + 1 < length (route_at sol r)
    ∧ (ip < s ∨ s + L < ip).
Proof.
  unfold Num.N6_intra_candidates. intros H.
  apply in_flat_map in H as (r & Hr & H).
  destruct (length _ <=? L + 2); [done|].
  apply in_flat_map in H as (s & Hs & H).
  apply in_flat_map in H as (ip & Hip & H).
  destruct (_ && _) eqn:E; [done|].
  destruct H as [[= <- <-]|[]].
  apply in_range in Hr, Hs, Hip.
  exists r, s, ip. split; [done|].
  apply andb_false_iff in E.
  rewrite Nat.leb_gt, Nat.leb_gt in E.
  repeat split; try lia.
Qed.

Lemma num_N6_inter_moves sol demands capacity dist L dlt m :
  In (dlt, m) (Num.N6_inter_candidates A sol demands capacity dist L) →
  ∃ r1 s r2 ip,
    m = Inter r1 s L r2 ip
    ∧ r1 < length sol ∧ r2 < length sol ∧ r1 ≠ r2
    ∧ 1 ≤ s ∧ s + L < length (route_at sol r1)
    ∧ 1 ≤ ip ∧ ip < length (route_at sol r2)
    ∧ (route_demand (route_at sol r2) demands
       + Zsum (map (λ i, demand demands (node (route_at sol r1) (s + i)))
                   (range 0 L)) <= capacity)%Z.
Proof.
  unfold Num.N6_inter_candidates. intros H.
  apply in_flat_map in H as (r1 & Hr1 & H).
  destruct (length _ <=? L + 1); [done|].
  apply in_flat_map in H as (s & Hs & H).
  apply in_flat_map in H as (r2 & Hr2 & H).
  destruct (r1 =? r2) eqn:E1; [done|]. apply Nat.eqb_neq in E1.
  destruct (capacity <? _)%Z eqn:E2; [done|]. apply Z.ltb_ge in E2.
  apply in_map_iff in H as (ip & [= <- <-] & Hip).
  apply in_range in Hr1, Hs, Hr2, Hip.
  exists r1, s, r2, ip. split; [done|].
  repeat split; try lia; done.
Qed.

(** What a pass of each operator returns. *)
Lemma num_N1_pass_move dist (sol sol' : solution) :
  Num.N1_pass A dist sol = Some sol' →
  ∃ r_idx i j,
    sol' = <[r_idx := reverse_segment (route_at sol r_idx) i j]> sol
    ∧ r_idx < length sol ∧ 1 ≤ i ∧ i < j ∧ j + 1 < length (route_at sol r_idx).
Proof.
  unfold Num.N1_pass.
  destruct (find _ _) as [[[r_idx i] j]|] eqn:E; [|done].
  intros [= <-]. apply find_some in E as [Hin _].
  apply N1_candidates_spec in Hin. exists r_idx, i, j. tauto.
Qed.

Lemma num_N4_pass_move demands capacity dist (sol sol' : solution) :
  Num.N4_pass A demands capacity dist sol = Some sol' →
  ∃ r1 r2 i j,
    sol' = N4_apply sol (r1, r2, i, j)
    ∧ In (r1, r2, i, j) (N4_candidates sol)
    ∧ (route_demand (N4_new_r1 sol r1 r2 i j) demands <= capacity)%Z
    ∧ (route_demand (N4_new_r2 sol r1 r2 i j) demands <= capacity)%Z.
Proof.
  unfold Num.N4_pass. destruct (find _ _) as [[[[r1 r2] i] j]|] eqn:E; [|done].
  intros [= <-]. apply find_some in E as [Hin Himp].
  exists r1, r2, i, j. split; [done|]. split; [done|].
  unfold Num.N4_improves in Himp. destruct (_ && _) eqn:E; [|done].
  apply andb_true_iff in E as [E1 E2]. by apply Z.leb_le in E1, E2.
Qed.

Lemma num_pass_feasible nb n demands capacity dist sol sol' :
  instance_ok n demands → feasible n demands capacity sol →
  Num.pass_of A nb demands capacity dist sol = Some sol' →
  feasible n demands capacity sol'.
Proof.
  intros Hi Hf. destruct nb; simpl; intros H.
  - apply num_N1_pass_move in H as (r_idx & i & j & -> & ? & ? & ? & ?).
    by apply two_opt_feasible.
  - unfold Num.N5_pass in H.
    apply fmap_Some in H as ([[r1 r2] merged] & E & ->).
    apply num_best_of_In in E as (dlt & Hin).
    apply num_N5_moves in Hin as (? & ? & ? & ?).
    rewrite N5_apply_delete by done. by apply merge_feasible.
  - unfold Num.N2_pass in H.
    apply fmap_Some in H as ([[[r1 c] r2] pos] & E & ->).
    apply num_best_of_In in E as (dlt & Hin).
    apply num_N2_moves in Hin as (? & ? & ? & ? & ? & ? & ? & ?).
    unfold N2_apply. rewrite route_at_insert_ne by done.
    by apply feasible_drop_trivial, relocate_feasible.
  - unfold Num.N3_pass in H.
    apply fmap_Some in H as ([[[r1 c1] r2] c2] & E & ->).
    apply num_best_of_In in E as (dlt & Hin).
    apply num_N3_moves in Hin as (? & ? & ? & ? & ? & ? & ? & ?).
    apply swap_feasible; try done; lia.
  - apply num_N4_pass_move in H as (r1 & r2 & i & j & -> & ? & ? & ?).
    by apply exchange_feasible.
  - unfold Num.N6_pass in H.
    apply fmap_Some in H as (m & E & ->).
    apply num_best_of_In in E as (dlt & Hin).
    unfold Num.N6_candidates in Hin.
    apply in_flat_map in Hin as (L & HL & Hin).
    assert (1 ≤ L) by (simpl in HL; lia).
    apply in_app_or in Hin as [Hin|Hin].
    + apply num_N6_intra_moves in Hin as (r & s & ip & -> & ? & ? & ? & ? & ? & ?).
      by apply or_intra_feasible.
    + apply num_N6_inter_moves in Hin
        as (r1 & s & r2 & ip & -> & ? & ? & ? & ? & ? & ? & ? & ?).
      cbn [N6_apply]. rewrite route_at_insert_ne by done.
      by apply feasible_drop_trivial, or_inter_feasible.
Qed.



(** Each operator repeats its pass. *)
Lemma num_run_neighborhood_loop nb fuel sol demands capacity dist :
  Num.run_neighborhood A nb fuel sol demands capacity dist
  = improve_loop (Num.pass_of A nb demands capacity dist) fuel sol.
Proof. by destruct nb. Qed.

Lemma num_run_neighborhood_feasible nb fuel n demands capacity dist sol sol' :
  instance_ok n demands → feasible n demands capacity sol →
  Num.run_neighborhood A nb fuel sol demands capacity dist = Some sol' →
  feasible n demands capacity sol'.
Proof.
  intros Hi Hf. rewrite num_run_neighborhood_loop.
  apply (improve_loop_invariant (feasible n demands capacity)); [|done].
  intros s s' Hs. by apply num_pass_feasible.
Qed.


Lemma num_run_neighborhood_mono nb fuel fuel' demands capacity dist
    (sol r : solution) :
  fuel ≤ fuel' →
  Num.run_neighborhood A nb fuel sol demands capacity dist = Some r →
  Num.run_neighborhood A nb fuel' sol demands capacity dist = Some r.
Proof. rewrite !num_run_neighborhood_loop. apply improve_loop_mono. Qed.

End AnyArithmetic.

Section AnyArithmeticDescent.

Context (A : Num.arith).

Lemma num_VND_loop_S use_or_opt fuel demands capacity dist st :
  Num.VND_loop A use_or_opt (S fuel) demands capacity dist st
  = if st.2 <? length (neighborhoods use_or_opt)
    then Num.VND_step A use_or_opt fuel demands capacity dist st
         ≫= Num.VND_loop A use_or_opt fuel demands capacity dist
    else Some st.1.
Proof. reflexivity. Qed.

(** A turn of the descent runs neighbourhood [k] and applies the
    acceptance test to what it returns. *)
Lemma num_VND_step_cases use_or_opt fuel demands capacity dist sol k st' :
  Num.VND_step A use_or_opt fuel demands capacity dist (sol, k) = Some st' →
  ∃ nb sol_new,
    neighborhoods use_or_opt !! k = Some nb
    ∧ Num.run_neighborhood A nb fuel sol demands capacity dist = Some sol_new
    ∧ st' = if Num.accepted A dist sol_new sol
            then (sol_new, 0) else (sol, k + 1).
Proof.
  unfold Num.VND_step.
  destruct (neighborhoods use_or_opt !! k) as [nb|]; [|done]. simpl.
  destruct (Num.run_neighborhood A nb fuel sol demands capacity dist)
    as [sol_new|] eqn:E; [|done]. simpl.
  intros H. exists nb, sol_new. split; [done|]. split; [done|].
  unfold Num.accepted. by destruct (_ || _); injection H as <-.
Qed.

Lemma num_VND_step_mono use_or_opt fuel fuel' demands capacity dist st st' :
  fuel ≤ fuel' →
  Num.VND_step A use_or_opt fuel demands capacity dist st = Some st' →
  Num.VND_step A use_or_opt fuel' demands capacity dist st = Some st'.
Proof.
  intros Hle. destruct st as [sol k]. unfold Num.VND_step.
  destruct (neighborhoods use_or_opt !! k) as [nb|]; [|done]. simpl.
  destruct (Num.run_neighborhood A nb fuel _ _ _ _) as [sol_new|] eqn:E;
    [|done].
  by rewrite (num_run_neighborhood_mono A _ _ _ _ _ _ _ _ Hle E).
Qed.

Lemma num_VND_loop_mono use_or_opt fuel fuel' demands capacity dist st r :
  fuel ≤ fuel' →
  Num.VND_loop A use_or_opt fuel demands capacity dist st = Some r →
  Num.VND_loop A use_or_opt fuel' demands capacity dist st = Some r.
Proof.
  revert fuel' st. induction fuel as [|fuel IH]; intros fuel' st Hle; [done|].
  destruct fuel' as [|fuel']; [lia|]. rewrite !num_VND_loop_S.
  assert (Hle' : fuel ≤ fuel') by lia.
  destruct (st.2 <? _); [|done].
  destruct (Num.VND_step A use_or_opt fuel _ _ _ _) as [st'|] eqn:E; [|done].
  rewrite (num_VND_step_mono _ _ fuel' _ _ _ _ _ Hle' E).
  cbn [mbind option_bind]. by apply IH.
Qed.

(** A property kept by every operator is kept by the descent. *)
Lemma num_VND_loop_invariant (P : solution → Prop) use_or_opt demands
    capacity dist :
  (∀ nb fuel s s', P s →
     Num.run_neighborhood A nb fuel s demands capacity dist = Some s' → P s') →
  ∀ fuel sol k r, P sol →
    Num.VND_loop A use_or_opt fuel demands capacity dist (sol, k) = Some r →
    P r.
Proof.
  intros HP fuel. induction fuel as [|fuel IH]; intros sol k r Hs; [done|].
  rewrite num_VND_loop_S. cbn [fst snd].
  destruct (k <? _); [|by intros [= <-]].
  destruct (Num.VND_step _ _ _ _ _ _ _) as [st'|] eqn:E; [|done].
  cbn [mbind option_bind].
  apply num_VND_step_cases in E as (nb & sol_new & _ & Hr & ->).
  destruct (Num.accepted A dist sol_new sol); apply IH; [|done].
  by eapply HP.
Qed.

(** The descent returns its input, or a solution from which it returns
    that same solution. *)
Lemma num_VND_loop_again use_or_opt demands capacity dist fuel sol k r :
  Num.VND_loop A use_or_opt fuel demands capacity dist (sol, k) = Some r →
  r = sol
  ∨ Num.VND_loop A use_or_opt fuel demands capacity dist (r, 0) = Some r.
Proof.
  revert sol k. induction fuel as [|fuel IH]; intros sol k; [done|].
  rewrite num_VND_loop_S. cbn [fst snd].
  destruct (k <? _); [|intros [= <-]; by left].
  destruct (Num.VND_step _ _ _ _ _ _ _) as [st'|] eqn:E; [|done].
  cbn [mbind option_bind].
  apply num_VND_step_cases in E as (nb & sol_new & _ & Hr & ->).
  destruct (Num.accepted A dist sol_new sol); intros H.
  - right. apply (num_VND_loop_mono _ fuel); [lia|].
    destruct (IH _ _ H) as [-> | H']; done.
  - destruct (IH _ _ H) as [-> | H']; [by left|right].
    apply (num_VND_loop_mono _ fuel); [lia|done].
Qed.

(** When the descent returns, the result of every neighbourhood of its
    list on the returned solution has failed the acceptance test. *)
Lemma num_VND_loop_settled use_or_opt demands capacity dist F fuel sol k r :
  fuel ≤ F →
  (∀ j nb, j < k → neighborhoods use_or_opt !! j = Some nb →
     ∃ s2, Num.run_neighborhood A nb F sol demands capacity dist = Some s2
           ∧ Num.accepted A dist s2 sol = false) →
  Num.VND_loop A use_or_opt fuel demands capacity dist (sol, k) = Some r →
  ∀ nb, nb ∈ neighborhoods use_or_opt →
    ∃ s2, Num.run_neighborhood A nb F r demands capacity dist = Some s2
          ∧ Num.accepted A dist s2 r = false.
Proof.
  revert sol k. induction fuel as [|fuel IH]; intros sol k HF Hrej; [done|].
  rewrite num_VND_loop_S. cbn [fst snd].
  destruct (k <? _) eqn:Ek.
  - destruct (Num.VND_step _ _ _ _ _ _ _) as [st'|] eqn:E; [|done].
    cbn [mbind option_bind].
    apply num_VND_step_cases in E as (nb & sol_new & Hnb & Hr & ->).
    destruct (Num.accepted A dist sol_new sol) eqn:Ea.
    + apply IH; [lia|]. intros j nb' Hj. lia.
    + apply IH; [lia|]. intros j nb' Hj Hnb'.
      destruct (decide (j = k)) as [->|Hne].
      * rewrite Hnb in Hnb'. injection Hnb' as <-. exists sol_new.
        split; [|done]. apply (num_run_neighborhood_mono A _ fuel); [lia|done].
      * apply (Hrej j); [lia|done].
  - intros [= <-] nb Hnb. apply Nat.ltb_ge in Ek.
    apply list_elem_of_lookup in Hnb as [j Hj].
    apply (Hrej j); [|done]. apply lookup_lt_Some in Hj. lia.
Qed.

End AnyArithmeticDescent.

(** A pass that sends each of two solutions to the other never stops. *)
Lemma improve_loop_cycle pass (s1 s2 : solution) :
  pass s1 = Some s2 → pass s2 = Some s1 →
  ∀ fuel, improve_loop pass fuel s1 = None.
Proof.
  intros H1 H2 fuel.
  cut (improve_loop pass fuel s1 = None ∧ improve_loop pass fuel s2 = None);
    [tauto|].
  induction fuel as [|fuel IH]; simpl; [done|]. rewrite H1, H2. tauto.
Qed.

(** The exact arithmetic gives the functions defined first. *)
Lemma exact_model :
  Num.solution_cost Num.exact = solution_cost
  ∧ Num.run_neighborhood Num.exact = run_neighborhood
  ∧ Num.VND Num.exact = VND.
Proof. repeat split. Qed.

Lemma far_cycle :
  Num.N1_pass Num.binary64 far_dist [[0; 1; 2; 3; 0]] = Some [[0; 2; 1; 3; 0]]
  ∧ Num.N1_pass Num.binary64 far_dist [[0; 2; 1; 3; 0]] = Some [[0; 1; 2; 3; 0]].
Proof. split; vm_compute; reflexivity. Qed.

Lemma far_descent_stuck (s : solution) use_or_opt fuel :
  s = [[0; 1; 2; 3; 0]] ∨ s = [[0; 2; 1; 3; 0]] →
  Num.VND Num.binary64 fuel s unit_demands 3 far_dist use_or_opt = None.
Proof.
  intros Hs. destruct fuel as [|fuel]; [done|].
  unfold Num.VND. rewrite num_VND_loop_S. cbn [fst snd].
  replace (0 <? length (neighborhoods use_or_opt)) with true
    by (by destruct use_or_opt).
  unfold Num.VND_step.
  replace (neighborhoods use_or_opt !! 0) with (Some NB_N1)
    by (by destruct use_or_opt).
  cbn [mbind option_bind].
  change (Num.run_neighborhood Num.binary64 NB_N1 fuel s unit_demands 3
            far_dist)
    with (improve_loop (Num.N1_pass Num.binary64 far_dist) fuel s).
  destruct far_cycle as [H1 H2].
  destruct Hs as [-> | ->].
  - by rewrite (improve_loop_cycle _ _ _ H1 H2 fuel).
  - by rewrite (improve_loop_cycle _ _ _ H2 H1 fuel).
Qed.

Lemma unit_instance_ok : instance_ok 4 unit_demands.
Proof. split; [reflexivity|]. unfold unit_demands. repeat constructor; done. Qed.

Lemma unit_feasible (sol : solution) :
  sol = [[0; 1; 2; 3; 0]] ∨ sol = [[0; 2; 1; 3; 0]] →
  feasible 4 unit_demands 3 sol.
Proof.
  intros [-> | ->]; (split; [|split]).
  - repeat constructor; simpl; lia.
  - reflexivity.
  - repeat constructor; vm_compute; discriminate.
  - repeat constructor; simpl; lia.
  - apply cnt_perm. intros x.
    do 4 (destruct x as [|x]; [reflexivity|]). reflexivity.
  - repeat constructor; vm_compute; discriminate.
Qed.

(** * The operators and the descent in double precision *)







(** C4 (as the code has it).  Whatever the arithmetic of the distances, when the descent
    returns a solution, the descent run on that solution returns it
    again, same routes in the same order, and what each neighbourhood of
    the list returns on it fails the acceptance test of the descent. *)
Theorem VND_idempotent (A : Num.arith) use_or_opt fuel demands capacity
    (dist : list (list (Num.num A))) (sol s1 : solution) :
  Num.VND A fuel sol demands capacity dist use_or_opt = Some s1 →
  (∀ fuel', fuel ≤ fuel' →
     Num.VND A fuel' s1 demands capacity dist use_or_opt = Some s1)
  ∧ ∀ nb, nb ∈ neighborhoods use_or_opt →
      ∃ s2,
        Num.run_neighborhood A nb fuel s1 demands capacity dist = Some s2
        ∧ Num.accepted A dist s2 s1 = false.
Proof.
  intros H. split.
  - intros fuel' Hle. unfold Num.VND in *.
    apply (num_VND_loop_mono A _ fuel); [done|].
    by destruct (num_VND_loop_again A _ _ _ _ _ _ _ _ H) as [-> | H'].
  - unfold Num.VND in H.
    apply (num_VND_loop_settled A use_or_opt demands capacity dist fuel fuel
             sol 0); [done| |done].
    intros j nb Hj. lia.
Qed.

Lemma VND_idempotent_witness :
  Num.VND Num.exact 30 [[0; 1; 2; 3; 0]; [0; 4; 0]; [0; 5; 0]] axis_demands
    axis_capacity axis_dist false
  = Some [[0; 1; 2; 0]; [0; 4; 0]; [0; 3; 5; 0]]
  ∧ Num.VND Num.exact 30 [[0; 1; 2; 0]; [0; 4; 0]; [0; 3; 5; 0]] axis_demands
      axis_capacity axis_dist false
    = Some [[0; 1; 2; 0]; [0; 4; 0]; [0; 3; 5; 0]].
Proof.
  assert (H : Num.VND Num.exact 30 [[0; 1; 2; 3; 0]; [0; 4; 0]; [0; 5; 0]]
                axis_demands axis_capacity axis_dist false
              = Some [[0; 1; 2; 0]; [0; 4; 0]; [0; 3; 5; 0]])
    by (vm_compute; reflexivity).
  split; [exact H|].
  exact (proj1 (VND_idempotent Num.exact false 30 axis_demands axis_capacity
                  axis_dist _ _ H) 30 (le_n 30)).
Defined.

(** C4 fails as stated.  In double precision the descent returns the
    feasible solution [[0, 2, 1, 3, 0]] of the instance with the customers
    at [2^52 - 0.5], [2^52] and [2^52 + 2] as it is, although N1, the
    first neighbourhood of its list, changes it into [[0, 1, 2, 3, 0]]:
    the delta of the move is computed as [-0.5], and the costs of the two
    solutions, 2^53 + 5 and 2^53 + 4, are both computed as 2^53 + 4, so
    that the descent rejects what N1 returns.  On the instance with the
    customers at [2^53 - 1], [2^53] and [2^53 - 2] the descent does not
    return at all. *)
Lemma VND_result_not_fixed_in_binary64 :
  feasible 4 unit_demands 3 [[0; 2; 1; 3; 0]]
  ∧ NB_N1 ∈ neighborhoods false
  ∧ (∀ fuel, 6 ≤ fuel →
       Num.VND Num.binary64 fuel [[0; 2; 1; 3; 0]] unit_demands 3 half_dist
         false = Some [[0; 2; 1; 3; 0]])
  ∧ (∀ fuel, 2 ≤ fuel →
       Num.run_neighborhood Num.binary64 NB_N1 fuel [[0; 2; 1; 3; 0]]
         unit_demands 3 half_dist = Some [[0; 1; 2; 3; 0]])
  ∧ [[0; 1; 2; 3; 0]] ≠ [[0; 2; 1; 3; 0]]
  ∧ ∀ fuel,
      Num.VND Num.binary64 fuel [[0; 2; 1; 3; 0]] unit_demands 3 far_dist
        false = None.
Proof.
  split; [apply unit_feasible; by right|]. split; [by left|].
  split; [|split; [|split; [done|]]].
  3: { intros fuel. apply far_descent_stuck. by right. }
  - intros fuel Hle. apply (num_VND_loop_mono Num.binary64 _ 6); [done|].
    vm_compute. reflexivity.
  - intros fuel Hle.
    apply (num_run_neighborhood_mono Num.binary64 _ 2); [done|].
    vm_compute. reflexivity.
Qed.

(** X4.  Each of N1 .. N6 stops at a solution that it leaves alone:
    whatever the arithmetic of the distances, the operator run again on a
    solution that it has returned returns that solution unchanged. *)
Theorem operators_are_idempotent (A : Num.arith) nb fuel demands capacity
    (dist : list (list (Num.num A))) (sol r : solution) :
  Num.run_neighborhood A nb fuel sol demands capacity dist = Some r →
  ∀ fuel', 1 ≤ fuel' →
    Num.run_neighborhood A nb fuel' r demands capacity dist = Some r.
Proof.
  rewrite num_run_neighborhood_loop. intros H fuel' Hf.
  rewrite num_run_neighborhood_loop.
  destruct fuel' as [|fuel']; [lia|].
  apply improve_loop_stable. by eapply improve_loop_fixpoint.
Qed.

Lemma operators_are_idempotent_witness :
  Num.run_neighborhood Num.binary64 NB_N1 2 [[0; 2; 1; 3; 0]] unit_demands 3
    half_dist = Some [[0; 1; 2; 3; 0]]
  ∧ Num.run_neighborhood Num.binary64 NB_N1 1 [[0; 1; 2; 3; 0]] unit_demands 3
      half_dist = Some [[0; 1; 2; 3; 0]].
Proof.
  assert (H : Num.run_neighborhood Num.binary64 NB_N1 2 [[0; 2; 1; 3; 0]]
                unit_demands 3 half_dist = Some [[0; 1; 2; 3; 0]])
    by (vm_compute; reflexivity).
  split; [exact H|].
  exact (operators_are_idempotent Num.binary64 NB_N1 2 unit_demands 3
           half_dist _ _ H 1 (le_n 1)).
Defined.

(** X23.  The descent keeps a feasible solution feasible whatever the
    arithmetic of the distances, double precision included: on an
    instance with non-negative demands, what [VND] returns on a feasible
    solution is feasible. *)
Theorem VND_preserves_feasibility_any_arithmetic (A : Num.arith) n demands
    capacity (dist : list (list (Num.num A))) use_or_opt fuel sol r :
  instance_ok n demands → feasible n demands capacity sol →
  Num.VND A fuel sol demands capacity dist use_or_opt = Some r →
  feasible n demands capacity r.
Proof.
  intros Hi Hf. unfold Num.VND.
  apply (num_VND_loop_invariant A (feasible n demands capacity)); [|done].
  intros nb fuel' s s' Hs. by apply num_run_neighborhood_feasible.
Qed.

Lemma VND_preserves_feasibility_any_arithmetic_witness :
  instance_ok 4 unit_demands
  ∧ feasible 4 unit_demands 3 [[0; 1; 2; 3; 0]]
  ∧ Num.VND Num.binary64 30 [[0; 1; 2; 3; 0]] unit_demands 3 half_dist true
    = Some [[0; 1; 2; 3; 0]]
  ∧ feasible 4 unit_demands 3 [[0; 1; 2; 3; 0]].
Proof.
  assert (Hf : feasible 4 unit_demands 3 [[0; 1; 2; 3; 0]])
    by (apply unit_feasible; by left).
  assert (H : Num.VND Num.binary64 30 [[0; 1; 2; 3; 0]] unit_demands 3
                half_dist true = Some [[0; 1; 2; 3; 0]])
    by (vm_compute; reflexivity).
  split; [exact unit_instance_ok|]. split; [exact Hf|]. split; [exact H|].
  exact (VND_preserves_feasibility_any_arithmetic Num.binary64 4 unit_demands
           3 half_dist true 30 _ _ unit_instance_ok Hf H).
Defined.

(** * The tabu list and the fallback of the construction *)

(** One insertion: the fingerprint goes to the end of the list, and a
    list that was full loses its first entry. *)
Lemma tabu_insert_fifo (tenure : nat) (tabu : list fingerprint) h :
  1 ≤ tenure → length tabu ≤ tenure →
  (length tabu < tenure ∧ tabu_insert tenure tabu h = tabu ++ [h])
  ∨ (length tabu = tenure
     ∧ ∃ oldest rest, tabu = oldest :: rest
                      ∧ tabu_insert tenure tabu h = rest ++ [h]).
Proof.
  intros Ht Hlen. unfold tabu_insert. rewrite length_app. simpl.
  destruct (tenure <? length tabu + 1) eqn:E.
  - apply Nat.ltb_lt in E. right. split; [lia|].
    destruct tabu as [|oldest rest]; [simpl in *; lia|].
    by exists oldest, rest.
  - apply Nat.ltb_ge in E. left. split; [lia|done].
Qed.

Lemma VNS_loop_tabu fuel n demands capacity dist use_or_opt max_iter
    max_time elapsed st st' :
  length (tabu_list st) ≤ tabu_tenure n →
  VNS_loop fuel n demands capacity dist use_or_opt max_iter max_time elapsed st
  = Some st' →
  length (tabu_list st') ≤ tabu_tenure n.
Proof.
  revert st. induction fuel as [|fuel IH]; intros st Hlen.
  - rewrite VNS_loop_0. destruct (_ && _); [done|]. by intros [= <-].
  - rewrite VNS_loop_S. destruct (_ && _); [|by intros [= <-]].
    destruct (VNS_body _ _ _ _ _ _ _) as [[st1 e]|] eqn:Eb; [|done].
    cbn [mbind option_bind].
    assert (H1 : length (tabu_list st1) ≤ tabu_tenure n).
    { destruct (VNS_body_tabu _ _ _ _ _ _ _ _ _ Eb) as [-> | [h ->]];
        [done|by apply tabu_insert_length]. }
    destruct e; [by apply IH..|]. by intros [= <-].
Qed.

(** C6. With [tenure = min(20, max(10, n // 20))], a turn of the main loop
    that starts with at most [tenure] fingerprints ends with at most
    [tenure] fingerprints, and so does the loop.  The list changes
    exactly in the turns that accept a solution: a tabu skip and a
    rejection leave it as it is, and an acceptance puts the fingerprint
    of the accepted solution at its end; when the list held [tenure]
    fingerprints before, it loses its first, that is its oldest,
    entry. *)
Theorem tabu_list_bounded fuel n demands capacity dist use_or_opt st st' e :
  length (tabu_list st) ≤ tabu_tenure n →
  VNS_body fuel n demands capacity dist use_or_opt st = Some (st', e) →
  tabu_tenure n = min TABU_TENURE_MAX (max TABU_TENURE_MIN (n / 20))
  ∧ length (tabu_list st') ≤ tabu_tenure n
  ∧ (∀ fuel' max_iter max_time elapsed st'',
       VNS_loop fuel' n demands capacity dist use_or_opt max_iter max_time
         elapsed st = Some st'' →
       length (tabu_list st'') ≤ tabu_tenure n)
  ∧ ∃ s_shaken g,
      shake ((k st - 1) mod 3) (best st) demands capacity (k st) (gen st)
      = (s_shaken, g)
      ∧ if bool_decide (_solution_hash s_shaken ∈ tabu_list st)
        then tabu_list st' = tabu_list st
        else
          ∃ s_local,
            VND fuel s_shaken demands capacity dist use_or_opt = Some s_local
            ∧ if Qlt_bool (solution_cost s_local dist) (best_cost st - EPS)
                 || (Qlt_bool (Qabs (solution_cost s_local dist - best_cost st))
                       EPS
                     && (length s_local <? length (best st)))
              then
                best st' = s_local
                ∧ ((length (tabu_list st) < tabu_tenure n
                    ∧ tabu_list st'
                      = tabu_list st ++ [_solution_hash s_local])
                   ∨ (length (tabu_list st) = tabu_tenure n
                      ∧ ∃ oldest rest,
                          tabu_list st = oldest :: rest
                          ∧ tabu_list st'
                            = rest ++ [_solution_hash s_local]))
              else tabu_list st' = tabu_list st.
Proof.
  intros Hlen Hbody. split; [done|]. split; [|split].
  - destruct (VNS_body_tabu _ _ _ _ _ _ _ _ _ Hbody) as [-> | [h ->]];
      [done|by apply tabu_insert_length].
  - intros fuel' max_iter max_time elapsed st''. by apply VNS_loop_tabu.
  - revert Hbody. unfold VNS_body.
    destruct (shake _ _ _ _ _ _) as [s_shaken g]. intros Hbody.
    exists s_shaken, g. split; [done|].
    case_bool_decide; [by injection Hbody as <- <-|].
    destruct (VND _ _ _ _ _ _) as [s_local|]; [|done].
    cbn [mbind option_bind] in Hbody. exists s_local. split; [done|].
    pose proof (tabu_tenure_bounds n) as Ht.
    destruct (_ || _);
      match type of Hbody with
      | (if ?c then _ else _) = _ => destruct c
      end; injection Hbody as <- <-; cbn [best tabu_list]; try done;
      (split; [done|]); apply tabu_insert_fifo; lia.
Qed.

Lemma tabu_list_bounded_witness :
  length (tabu_list axis_full) ≤ tabu_tenure 6
  ∧ VNS_body 30 6 axis_demands axis_capacity axis_dist false axis_full
    = Some (axis_full_second, TurnDone)
  ∧ tabu_list axis_full = [[100]] :: map (λ i, [[i]]) (seq 101 9)
  ∧ tabu_list axis_full_second
    = map (λ i, [[i]]) (seq 101 9) ++ [_solution_hash (best axis_full_second)]
  ∧ length (tabu_list axis_full_second) ≤ tabu_tenure 6.
Proof.
  assert (H1 : length (tabu_list axis_full) ≤ tabu_tenure 6)
    by (vm_compute; lia).
  assert (H2 : VNS_body 30 6 axis_demands axis_capacity axis_dist false
                 axis_full = Some (axis_full_second, TurnDone))
    by (vm_compute; reflexivity).
  split; [exact H1|]. split; [exact H2|].
  split; [reflexivity|]. split; [vm_compute; reflexivity|].
  exact (proj1 (proj2 (tabu_list_bounded _ _ _ _ _ _ _ _ _ H1 H2))).
Defined.


